(** * AutoSA hardware-module code generation: a shallow embedding

    This development embeds the module-generation pass of
    [src/autosa_codegen.cpp] and states its specification over the
    embedding.  The polyhedral library (isl) and the AutoSA helpers that
    live in other translation units are taken as an interface; every C
    function of [autosa_codegen.cpp] that is embedded keeps its name and
    its control flow. *)

From Stdlib Require Import ZArith List Bool String Ascii Lia Permutation.
From Stdlib Require Import DecimalString DecimalZ.
Import ListNotations.
Local Open Scope string_scope.
Local Open Scope list_scope.
Local Open Scope Z_scope.



(* ================================================================== *)
(** ** C conventions *)

(** [isl_bool] is the three-valued enum of isl; assigning it to an [int]
    gives -1, 0 or 1. *)
Inductive isl_bool := isl_bool_error | isl_bool_false | isl_bool_true.

Definition isl_bool_to_int (b : isl_bool) : Z :=
  match b with
  | isl_bool_error => -1
  | isl_bool_false => 0
  | isl_bool_true => 1
  end.

(** The truth value of an [int] used as a C condition. *)
Definition c_true (z : Z) : bool := negb (z =? 0).

(** Undefined behaviour of the C program is made explicit: a run either
    yields a value or stops at the first fault. *)
Inductive fault :=
| NullBufferDeref     (* [buf->...] with [buf == NULL] *)
| NullTileDeref       (* [buf->tile->...] with [buf->tile == NULL] *)
| OutOfBounds         (* array subscript outside the allocated object *)
| DivByZero
| NullModuleDeref     (* [module->...] with [module == NULL] *)
| UninitRead          (* read of an uninitialised automatic variable *)
| AssertFail          (* a failed [assert] *)
| UseAfterFree        (* read of a block after its [free] *)
| DoubleFree          (* [free] of a block after its [free] *)
| IntOverflow.        (* [INT_MIN / -1] *)

Inductive res (A : Type) :=
| Ok (a : A)
| Crash (f : fault).
Arguments Ok {A} a.
Arguments Crash {A} f.

Definition bind {A B} (r : res A) (k : A -> res B) : res B :=
  match r with
  | Ok a => k a
  | Crash f => Crash f
  end.

Declare Scope res_scope.
Delimit Scope res_scope with res.
Notation "x <- c ;; k" := (bind c (fun x => k))
  (at level 61, c at next level, right associativity) : res_scope.
Notation "' pat <- c ;; k" := (bind c (fun x => match x with pat => k end))
  (at level 61, pat pattern, c at next level, right associativity) : res_scope.
Local Open Scope res_scope.

(** NULL propagation of the isl API: an operation applied to a NULL
    argument returns NULL. *)
Definition lift1 {A B} (f : A -> option B) (a : option A) : option B :=
  match a with Some x => f x | None => None end.

Definition lift2 {A B C} (f : A -> B -> option C)
    (a : option A) (b : option B) : option C :=
  match a, b with Some x, Some y => f x y | _, _ => None end.

(** [for (i = lo; i < lo + n; i++) a = body(i, a);] *)
Fixpoint for_up {A} (n : nat) (i : Z) (body : Z -> A -> A) (a : A) : A :=
  match n with
  | O => a
  | S k => for_up k (i + 1) body (body i a)
  end.

(* ================================================================== *)
(** ** Enumerations of [autosa_common.h] *)

(** Modelled from the spec: the header declaring these enumerations is
    not part of the sources at hand; the constructors are the constants
    that [autosa_codegen.cpp] uses (group kind PE-local / I/O / drain,
    I/O kind interior / exterior, array kind, module kind PE / IO /
    DRAIN, direction flags NULL / IN / OUT / INOUT). *)
Inductive autosa_group_type :=
  AUTOSA_IO_GROUP | AUTOSA_PE_GROUP | AUTOSA_DRAIN_GROUP.
Inductive autosa_io_type := AUTOSA_INT_IO | AUTOSA_EXT_IO.
Inductive autosa_array_type := AUTOSA_EXT_ARRAY | AUTOSA_INT_ARRAY.
Inductive autosa_dep_type :=
  AUTOSA_DEP_RAW | AUTOSA_DEP_RAR | AUTOSA_DEP_WAR | AUTOSA_DEP_WAW.
Inductive autosa_io_dir := IO_NULL | IO_IN | IO_OUT | IO_INOUT.
Inductive autosa_module_type := PE_MODULE | IO_MODULE | DRAIN_MODULE.

Scheme Equality for autosa_group_type.
Scheme Equality for autosa_io_type.
Scheme Equality for autosa_array_type.
Scheme Equality for autosa_dep_type.
Scheme Equality for autosa_io_dir.
Scheme Equality for autosa_module_type.

(* ================================================================== *)
(** ** Vectors of isl *)

(** [isl_seq_cmp]: the first differing position decides. *)
Fixpoint isl_seq_cmp (v1 v2 : list Z) : Z :=
  match v1, v2 with
  | x :: r1, y :: r2 =>
      if x =? y then isl_seq_cmp r1 r2
      else if x <? y then -1 else 1
  | _, _ => 0
  end.

(** [isl_vec_cmp]: vectors of different size are ordered by size, vectors
    of equal size element by element; 0 means equal. *)
Definition isl_vec_cmp (v1 v2 : list Z) : Z :=
  if Z.of_nat (List.length v1) =? Z.of_nat (List.length v2)
  then isl_seq_cmp v1 v2
  else Z.of_nat (List.length v1) - Z.of_nat (List.length v2).

(* ================================================================== *)
(** ** Data model *)

(** [struct autosa_array_tile]: [bound[i].size] for [0 <= i < n], and the
    schedule depth at which the tile lives. *)
Record autosa_array_tile := {
  tile_n : Z;
  tile_bound : list Z;
  tile_depth : Z
}.

(** [struct autosa_io_buffer]; [tile] is a nullable pointer. *)
Record autosa_io_buffer := {
  buf_level : Z;
  buf_n_lane : Z;
  buf_tile : option autosa_array_tile
}.

(** [struct autosa_dep] / [struct autosa_io_info] / [struct
    autosa_stmt_access], restricted to the fields the pass reads.
    [ref_id] stands for the identity of the reference. *)
Record autosa_io_info := {
  info_io_type : autosa_io_type;
  info_dir : list Z;
  info_dep_type : autosa_dep_type;
  info_id : Z
}.

Record autosa_stmt_access := {
  ref_id : Z;
  ref_io_info : list autosa_io_info
}.

(** [struct autosa_array_ref_group].  [group_id] stands for the identity
    of the group (its address in the C program). *)
Record autosa_array_ref_group := {
  group_id : Z;
  array_name : string;
  nr : Z;
  group_type : autosa_group_type;
  io_type : autosa_io_type;
  dir : list Z;
  refs : list autosa_stmt_access;
  io_level : Z;
  space_dim : Z;
  n_lane : Z;
  io_buffers : list autosa_io_buffer;
  array_io_dir : autosa_io_dir;
  pe_io_dir : autosa_io_dir
}.

Definition set_array_io_dir (d : autosa_io_dir) (g : autosa_array_ref_group) :=
  {| group_id := group_id g; array_name := array_name g; nr := nr g;
     group_type := group_type g; io_type := io_type g; dir := dir g;
     refs := refs g; io_level := io_level g; space_dim := space_dim g;
     n_lane := n_lane g; io_buffers := io_buffers g;
     array_io_dir := d; pe_io_dir := pe_io_dir g |}.

Definition set_pe_io_dir (d : autosa_io_dir) (g : autosa_array_ref_group) :=
  {| group_id := group_id g; array_name := array_name g; nr := nr g;
     group_type := group_type g; io_type := io_type g; dir := dir g;
     refs := refs g; io_level := io_level g; space_dim := space_dim g;
     n_lane := n_lane g; io_buffers := io_buffers g;
     array_io_dir := array_io_dir g; pe_io_dir := d |}.

(** [struct autosa_local_array_info]: the array owns its I/O groups and
    its optional drain group; [group->local_array] points back to it. *)
Record autosa_local_array_info := {
  array_type : autosa_array_type;
  n_io_group_refs : Z;
  io_groups : list autosa_array_ref_group;
  drain_group : option autosa_array_ref_group
}.

Definition n_io_group (a : autosa_local_array_info) : Z :=
  Z.of_nat (List.length (io_groups a)).

(** The options of [kernel->options->autosa] read by the pass. *)
Record autosa_options := {
  credit_control : bool;
  two_level_buffer : bool;
  double_buffer : bool;
  insert_hls_dependence : bool
}.

(** What [isl_printer_print_str] and [isl_printer_print_int] append to
    a string printer; a name is the sequence of the calls that built it. *)
Inductive printed :=
| P_str (s : string)
| P_int (z : Z).

(** A transfer statement grafted into a module schedule: the call of
    [add_io_copies_stmt_acc] or [add_io_copies_stmt_tile] with its
    arguments, a zero-dimensional call statement, or a copy statement
    grafted at the PE level for a group (and a reference, for exterior
    I/O). *)
Inductive sched_stmt :=
| io_copies_stmt_acc (tile : option autosa_array_tile) (n_lane : Z)
    (read : bool) (stmt_name : list printed) (before : Z)
    (insert_dependence : bool)
| io_copies_stmt_tile (local_tile tile : option autosa_array_tile)
    (n_lane : Z) (read : bool) (stmt_name : list printed) (before : Z)
    (is_buffer : bool) (insert_dependence : bool)
| call_stmt (stmt_name : string)
| pe_copy_stmt (io_group : Z) (ref : option Z) (read : bool).

(** A module schedule, seen through the statements the pass grafts into
    its copy of the group's I/O schedule, in the order of the grafts. *)
Definition module_sched := list sched_stmt.

(** [struct autosa_kernel_var] of an I/O module: a register when the tile
    is NULL, a local array otherwise. *)
Record autosa_kernel_var := {
  var_tile : option autosa_array_tile;
  var_n_lane : Z
}.

(** [struct autosa_pe_dummy_module]; the group is named by its identity. *)
Record autosa_pe_dummy_module := {
  dummy_io_group : Z
}.

(** The band that the search from the node of the statement (or from
    its parent, under a SIMD loop) reaches first: its schedule depth,
    the number of its members and the array that
    [extract_band_upper_bounds] returns for it. *)
Record acc_band_info := {
  band_depth : Z;
  band_n_member : Z;
  band_ubs : list Z
}.

(** What [add_io_copies_stmt_acc_single] finds out about the node it is
    called on: whether it is a leaf, whether its statement is the
    statement of the reference ([id == id2]), the emptiness test of the
    communicated access, the result of [is_acc_stride_one_at_node] and
    the band found above the node, if there is one. *)
Record acc_visit := {
  acc_is_leaf : bool;
  acc_stmt_is_ref_stmt : bool;
  acc_access_is_empty : isl_bool;
  acc_stride_one : isl_bool;
  acc_band : option acc_band_info
}.

(** What [add_pe_ext_io_copies_stmt] finds out about the node it is
    called on: whether it is a leaf, whether [leaf_node_is_extended]
    holds, whether the statement of the leaf is the statement of the
    reference, and the emptiness test of the communicated access. *)
Record node_visit := {
  node_is_leaf : bool;
  leaf_is_extended : bool;
  stmt_is_ref_stmt : bool;
  comm_access_is_empty : isl_bool
}.

(** [struct autosa_hw_module]. *)
Record autosa_hw_module := {
  name : list printed;
  type : autosa_module_type;
  level : Z;
  is_filter : bool;
  is_buffer : bool;
  in_ : bool;
  to_pe : bool;
  to_mem : bool;
  credit : Z;
  n_array_ref : Z;
  boundary : bool;
  double_buffer_ : bool;
  data_pack_inter : Z;
  data_pack_intra : Z;
  module_io_groups : list Z;
  var : list autosa_kernel_var;
  sched : option module_sched;
  outer_sched : option module_sched;
  inter_sched : option module_sched;
  intra_sched : option module_sched;
  boundary_sched : option module_sched;
  boundary_outer_sched : option module_sched;
  boundary_inter_sched : option module_sched;
  pe_dummy_modules : list autosa_pe_dummy_module
}.

(** Assignments to the fields of a module: [set_f v m] is [m->f = v]. *)
Definition set_name v (m : autosa_hw_module) : autosa_hw_module :=
  let '(Build_autosa_hw_module _ a1 a2 a3 a4 a5 a6 a7 a8 a9 a10 a11 a12 a13
    a14 a15 a16 a17 a18 a19 a20 a21 a22 a23) := m in
  Build_autosa_hw_module v a1 a2 a3 a4 a5 a6 a7 a8 a9 a10 a11 a12 a13 a14
    a15 a16 a17 a18 a19 a20 a21 a22 a23.

Definition set_type v (m : autosa_hw_module) : autosa_hw_module :=
  let '(Build_autosa_hw_module a0 _ a2 a3 a4 a5 a6 a7 a8 a9 a10 a11 a12 a13
    a14 a15 a16 a17 a18 a19 a20 a21 a22 a23) := m in
  Build_autosa_hw_module a0 v a2 a3 a4 a5 a6 a7 a8 a9 a10 a11 a12 a13 a14
    a15 a16 a17 a18 a19 a20 a21 a22 a23.

Definition set_level v (m : autosa_hw_module) : autosa_hw_module :=
  let '(Build_autosa_hw_module a0 a1 _ a3 a4 a5 a6 a7 a8 a9 a10 a11 a12 a13
    a14 a15 a16 a17 a18 a19 a20 a21 a22 a23) := m in
  Build_autosa_hw_module a0 a1 v a3 a4 a5 a6 a7 a8 a9 a10 a11 a12 a13 a14
    a15 a16 a17 a18 a19 a20 a21 a22 a23.

Definition set_is_filter v (m : autosa_hw_module) : autosa_hw_module :=
  let '(Build_autosa_hw_module a0 a1 a2 _ a4 a5 a6 a7 a8 a9 a10 a11 a12 a13
    a14 a15 a16 a17 a18 a19 a20 a21 a22 a23) := m in
  Build_autosa_hw_module a0 a1 a2 v a4 a5 a6 a7 a8 a9 a10 a11 a12 a13 a14
    a15 a16 a17 a18 a19 a20 a21 a22 a23.

Definition set_is_buffer v (m : autosa_hw_module) : autosa_hw_module :=
  let '(Build_autosa_hw_module a0 a1 a2 a3 _ a5 a6 a7 a8 a9 a10 a11 a12 a13
    a14 a15 a16 a17 a18 a19 a20 a21 a22 a23) := m in
  Build_autosa_hw_module a0 a1 a2 a3 v a5 a6 a7 a8 a9 a10 a11 a12 a13 a14
    a15 a16 a17 a18 a19 a20 a21 a22 a23.

Definition set_in v (m : autosa_hw_module) : autosa_hw_module :=
  let '(Build_autosa_hw_module a0 a1 a2 a3 a4 _ a6 a7 a8 a9 a10 a11 a12 a13
    a14 a15 a16 a17 a18 a19 a20 a21 a22 a23) := m in
  Build_autosa_hw_module a0 a1 a2 a3 a4 v a6 a7 a8 a9 a10 a11 a12 a13 a14
    a15 a16 a17 a18 a19 a20 a21 a22 a23.

Definition set_to_pe v (m : autosa_hw_module) : autosa_hw_module :=
  let '(Build_autosa_hw_module a0 a1 a2 a3 a4 a5 _ a7 a8 a9 a10 a11 a12 a13
    a14 a15 a16 a17 a18 a19 a20 a21 a22 a23) := m in
  Build_autosa_hw_module a0 a1 a2 a3 a4 a5 v a7 a8 a9 a10 a11 a12 a13 a14
    a15 a16 a17 a18 a19 a20 a21 a22 a23.

Definition set_to_mem v (m : autosa_hw_module) : autosa_hw_module :=
  let '(Build_autosa_hw_module a0 a1 a2 a3 a4 a5 a6 _ a8 a9 a10 a11 a12 a13
    a14 a15 a16 a17 a18 a19 a20 a21 a22 a23) := m in
  Build_autosa_hw_module a0 a1 a2 a3 a4 a5 a6 v a8 a9 a10 a11 a12 a13 a14
    a15 a16 a17 a18 a19 a20 a21 a22 a23.

Definition set_credit v (m : autosa_hw_module) : autosa_hw_module :=
  let '(Build_autosa_hw_module a0 a1 a2 a3 a4 a5 a6 a7 _ a9 a10 a11 a12 a13
    a14 a15 a16 a17 a18 a19 a20 a21 a22 a23) := m in
  Build_autosa_hw_module a0 a1 a2 a3 a4 a5 a6 a7 v a9 a10 a11 a12 a13 a14
    a15 a16 a17 a18 a19 a20 a21 a22 a23.

Definition set_n_array_ref v (m : autosa_hw_module) : autosa_hw_module :=
  let '(Build_autosa_hw_module a0 a1 a2 a3 a4 a5 a6 a7 a8 _ a10 a11 a12 a13
    a14 a15 a16 a17 a18 a19 a20 a21 a22 a23) := m in
  Build_autosa_hw_module a0 a1 a2 a3 a4 a5 a6 a7 a8 v a10 a11 a12 a13 a14
    a15 a16 a17 a18 a19 a20 a21 a22 a23.

Definition set_boundary v (m : autosa_hw_module) : autosa_hw_module :=
  let '(Build_autosa_hw_module a0 a1 a2 a3 a4 a5 a6 a7 a8 a9 _ a11 a12 a13
    a14 a15 a16 a17 a18 a19 a20 a21 a22 a23) := m in
  Build_autosa_hw_module a0 a1 a2 a3 a4 a5 a6 a7 a8 a9 v a11 a12 a13 a14
    a15 a16 a17 a18 a19 a20 a21 a22 a23.

Definition set_double_buffer v (m : autosa_hw_module) : autosa_hw_module :=
  let '(Build_autosa_hw_module a0 a1 a2 a3 a4 a5 a6 a7 a8 a9 a10 _ a12 a13
    a14 a15 a16 a17 a18 a19 a20 a21 a22 a23) := m in
  Build_autosa_hw_module a0 a1 a2 a3 a4 a5 a6 a7 a8 a9 a10 v a12 a13 a14
    a15 a16 a17 a18 a19 a20 a21 a22 a23.

Definition set_data_pack_inter v (m : autosa_hw_module) : autosa_hw_module :=
  let '(Build_autosa_hw_module a0 a1 a2 a3 a4 a5 a6 a7 a8 a9 a10 a11 _ a13
    a14 a15 a16 a17 a18 a19 a20 a21 a22 a23) := m in
  Build_autosa_hw_module a0 a1 a2 a3 a4 a5 a6 a7 a8 a9 a10 a11 v a13 a14
    a15 a16 a17 a18 a19 a20 a21 a22 a23.

Definition set_data_pack_intra v (m : autosa_hw_module) : autosa_hw_module :=
  let '(Build_autosa_hw_module a0 a1 a2 a3 a4 a5 a6 a7 a8 a9 a10 a11 a12 _
    a14 a15 a16 a17 a18 a19 a20 a21 a22 a23) := m in
  Build_autosa_hw_module a0 a1 a2 a3 a4 a5 a6 a7 a8 a9 a10 a11 a12 v a14
    a15 a16 a17 a18 a19 a20 a21 a22 a23.

Definition set_module_io_groups v (m : autosa_hw_module) : autosa_hw_module :=
  let '(Build_autosa_hw_module a0 a1 a2 a3 a4 a5 a6 a7 a8 a9 a10 a11 a12
    a13 _ a15 a16 a17 a18 a19 a20 a21 a22 a23) := m in
  Build_autosa_hw_module a0 a1 a2 a3 a4 a5 a6 a7 a8 a9 a10 a11 a12 a13 v
    a15 a16 a17 a18 a19 a20 a21 a22 a23.

Definition set_var v (m : autosa_hw_module) : autosa_hw_module :=
  let '(Build_autosa_hw_module a0 a1 a2 a3 a4 a5 a6 a7 a8 a9 a10 a11 a12
    a13 a14 _ a16 a17 a18 a19 a20 a21 a22 a23) := m in
  Build_autosa_hw_module a0 a1 a2 a3 a4 a5 a6 a7 a8 a9 a10 a11 a12 a13 a14
    v a16 a17 a18 a19 a20 a21 a22 a23.

Definition set_sched v (m : autosa_hw_module) : autosa_hw_module :=
  let '(Build_autosa_hw_module a0 a1 a2 a3 a4 a5 a6 a7 a8 a9 a10 a11 a12
    a13 a14 a15 _ a17 a18 a19 a20 a21 a22 a23) := m in
  Build_autosa_hw_module a0 a1 a2 a3 a4 a5 a6 a7 a8 a9 a10 a11 a12 a13 a14
    a15 v a17 a18 a19 a20 a21 a22 a23.

Definition set_outer_sched v (m : autosa_hw_module) : autosa_hw_module :=
  let '(Build_autosa_hw_module a0 a1 a2 a3 a4 a5 a6 a7 a8 a9 a10 a11 a12
    a13 a14 a15 a16 _ a18 a19 a20 a21 a22 a23) := m in
  Build_autosa_hw_module a0 a1 a2 a3 a4 a5 a6 a7 a8 a9 a10 a11 a12 a13 a14
    a15 a16 v a18 a19 a20 a21 a22 a23.

Definition set_inter_sched v (m : autosa_hw_module) : autosa_hw_module :=
  let '(Build_autosa_hw_module a0 a1 a2 a3 a4 a5 a6 a7 a8 a9 a10 a11 a12
    a13 a14 a15 a16 a17 _ a19 a20 a21 a22 a23) := m in
  Build_autosa_hw_module a0 a1 a2 a3 a4 a5 a6 a7 a8 a9 a10 a11 a12 a13 a14
    a15 a16 a17 v a19 a20 a21 a22 a23.

Definition set_intra_sched v (m : autosa_hw_module) : autosa_hw_module :=
  let '(Build_autosa_hw_module a0 a1 a2 a3 a4 a5 a6 a7 a8 a9 a10 a11 a12
    a13 a14 a15 a16 a17 a18 _ a20 a21 a22 a23) := m in
  Build_autosa_hw_module a0 a1 a2 a3 a4 a5 a6 a7 a8 a9 a10 a11 a12 a13 a14
    a15 a16 a17 a18 v a20 a21 a22 a23.

Definition set_boundary_sched v (m : autosa_hw_module) : autosa_hw_module :=
  let '(Build_autosa_hw_module a0 a1 a2 a3 a4 a5 a6 a7 a8 a9 a10 a11 a12
    a13 a14 a15 a16 a17 a18 a19 _ a21 a22 a23) := m in
  Build_autosa_hw_module a0 a1 a2 a3 a4 a5 a6 a7 a8 a9 a10 a11 a12 a13 a14
    a15 a16 a17 a18 a19 v a21 a22 a23.

Definition set_boundary_outer_sched v (m : autosa_hw_module) :
    autosa_hw_module :=
  let '(Build_autosa_hw_module a0 a1 a2 a3 a4 a5 a6 a7 a8 a9 a10 a11 a12
    a13 a14 a15 a16 a17 a18 a19 a20 _ a22 a23) := m in
  Build_autosa_hw_module a0 a1 a2 a3 a4 a5 a6 a7 a8 a9 a10 a11 a12 a13 a14
    a15 a16 a17 a18 a19 a20 v a22 a23.

Definition set_boundary_inter_sched v (m : autosa_hw_module) :
    autosa_hw_module :=
  let '(Build_autosa_hw_module a0 a1 a2 a3 a4 a5 a6 a7 a8 a9 a10 a11 a12
    a13 a14 a15 a16 a17 a18 a19 a20 a21 _ a23) := m in
  Build_autosa_hw_module a0 a1 a2 a3 a4 a5 a6 a7 a8 a9 a10 a11 a12 a13 a14
    a15 a16 a17 a18 a19 a20 a21 v a23.

Definition set_pe_dummy_modules v (m : autosa_hw_module) : autosa_hw_module :=
  let '(Build_autosa_hw_module a0 a1 a2 a3 a4 a5 a6 a7 a8 a9 a10 a11 a12
    a13 a14 a15 a16 a17 a18 a19 a20 a21 a22 _) := m in
  Build_autosa_hw_module a0 a1 a2 a3 a4 a5 a6 a7 a8 a9 a10 a11 a12 a13 a14
    a15 a16 a17 a18 a19 a20 a21 a22 v.

(** Assignments to the fields of a local array. *)
Definition set_n_io_group_refs v (a : autosa_local_array_info) :=
  let '(Build_autosa_local_array_info a0 _ a2 a3) := a in
  Build_autosa_local_array_info a0 v a2 a3.

Definition set_io_groups v (a : autosa_local_array_info) :=
  let '(Build_autosa_local_array_info a0 a1 _ a3) := a in
  Build_autosa_local_array_info a0 a1 v a3.

Definition set_drain_group v (a : autosa_local_array_info) :=
  let '(Build_autosa_local_array_info a0 a1 a2 _) := a in
  Build_autosa_local_array_info a0 a1 a2 v.

(* ================================================================== *)
(** ** C strings and the string printer *)

(** A C string is held as the [string] of the bytes of its object
    without the terminating NUL that follows them.  The C library
    functions stop at the first NUL byte. *)
Definition NUL : ascii := "000"%char.

(** [*s], the first byte of the object that starts at [s]. *)
Definition cstr_head (s : string) : ascii :=
  match s with
  | String c _ => c
  | EmptyString => NUL
  end.

Fixpoint string_skip (n : nat) (s : string) : option string :=
  match n with
  | O => Some s
  | S k =>
      match s with
      | String _ s' => string_skip k s'
      | EmptyString => None
      end
  end.

(** [type + loc], read afterwards: index [length type] holds the
    terminator, an index beyond it lies outside the object. *)
Definition cstr_from (type : string) (loc : Z) : res string :=
  if loc <? 0 then Crash OutOfBounds
  else match string_skip (Z.to_nat loc) type with
       | Some s => Ok s
       | None => Crash OutOfBounds
       end.

(** [strlen]. *)
Fixpoint strlen (s : string) : nat :=
  match s with
  | EmptyString => O
  | String c s' => if (c =? NUL)%char then O else S (strlen s')
  end.

(** [sprintf(buf, "%s", s)] into [char buf[size]]: the bytes of [s] up
    to its terminator and a NUL are written; the result is the content
    of [buf]. *)
Fixpoint c_str (s : string) : string :=
  match s with
  | EmptyString => EmptyString
  | String c s' => if (c =? NUL)%char then EmptyString else String c (c_str s')
  end.

Definition sprintf_s (size : nat) (s : string) : res string :=
  if (strlen s <? size)%nat then Ok (c_str s) else Crash OutOfBounds.

(** [!prefixcmp(str, prefix)], [!suffixcmp(str, suffix)] and
    [!strcmp(a, b)].  [prefixcmp] and [suffixcmp] are defined in another
    file; they return 0 exactly when [str] starts (ends) with the other
    string, and the code only tests their result against 0. *)
Fixpoint has_prefix (str prefix : string) : bool :=
  match prefix with
  | EmptyString => true
  | String p prefix' =>
      match str with
      | EmptyString => false
      | String c str' => (c =? p)%char && has_prefix str' prefix'
      end
  end.

Definition has_suffix (str suffix : string) : bool :=
  (String.length suffix <=? String.length str)%nat
  && match string_skip (String.length str - String.length suffix) str with
     | Some s => String.eqb s suffix
     | None => false
     end.

(** [isspace] in the C locale. *)
Definition isspace (c : ascii) : bool :=
  let n := Z.of_N (N_of_ascii c) in
  (n =? 32) || ((9 <=? n) && (n <=? 13)).

Fixpoint skip_spaces (s : string) : string :=
  match s with
  | String c s' => if isspace c then skip_spaces s' else s
  | EmptyString => s
  end.

Definition digit_of (c : ascii) : option Z :=
  let n := Z.of_N (N_of_ascii c) in
  if (48 <=? n) && (n <=? 57) then Some (n - 48) else None.

Fixpoint strtol_digits (s : string) (acc : Z) : Z :=
  match s with
  | String c s' =>
      match digit_of c with
      | Some d => strtol_digits s' (10 * acc + d)
      | None => acc
      end
  | EmptyString => acc
  end.

(** [strtol(nptr, NULL, 10)] for a 64-bit [long]: white space, an
    optional sign, the longest run of decimal digits; a value outside
    the range of [long] is replaced by the nearest bound. *)
Definition strtol (nptr : string) : Z :=
  let s := skip_spaces nptr in
  let '(neg, s) :=
    match s with
    | String "-"%char s' => (true, s')
    | String "+"%char s' => (false, s')
    | _ => (false, s)
    end in
  let v := strtol_digits s 0 in
  let v := if neg then - v else v in
  Z.max (-9223372036854775808) (Z.min 9223372036854775807 v).

(** The conversion of a [long] to [int]. *)
Definition int_of_long (z : Z) : Z :=
  (z + 2147483648) mod 4294967296 - 2147483648.

(** [atoi(nptr)], which the C library computes as
    [(int) strtol(nptr, NULL, 10)]. *)
Definition atoi (nptr : string) : Z := int_of_long (strtol nptr).

(** What [isl_printer_print_int] appends for an [int]: its decimal
    representation, as [printf("%d")] writes it. *)
Definition print_int (z : Z) : string :=
  NilZero.string_of_int (Z.to_int z).

(** [isl_printer_get_str] for a string printer: the concatenation of
    what was printed. *)
Fixpoint isl_printer_get_str (p : list printed) : string :=
  match p with
  | [] => EmptyString
  | P_str s :: p' => s ++ isl_printer_get_str p'
  | P_int z :: p' => print_int z ++ isl_printer_get_str p'
  end.

(** [autosa_create_io_access_stmt] (lines 681-713): the name of the
    tuple identifier of the statement, copied through
    [char buf[100]; sprintf(buf, "%s", stmt_name);]. *)
Definition autosa_create_io_access_stmt (stmt_name : string) : res string :=
  sprintf_s 100 stmt_name.

(* ================================================================== *)
(** ** The polyhedral library *)

(** The object types of isl.  A C pointer to one of them is an [option]:
    [None] is NULL, the error value of the library. *)
Class IslTypes := {
  isl_schedule_node : Type;
  isl_schedule : Type;
  isl_union_map : Type;
  isl_union_set : Type;
  isl_set : Type;
  isl_map : Type;
  isl_space : Type;
  isl_union_pw_multi_aff : Type
}.

Section Kernel.
Context {Ty : IslTypes}.

(** [struct ppcg_scop], [struct autosa_prog], [struct autosa_kernel]. *)
Record ppcg_scop := {
  tagger : option isl_union_pw_multi_aff;
  tagged_dep_flow : option isl_union_map;
  context : option isl_set
}.

Record autosa_prog := { scop : ppcg_scop }.

Record autosa_kernel := {
  prog : autosa_prog;
  core : option isl_union_set;
  contraction : option isl_union_pw_multi_aff;
  array : list autosa_local_array_info;
  options : autosa_options
}.

Definition set_array (v : list autosa_local_array_info) (k : autosa_kernel) :=
  {| prog := prog k; core := core k; contraction := contraction k;
     array := v; options := options k |}.

End Kernel.

(** The operations of isl on valid (non-NULL) objects, and the AutoSA
    helpers defined in other translation units
    ([autosa_schedule_tree.cpp], [autosa_comm.cpp]).  An isl operation may
    fail on valid arguments (space mismatch, exhausted quota): it then
    returns [None], or [isl_bool_error] for a test. *)
Class IslOps {Ty : IslTypes} := {
  node_get_schedule_depth : isl_schedule_node -> Z;
  node_get_prefix_schedule_relation : isl_schedule_node -> option isl_union_map;
  um_preimage_domain_upma :
    isl_union_map -> isl_union_pw_multi_aff -> option isl_union_map;
  um_domain : isl_union_map -> option isl_union_set;
  um_range : isl_union_map -> option isl_union_set;
  upma_intersect_domain :
    isl_union_pw_multi_aff -> isl_union_set -> option isl_union_pw_multi_aff;
  set_from_union_set : isl_union_set -> option isl_set;
  set_dim_set : isl_set -> Z;
  set_identity : isl_set -> option isl_map;
  map_get_space : isl_map -> option isl_space;
  map_lex_lt_first : isl_space -> Z -> option isl_map;
  map_equate_in_out : isl_map -> Z -> Z -> option isl_map;
  map_intersect_domain : isl_map -> isl_set -> option isl_map;
  map_intersect_range : isl_map -> isl_set -> option isl_map;
  map_lexmin : isl_map -> option isl_map;
  um_from_map : isl_map -> option isl_union_map;
  um_apply_range : isl_union_map -> isl_union_map -> option isl_union_map;
  um_reverse : isl_union_map -> option isl_union_map;
  um_intersect : isl_union_map -> isl_union_map -> option isl_union_map;
  um_subtract : isl_union_map -> isl_union_map -> option isl_union_map;
  um_is_empty : isl_union_map -> isl_bool;
  um_universe : isl_union_map -> option isl_union_map;
  um_intersect_domain : isl_union_map -> isl_union_set -> option isl_union_map;
  um_intersect_range : isl_union_map -> isl_union_set -> option isl_union_map;
  um_intersect_params : isl_union_map -> isl_set -> option isl_union_map;
  um_wrap : isl_union_map -> option isl_union_set;
  uset_universe : isl_union_set -> option isl_union_set;
  uset_unwrap : isl_union_set -> option isl_union_map;

  autosa_tree_move_down_to_array :
    option isl_schedule_node -> option isl_union_set -> option isl_schedule_node;
  autosa_tree_move_down_to_pe :
    option isl_schedule_node -> option isl_union_set -> option isl_schedule_node;
  autosa_io_group_access_relation :
    autosa_array_ref_group -> bool -> bool -> option isl_union_map;
  group_tagged_access_relation :
    autosa_array_ref_group -> option isl_union_map;
  remove_local_accesses_group_flow :
    autosa_kernel -> autosa_array_ref_group -> option isl_union_map ->
    option isl_union_map -> bool -> option isl_union_map;
  wrapped_reference_to_access :
    option isl_union_set -> option isl_union_map -> option isl_union_map;
  autosa_tree_move_down_to_kernel :
    option isl_schedule_node -> option isl_schedule_node;
  autosa_tree_move_up_to_kernel :
    option isl_schedule_node -> option isl_schedule_node;
  isl_schedule_node_parent :
    option isl_schedule_node -> option isl_schedule_node;

  (** [isl_schedule_get_root(group->io_schedule)]. *)
  io_schedule_root : autosa_array_ref_group -> option isl_schedule_node;
  (** [autosa_hw_module_alloc]: the freshly allocated module. *)
  autosa_hw_module_alloc : autosa_hw_module;
  (** The name printed by [autosa_array_ref_group_print_fifo_name]. *)
  fifo_name : autosa_array_ref_group -> string;
  (** Schedule depth of the cursor of a module schedule of the group:
      at the I/O mark of a level, at the parent and at the child of that
      mark, and after
      [autosa_tree_move_down_to_depth] to a given depth. *)
  io_mark_depth : autosa_array_ref_group -> Z -> Z;
  io_mark_parent_depth : autosa_array_ref_group -> Z -> Z;
  io_mark_child_depth : autosa_array_ref_group -> Z -> Z;
  move_down_to_depth_depth : autosa_array_ref_group -> Z -> Z;
  (** The tests of the credit analysis on one dependence of the group:
      is the dependence, mapped to the array-partition band, empty; is it
      contained in the identity on that band. *)
  dep_sched_is_empty : autosa_array_ref_group -> autosa_io_info -> isl_bool;
  dep_sched_is_parallel : autosa_array_ref_group -> autosa_io_info -> isl_bool;
  (** The nodes of the PE subtree in the order in which
      [isl_schedule_node_map_descendant_bottom_up] hands them to
      [add_pe_ext_io_copies_stmt] for a group, a reference and a
      direction, each with the outcome of the tests the callback makes. *)
  pe_subtree_visits :
    autosa_array_ref_group -> autosa_stmt_access -> bool -> list node_visit;
  (** [isl_union_map_is_empty(io_comm_access(kernel, node, group, read))]
      at the PE mark. *)
  int_io_comm_access_empty : autosa_array_ref_group -> bool -> isl_bool;
  (** The nodes under the cursor of the schedule of a module in the
      order in which [isl_schedule_node_map_descendant_bottom_up] hands
      them to [add_io_copies_stmt_acc_single], for a group, the schedule
      depth of the cursor, the index of a reference of the group and a
      direction, each with the outcome of the tests the callback
      makes. *)
  io_subtree_visits :
    autosa_hw_module -> autosa_array_ref_group -> Z -> nat -> bool ->
    list acc_visit;
  (** [isl_union_map_is_empty(io_comm_access(kernel, node, group, read))]
      at the cursor of the schedule of a module. *)
  io_comm_access_empty :
    autosa_hw_module -> autosa_array_ref_group -> Z -> bool -> isl_bool
}.

Section Overlap.
Context {Ty : IslTypes} {Ops : IslOps}.

(** The isl entry points the pass calls, with NULL propagated. *)
Definition isl_schedule_node_get_schedule_depth (n : option isl_schedule_node) : Z :=
  match n with Some n => node_get_schedule_depth n | None => -1 end.
Definition isl_schedule_node_get_prefix_schedule_relation :=
  lift1 node_get_prefix_schedule_relation.
Definition isl_union_map_preimage_domain_union_pw_multi_aff :=
  lift2 um_preimage_domain_upma.
Definition isl_union_map_domain := lift1 um_domain.
Definition isl_union_map_range := lift1 um_range.
Definition isl_union_pw_multi_aff_intersect_domain := lift2 upma_intersect_domain.
Definition isl_set_from_union_set := lift1 set_from_union_set.
Definition isl_set_dim_set (s : option isl_set) : Z :=
  match s with Some s => set_dim_set s | None => -1 end.
Definition isl_set_identity := lift1 set_identity.
Definition isl_map_get_space := lift1 map_get_space.
Definition isl_map_lex_lt_first (sp : option isl_space) (n : Z) :=
  lift1 (fun s => map_lex_lt_first s n) sp.
Definition isl_map_equate_in_out (m : option isl_map) (i j : Z) :=
  lift1 (fun m => map_equate_in_out m i j) m.
Definition isl_map_intersect_domain := lift2 map_intersect_domain.
Definition isl_map_intersect_range := lift2 map_intersect_range.
Definition isl_map_lexmin := lift1 map_lexmin.
Definition isl_union_map_from_map := lift1 um_from_map.
Definition isl_union_map_apply_range := lift2 um_apply_range.
Definition isl_union_map_reverse := lift1 um_reverse.
Definition isl_union_map_intersect := lift2 um_intersect.
Definition isl_union_map_subtract := lift2 um_subtract.
Definition isl_union_map_is_empty (m : option isl_union_map) : isl_bool :=
  match m with Some m => um_is_empty m | None => isl_bool_error end.
Definition isl_union_map_universe := lift1 um_universe.
Definition isl_union_map_intersect_domain := lift2 um_intersect_domain.
Definition isl_union_map_intersect_range := lift2 um_intersect_range.
Definition isl_union_map_intersect_params := lift2 um_intersect_params.
Definition isl_union_map_wrap := lift1 um_wrap.
Definition isl_union_set_universe := lift1 uset_universe.
Definition isl_union_set_unwrap := lift1 uset_unwrap.
(** [isl_union_map_free] releases its argument and returns NULL. *)
Definition isl_union_map_free (m : option isl_union_map) : option isl_union_map :=
  None.

(** The value of [external] that [internal_group_in_out_overlap]
    intersects [access] with (lines 36-131): [empty] is the result of the
    first emptiness test, on [overlap]. *)
Definition overlap_external (node : option isl_schedule_node)
    (kernel : autosa_kernel) (group : autosa_array_ref_group) (read : bool)
  : option isl_union_map * option isl_union_map * Z :=
  let prog := prog kernel in
  let node := autosa_tree_move_down_to_array node (core kernel) in
  let array_depth := isl_schedule_node_get_schedule_depth node in
  let node := autosa_tree_move_down_to_pe node (core kernel) in
  let pe_depth := isl_schedule_node_get_schedule_depth node in
  let prefix := isl_schedule_node_get_prefix_schedule_relation node in
  let prefix := isl_union_map_preimage_domain_union_pw_multi_aff prefix
                  (contraction kernel) in
  let access := autosa_io_group_access_relation group read (negb read) in
  let tagged := group_tagged_access_relation group in
  (* Remove the local dependency first. *)
  let access := remove_local_accesses_group_flow kernel group access prefix read in
  let tagger := tagger (scop prog) in
  let domain := isl_union_map_domain tagged in
  let tagger := isl_union_pw_multi_aff_intersect_domain tagger domain in
  let prefix := isl_union_map_preimage_domain_union_pw_multi_aff prefix tagger in
  let prefix_range := isl_set_from_union_set (isl_union_map_range prefix) in
  let n_sched_dim := isl_set_dim_set prefix_range in
  let sched_identity := isl_set_identity prefix_range in
  let lt := isl_map_lex_lt_first (isl_map_get_space sched_identity) array_depth in
  (* Set the space dims equal. *)
  let lt := for_up (Z.to_nat (n_sched_dim - array_depth)) array_depth
              (fun i lt => isl_map_equate_in_out lt i i) lt in
  let lt := isl_map_intersect_domain lt prefix_range in
  let lt := isl_map_intersect_range lt prefix_range in
  let lt := isl_map_lexmin lt in
  let overlap := isl_union_map_apply_range prefix (isl_union_map_from_map lt) in
  let overlap := isl_union_map_apply_range overlap (isl_union_map_reverse prefix) in
  (* Derive the overlapping set. *)
  let overlap := isl_union_map_intersect overlap (tagged_dep_flow (scop prog)) in
  let empty := isl_bool_to_int (isl_union_map_is_empty overlap) in
  let external := tagged_dep_flow (scop prog) in
  let universe := isl_union_map_universe access in
  let access_domain := isl_union_map_domain universe in
  let domain := isl_union_set_universe domain in
  let universe := isl_union_set_unwrap domain in
  let universe := isl_union_map_intersect_domain universe access_domain in
  let domain := isl_union_map_wrap universe in
  let external :=
    if read then isl_union_map_intersect_range external domain
    else isl_union_map_intersect_domain external domain in
  let external := isl_union_map_intersect_params external (context (scop prog)) in
  let external := isl_union_map_subtract external overlap in
  let external :=
    if read then
      let tag_set := isl_union_map_range external in
      wrapped_reference_to_access tag_set tagged
    else
      let tag_set := isl_union_map_domain external in
      wrapped_reference_to_access tag_set tagged in
  let external :=
    if empty <? 0 then isl_union_map_free external
    else if c_true empty then isl_union_map_universe external
    else external in
  (access, external, empty).

(** [internal_group_in_out_overlap] (lines 31-141). *)
Definition internal_group_in_out_overlap (node : option isl_schedule_node)
    (kernel : autosa_kernel) (group : autosa_array_ref_group) (read : bool)
  : isl_bool :=
  let '(access, external, _) := overlap_external node kernel group read in
  let access := isl_union_map_intersect access external in
  let empty := isl_bool_to_int (isl_union_map_is_empty access) in
  if c_true empty then isl_bool_true else isl_bool_false.

(** The loops of [is_module_valid] (lines 160-171).  The [break] leaves
    the loop over [io_info] only; the loop over the references goes on. *)
Fixpoint is_module_valid_io_info (group : autosa_array_ref_group)
    (io_info : list autosa_io_info) (external_group : Z) : Z :=
  match io_info with
  | [] => external_group
  | info :: rest =>
      if autosa_io_type_beq (info_io_type info) (io_type group)
         && negb (c_true (isl_vec_cmp (info_dir info) (dir group)))
      then
        if negb (autosa_dep_type_beq (info_dep_type info) AUTOSA_DEP_RAR)
        then 0 (* external_group = 0; break; *)
        else is_module_valid_io_info group rest external_group
      else is_module_valid_io_info group rest external_group
  end.

Fixpoint is_module_valid_refs (group : autosa_array_ref_group)
    (rs : list autosa_stmt_access) (external_group : Z) : Z :=
  match rs with
  | [] => external_group
  | ref :: rest =>
      is_module_valid_refs group rest
        (is_module_valid_io_info group (ref_io_info ref) external_group)
  end.

(** [is_module_valid] (lines 149-185). *)
Definition is_module_valid (node : option isl_schedule_node)
    (kernel : autosa_kernel) (group : autosa_array_ref_group) (read : bool)
  : isl_bool :=
  if autosa_group_type_beq (group_type group) AUTOSA_PE_GROUP
  then isl_bool_true
  else
    let external_group := is_module_valid_refs group (refs group) 1 in
    if c_true external_group then
      if read then isl_bool_true else isl_bool_false
    else
      if c_true (isl_bool_to_int
                   (internal_group_in_out_overlap node kernel group read))
      then isl_bool_false
      else isl_bool_true.

End Overlap.

(* ================================================================== *)
(** ** I/O module schedules *)

Section ModuleGen.
Context {Ty : IslTypes} {Ops : IslOps}.

(** [a[i]] for an array of [length l] elements. *)
Definition array_get {A} (l : list A) (i : Z) : res A :=
  if i <? 0 then Crash OutOfBounds
  else match nth_error l (Z.to_nat i) with
       | Some a => Ok a
       | None => Crash OutOfBounds
       end.

Definition deref_buf (buf : option autosa_io_buffer) : res autosa_io_buffer :=
  match buf with Some b => Ok b | None => Crash NullBufferDeref end.

Definition deref_tile (tile : option autosa_array_tile) : res autosa_array_tile :=
  match tile with Some t => Ok t | None => Crash NullTileDeref end.

(** The buffer scan
    [for (i = start; i >= 1; i--) {
       buf = group->io_buffers[i - 1];
       if (buf->tile != NULL) break; }]
    returns the final values of [i] and [buf]. *)
Fixpoint locate_buffer_loop (bufs : list autosa_io_buffer) (i : nat)
    (buf : option autosa_io_buffer) : res (Z * option autosa_io_buffer) :=
  match i with
  | O => Ok (0, buf)
  | S k =>
      b <- array_get bufs (Z.of_nat (S k) - 1) ;;
      match buf_tile b with
      | Some _ => Ok (Z.of_nat (S k), Some b)
      | None => locate_buffer_loop bufs k (Some b)
      end
  end.

Definition locate_buffer (group : autosa_array_ref_group) (start : Z)
    (buf : option autosa_io_buffer) : res (Z * option autosa_io_buffer) :=
  if start <? 1 then Ok (start, buf)
  else locate_buffer_loop (io_buffers group) (Z.to_nat start) buf.

(** [if (is_buffer) { if (i != io_level) is_buffer = 0; }] *)
Definition degrade_is_buffer (is_buffer : bool) (i io_level : Z) : bool :=
  if is_buffer then (if negb (i =? io_level) then false else is_buffer)
  else is_buffer.

(** The coalesce loop depth and bound of a tile transfer:
    [coalesce_depth = isl_schedule_node_get_schedule_depth(node)
                      + tile->n - 1;
     coalesce_bound_val = tile->bound[tile->n - 1].size;
     coalesce_bound = isl_val_get_num_si(coalesce_bound_val) / n_lane;
     if (coalesce_bound <= 1) coalesce_depth = -1;]
    The result is the pair [(coalesce_depth, coalesce_bound)]. *)
Definition coalesce (depth : Z) (tile : autosa_array_tile) (n_lane : Z)
  : res (Z * Z) :=
  let coalesce_depth := depth + tile_n tile - 1 in
  coalesce_bound_val <- array_get (tile_bound tile) (tile_n tile - 1) ;;
  if n_lane =? 0 then Crash DivByZero
  else
    let coalesce_bound := int_of_long (Z.quot coalesce_bound_val n_lane) in
    let coalesce_depth := if coalesce_bound <=? 1 then -1 else coalesce_depth in
    Ok (coalesce_depth, coalesce_bound).

(** The head of the name of an inter-level transfer statement:
    [in_trans/out_trans][_dram][_boundary].fifo_suffix[_local].
    is_filter.is_buffer.(depth-1).(space_dim-io_level).n_lane *)
Definition trans_stmt_head (read to_mem boundary : bool) (fifo_suffix : string)
    (is_filter is_buffer : bool) (depth space_dim io_level n_lane : Z)
  : list printed :=
  [P_str (if read then "in_trans" else "out_trans")]
  ++ (if to_mem then [P_str "_dram"] else [])
  ++ (if boundary then [P_str "_boundary"] else [])
  ++ [P_str "."; P_str fifo_suffix]
  ++ (if to_mem then [P_str "_local"] else [])
  ++ [P_str (if negb is_filter then ".0" else ".1");
      P_str (if negb is_buffer then ".0" else ".1");
      P_str "."; P_int (depth - 1);
      P_str "."; P_int (space_dim - io_level);
      P_str "."; P_int n_lane].

(** The head of the name of the transfer statement towards the lower
    level: [out_trans./in_trans.]fifo_suffix_local.0.is_buffer.-1.-1.n_lane *)
Definition local_stmt_head (read : bool) (fifo_suffix : string)
    (is_buffer : bool) (n_lane : Z) : list printed :=
  [P_str (if read then "out_trans." else "in_trans.");
   P_str fifo_suffix; P_str "_local";
   P_str ".0";
   P_str (if negb is_buffer then ".0" else ".1");
   P_str ".-1"; P_str ".-1";
   P_str "."; P_int n_lane].

Definition coalesce_suffix (cd : Z * Z) : list printed :=
  [P_str "."; P_int (fst cd); P_str "."; P_int (snd cd)].

Definition before_of (read : bool) : Z := if read then 1 else 0.

(** [create_io_module_vars] (lines 1747-1760) with
    [create_io_module_var]: one variable, a register for a NULL tile. *)
Definition create_io_module_vars (module : autosa_hw_module)
    (tile : option autosa_array_tile) : autosa_hw_module :=
  set_var [ {| var_tile := tile; var_n_lane := data_pack_inter module |} ] module.

(** The module information both schedule builders record when
    [boundary] is 0. *)
Definition module_type_of (group : autosa_array_ref_group) : autosa_module_type :=
  if autosa_group_type_beq (group_type group) AUTOSA_DRAIN_GROUP
  then DRAIN_MODULE else IO_MODULE.

(** *** The copy statements of a transfer

    [add_io_copies_stmt_acc] grafts one copy statement for each access
    of the group, [add_io_copies_stmt_tile] one for a whole tile.  Both
    receive the statement name as a block they own. *)

(** The block that [isl_printer_get_str] allocates for a statement
    name, and what [free] leaves of it. *)
Inductive name_block :=
| block_live (s : string)
| block_freed.

Definition read_block (b : name_block) : res string :=
  match b with
  | block_live s => Ok s
  | block_freed => Crash UseAfterFree
  end.

Definition free_block (b : name_block) : res name_block :=
  match b with
  | block_live _ => Ok block_freed
  | block_freed => Crash DoubleFree
  end.

(** [a / b] on [int]. *)
Definition int_div (a b : Z) : res Z :=
  if b =? 0 then Crash DivByZero
  else if (a =? -2147483648) && (b =? -1) then Crash IntOverflow
  else Ok (Z.quot a b).

(** The cursor of the schedule ([false]: NULL), the block of
    [data->stmt_name] and the names of the statements created by
    [autosa_create_io_access_stmt] so far. *)
Definition acc_state : Type := bool * name_block * list string.

(** [add_io_copies_stmt_acc_single] (lines 752-1012).  The local
    pointer [stmt_name] is either [data->stmt_name] or the string
    printed for the dependence mark. *)
Definition add_io_copies_stmt_acc_single (n_lane : Z)
    (insert_dependence : bool) (v : acc_visit) (st : acc_state)
  : res acc_state :=
  let '(node, block, grafts) := st in
  if negb (acc_is_leaf v) then Ok st
  else if negb (acc_stmt_is_ref_stmt v) then Ok st
  else
    let empty := isl_bool_to_int (acc_access_is_empty v) in
    if (empty <? 0) || c_true empty then
      if empty <? 0 then Ok (false, block, grafts) else Ok st
    else
      (* Update the stmt_name. *)
      upd <- (if insert_dependence then
                if c_true (isl_bool_to_int (acc_stride_one v)) then
                  match acc_band v with
                  | Some band =>
                      ub <- array_get (band_ubs band)
                              (band_n_member band - 1) ;;
                      q <- int_div ub n_lane ;;
                      if q >? 1 then
                        let coalesce_depth := band_depth band - 1 in
                        q' <- int_div ub n_lane ;;
                        let coalesce_bound := q' in
                        s <- read_block block ;;
                        let p_str :=
                          [P_str s; P_str "."; P_int coalesce_depth;
                           P_str "."; P_int coalesce_bound] in
                        block' <- free_block block ;;
                        Ok (block', Some (isl_printer_get_str p_str))
                      else Ok (block, None)
                  | None => Ok (block, None)
                  end
                else Ok (block, None)
              else Ok (block, None)) ;;
      match snd upd with
      | Some stmt_name =>
          from_access <- autosa_create_io_access_stmt stmt_name ;;
          (* free(stmt_name): the string printed above *)
          Ok (node, fst upd, grafts ++ [from_access])
      | None =>
          stmt_name <- read_block (fst upd) ;;
          from_access <- autosa_create_io_access_stmt stmt_name ;;
          block' <- free_block (fst upd) ;;
          Ok (node, block', grafts ++ [from_access])
      end.

(** [isl_schedule_node_map_descendant_bottom_up] with this callback: it
    is run on the nodes in turn, until the cursor is NULL. *)
Fixpoint map_descendant_bottom_up_acc
    (f : acc_visit -> acc_state -> res acc_state)
    (visits : list acc_visit) (st : acc_state) : res acc_state :=
  match visits with
  | [] => Ok st
  | v :: rest =>
      if fst (fst st)
      then st' <- f v st ;; map_descendant_bottom_up_acc f rest st'
      else Ok st
  end.

(** The loop over the references of the group, [traversals] holding the
    nodes visited for each of them. *)
Fixpoint add_io_copies_stmt_acc_refs
    (f : acc_visit -> acc_state -> res acc_state)
    (traversals : list (list acc_visit)) (st : acc_state)
  : res acc_state :=
  match traversals with
  | [] => Ok st
  | visits :: rest =>
      st' <- map_descendant_bottom_up_acc f visits st ;;
      add_io_copies_stmt_acc_refs f rest st'
  end.

(** [add_io_copies_stmt_acc] (lines 1024-1047); [group->n_ref] is the
    number of traversals. *)
Definition add_io_copies_stmt_acc (node : bool)
    (traversals : list (list acc_visit)) (n_lane : Z) (stmt_name : string)
    (insert_dependence : bool) : res acc_state :=
  let n_ref := Z.of_nat (List.length traversals) in
  let insert_dependence := insert_dependence && (n_ref =? 1) in
  add_io_copies_stmt_acc_refs
    (add_io_copies_stmt_acc_single n_lane insert_dependence)
    traversals (node, block_live stmt_name, []).

(** [add_io_copies_stmt_tile] (lines 1053-1193): nothing is grafted for
    an empty communicated access, and the cursor is NULL when the
    emptiness test fails; the name is not released on these two paths.
    Otherwise the statement is created from the name, the tiling of
    [tile] is read, and the name is released once. *)
Definition add_io_copies_stmt_tile (node : bool) (access_is_empty : isl_bool)
    (tile : option autosa_array_tile) (stmt_name : string)
  : res acc_state :=
  let block := block_live stmt_name in
  let empty := isl_bool_to_int access_is_empty in
  if (empty <? 0) || c_true empty then
    if empty <? 0 then Ok (false, block, []) else Ok (node, block, [])
  else
    stmt_name <- read_block block ;;
    from_access <- autosa_create_io_access_stmt stmt_name ;;
    (* tile->tiling *)
    _ <- deref_tile tile ;;
    block' <- free_block block ;;
    Ok (node, block', [from_access]).

(** The traversals of [add_io_copies_stmt_acc] called from the schedule
    builder of a module: one for each reference of the group. *)
Definition io_subtree_traversals (module : autosa_hw_module)
    (group : autosa_array_ref_group) (depth : Z) (read : bool)
  : list (list acc_visit) :=
  map (fun i => io_subtree_visits module group depth i read)
    (seq 0 (List.length (refs group))).

(** The transfer towards the upper level, written out twice in the
    source: in [generate_io_module_inter_trans] (lines 1352-1400) and in
    [generate_default_io_module_schedule] (lines 2199-2247).  [b] is the
    located buffer, [p] the head of the statement name, [node_depth] the
    schedule depth of the cursor, [tile_is_buffer] the [is_buffer]
    argument given to [add_io_copies_stmt_tile].  The copy statements
    are grafted by the callee, which is run on the name printed here
    and whose faults end the run; the schedule of the module records
    the call, and the cursor the callee returns is not followed
    further. *)
Definition upper_transfer (module : autosa_hw_module)
    (group : autosa_array_ref_group) (kernel : autosa_kernel)
    (read is_buffer tile_is_buffer : bool)
    (p : list printed) (b : autosa_io_buffer) (node_depth : Z)
  : res (autosa_hw_module * module_sched) :=
  match buf_tile b with
  | None =>
      (* Add the I/O statement for each array reference in the group. *)
      let module := set_data_pack_inter (buf_n_lane b) module in
      let module := set_data_pack_intra (buf_n_lane b) module in
      let stmt_name := p ++ [P_str "."; P_int (buf_n_lane b)] in
      let insert_dependence :=
        is_buffer && negb read && false
        && insert_hls_dependence (options kernel) in
      _ <- add_io_copies_stmt_acc true
             (io_subtree_traversals module group node_depth read)
             (buf_n_lane b) (isl_printer_get_str stmt_name)
             insert_dependence ;;
      Ok (module,
          [io_copies_stmt_acc (buf_tile b) (buf_n_lane b) read stmt_name
             (before_of read) insert_dependence])
  | Some tile =>
      (* Add the I/O statement for the entire group. *)
      let module := set_data_pack_inter (buf_n_lane b) module in
      let module := set_data_pack_intra (buf_n_lane b) module in
      let p := p ++ [P_str "."; P_int (buf_n_lane b)] in
      (* Compute the coalesce loop depth and upper bounds. *)
      cd <- coalesce node_depth tile (buf_n_lane b) ;;
      let stmt_name := p ++ coalesce_suffix cd in
      _ <- add_io_copies_stmt_tile true
             (io_comm_access_empty module group node_depth read)
             (buf_tile b) (isl_printer_get_str stmt_name) ;;
      Ok (module,
          [io_copies_stmt_tile (buf_tile b) (buf_tile b) (buf_n_lane b) read
             stmt_name (before_of read) tile_is_buffer
             ((1 <? snd cd) && false
              && insert_hls_dependence (options kernel))])
  end.

(** [generate_io_module_inter_trans] (lines 1202-1443). *)
Definition generate_io_module_inter_trans (module : autosa_hw_module)
    (group : autosa_array_ref_group) (kernel : autosa_kernel)
    (io_level space_dim : Z) (read boundary : bool)
  : res (autosa_hw_module * module_sched) :=
  let is_filter := true in
  let is_buffer := true in
  if to_mem module then Crash AssertFail
  else
    let depth := io_mark_depth group io_level in
    let fifo_suffix := fifo_name group in
    (* Locate the next buffer. *)
    '(i, buf) <- locate_buffer group io_level None ;;
    let is_buffer := degrade_is_buffer is_buffer i io_level in
    b <- deref_buf buf ;;
    let p := trans_stmt_head read (to_mem module) boundary fifo_suffix
               is_filter is_buffer depth space_dim io_level (buf_n_lane b) in
    (* Move the schedule node to the level of the buffer since the
       buffer may have been hoisted. *)
    let node_depth := io_mark_child_depth group (buf_level b) in
    upper_transfer module group kernel read is_buffer (is_buffer && false)
      p b node_depth.

(** The transfer towards the lower level, shared by
    [generate_io_module_intra_trans] (lines 1596-1657) and by the
    buffered case of [generate_default_io_module_schedule]
    (lines 2266-2323): locate the next buffer below the current one and
    graft the statement.  [depth_here] is the schedule depth of the
    cursor when it is not moved; [tile_is_buffer] is the [is_buffer]
    argument given to [add_io_copies_stmt_tile].  The callee is run as
    in [upper_transfer]. *)
Definition lower_transfer (module : autosa_hw_module)
    (group : autosa_array_ref_group) (kernel : autosa_kernel)
    (read is_buffer tile_is_buffer : bool) (p : list printed)
    (b : autosa_io_buffer) (depth_here : Z)
  : res (autosa_hw_module * option autosa_io_buffer * module_sched) :=
  (* Locate the next buffer after the current buffer. *)
  let cur_level := buf_level b in
  let cur_buf := b in
  '(_, buf) <- locate_buffer group (cur_level - 1) (Some b) ;;
  b <- deref_buf buf ;;
  let node_depth :=
    if 1 <? cur_level then io_mark_child_depth group (buf_level b)
    else depth_here in
  match (cur_level =? 1), buf_tile b with
  | false, Some tile =>
      let p := p ++ [P_str "."; P_int (buf_n_lane b)] in
      cd <- coalesce node_depth tile (buf_n_lane b) ;;
      let stmt_name := p ++ coalesce_suffix cd in
      let module := set_data_pack_intra (buf_n_lane b) module in
      _ <- add_io_copies_stmt_tile true
             (io_comm_access_empty module group node_depth read)
             (buf_tile b) (isl_printer_get_str stmt_name) ;;
      Ok (module, buf,
          [io_copies_stmt_tile (buf_tile cur_buf) (buf_tile b) (buf_n_lane b)
             read stmt_name (before_of read) tile_is_buffer
             ((1 <? snd cd) && negb (buf_n_lane cur_buf =? buf_n_lane b)
              && insert_hls_dependence (options kernel))])
  | _, _ =>
      let stmt_name := p ++ [P_str "."; P_int (n_lane group)] in
      let module := set_data_pack_intra (n_lane group) module in
      let insert_dependence :=
        is_buffer && negb read
        && negb (buf_n_lane cur_buf =? n_lane group)
        && insert_hls_dependence (options kernel) in
      _ <- add_io_copies_stmt_acc true
             (io_subtree_traversals module group node_depth read)
             (n_lane group) (isl_printer_get_str stmt_name)
             insert_dependence ;;
      Ok (module, buf,
          [io_copies_stmt_acc (buf_tile cur_buf) (n_lane group) read stmt_name
             (before_of read) insert_dependence])
  end.

(** [generate_io_module_intra_trans] (lines 1451-1700). *)
Definition generate_io_module_intra_trans (module : autosa_hw_module)
    (group : autosa_array_ref_group) (kernel : autosa_kernel)
    (io_level space_dim : Z) (read is_buffer : bool)
  : res (autosa_hw_module * module_sched) :=
  if to_mem module then Crash AssertFail
  else
    let fifo_suffix := fifo_name group in
    (* Locate the current buffer. *)
    '(i, buf) <- locate_buffer group io_level None ;;
    let is_buffer := degrade_is_buffer is_buffer i io_level in
    b <- deref_buf buf ;;
    (* Insert the extra transfer statement. *)
    let p := local_stmt_head read fifo_suffix is_buffer (buf_n_lane b) in
    '(module, _, stmts) <-
      lower_transfer module group kernel read is_buffer (is_buffer && false)
        p b (io_mark_parent_depth group io_level) ;;
    Ok (module, stmts).

(** [generate_io_module_outer] (lines 1765-1963). *)
Definition generate_io_module_outer (module : autosa_hw_module)
    (group : autosa_array_ref_group) (kernel : autosa_kernel)
    (io_level space_dim : Z) (read boundary : bool)
  : res (autosa_hw_module * module_sched) :=
  if to_mem module then Crash AssertFail
  else
    let stmt_name1 := if negb boundary then "io_module.inter_trans"
                      else "io_module.inter_trans.boundary" in
    let stmt_name2 := "io_module.intra_trans" in
    let stmt_name3 := if negb boundary then "io_module.inter_intra"
                      else "io_module.inter_intra.boundary" in
    let stmt_name4 := if negb boundary then "io_module.intra_inter"
                      else "io_module.intra_inter.boundary" in
    let stmt_name5 := "io_module.state_handle" in
    let new_sched :=
      [call_stmt (if read then stmt_name3 else stmt_name4)]
      ++ (if double_buffer_ module then [call_stmt stmt_name5] else [])
      ++ (if double_buffer_ module
          then [call_stmt (if read then stmt_name2 else stmt_name1)]
          else []) in
    (* Update module information. *)
    if negb boundary then
      let module := set_type (module_type_of group) module in
      let module := set_level io_level module in
      let module := set_module_io_groups
                      (module_io_groups module ++ [group_id group]) module in
      let module := set_is_buffer true module in
      let module := set_is_filter true module in
      let module := set_in read module in
      (* Create IO module variables. *)
      '(_, buf) <- locate_buffer group io_level None ;;
      b <- deref_buf buf ;;
      Ok (create_io_module_vars module (buf_tile b), new_sched)
    else Ok (module, new_sched).

(** [generate_filter_buffer_io_module] (lines 1985-2041). *)
Definition generate_filter_buffer_io_module (module : autosa_hw_module)
    (group : autosa_array_ref_group) (local : autosa_local_array_info)
    (kernel : autosa_kernel)
    (io_level space_dim : Z) (is_filter is_buffer read : bool)
  : res autosa_hw_module :=
  (* We only enable double buffer for external array. *)
  let module :=
    if double_buffer (options kernel) then
      if autosa_array_type_beq (array_type local) AUTOSA_EXT_ARRAY
      then set_double_buffer true module
      else set_double_buffer false module
    else set_double_buffer false module in
  (* Inter transfer function. *)
  '(module, sched2) <-
    generate_io_module_inter_trans module group kernel io_level space_dim
      read false ;;
  '(module, boundary_sched2) <-
    (if is_filter then
       let module := set_boundary true module in
       '(module, s) <- generate_io_module_inter_trans module group kernel
                         io_level space_dim read true ;;
       Ok (module, Some s)
     else Ok (module, None)) ;;
  (* Intra transfer function. *)
  '(module, sched3) <-
    generate_io_module_intra_trans module group kernel io_level space_dim
      read is_buffer ;;
  (* Outer loops. *)
  '(module, sched1) <-
    generate_io_module_outer module group kernel io_level space_dim
      read false ;;
  '(module, boundary_sched1) <-
    (if is_filter then
       let module := set_boundary true module in
       '(module, s) <- generate_io_module_outer module group kernel
                         io_level space_dim read true ;;
       Ok (module, Some s)
     else Ok (module, None)) ;;
  let module := set_sched None module in
  let module := set_outer_sched (Some sched1) module in
  let module := set_inter_sched (Some sched2) module in
  let module := set_intra_sched (Some sched3) module in
  if boundary module then
    match boundary_sched1, boundary_sched2 with
    | Some s1, Some s2 =>
        let module := set_boundary_outer_sched (Some s1) module in
        Ok (set_boundary_inter_sched (Some s2) module)
    | _, _ => Crash UninitRead
    end
  else Ok module.

(** [generate_default_io_module_schedule] (lines 2044-2391). *)
Definition generate_default_io_module_schedule (module : autosa_hw_module)
    (group : autosa_array_ref_group) (kernel : autosa_kernel)
    (io_level space_dim : Z) (is_filter is_buffer read boundary : bool)
  : res autosa_hw_module :=
  let depth := io_mark_depth group io_level in
  let fifo_suffix := fifo_name group in
  (* Locate the next buffer. *)
  '(i, buf) <- locate_buffer group io_level None ;;
  let is_buffer := degrade_is_buffer is_buffer i io_level in
  b <- deref_buf buf ;;
  let p := trans_stmt_head read (to_mem module) boundary fifo_suffix
             is_filter is_buffer depth space_dim io_level (buf_n_lane b) in
  (* Move the schedule node to the level of the buffer.
     TODO: fix it when the buf->tile == NULL. *)
  tile_of_buf <- deref_tile (buf_tile b) ;;
  let node_depth := move_down_to_depth_depth group (tile_depth tile_of_buf) in
  '(module, stmts1) <-
    upper_transfer module group kernel read is_buffer is_buffer p b
      node_depth ;;
  '(module, buf, stmts2) <-
    (if is_buffer then
       (* Insert the extra transfer statement. *)
       let p := local_stmt_head read fifo_suffix true (buf_n_lane b) in
       lower_transfer module group kernel read is_buffer is_buffer p b
         node_depth
     else Ok (module, buf, [])) ;;
  let sched1 := stmts1 ++ stmts2 in
  if negb boundary then
    let module := set_sched (Some sched1) module in
    let module := set_type (module_type_of group) module in
    let module := set_level io_level module in
    let module := set_module_io_groups
                    (module_io_groups module ++ [group_id group]) module in
    let module := set_is_buffer is_buffer module in
    let module := set_is_filter is_filter module in
    let module := set_in read module in
    (* Create IO module variables. *)
    if is_buffer then
      '(_, buf) <- locate_buffer group io_level buf ;;
      b <- deref_buf buf ;;
      Ok (create_io_module_vars module (buf_tile b))
    else Ok module
  else Ok (set_boundary_sched (Some sched1) module).

(** [generate_default_io_module] (lines 2395-2414). *)
Definition generate_default_io_module (module : autosa_hw_module)
    (group : autosa_array_ref_group) (kernel : autosa_kernel)
    (io_level space_dim : Z) (is_filter is_buffer read : bool)
  : res autosa_hw_module :=
  module <- generate_default_io_module_schedule module group kernel
              io_level space_dim is_filter is_buffer read false ;;
  if is_filter then
    (* Add the boundary module schedule. *)
    let module := set_boundary true module in
    generate_default_io_module_schedule module group kernel
      io_level space_dim is_filter is_buffer read true
  else Ok module.

(** [generate_io_module_by_type] (lines 2424-2439). *)
Definition generate_io_module_by_type (module : autosa_hw_module)
    (group : autosa_array_ref_group) (local : autosa_local_array_info)
    (kernel : autosa_kernel)
    (io_level space_dim : Z) (is_filter is_buffer read : bool)
  : res autosa_hw_module :=
  if is_filter && is_buffer then
    generate_filter_buffer_io_module module group local kernel
      io_level space_dim is_filter is_buffer read
  else
    generate_default_io_module module group kernel
      io_level space_dim is_filter is_buffer read.

(* ================================================================== *)
(** ** The I/O module chains of a group *)

(** [generate_io_module_name] (lines 190-216):
    [io_group_name]_IO_L[X]_in/out *)
Definition generate_io_module_name (group : autosa_array_ref_group)
    (local : autosa_local_array_info) (level : Z) (read : bool)
  : list printed :=
  [P_str (array_name group)]
  ++ (if autosa_group_type_beq (group_type group) AUTOSA_IO_GROUP then
        if 1 <? n_io_group local then [P_str "_"; P_int (nr group)] else []
      else if autosa_group_type_beq (group_type group) AUTOSA_DRAIN_GROUP then
        [P_str "_"; P_str "drain"]
      else [])
  ++ [P_str "_IO_L"; P_int level]
  ++ [P_str (if read then "_in" else "_out")].

(** Does the [io_info] entry belong to the group:
    [io_info->io_type == group->io_type
     && !isl_vec_cmp(io_info->dir, group->dir)] *)
Definition io_info_matches (group : autosa_array_ref_group)
    (info : autosa_io_info) : bool :=
  autosa_io_type_beq (info_io_type info) (io_type group)
  && negb (c_true (isl_vec_cmp (info_dir info) (dir group))).

(** The loops of the credit analysis (lines 2490-2527); both [break]s
    leave the loop over [io_info] only. *)
Fixpoint credit_io_info (group : autosa_array_ref_group)
    (io_info : list autosa_io_info) (carried : isl_bool) : isl_bool :=
  match io_info with
  | [] => carried
  | info :: rest =>
      if io_info_matches group info then
        if c_true (isl_bool_to_int (dep_sched_is_empty group info))
        then carried
        else
          let is_parallel :=
            isl_bool_to_int (dep_sched_is_parallel group info) in
          if negb (c_true is_parallel)
          then isl_bool_true (* Dependence is carried by the array part loops. *)
          else credit_io_info group rest carried
      else credit_io_info group rest carried
  end.

Fixpoint credit_refs (group : autosa_array_ref_group)
    (rs : list autosa_stmt_access) (carried : isl_bool) : isl_bool :=
  match rs with
  | [] => carried
  | ref :: rest =>
      credit_refs group rest (credit_io_info group (ref_io_info ref) carried)
  end.

(** The hierarchy level below which no module is generated:
    [IO_L1] is integrated into the PEs unless the I/O is interior. *)
Definition innermost_of (group : autosa_array_ref_group) : Z :=
  if autosa_io_type_beq (io_type group) AUTOSA_INT_IO then 1 else 2.

(** The classification of [is_buffer] at level [i]; [None] is the
    automatic variable left uninitialised.  Copy-in: lines 2567-2597. *)
Definition classify_is_buffer_in (group : autosa_array_ref_group)
    (local : autosa_local_array_info) (kernel : autosa_kernel) (i : Z)
  : option bool :=
  let outermost := io_level group in
  let innermost := innermost_of group in
  let is_buffer :=
    if autosa_group_type_beq (group_type group) AUTOSA_DRAIN_GROUP then
      if i =? innermost then Some true else Some false
    else if autosa_group_type_beq (group_type group) AUTOSA_IO_GROUP then
      if autosa_array_type_beq (array_type local) AUTOSA_INT_ARRAY then
        if autosa_io_type_beq (io_type group) AUTOSA_EXT_IO then
          if i =? innermost then Some true else Some false
        else if autosa_io_type_beq (io_type group) AUTOSA_INT_IO then
          Some false
        else None
      else if autosa_array_type_beq (array_type local) AUTOSA_EXT_ARRAY then
        if i =? innermost then Some true else Some false
      else None
    else None in
  if two_level_buffer (options kernel) then
    (* When two-level buffering is enabled, we will implement a
       second-level buffer at the outermost I/O module. *)
    if i =? outermost then Some true else is_buffer
  else is_buffer.

(** Copy-out: lines 2644-2667. *)
Definition classify_is_buffer_out (group : autosa_array_ref_group)
    (local : autosa_local_array_info) (kernel : autosa_kernel) (i : Z)
  : option bool :=
  let outermost := io_level group in
  let innermost := innermost_of group in
  let is_buffer :=
    if autosa_group_type_beq (group_type group) AUTOSA_DRAIN_GROUP then
      if i =? innermost then Some true else Some false
    else if autosa_group_type_beq (group_type group) AUTOSA_IO_GROUP then
      if autosa_io_type_beq (io_type group) AUTOSA_INT_IO then Some false
      else if i =? innermost then Some true else Some false
    else None in
  if two_level_buffer (options kernel) then
    if i =? outermost then Some true else is_buffer
  else is_buffer.

(** The generation state of one call of [sa_io_module_gen]: the local
    array ([group->local_array->n_io_group_refs] is incremented) and the
    modules collected so far. *)
Definition gen_state : Type := autosa_local_array_info * list autosa_hw_module.

(** The body of the level loops of [sa_io_module_gen] (lines 2541-2620
    for copy-in, 2625-2690 for copy-out) at level [i]. *)
Definition sa_io_module_gen_level (read : bool)
    (group : autosa_array_ref_group) (kernel : autosa_kernel) (credit : Z)
    (i : Z) (st : gen_state) : res gen_state :=
  let '(local, modules) := st in
  (* Classify the module type. *)
  let outermost := io_level group in
  let innermost := innermost_of group in
  let is_filter := if i =? outermost then false else true in
  let is_buffer :=
    if read then classify_is_buffer_in group local kernel i
    else classify_is_buffer_out group local kernel i in
  (* Generate the I/O module *)
  if (innermost <=? i) && (i <=? outermost) then
    let module := autosa_hw_module_alloc in
    let module_name := generate_io_module_name group local i read in
    let module := set_name module_name module in
    let module := set_to_pe (i =? innermost) module in
    let module := set_to_mem (i =? outermost) module in
    let module := set_credit (if i =? outermost then credit else 0) module in
    let module := set_n_array_ref (n_io_group_refs local) module in
    let local :=
      if to_mem module
      then set_n_io_group_refs (n_io_group_refs local + 1) local
      else local in
    is_buffer <- match is_buffer with
                 | Some b => Ok b
                 | None => Crash UninitRead
                 end ;;
    module <- generate_io_module_by_type module group local kernel
                i (space_dim group) is_filter is_buffer read ;;
    Ok (local, modules ++ [module])
  else Ok st.

(** [for (int i = io_level; i >= 1; i--)]: [n] levels remain, the
    current one is [n]. *)
Fixpoint levels_down (n : nat) (body : Z -> gen_state -> res gen_state)
    (st : gen_state) : res gen_state :=
  match n with
  | O => Ok st
  | S k =>
      st <- body (Z.of_nat (S k)) st ;;
      levels_down k body st
  end.

(** [for (int i = lo; i <= io_level; i++)]: [n] levels remain, the
    current one is [i]. *)
Fixpoint levels_up (n : nat) (i : Z) (body : Z -> gen_state -> res gen_state)
    (st : gen_state) : res gen_state :=
  match n with
  | O => Ok st
  | S k =>
      st <- body i st ;;
      levels_up k (i + 1) body st
  end.

(** The head of [sa_io_module_gen] (lines 2472-2536): the cursor at the
    kernel mark of the I/O schedule of the group, and the credit flag. *)
Definition sa_io_module_gen_credit (group : autosa_array_ref_group)
    (local : autosa_local_array_info) (kernel : autosa_kernel)
  : option isl_schedule_node * Z :=
  let node := io_schedule_root group in
  let node := autosa_tree_move_down_to_kernel node in
  (* Test if the deps in this I/O group are carried by array part loops. *)
  if credit_control (options kernel) then
    if autosa_array_type_beq (array_type local) AUTOSA_INT_ARRAY then
      let carried := isl_bool_false in
      let node := autosa_tree_move_down_to_array node (core kernel) in
      let node := isl_schedule_node_parent node in
      let carried := credit_refs group (refs group) carried in
      let credit := if c_true (isl_bool_to_int carried) then 1 else 0 in
      let node := autosa_tree_move_up_to_kernel node in
      (node, credit)
    else (node, 0)
  else (node, 0).

(** [sa_io_module_gen] (lines 2457-2696).  The result is the array of
    modules together with the group and its local array as the call
    leaves them. *)
Definition sa_io_module_gen (group : autosa_array_ref_group)
    (local : autosa_local_array_info) (kernel : autosa_kernel)
    (in_flag out_flag : bool)
  : res (list autosa_hw_module * autosa_array_ref_group
         * autosa_local_array_info) :=
  let '(node, credit) := sa_io_module_gen_credit group local kernel in
  (* At each I/O level, generate one I/O module. *)
  (* Copy-in group. *)
  '(group, st) <-
    (if in_flag
        && c_true (isl_bool_to_int (is_module_valid node kernel group true))
     then
       let group :=
         set_array_io_dir
           (if autosa_io_dir_beq (array_io_dir group) IO_OUT
            then IO_INOUT else IO_IN) group in
       st <- levels_down (Z.to_nat (io_level group))
               (sa_io_module_gen_level true group kernel credit)
               (local, []) ;;
       Ok (group, st)
     else Ok (group, (local, []))) ;;
  (* Copy-out group. *)
  '(group, st) <-
    (if out_flag
        && c_true (isl_bool_to_int (is_module_valid node kernel group false))
     then
       let group :=
         set_array_io_dir
           (if autosa_io_dir_beq (array_io_dir group) IO_IN
            then IO_INOUT else IO_OUT) group in
       st <- levels_up (Z.to_nat (io_level group)) 1
               (sa_io_module_gen_level false group kernel credit) st ;;
       Ok (group, st)
     else Ok (group, st)) ;;
  Ok (snd st, group, fst st).

End ModuleGen.

(* ================================================================== *)
(** ** The PE module, the module list and its final order *)

Section TopLevel.
Context {Ty : IslTypes} {Ops : IslOps}.

(** [a[i] = v] for an array of [length l] elements. *)
Definition array_set {A} (l : list A) (i : Z) (v : A) : res (list A) :=
  if i <? 0 then Crash OutOfBounds
  else if (Z.to_nat i <? List.length l)%nat
       then Ok (firstn (Z.to_nat i) l ++ v :: skipn (S (Z.to_nat i)) l)
       else Crash OutOfBounds.

(** The update of a direction flag when a copy-in is recorded,
    [dir = (dir == IO_OUT) ? IO_INOUT : IO_IN], and when a copy-out is,
    [dir = (dir == IO_IN) ? IO_INOUT : IO_OUT]
    (lines 2540, 2624, 2967-2969, 3149-3151). *)
Definition io_dir_update (read : bool) (d : autosa_io_dir) : autosa_io_dir :=
  if read then (if autosa_io_dir_beq d IO_OUT then IO_INOUT else IO_IN)
  else (if autosa_io_dir_beq d IO_IN then IO_INOUT else IO_OUT).

(** The cursor of the PE schedule ([false]: NULL), the group whose copies
    are inserted, and the statements grafted so far. *)
Definition pe_state : Type := bool * autosa_array_ref_group * module_sched.

(** [add_pe_ext_io_copies_stmt] (lines 2859-3075), the callback run on
    a node of the PE subtree. *)
Definition add_pe_ext_io_copies_stmt (dummy read : bool)
    (ref : autosa_stmt_access) (v : node_visit) (st : pe_state) : pe_state :=
  let '(node, io_group, stmts) := st in
  (* Test if the current stmt contains the reference. *)
  if negb (node_is_leaf v) then st
  else if (if negb (leaf_is_extended v) then negb (stmt_is_ref_stmt v)
           else true (* Simply return for the extension nodes. *))
  then st
  else
    let empty := isl_bool_to_int (comm_access_is_empty v) in
    if (empty <? 0) || c_true empty then
      if empty <? 0 then (false, io_group, stmts) else st
    else
      (* Update the group io_dir. *)
      let io_group :=
        if negb dummy
        then set_pe_io_dir (io_dir_update read (pe_io_dir io_group)) io_group
        else io_group in
      (node, io_group,
       stmts ++ [pe_copy_stmt (group_id io_group) (Some (ref_id ref)) read]).

(** [isl_schedule_node_map_descendant_bottom_up]: the callback is run on
    the nodes in turn, until it returns NULL. *)
Fixpoint map_descendant_bottom_up (f : node_visit -> pe_state -> pe_state)
    (visits : list node_visit) (st : pe_state) : pe_state :=
  match visits with
  | [] => st
  | v :: rest =>
      if fst (fst st) then map_descendant_bottom_up f rest (f v st) else st
  end.

(** [add_pe_ext_io_copies] (lines 3081-3099): one traversal for each
    reference of the group. *)
Fixpoint add_pe_ext_io_copies_refs (rs : list autosa_stmt_access)
    (read : bool) (st : pe_state) : pe_state :=
  match rs with
  | [] => st
  | ref :: rest =>
      add_pe_ext_io_copies_refs rest read
        (map_descendant_bottom_up
           (add_pe_ext_io_copies_stmt false read ref)
           (pe_subtree_visits (snd (fst st)) ref read) st)
  end.

Definition add_pe_ext_io_copies (read : bool) (st : pe_state) : pe_state :=
  add_pe_ext_io_copies_refs (refs (snd (fst st))) read st.

(** [add_pe_int_io_copies] (lines 3106-3225).  On a NULL cursor the
    access relation is NULL and its emptiness test is an error. *)
Definition add_pe_int_io_copies (read : bool) (st : pe_state) : pe_state :=
  let '(node, io_group, stmts) := st in
  let empty :=
    if node then isl_bool_to_int (int_io_comm_access_empty io_group read)
    else -1 in
  if (empty <? 0) || c_true empty then
    if empty <? 0 then (false, io_group, stmts) else st
  else
    (* Update the group io_dir. *)
    let io_group :=
      set_pe_io_dir (io_dir_update read (pe_io_dir io_group)) io_group in
    (node, io_group, stmts ++ [pe_copy_stmt (group_id io_group) None read]).

(** What the first loop of [sa_pe_module_gen] threads: the cursor, the
    grafted statements and [module->io_groups]. *)
Definition pe_gen_state : Type := bool * module_sched * list Z.

(** The body of the loop over the I/O groups of an array
    (lines 3601-3622). *)
Definition pe_copies_io_group (local : autosa_local_array_info)
    (group : autosa_array_ref_group) (st : pe_gen_state)
  : autosa_array_ref_group * pe_gen_state :=
  let '(node, stmts, module_groups) := st in
  if autosa_io_dir_beq (array_io_dir group) IO_NULL then (group, st)
  else
    let ps : pe_state := (node, group, stmts) in
    let ps :=
      if autosa_array_type_beq (array_type local) AUTOSA_EXT_ARRAY then
        add_pe_ext_io_copies true (add_pe_ext_io_copies false ps)
      else if autosa_array_type_beq (array_type local) AUTOSA_INT_ARRAY then
        if autosa_io_type_beq (io_type group) AUTOSA_INT_IO then
          add_pe_int_io_copies true (add_pe_int_io_copies false ps)
        else
          add_pe_ext_io_copies true (add_pe_ext_io_copies false ps)
      else ps in
    let '(node, group, stmts) := ps in
    (group, (node, stmts, module_groups ++ [group_id group])).

Fixpoint pe_copies_io_groups (local : autosa_local_array_info)
    (groups : list autosa_array_ref_group) (st : pe_gen_state)
  : list autosa_array_ref_group * pe_gen_state :=
  match groups with
  | [] => ([], st)
  | group :: rest =>
      let '(group, st) := pe_copies_io_group local group st in
      let '(rest, st) := pe_copies_io_groups local rest st in
      (group :: rest, st)
  end.

(** The body of the loop over the arrays (lines 3599-3633): the I/O
    groups, then the drain group. *)
Definition pe_copies_array (local : autosa_local_array_info)
    (st : pe_gen_state) : autosa_local_array_info * pe_gen_state :=
  let '(groups, st) := pe_copies_io_groups local (io_groups local) st in
  let local := set_io_groups groups local in
  match drain_group local with
  | Some drain =>
      if negb (autosa_io_dir_beq (array_io_dir drain) IO_NULL) then
        let '(node, stmts, module_groups) := st in
        let '(node, drain, stmts) :=
          add_pe_ext_io_copies false (node, drain, stmts) in
        (set_drain_group (Some drain) local,
         (node, stmts, module_groups ++ [group_id drain]))
      else (local, st)
  | None => (local, st)
  end.

Fixpoint pe_copies_arrays (arrays : list autosa_local_array_info)
    (st : pe_gen_state) : list autosa_local_array_info * pe_gen_state :=
  match arrays with
  | [] => ([], st)
  | local :: rest =>
      let '(local, st) := pe_copies_array local st in
      let '(rest, st) := pe_copies_arrays rest st in
      (local :: rest, st)
  end.

(** The dummy modules of the PE module (lines 3675-3697): the second
    loop of [sa_pe_module_gen], run once the copies of all groups are
    grafted. *)
Fixpoint pe_dummy_modules_groups (groups : list autosa_array_ref_group)
    (dummies : list autosa_pe_dummy_module) : list autosa_pe_dummy_module :=
  match groups with
  | [] => dummies
  | group :: rest =>
      if negb (autosa_io_dir_beq (pe_io_dir group) IO_INOUT)
      then pe_dummy_modules_groups rest dummies
      else
        (* Generate the dummy module. *)
        pe_dummy_modules_groups rest
          (dummies ++ [ {| dummy_io_group := group_id group |} ])
  end.

Fixpoint pe_dummy_modules_arrays (arrays : list autosa_local_array_info)
    (dummies : list autosa_pe_dummy_module) : list autosa_pe_dummy_module :=
  match arrays with
  | [] => dummies
  | local :: rest =>
      if autosa_array_type_beq (array_type local) AUTOSA_INT_ARRAY
      then pe_dummy_modules_arrays rest dummies
      else pe_dummy_modules_arrays rest
             (pe_dummy_modules_groups (io_groups local) dummies)
  end.

(** [sa_pe_module_gen] (lines 3560-3700).  Of the PE schedule the model
    keeps the copy statements grafted for the groups; the result is the
    module and the arrays with the [pe_io_dir] flags of their groups. *)
Definition sa_pe_module_gen (kernel : autosa_kernel)
  : autosa_hw_module * list autosa_local_array_info :=
  let module := autosa_hw_module_alloc in
  (* Add copy-in/copy-out statements *)
  let '(arrays, (node, stmts, module_groups)) :=
    pe_copies_arrays (array kernel) (true, [], module_io_groups module) in
  let module := set_module_io_groups module_groups module in
  let module := set_sched (if node then Some stmts else None) module in
  let module := set_type PE_MODULE module in
  let module := set_name [P_str "PE"] module in
  let module :=
    set_pe_dummy_modules (pe_dummy_modules_arrays arrays []) module in
  (module, arrays).

(** One scan of [hw_module_reorder]:
    [for (int i = 0; i < n_module; i++) {
       module = modules[i];
       if (sel(module)) { modules_new[pos] = module; pos++; } }]
    on the state [(modules_new, pos)]; a NULL slot of [modules_new] is
    one not written yet. *)
Definition reorder_state : Type := list (option autosa_hw_module) * Z.

Definition deref_module (m : option autosa_hw_module) : res autosa_hw_module :=
  match m with Some m => Ok m | None => Crash NullModuleDeref end.

Fixpoint reorder_scan (sel : autosa_hw_module -> bool)
    (modules : list (option autosa_hw_module)) (n : nat) (i : Z)
    (st : reorder_state) : res reorder_state :=
  match n with
  | O => Ok st
  | S k =>
      p <- array_get modules i ;;
      module <- deref_module p ;;
      st <- (if sel module then
               modules_new <- array_set (fst st) (snd st) (Some module) ;;
               Ok (modules_new, snd st + 1)
             else Ok st) ;;
      reorder_scan sel modules k (i + 1) st
  end.

Definition is_copy_in (m : autosa_hw_module) : bool :=
  autosa_module_type_beq (type m) IO_MODULE && in_ m.
Definition is_copy_out (m : autosa_hw_module) : bool :=
  autosa_module_type_beq (type m) IO_MODULE && negb (in_ m).
Definition is_drain (m : autosa_hw_module) : bool :=
  autosa_module_type_beq (type m) DRAIN_MODULE.

(** [hw_module_reorder] (lines 3713-3753). *)
Definition hw_module_reorder (modules : list (option autosa_hw_module))
    (n_module : Z) : res (list (option autosa_hw_module)) :=
  let modules_new := repeat None (Z.to_nat n_module) in
  let pos := 0 in
  (* I/O module (copy-in) *)
  st <- reorder_scan is_copy_in modules (Z.to_nat n_module) 0
          (modules_new, pos) ;;
  (* PE module *)
  p <- array_get modules 0 ;;
  modules_new <- array_set (fst st) (snd st) p ;;
  let st := (modules_new, snd st + 1) in
  (* I/O module (copy-out) *)
  st <- reorder_scan is_copy_out modules (Z.to_nat n_module) 0 st ;;
  (* Drain module *)
  st <- reorder_scan is_drain modules (Z.to_nat n_module) 0 st ;;
  Ok (fst st).

(** The loop of [generate_hw_modules] over the I/O groups of one array
    (lines 4572-4584). *)
Fixpoint hw_modules_io_groups (kernel : autosa_kernel)
    (groups : list autosa_array_ref_group) (info : autosa_local_array_info)
    (hw_modules : list (option autosa_hw_module))
  : res (list autosa_array_ref_group * autosa_local_array_info
         * list (option autosa_hw_module)) :=
  match groups with
  | [] => Ok ([], info, hw_modules)
  | group :: rest =>
      '(modules, group, info) <- sa_io_module_gen group info kernel true true ;;
      '(rest, info, hw_modules) <-
        hw_modules_io_groups kernel rest info
          (hw_modules ++ map Some modules) ;;
      Ok (group :: rest, info, hw_modules)
  end.

(** The loop over the arrays for the I/O modules (lines 4569-4585). *)
Fixpoint hw_modules_io (kernel : autosa_kernel)
    (arrays : list autosa_local_array_info)
    (hw_modules : list (option autosa_hw_module))
  : res (list autosa_local_array_info * list (option autosa_hw_module)) :=
  match arrays with
  | [] => Ok ([], hw_modules)
  | info :: rest =>
      let info := set_n_io_group_refs 0 info in
      '(groups, info, hw_modules) <-
        hw_modules_io_groups kernel (io_groups info) info hw_modules ;;
      let info := set_io_groups groups info in
      '(rest, hw_modules) <- hw_modules_io kernel rest hw_modules ;;
      Ok (info :: rest, hw_modules)
  end.

(** The loop over the arrays for the drain modules (lines 4587-4605). *)
Fixpoint hw_modules_drain (kernel : autosa_kernel)
    (arrays : list autosa_local_array_info)
    (hw_modules : list (option autosa_hw_module))
  : res (list autosa_local_array_info * list (option autosa_hw_module)) :=
  match arrays with
  | [] => Ok ([], hw_modules)
  | info :: rest =>
      '(info, hw_modules) <-
        match drain_group info with
        | None => Ok (info, hw_modules)
        | Some drain =>
            '(modules, drain, info) <-
              sa_io_module_gen drain info kernel false true ;;
            Ok (set_drain_group (Some drain) info,
                hw_modules ++ map Some modules)
        end ;;
      '(rest, hw_modules) <- hw_modules_drain kernel rest hw_modules ;;
      Ok (info :: rest, hw_modules)
  end.

(** The module list [generate_hw_modules] hands to [hw_module_reorder]
    (lines 4560-4608): slot 0 is kept for the PE module, which is
    generated last. *)
Definition generated_hw_modules (kernel : autosa_kernel)
  : res (list (option autosa_hw_module) * autosa_kernel) :=
  let hw_modules : list (option autosa_hw_module) := [None] in
  (* IO module *)
  '(arrays, hw_modules) <- hw_modules_io kernel (array kernel) hw_modules ;;
  (* Drain module *)
  '(arrays, hw_modules) <- hw_modules_drain kernel arrays hw_modules ;;
  let kernel := set_array arrays kernel in
  (* PE module *)
  let '(pe, arrays) := sa_pe_module_gen kernel in
  hw_modules <- array_set hw_modules 0 (Some pe) ;;
  Ok (hw_modules, set_array arrays kernel).

(** [generate_hw_modules] (lines 4560-4616), up to the reordering; the
    top module is not followed. *)
Definition generate_hw_modules (kernel : autosa_kernel)
  : res (list (option autosa_hw_module) * autosa_kernel) :=
  '(hw_modules, kernel) <- generated_hw_modules kernel ;;
  (* Reorder the sequence of the modules. *)
  hw_modules <- hw_module_reorder hw_modules
                  (Z.of_nat (List.length hw_modules)) ;;
  Ok (hw_modules, kernel).

End TopLevel.

(* ================================================================== *)
(** ** The schedule constraint algebra *)

(** The four constraint builders work on isl objects only.  They are
    embedded over the meaning of these objects: a parameter valuation
    gives every named parameter a value, a union set holds of a domain
    element under a valuation, and a multi-dimensional affine function
    gives, where it is defined, one integer for each of its dimensions. *)
Module ScheduleConstraints.
Section Sets.
Variable point : Type.

Definition valuation : Type := string -> Z.

Definition isl_union_set : Type := valuation -> point -> bool.

(** [isl_multi_aff] on a parameter space. *)
Record isl_multi_aff := {
  ma_dim : nat;
  ma_val : valuation -> nat -> Z
}.

(** [isl_multi_union_pw_aff]: the domain of definition and the value in
    each of the [mupa_dim] dimensions. *)
Record isl_multi_union_pw_aff := {
  mupa_dim : nat;
  mupa_dom : valuation -> point -> bool;
  mupa_val : valuation -> point -> nat -> Z
}.

(** A band node of a schedule tree: its partial schedule, which has one
    dimension for each member, and the universe of its domain. *)
Record isl_schedule_node := {
  band_partial_schedule : isl_multi_union_pw_aff;
  universe_domain : isl_union_set
}.

Definition isl_schedule_node_band_n_member (node : isl_schedule_node) : Z :=
  Z.of_nat (mupa_dim (band_partial_schedule node)).

(** [isl_multi_aff_zero] on the parameter space extended by [n] set
    dimensions; the library refuses a negative count. *)
Definition isl_multi_aff_zero (n : Z) : option isl_multi_aff :=
  if n <? 0 then None
  else Some {| ma_dim := Z.to_nat n; ma_val := fun _ _ => 0 |}.

Definition isl_multi_union_pw_aff_multi_aff_on_domain
    (domain : isl_union_set) (ma : isl_multi_aff) : isl_multi_union_pw_aff :=
  {| mupa_dim := ma_dim ma;
     mupa_dom := domain;
     mupa_val := fun e _ i => ma_val ma e i |}.

Definition isl_multi_union_pw_aff_range_product
    (a b : isl_multi_union_pw_aff) : isl_multi_union_pw_aff :=
  {| mupa_dim := mupa_dim a + mupa_dim b;
     mupa_dom := fun e x => mupa_dom a e x && mupa_dom b e x;
     mupa_val := fun e x i =>
       if (i <? mupa_dim a)%nat then mupa_val a e x i
       else mupa_val b e x (i - mupa_dim a) |}.

(** The difference needs operands of the same dimension. *)
Definition isl_multi_union_pw_aff_sub
    (a b : isl_multi_union_pw_aff) : option isl_multi_union_pw_aff :=
  if (mupa_dim a =? mupa_dim b)%nat then
    Some {| mupa_dim := mupa_dim a;
            mupa_dom := fun e x => mupa_dom a e x && mupa_dom b e x;
            mupa_val := fun e x i => mupa_val a e x i - mupa_val b e x i |}
  else None.

(** The residue is taken dimension by dimension; every modulus has to
    be positive. *)
Definition isl_multi_union_pw_aff_mod_multi_val
    (a : isl_multi_union_pw_aff) (mv : list Z) : option isl_multi_union_pw_aff :=
  if (mupa_dim a =? List.length mv)%nat && forallb (fun m => 0 <? m) mv then
    Some {| mupa_dim := mupa_dim a;
            mupa_dom := mupa_dom a;
            mupa_val := fun e x i => mupa_val a e x i mod nth i mv 1 |}
  else None.

(** [isl_multi_union_pw_aff_zero_union_set]: the elements of the domain
    at which the function is zero in every dimension. *)
Definition isl_multi_union_pw_aff_zero_union_set
    (a : isl_multi_union_pw_aff) : isl_union_set :=
  fun e x =>
    mupa_dom a e x
    && forallb (fun i => mupa_val a e x i =? 0) (seq 0 (mupa_dim a)).

(** [isl_multi_union_pw_aff_nonneg_union_set], its counterpart for
    [>= 0]: the elements of the domain at which the function is not
    negative in any dimension. *)
Definition isl_multi_union_pw_aff_nonneg_union_set
    (a : isl_multi_union_pw_aff) : isl_union_set :=
  fun e x =>
    mupa_dom a e x
    && forallb (fun i => 0 <=? mupa_val a e x i) (seq 0 (mupa_dim a)).

(** [parameter_vector] (lines 273-315): the parameters called [names],
    as an affine function of the parameters. *)
Definition parameter_vector (names : list string) : isl_multi_aff :=
  {| ma_dim := List.length names;
     ma_val := fun e i => e (nth i names "") |}.

(** [construct_band_tiles_sizes] (lines 412-422): one size for each
    member of the band, read from [tile_size[0]] on. *)
Definition construct_band_tiles_sizes (node : isl_schedule_node)
    (tile_size : list Z) : res (list Z) :=
  if (mupa_dim (band_partial_schedule node) <=? List.length tile_size)%nat
  then Ok (firstn (mupa_dim (band_partial_schedule node)) tile_size)
  else Crash OutOfBounds.

(** [set_schedule_ge] (lines 323-361). *)
Definition set_schedule_ge (node : option isl_schedule_node)
    (names : list string) : option isl_union_set :=
  match node with
  | None => None
  | Some node =>
      let n := Z.of_nat (List.length names) in
      if n =? 0 then Some (universe_domain node)
      else
        let n_zero := n - isl_schedule_node_band_n_member node in
        let mupa := band_partial_schedule node in
        match isl_multi_aff_zero n_zero with
        | None => None
        | Some ma =>
            let domain := universe_domain node in
            (* Map the domain elements to "n_zero" zeros. *)
            let mupa2 :=
              isl_multi_union_pw_aff_multi_aff_on_domain domain ma in
            (* Build a new mupa that mupa2 -> mupa *)
            let mupa := isl_multi_union_pw_aff_range_product mupa2 mupa in
            let ma := parameter_vector names in
            (* Map the domain elements to the parameters. *)
            let mupa2 :=
              isl_multi_union_pw_aff_multi_aff_on_domain domain ma in
            match isl_multi_union_pw_aff_sub mupa mupa2 with
            | None => None
            | Some mupa => Some (isl_multi_union_pw_aff_nonneg_union_set mupa)
            end
        end
  end.

(** [set_schedule_le] (lines 369-407). *)
Definition set_schedule_le (node : option isl_schedule_node)
    (names : list string) : option isl_union_set :=
  match node with
  | None => None
  | Some node =>
      let n := Z.of_nat (List.length names) in
      if n =? 0 then Some (universe_domain node)
      else
        let n_zero := n - isl_schedule_node_band_n_member node in
        let mupa := band_partial_schedule node in
        match isl_multi_aff_zero n_zero with
        | None => None
        | Some ma =>
            let domain := universe_domain node in
            (* Map the domain elements to "n_zero" zeros. *)
            let mupa2 :=
              isl_multi_union_pw_aff_multi_aff_on_domain domain ma in
            (* Build a new mupa that mupa2 -> mupa *)
            let mupa := isl_multi_union_pw_aff_range_product mupa2 mupa in
            let ma := parameter_vector names in
            (* Map the domain elements to the parameters. *)
            let mupa2 :=
              isl_multi_union_pw_aff_multi_aff_on_domain domain ma in
            match isl_multi_union_pw_aff_sub mupa2 mupa with
            | None => None
            | Some mupa => Some (isl_multi_union_pw_aff_nonneg_union_set mupa)
            end
        end
  end.

(** [set_schedule_modulo] (lines 433-472).  [size + n_zero] is the
    array the tile sizes are read from. *)
Definition set_schedule_modulo (node : option isl_schedule_node)
    (names : list string) (size : list Z) : res (option isl_union_set) :=
  match node with
  | None => Ok None
  | Some node =>
      let n := Z.of_nat (List.length names) in
      if n =? 0 then Ok (Some (universe_domain node))
      else
        let n_zero := n - isl_schedule_node_band_n_member node in
        let mupa := band_partial_schedule node in
        mv <- (if n_zero <? 0 then Crash OutOfBounds
               else construct_band_tiles_sizes node
                      (skipn (Z.to_nat n_zero) size)) ;;
        Ok match isl_multi_union_pw_aff_mod_multi_val mupa mv with
           | None => None
           | Some mupa =>
               match isl_multi_aff_zero n_zero with
               | None => None
               | Some ma =>
                   let domain := universe_domain node in
                   let mupa2 :=
                     isl_multi_union_pw_aff_multi_aff_on_domain domain ma in
                   let mupa :=
                     isl_multi_union_pw_aff_range_product mupa2 mupa in
                   let ma := parameter_vector names in
                   let mupa2 :=
                     isl_multi_union_pw_aff_multi_aff_on_domain domain ma in
                   match isl_multi_union_pw_aff_sub mupa mupa2 with
                   | None => None
                   | Some mupa =>
                       Some (isl_multi_union_pw_aff_zero_union_set mupa)
                   end
               end
           end
  end.

(** [set_schedule_eq] (lines 480-515). *)
Definition set_schedule_eq (node : option isl_schedule_node)
    (names : list string) : option isl_union_set :=
  match node with
  | None => None
  | Some node =>
      let n := Z.of_nat (List.length names) in
      if n =? 0 then Some (universe_domain node)
      else
        let n_zero := n - isl_schedule_node_band_n_member node in
        let mupa := band_partial_schedule node in
        match isl_multi_aff_zero n_zero with
        | None => None
        | Some ma =>
            let domain := universe_domain node in
            (* Map the domain elements to "n_zero" zeros. *)
            let mupa2 :=
              isl_multi_union_pw_aff_multi_aff_on_domain domain ma in
            (* Build a new mupa that mupa2 -> mupa *)
            let mupa := isl_multi_union_pw_aff_range_product mupa2 mupa in
            let ma := parameter_vector names in
            (* Map the domain elements to the parameters. *)
            let mupa2 :=
              isl_multi_union_pw_aff_multi_aff_on_domain domain ma in
            match isl_multi_union_pw_aff_sub mupa mupa2 with
            | None => None
            | Some mupa => Some (isl_multi_union_pw_aff_zero_union_set mupa)
            end
        end
  end.

End Sets.

Arguments Build_isl_multi_union_pw_aff {point}.
Arguments mupa_dim {point}.
Arguments mupa_dom {point}.
Arguments mupa_val {point}.
Arguments Build_isl_schedule_node {point}.
Arguments band_partial_schedule {point}.
Arguments universe_domain {point}.
Arguments isl_schedule_node_band_n_member {point}.
Arguments isl_multi_union_pw_aff_multi_aff_on_domain {point}.
Arguments isl_multi_union_pw_aff_range_product {point}.
Arguments isl_multi_union_pw_aff_sub {point}.
Arguments isl_multi_union_pw_aff_mod_multi_val {point}.
Arguments isl_multi_union_pw_aff_zero_union_set {point}.
Arguments isl_multi_union_pw_aff_nonneg_union_set {point}.
Arguments construct_band_tiles_sizes {point}.
Arguments set_schedule_ge {point}.
Arguments set_schedule_le {point}.
Arguments set_schedule_modulo {point}.
Arguments set_schedule_eq {point}.

End ScheduleConstraints.

(* ================================================================== *)
(** ** Notions used by the specification *)

(** Every dependence entry of the group's references that matches the
    group's I/O type and direction is a read-after-read dependence. *)
Definition all_matching_rar (group : autosa_array_ref_group) : Prop :=
  forall ref info,
    In ref (refs group) -> In info (ref_io_info ref) ->
    info_io_type info = io_type group -> info_dir info = dir group ->
    info_dep_type info = AUTOSA_DEP_RAR.

(** Is there a tile at hierarchy level [i] of the group. *)
Definition tile_at (group : autosa_array_ref_group) (i : Z) : bool :=
  if i <? 1 then false
  else match nth_error (io_buffers group) (Z.to_nat (i - 1)) with
       | Some b => match buf_tile b with Some _ => true | None => false end
       | None => false
       end.

(** The levels [hi, hi - 1, ..., hi - n + 1] and [lo, lo + 1, ..., lo + n - 1]. *)
Fixpoint levels_from_down (n : nat) (hi : Z) : list Z :=
  match n with
  | O => []
  | S k => hi :: levels_from_down k (hi - 1)
  end.

Fixpoint levels_from_up (n : nat) (lo : Z) : list Z :=
  match n with
  | O => []
  | S k => lo :: levels_from_up k (lo + 1)
  end.

(** The contiguous range [[innermost, outermost]] of a group, downwards
    and upwards. *)
Definition chain_levels_down (group : autosa_array_ref_group) : list Z :=
  levels_from_down (Z.to_nat (io_level group - innermost_of group + 1))
    (io_level group).

Definition chain_levels_up (group : autosa_array_ref_group) : list Z :=
  levels_from_up (Z.to_nat (io_level group - innermost_of group + 1))
    (innermost_of group).

(** The order [hw_module_reorder] aims at, for a module list whose first
    element is [m0]: copy-in I/O modules, [m0], copy-out I/O modules,
    drain modules. *)
Definition reordered (m0 : autosa_hw_module) (ms : list autosa_hw_module)
  : list autosa_hw_module :=
  filter is_copy_in ms ++ [m0] ++ filter is_copy_out ms ++ filter is_drain ms.

(** The groups [sa_pe_module_gen] gives a dummy module to. *)
Definition dummy_groups (arrays : list autosa_local_array_info)
  : list autosa_array_ref_group :=
  flat_map
    (fun local =>
       if autosa_array_type_beq (array_type local) AUTOSA_INT_ARRAY then []
       else filter (fun g => autosa_io_dir_beq (pe_io_dir g) IO_INOUT)
              (io_groups local))
    arrays.

(** The join of the direction lattice NULL < IN, OUT < INOUT. *)
Definition io_dir_join (a b : autosa_io_dir) : autosa_io_dir :=
  match a, b with
  | IO_NULL, d | d, IO_NULL => d
  | IO_IN, IO_IN => IO_IN
  | IO_OUT, IO_OUT => IO_OUT
  | _, _ => IO_INOUT
  end.

(** Two modules agree on the fields that describe their place in a
    chain. *)
Definition same_kind (m m' : autosa_hw_module) : Prop :=
  type m' = type m /\ level m' = level m /\ is_filter m' = is_filter m
  /\ is_buffer m' = is_buffer m /\ in_ m' = in_ m /\ to_mem m' = to_mem m
  /\ boundary m' = boundary m /\ double_buffer_ m' = double_buffer_ m.


(** The module information recorded for level [io_level]. *)
Definition module_info (m : autosa_hw_module) (group : autosa_array_ref_group)
    (lvl : Z) (isf isb read : bool) : Prop :=
  type m = module_type_of group /\ level m = lvl
  /\ is_filter m = isf /\ is_buffer m = isb /\ in_ m = read.


(** The slots written so far, followed by [r] slots not written yet. *)
Definition slots (w : list autosa_hw_module) (r : nat)
  : list (option autosa_hw_module) :=
  map Some w ++ repeat None r.


(** The buffers of a group are well formed: a buffer knows a level that
    exists, a tile has an innermost dimension, and the packing width
    of a tiled buffer is not zero. *)
Definition wf_buffers (group : autosa_array_ref_group) : Prop :=
  forall b, In b (io_buffers group) ->
    buf_level b - 1 <= Z.of_nat (List.length (io_buffers group))
    /\ forall t, buf_tile b = Some t ->
         1 <= tile_n t <= Z.of_nat (List.length (tile_bound t))
         /\ buf_n_lane b <> 0.

(** The levels at which a module is generated. *)
Definition in_chain (group : autosa_array_ref_group) (i : Z) : bool :=
  (innermost_of group <=? i) && (i <=? io_level group).

Section ChainNotions.
Context {Ty : IslTypes} {Ops : IslOps}.

(** The module of hierarchy level [i] in the chain of a direction: not a
    filter exactly at the outermost level; buffered, for a filter, where
    the classification says so, and otherwise where it says so and the
    level has a tile. *)
Definition chain_module (read : bool) (group : autosa_array_ref_group)
    (local : autosa_local_array_info) (kernel : autosa_kernel) (i : Z)
    (m : autosa_hw_module) : Prop :=
  exists isb,
    (if read then classify_is_buffer_in group local kernel i
     else classify_is_buffer_out group local kernel i) = Some isb
    /\ type m = module_type_of group
    /\ level m = i
    /\ is_filter m = negb (i =? io_level group)
    /\ is_buffer m = (if negb (i =? io_level group) && isb then true
                      else isb && tile_at group i)
    /\ in_ m = read.

(** Is the copy-in chain generated, the group once it is, and is the
    copy-out chain generated. *)
Definition copy_in_generated (group : autosa_array_ref_group)
    (local : autosa_local_array_info) (kernel : autosa_kernel)
    (in_flag : bool) : bool :=
  in_flag
  && c_true (isl_bool_to_int
               (is_module_valid (fst (sa_io_module_gen_credit group local kernel))
                  kernel group true)).

Definition group_after_copy_in (group : autosa_array_ref_group)
    (local : autosa_local_array_info) (kernel : autosa_kernel)
    (in_flag : bool) : autosa_array_ref_group :=
  if copy_in_generated group local kernel in_flag
  then set_array_io_dir (io_dir_update true (array_io_dir group)) group
  else group.

Definition copy_out_generated (group : autosa_array_ref_group)
    (local : autosa_local_array_info) (kernel : autosa_kernel)
    (in_flag out_flag : bool) : bool :=
  out_flag
  && c_true (isl_bool_to_int
               (is_module_valid (fst (sa_io_module_gen_credit group local kernel))
                  kernel (group_after_copy_in group local kernel in_flag)
                  false)).

End ChainNotions.

Definition is_pe (m : autosa_hw_module) : bool :=
  autosa_module_type_beq (type m) PE_MODULE.

(** The module lists [generate_hw_modules] builds before reordering:
    the PE module first, I/O and drain modules after it. *)
Definition pe_first (ms : list autosa_hw_module) : Prop :=
  exists pe rest,
    ms = pe :: rest /\ type pe = PE_MODULE
    /\ Forall (fun m => type m <> PE_MODULE) rest.

Section Scenario.
Context {Ty : IslTypes}.

(** The scenario of a group with three I/O levels, two-level buffering
    enabled, and tiles at levels 1 and 3 only. *)
Definition two_level_scenario (group : autosa_array_ref_group)
    (kernel : autosa_kernel) : Prop :=
  io_level group = 3
  /\ two_level_buffer (options kernel) = true
  /\ tile_at group 1 = true /\ tile_at group 2 = false
  /\ tile_at group 3 = true.

(** The groups for which the innermost level of a copy-in chain is
    buffered: drain groups, and I/O groups of an external array. *)
Definition innermost_buffered_in (group : autosa_array_ref_group)
    (local : autosa_local_array_info) : Prop :=
  group_type group = AUTOSA_DRAIN_GROUP
  \/ (group_type group = AUTOSA_IO_GROUP
      /\ array_type local = AUTOSA_EXT_ARRAY).

End Scenario.

(* ================================================================== *)
(** ** Sample inputs *)

(** A stand-in for the polyhedral library on which the pass can be run:
    every object is the unit, every operation succeeds, the emptiness
    test of a relation answers [empty], every group has the cursor
    depths [depth], and the PE subtree shows the nodes [visits] for a
    reference and a direction. *)
#[local] Instance sample_types : IslTypes :=
  {| isl_schedule_node := unit; isl_schedule := unit;
     isl_union_map := unit; isl_union_set := unit; isl_set := unit;
     isl_map := unit; isl_space := unit; isl_union_pw_multi_aff := unit |}.

Definition sample_module : autosa_hw_module :=
  {| name := []; type := PE_MODULE; level := 0;
     is_filter := false; is_buffer := false; in_ := false;
     to_pe := false; to_mem := false; credit := 0; n_array_ref := 0;
     boundary := false; double_buffer_ := false;
     data_pack_inter := 0; data_pack_intra := 0;
     module_io_groups := []; var := [];
     sched := None; outer_sched := None; inter_sched := None;
     intra_sched := None; boundary_sched := None;
     boundary_outer_sched := None; boundary_inter_sched := None;
     pe_dummy_modules := [] |}.

Definition sample_ops (empty : isl_bool) (depth : Z)
    (visits : Z -> bool -> list node_visit) : @IslOps sample_types :=
  {| node_get_schedule_depth := fun _ => depth;
     node_get_prefix_schedule_relation := fun _ => Some tt;
     um_preimage_domain_upma := fun _ _ => Some tt;
     um_domain := fun _ => Some tt;
     um_range := fun _ => Some tt;
     upma_intersect_domain := fun _ _ => Some tt;
     set_from_union_set := fun _ => Some tt;
     set_dim_set := fun _ => depth;
     set_identity := fun _ => Some tt;
     map_get_space := fun _ => Some tt;
     map_lex_lt_first := fun _ _ => Some tt;
     map_equate_in_out := fun _ _ _ => Some tt;
     map_intersect_domain := fun _ _ => Some tt;
     map_intersect_range := fun _ _ => Some tt;
     map_lexmin := fun _ => Some tt;
     um_from_map := fun _ => Some tt;
     um_apply_range := fun _ _ => Some tt;
     um_reverse := fun _ => Some tt;
     um_intersect := fun _ _ => Some tt;
     um_subtract := fun _ _ => Some tt;
     um_is_empty := fun _ => empty;
     um_universe := fun _ => Some tt;
     um_intersect_domain := fun _ _ => Some tt;
     um_intersect_range := fun _ _ => Some tt;
     um_intersect_params := fun _ _ => Some tt;
     um_wrap := fun _ => Some tt;
     uset_universe := fun _ => Some tt;
     uset_unwrap := fun _ => Some tt;
     autosa_tree_move_down_to_array := fun n _ => n;
     autosa_tree_move_down_to_pe := fun n _ => n;
     autosa_io_group_access_relation := fun _ _ _ => Some tt;
     group_tagged_access_relation := fun _ => Some tt;
     remove_local_accesses_group_flow := fun _ _ access _ _ => access;
     wrapped_reference_to_access :=
       fun tag_set tagged =>
         match tag_set, tagged with Some _, Some _ => Some tt | _, _ => None end;
     autosa_tree_move_down_to_kernel := fun n => n;
     autosa_tree_move_up_to_kernel := fun n => n;
     isl_schedule_node_parent := fun n => n;
     io_schedule_root := fun _ => Some tt;
     autosa_hw_module_alloc := sample_module;
     fifo_name := fun g => String.append "fifo_" (array_name g);
     io_mark_depth := fun _ _ => depth;
     io_mark_parent_depth := fun _ _ => depth;
     io_mark_child_depth := fun _ _ => depth;
     move_down_to_depth_depth := fun _ d => d;
     dep_sched_is_empty := fun _ _ => isl_bool_false;
     dep_sched_is_parallel := fun _ _ => isl_bool_true;
     pe_subtree_visits := fun _ ref read => visits (ref_id ref) read;
     int_io_comm_access_empty := fun _ _ => empty;
     io_subtree_visits :=
       fun _ _ _ i _ =>
         match i with
         | O => [ {| acc_is_leaf := true; acc_stmt_is_ref_stmt := true;
                     acc_access_is_empty := empty;
                     acc_stride_one := isl_bool_true;
                     acc_band := Some {| band_depth := depth;
                                         band_n_member := 2;
                                         band_ubs := [8; 16] |} |} ]
         | S _ => []
         end;
     io_comm_access_empty := fun _ _ _ _ => empty |}.

Definition sample_scop : @ppcg_scop sample_types :=
  {| tagger := Some tt; tagged_dep_flow := Some tt; context := Some tt |}.

Definition sample_kernel (two_level : bool)
    (arrays : list autosa_local_array_info) : @autosa_kernel sample_types :=
  {| prog := {| scop := sample_scop |};
     core := Some tt; contraction := Some tt;
     array := arrays;
     options := {| credit_control := false; two_level_buffer := two_level;
                   double_buffer := false; insert_hls_dependence := false |} |}.

(** A tile of one dimension of extent [extent], at schedule depth
    [depth]. *)
Definition sample_tile (extent depth : Z) : autosa_array_tile :=
  {| tile_n := 1; tile_bound := [extent]; tile_depth := depth |}.

(** Three hierarchy levels with tiles at levels 1 and 3 only, packing
    width 4. *)
Definition sample_buffers : list autosa_io_buffer :=
  [ {| buf_level := 1; buf_n_lane := 4; buf_tile := Some (sample_tile 16 3) |};
    {| buf_level := 2; buf_n_lane := 4; buf_tile := None |};
    {| buf_level := 3; buf_n_lane := 4; buf_tile := Some (sample_tile 4 1) |} ].

Definition rar_ref : autosa_stmt_access :=
  {| ref_id := 0;
     ref_io_info := [ {| info_io_type := AUTOSA_INT_IO; info_dir := [0; 1];
                         info_dep_type := AUTOSA_DEP_RAR; info_id := 0 |} ] |}.

Definition raw_ref (id : Z) : autosa_stmt_access :=
  {| ref_id := id;
     ref_io_info := [ {| info_io_type := AUTOSA_INT_IO; info_dir := [0; 1];
                         info_dep_type := AUTOSA_DEP_RAW; info_id := id |} ] |}.

Definition sample_group (gt : autosa_group_type) (it : autosa_io_type)
    (rs : list autosa_stmt_access) (bufs : list autosa_io_buffer)
  : autosa_array_ref_group :=
  {| group_id := 7; array_name := "A"; nr := 0;
     group_type := gt; io_type := it; dir := [0; 1];
     refs := rs; io_level := Z.of_nat (List.length bufs); space_dim := 3;
     n_lane := 1; io_buffers := bufs;
     array_io_dir := IO_NULL; pe_io_dir := IO_NULL |}.

Definition sample_array (at_ : autosa_array_type)
    (groups : list autosa_array_ref_group) : autosa_local_array_info :=
  {| array_type := at_; n_io_group_refs := 0; io_groups := groups;
     drain_group := None |}.

(** A node of the PE subtree on which a copy is inserted. *)
Definition copy_leaf : node_visit :=
  {| node_is_leaf := true; leaf_is_extended := false;
     stmt_is_ref_stmt := true; comm_access_is_empty := isl_bool_false |}.

(* ================================================================== *)
(** A kernel with one external array: an I/O group with interior I/O
    and a flow dependence, and a drain group. *)
Definition sample_kernel_full : @autosa_kernel sample_types :=
  sample_kernel true
    [ {| array_type := AUTOSA_EXT_ARRAY; n_io_group_refs := 0;
         io_groups := [sample_group AUTOSA_IO_GROUP AUTOSA_INT_IO [raw_ref 1]
                         sample_buffers];
         drain_group :=
           Some (sample_group AUTOSA_DRAIN_GROUP AUTOSA_INT_IO [raw_ref 2]
                   sample_buffers) |} ].

(** A kernel with one array of the given kind and one I/O group with
    interior I/O, after the I/O modules of both directions were
    generated for it. *)
Definition sample_kernel_pe (at_ : autosa_array_type)
    (rs : list autosa_stmt_access) : @autosa_kernel sample_types :=
  sample_kernel false
    [ sample_array at_
        [ set_array_io_dir IO_INOUT
            (sample_group AUTOSA_IO_GROUP AUTOSA_INT_IO rs sample_buffers) ] ].

(** The PE subtree of a program with one statement for each reference:
    reference 1 is written, the other references are read. *)
Definition one_write_visits (ref : Z) (read : bool) : list node_visit :=
  if ref =? 1 then (if read then [] else [copy_leaf])
  else (if read then [copy_leaf] else []).

(** A band with one member over integer points, whose schedule value
    is the point itself, and a valuation of the parameters [p0], [p1]. *)
Definition sample_band : ScheduleConstraints.isl_schedule_node Z :=
  {| ScheduleConstraints.band_partial_schedule :=
       {| ScheduleConstraints.mupa_dim := 1;
          ScheduleConstraints.mupa_dom := fun _ _ => true;
          ScheduleConstraints.mupa_val := fun _ x _ => x |};
     ScheduleConstraints.universe_domain := fun _ _ => true |}.

Definition sample_valuation (p0 p1 : Z) : ScheduleConstraints.valuation :=
  fun s => if String.eqb s "p0" then p0
           else if String.eqb s "p1" then p1 else 0.

(** The number of leading parameters of a band for a list of names. *)
Definition leading {point : Type}
    (node : ScheduleConstraints.isl_schedule_node point)
    (names : list string) : nat :=
  (List.length names
   - ScheduleConstraints.mupa_dim
       (ScheduleConstraints.band_partial_schedule node))%nat.


(** The notions of the constraint builders for a band [node], a list of
    names and a valuation [e] of the parameters: the number of members
    of the band, the domain element [x] lies in the domain that the band
    schedules, the schedule value of a member at [x], the parameter that
    is compared with it (one of the last names), and the leading
    parameters are zero. *)
Definition band_members {point : Type}
    (node : ScheduleConstraints.isl_schedule_node point) : nat :=
  ScheduleConstraints.mupa_dim
    (ScheduleConstraints.band_partial_schedule node).

Definition in_band_domain {point : Type}
    (node : ScheduleConstraints.isl_schedule_node point)
    (e : ScheduleConstraints.valuation) (x : point) : Prop :=
  ScheduleConstraints.universe_domain node e x = true
  /\ ScheduleConstraints.mupa_dom
       (ScheduleConstraints.band_partial_schedule node) e x = true.

Definition band_value {point : Type}
    (node : ScheduleConstraints.isl_schedule_node point)
    (e : ScheduleConstraints.valuation) (x : point) (i : nat) : Z :=
  ScheduleConstraints.mupa_val
    (ScheduleConstraints.band_partial_schedule node) e x i.

Definition member_parameter {point : Type}
    (node : ScheduleConstraints.isl_schedule_node point)
    (names : list string) (e : ScheduleConstraints.valuation) (i : nat) : Z :=
  e (nth (leading node names + i) names "").

Definition leading_parameters_zero {point : Type}
    (node : ScheduleConstraints.isl_schedule_node point)
    (names : list string) (e : ScheduleConstraints.valuation) : Prop :=
  forall i, (i < leading node names)%nat -> e (nth i names "") = 0.

(* ================================================================== *)
(** ** Decoding the statement names *)

(** The loop all the [extract_*] functions start with,
    [while ((ch = type[loc]) != '\0') {
       if (ch == '.') n_dot++;
       if (n_dot == k) break;
       loc++; }]
    run on the bytes [s] that start at [type + loc]; the result is the
    final [(loc, n_dot)]. *)
Fixpoint scan_dots (k : Z) (s : string) (loc n_dot : Z) : Z * Z :=
  match s with
  | EmptyString => (loc, n_dot)
  | String ch s' =>
      if (ch =? NUL)%char then (loc, n_dot)
      else
        let n_dot := if (ch =? ".")%char then n_dot + 1 else n_dot in
        if n_dot =? k then (loc, n_dot)
        else scan_dots k s' (loc + 1) n_dot
  end.

(** [while (((ch = type[loc]) != '\0') && (ch != '.')) {
       p_str = isl_printer_print_str(p_str, buf); loc++; }]
    run on the bytes that start at [type + loc]; the result is the
    printed string. *)
Fixpoint scan_field (s : string) : string :=
  match s with
  | EmptyString => EmptyString
  | String ch s' =>
      if (ch =? NUL)%char || (ch =? ".")%char then EmptyString
      else String ch (scan_field s')
  end.

Section Extract.

(** Whether plain [char] is a signed type is left to the platform. *)
Variable char_signed : bool.

(** The value of a [char] converted to [int]. *)
Definition int_of_char (c : ascii) : Z :=
  let n := Z.of_N (N_of_ascii c) in
  if char_signed && (128 <=? n) then n - 256 else n.

(** The digit that follows the [k]-th dot, as
    [extract_is_filter] and [extract_is_buffer] read it:
    [loc++; ch = type[loc]; val = ch - '0';] *)
Definition digit_after_dot (k : Z) (type : string) : res Z :=
  let '(loc, n_dot) := scan_dots k type 0 0 in
  let loc := loc + 1 in
  s <- cstr_from type loc ;;
  let ch := cstr_head s in
  let val := int_of_char ch - 48 in
  Ok val.

(** [extract_is_filter] (lines 6631-6650). *)
Definition extract_is_filter (type : string) : res Z :=
  digit_after_dot 2 type.

(** [extract_is_buffer] (lines 6658-6677). *)
Definition extract_is_buffer (type : string) : res Z :=
  digit_after_dot 3 type.

(** The number that follows the [k]-th dot, as [extract_sched_depth]
    and [extract_param_id] read it: no test of the number of dots. *)
Definition number_after_dot (k : Z) (type : string) : res Z :=
  let '(loc, dot_time) := scan_dots k type 0 0 in
  let loc := loc + 1 in
  s <- cstr_from type loc ;;
  let depth_str := scan_field s in
  Ok (atoi depth_str).

(** [extract_sched_depth] (lines 6685-6718). *)
Definition extract_sched_depth (type : string) : res Z :=
  number_after_dot 4 type.

(** [extract_param_id] (lines 6726-6759). *)
Definition extract_param_id (type : string) : res Z :=
  number_after_dot 5 type.

(** The number that follows the [k]-th dot, as [extract_data_pack] and
    the functions after it read it:
    [if (dot_time < k) return -1;] comes first. *)
Definition number_after_dot_checked (k : Z) (type : string) : res Z :=
  let '(loc, dot_time) := scan_dots k type 0 0 in
  if dot_time <? k then Ok (-1)
  else
    let loc := loc + 1 in
    s <- cstr_from type loc ;;
    let depth_str := scan_field s in
    Ok (atoi depth_str).

(** [extract_data_pack] (lines 6767-6803). *)
Definition extract_data_pack (type : string) (is_trans : Z) : res Z :=
  number_after_dot_checked (if c_true is_trans then 6 else 2) type.

(** [extract_next_data_pack] (lines 6811-6847). *)
Definition extract_next_data_pack (type : string) (is_trans : Z) : res Z :=
  number_after_dot_checked (if c_true is_trans then 7 else 3) type.

(** [extract_coalesce_depth] (lines 6856-6895). *)
Definition extract_coalesce_depth (type : string) (is_trans : Z) : res Z :=
  if negb (c_true is_trans) then Ok (-1)
  else number_after_dot_checked 8 type.

(** [extract_coalesce_bound] (lines 6904-6943). *)
Definition extract_coalesce_bound (type : string) (is_trans : Z) : res Z :=
  if negb (c_true is_trans) then Ok (-1)
  else number_after_dot_checked 9 type.

(** The field that follows the first dot, as [extract_fifo_suffix]
    (lines 6951-6983) and [extract_module_name] (lines 7230-7262) read
    it. *)
Definition field_after_first_dot (type : string) : res string :=
  let '(loc, n_dot) := scan_dots 1 type 0 0 in
  let loc := loc + 1 in
  s <- cstr_from type loc ;;
  Ok (scan_field s).

Definition extract_fifo_suffix (type : string) : res string :=
  field_after_first_dot type.

Definition extract_module_name (type : string) : res string :=
  field_after_first_dot type.

(** [extract_is_boundary] (lines 7207-7225). *)
Definition extract_is_boundary (type : string) : Z :=
  let '(loc, n_dot) := scan_dots 2 type 0 0 in
  if n_dot <? 2 then 0 else 1.

(** The statement types of [autosa_common.h] that the leaf
    constructors assign (the header is not in src; the names are the
    ones the code uses). *)
Inductive autosa_kernel_stmt_type :=
| AUTOSA_KERNEL_STMT_IO
| AUTOSA_KERNEL_STMT_IO_TRANSFER
| AUTOSA_KERNEL_STMT_IO_DRAM
| AUTOSA_KERNEL_STMT_MODULE_CALL
| AUTOSA_KERNEL_STMT_FIFO_DECL
| AUTOSA_KERNEL_STMT_IO_MODULE_CALL_INTER_TRANS
| AUTOSA_KERNEL_STMT_IO_MODULE_CALL_INTRA_TRANS
| AUTOSA_KERNEL_STMT_IO_MODULE_CALL_INTER_INTRA
| AUTOSA_KERNEL_STMT_IO_MODULE_CALL_INTRA_INTER
| AUTOSA_KERNEL_STMT_IO_MODULE_CALL_STATE_HANDLE.

(** The fields of [stmt->u.i] and [stmt->type] that [create_io_leaf]
    assigns and that are no isl objects.  The statement is allocated
    with [calloc]: a field that is not assigned is 0. *)
Record autosa_kernel_stmt_io := {
  i_type : autosa_kernel_stmt_type;
  i_dummy : Z;
  i_in : Z;
  i_buf : Z;
  i_filter : Z;
  i_data_pack : Z;
  i_nxt_data_pack : Z;
  i_coalesce_depth : Z;
  i_coalesce_bound : Z;
  i_reg : Z;
  i_fifo_name : string;
  i_filter_sched_depth : Z;
  i_filter_param_id : Z;
  i_boundary : Z
}.

Definition int_of_bool (b : bool) : Z := if b then 1 else 0.

(** An automatic [int] that may not have been assigned. *)
Definition read_local (v : option Z) : res Z :=
  match v with
  | Some z => Ok z
  | None => Crash UninitRead
  end.

(** [create_io_leaf] (lines 7014-7200), without the index expressions
    it builds with isl: [type] is the name of the statement,
    [local_tile] is [pair->local_tile] and [local_name] the name that
    [autosa_array_ref_group_print_name] prints for the group. *)
Definition create_io_leaf (type : string)
    (local_tile : option autosa_array_tile) (local_name : string)
  : res autosa_kernel_stmt_io :=
  (* Classify the io stmt type. *)
  let is_trans :=
    has_prefix type "in_trans" || has_prefix type "out_trans" in
  let is_trans_dram :=
    has_prefix type "in_trans_dram" || has_prefix type "out_trans_dram" in
  let is_trans_boundary :=
    has_prefix type "in_trans_boundary"
    || has_prefix type "out_trans_boundary" in
  '(is_trans_filter, is_trans_buf) <-
    (if is_trans then
       f <- extract_is_filter type ;;
       b <- extract_is_buffer type ;;
       Ok (Some f, Some b)
     else Ok (None, None)) ;;
  let is_dummy :=
    if negb is_trans
    then has_prefix type "in_dummy" || has_prefix type "out_dummy"
    else false in
  let dummy := int_of_bool is_dummy in
  let in_ := int_of_bool (has_prefix type "in") in
  buf <- read_local is_trans_buf ;;
  filter <- read_local is_trans_filter ;;
  data_pack <- extract_data_pack type (int_of_bool is_trans) ;;
  nxt_data_pack <- extract_next_data_pack type (int_of_bool is_trans) ;;
  coalesce_depth <- extract_coalesce_depth type (int_of_bool is_trans) ;;
  coalesce_bound <- extract_coalesce_bound type (int_of_bool is_trans) ;;
  (* Compute the local index. *)
  reg <-
    match local_tile with
    | Some _ => Ok 0
    | None =>
        (* Create a scalar expr: [char buf[50]; sprintf(buf, "%s", local_name);] *)
        _ <- sprintf_s 50 local_name ;;
        Ok 1
    end ;;
  fifo_name <- extract_fifo_suffix type ;;
  if is_trans then
    if is_trans_dram then
      Ok {| i_type := AUTOSA_KERNEL_STMT_IO_DRAM;
            i_dummy := dummy; i_in := in_; i_buf := buf; i_filter := filter;
            i_data_pack := data_pack; i_nxt_data_pack := nxt_data_pack;
            i_coalesce_depth := coalesce_depth;
            i_coalesce_bound := coalesce_bound;
            i_reg := reg; i_fifo_name := fifo_name;
            i_filter_sched_depth := 0; i_filter_param_id := 0;
            i_boundary := 0 |}
    else
      '(filter_sched_depth, filter_param_id) <-
        (if c_true filter then
           d <- extract_sched_depth type ;;
           p <- extract_param_id type ;;
           Ok (d, p)
         else Ok (-1, -1)) ;;
      Ok {| i_type := AUTOSA_KERNEL_STMT_IO_TRANSFER;
            i_dummy := dummy; i_in := in_; i_buf := buf; i_filter := filter;
            i_data_pack := data_pack; i_nxt_data_pack := nxt_data_pack;
            i_coalesce_depth := coalesce_depth;
            i_coalesce_bound := coalesce_bound;
            i_reg := reg; i_fifo_name := fifo_name;
            i_filter_sched_depth := filter_sched_depth;
            i_filter_param_id := filter_param_id;
            i_boundary := int_of_bool is_trans_boundary |}
  else
    Ok {| i_type := AUTOSA_KERNEL_STMT_IO;
          i_dummy := dummy; i_in := in_; i_buf := buf; i_filter := filter;
          i_data_pack := data_pack; i_nxt_data_pack := nxt_data_pack;
          i_coalesce_depth := coalesce_depth;
          i_coalesce_bound := coalesce_bound;
          i_reg := reg; i_fifo_name := fifo_name;
          i_filter_sched_depth := 0; i_filter_param_id := 0;
          i_boundary := 0 |}.

(** The fields of [stmt->u.m] that [create_module_call_leaf]
    (lines 7270-7354) assigns from the name of the statement. *)
Record autosa_kernel_stmt_module_call := {
  m_boundary : Z;
  m_module_name : string;
  m_dummy : Z;
  m_lower : Z;
  m_upper : Z
}.

Definition create_module_call_leaf (name : string)
  : res autosa_kernel_stmt_module_call :=
  let boundary := extract_is_boundary name in
  module_name <- extract_module_name name ;;
  let dummy := int_of_bool (has_suffix module_name "dummy") in
  let '(lower, upper) :=
    if has_prefix name "module_call_lower" then (1, 0)
    else if has_prefix name "module_call_upper" then (0, 1)
    else (0, 0) in
  Ok {| m_boundary := boundary; m_module_name := module_name;
        m_dummy := dummy; m_lower := lower; m_upper := upper |}.

(** [stmt->u.m.boundary] as [create_fifo_decl_leaf] (lines 7360-7407)
    assigns it. *)
Definition create_fifo_decl_leaf (name : string) : Z :=
  if has_prefix name "fifo_decl_boundary" then 1 else 0.

(** [create_io_module_call_leaf] (lines 7411-7442): [stmt->u.f.boundary]
    and [stmt->type], which keeps the 0 of [calloc] ([None]) when no
    prefix matches. *)
Definition create_io_module_call_leaf (name : string)
  : Z * option autosa_kernel_stmt_type :=
  let boundary := extract_is_boundary name in
  let type :=
    if has_prefix name "io_module.inter_trans"
    then Some AUTOSA_KERNEL_STMT_IO_MODULE_CALL_INTER_TRANS
    else if has_prefix name "io_module.intra_trans"
    then Some AUTOSA_KERNEL_STMT_IO_MODULE_CALL_INTRA_TRANS
    else if has_prefix name "io_module.inter_intra"
    then Some AUTOSA_KERNEL_STMT_IO_MODULE_CALL_INTER_INTRA
    else if has_prefix name "io_module.intra_inter"
    then Some AUTOSA_KERNEL_STMT_IO_MODULE_CALL_INTRA_INTER
    else if has_prefix name "io_module.state_handle"
    then Some AUTOSA_KERNEL_STMT_IO_MODULE_CALL_STATE_HANDLE
    else None in
  (boundary, type).

(** What [at_domain_module] (lines 7461-7521) does with a user node. *)
Inductive domain_leaf :=
| leaf_domain                      (* [create_domain_leaf_module] *)
| leaf_unchanged                   (* [return node] *)
| leaf_array_bounds                (* [build_array_bounds] *)
| leaf_access                      (* [create_access_leaf] *)
| leaf_io (stmt : autosa_kernel_stmt_io)
| leaf_module_call (with_group : bool) (stmt : autosa_kernel_stmt_module_call)
| leaf_fifo_decl (boundary : Z)
| leaf_io_module_call (boundary : Z) (type : option autosa_kernel_stmt_type).

(** [at_domain_module]: [is_device_stmt] tells whether [find_stmt]
    finds the statement among the statements of the program, [name] is
    the name of its identifier. *)
Definition at_domain_module (is_device_stmt : bool) (name : string)
    (local_tile : option autosa_array_tile) (local_name : string)
  : res domain_leaf :=
  if is_device_stmt then Ok leaf_domain
  else if has_prefix name "to_device_" || has_prefix name "from_device_"
  then Ok leaf_unchanged
  else if String.eqb name "init_device" then Ok leaf_array_bounds
  else if String.eqb name "clear_device" then Ok leaf_unchanged
  else if String.eqb name "read" || String.eqb name "write"
  then Ok leaf_access
  else if has_prefix name "in" || has_prefix name "out" then
    stmt <- create_io_leaf name local_tile local_name ;;
    Ok (leaf_io stmt)
  else if has_prefix name "module_call" then
    stmt <- create_module_call_leaf name ;;
    Ok (leaf_module_call (has_prefix name "module_call_lower") stmt)
  else if has_prefix name "fifo_decl" then
    Ok (leaf_fifo_decl (create_fifo_decl_leaf name))
  else if has_prefix name "io_module" then
    let '(boundary, type) := create_io_module_call_leaf name in
    Ok (leaf_io_module_call boundary type)
  else Ok leaf_unchanged.

End Extract.

(* ================================================================== *)
(** ** The other statement names *)

(** The name of the copy statement grafted at the PE level, printed by
    [add_pe_ext_io_copies_stmt] (lines 2977-3001) and, without
    [_dummy], by [add_pe_int_io_copies] (lines 3159-3181):
    in/out[_dummy].[fifo_]array[_nr|_drain].n_lane.1 *)
Definition pe_copy_stmt_name (read dummy : bool)
    (io_group : autosa_array_ref_group) (local : autosa_local_array_info)
  : list printed :=
  [P_str (if read then "in" else "out")]
  ++ (if dummy then [P_str "_dummy"] else [])
  ++ [P_str "."]
  ++ (if negb (autosa_group_type_beq (group_type io_group) AUTOSA_PE_GROUP)
      then [P_str "fifo_"] else [])
  ++ [P_str (array_name io_group)]
  ++ (if autosa_group_type_beq (group_type io_group) AUTOSA_IO_GROUP then
        if 1 <? n_io_group local then [P_str "_"; P_int (nr io_group)] else []
      else if autosa_group_type_beq (group_type io_group) AUTOSA_DRAIN_GROUP
      then [P_str "_"; P_str "drain"]
      else [])
  ++ [P_str "."; P_int (n_lane io_group); P_str ".1"].

(** The names of the two call statements that [io_gen_module_call]
    grafts for an I/O module (lines 4187-4192 and 4242-4248). *)
Definition io_module_call_stmt_name (upper : bool) (module : autosa_hw_module)
    (boundary : bool) : list printed :=
  [P_str (if upper then "module_call_upper." else "module_call_lower.");
   P_str (isl_printer_get_str (name module))]
  ++ (if boundary then [P_str ".boundary"] else []).

(** The name of the call statement of the PE module
    ([top_module_pe_gen_module_call], lines 3919-3922). *)
Definition pe_module_call_stmt_name (module : autosa_hw_module)
  : list printed :=
  [P_str "module_call."; P_str (isl_printer_get_str (name module))].

(** The name of the call statement of a PE dummy module
    ([pe_dummy_gen_module_call], lines 3827-3831); [prefix] is what
    [autosa_array_ref_group_print_prefix] prints for the group. *)
Definition pe_dummy_module_call_stmt_name (prefix : string) : list printed :=
  [P_str "module_call."; P_str prefix; P_str "_PE_dummy"].

(** The names of the fifo declaration statements (lines 4028-4031,
    4060-4063, 4414-4417 and 4444-4447). *)
Definition fifo_decl_stmt_name (boundary : bool) (fifo : string)
  : list printed :=
  [P_str (if boundary then "fifo_decl_boundary." else "fifo_decl.");
   P_str fifo].

(* ================================================================== *)
(** ** Notions for the statement names *)

(** The bytes that follow the [n]-th dot of a C string, if it has that
    many dots before its terminator. *)
Fixpoint after_dots (s : string) (n : nat) {struct s} : option string :=
  match n with
  | O => Some s
  | S m =>
      match s with
      | EmptyString => None
      | String c s' =>
          if (c =? NUL)%char then None
          else if (c =? ".")%char then after_dots s' m
          else after_dots s' n
      end
  end.

(** The [k]-th field of a name whose fields are separated by dots,
    counted from 0. *)
Definition dot_field (k : nat) (type : string) : option string :=
  option_map scan_field (after_dots type k).

(** A string without a dot and without a NUL byte: one field. *)
Fixpoint plain (s : string) : bool :=
  match s with
  | EmptyString => true
  | String c s' => negb (c =? NUL)%char && negb (c =? ".")%char && plain s'
  end.

(** A string without a NUL byte. *)
Fixpoint no_nul (s : string) : bool :=
  match s with
  | EmptyString => true
  | String c s' => negb (c =? NUL)%char && no_nul s'
  end.

(** The values of type [int]. *)
Definition is_int (z : Z) : Prop := -2147483648 <= z <= 2147483647.

(** The names of the I/O statements of a module schedule. *)
Definition stmt_name_of (s : sched_stmt) : option (list printed) :=
  match s with
  | io_copies_stmt_acc _ _ _ stmt_name _ _ => Some stmt_name
  | io_copies_stmt_tile _ _ _ _ stmt_name _ _ _ => Some stmt_name
  | _ => None
  end.

(** The names of the call statements of a module schedule. *)
Definition call_name_of (s : sched_stmt) : option string :=
  match s with
  | call_stmt stmt_name => Some stmt_name
  | _ => None
  end.

(** The name made of the given fields, separated by dots. *)
Fixpoint dotted (fields : list string) : string :=
  match fields with
  | [] => EmptyString
  | [f] => f
  | f :: fs => f ++ String "."%char (dotted fs)
  end.

Definition digit_of_bool (b : bool) : string := if b then "1" else "0".

(** The fields of the name of a transfer statement between I/O
    modules; [nxt] is the second packing width and [cd] the pair of the
    coalesce depth and bound, when they are printed. *)
Definition transfer_name_fields (read to_mem boundary : bool)
    (fifo_suffix : string) (is_filter is_buffer : bool)
    (depth space_dim io_level n_lane nxt : Z) (cd : option (Z * Z))
  : list string :=
  [ ((if read then "in_trans" else "out_trans")
     ++ (if to_mem then "_dram" else "")
     ++ (if boundary then "_boundary" else ""))%string;
    (if to_mem then fifo_suffix ++ "_local" else fifo_suffix)%string;
    digit_of_bool is_filter;
    digit_of_bool is_buffer;
    print_int (depth - 1);
    print_int (space_dim - io_level);
    print_int n_lane;
    print_int nxt ]
  ++ match cd with
     | Some c => [print_int (fst c); print_int (snd c)]
     | None => []
     end.

(** The name of a transfer statement as the schedule builders print
    it: the head, the second packing width and, for the transfer of a
    tile, the coalesce depth and bound. *)
Definition transfer_stmt_name (read to_mem boundary : bool)
    (fifo_suffix : string) (is_filter is_buffer : bool)
    (depth space_dim io_level n_lane nxt : Z) (cd : option (Z * Z))
  : list printed :=
  trans_stmt_head read to_mem boundary fifo_suffix is_filter is_buffer
    depth space_dim io_level n_lane
  ++ [P_str "."; P_int nxt]
  ++ match cd with
     | Some c => coalesce_suffix c
     | None => []
     end.

(** The same for the transfer towards the lower level. *)
Definition local_stmt_name (read : bool) (fifo_suffix : string)
    (is_buffer : bool) (n_lane nxt : Z) (cd : option (Z * Z))
  : list printed :=
  local_stmt_head read fifo_suffix is_buffer n_lane
  ++ [P_str "."; P_int nxt]
  ++ match cd with
     | Some c => coalesce_suffix c
     | None => []
     end.

(** The statement [create_io_leaf] is expected to build for a transfer
    statement. *)
Definition transfer_stmt (read to_mem boundary : bool)
    (fifo_suffix : string) (is_filter is_buffer : bool)
    (sched_depth param_id n_lane nxt : Z) (cd : option (Z * Z))
    (local_tile : option autosa_array_tile) : autosa_kernel_stmt_io :=
  {| i_type := if to_mem then AUTOSA_KERNEL_STMT_IO_DRAM
               else AUTOSA_KERNEL_STMT_IO_TRANSFER;
     i_dummy := 0;
     i_in := int_of_bool read;
     i_buf := int_of_bool is_buffer;
     i_filter := int_of_bool is_filter;
     i_data_pack := n_lane;
     i_nxt_data_pack := nxt;
     i_coalesce_depth := match cd with Some c => fst c | None => -1 end;
     i_coalesce_bound := match cd with Some c => snd c | None => -1 end;
     i_reg := match local_tile with Some _ => 0 | None => 1 end;
     i_fifo_name :=
       (if to_mem then fifo_suffix ++ "_local" else fifo_suffix)%string;
     i_filter_sched_depth :=
       if to_mem then 0 else if is_filter then sched_depth else -1;
     i_filter_param_id :=
       if to_mem then 0 else if is_filter then param_id else -1;
     i_boundary := if to_mem then 0 else int_of_bool boundary |}.

(** The number of dots of a C string. *)
Fixpoint count_dots (s : string) : nat :=
  match s with
  | EmptyString => O
  | String c s' =>
      if (c =? NUL)%char then O
      else if (c =? ".")%char then S (count_dots s')
      else count_dots s'
  end.

(** Every number printed in a name is an [int]. *)
Definition ints_of (p : list printed) : Prop :=
  Forall (fun x => match x with P_int z => is_int z | P_str _ => True end) p.

(** The fields of the name of a transfer statement towards the lower
    level. *)
Definition local_name_fields (read : bool) (fifo_suffix : string)
    (is_buffer : bool) (n_lane nxt : Z) (cd : option (Z * Z))
  : list string :=
  [ (if read then "out_trans" else "in_trans");
    (fifo_suffix ++ "_local")%string;
    "0";
    digit_of_bool is_buffer;
    "-1";
    "-1";
    print_int n_lane;
    print_int nxt ]
  ++ match cd with
     | Some c => [print_int (fst c); print_int (snd c)]
     | None => []
     end.

(** The last byte of a string. *)
Fixpoint last_char (s : string) : ascii :=
  match s with
  | EmptyString => NUL
  | String c EmptyString => c
  | String _ s' => last_char s'
  end.

(** The name of a group in the statement names of the PE level:
    [fifo_]array[_nr|_drain]. *)
Definition pe_fifo_field (io_group : autosa_array_ref_group)
    (local : autosa_local_array_info) : string :=
  ((if negb (autosa_group_type_beq (group_type io_group) AUTOSA_PE_GROUP)
    then "fifo_" else "")
   ++ array_name io_group
   ++ (if autosa_group_type_beq (group_type io_group) AUTOSA_IO_GROUP then
         if (1 <? n_io_group local)%Z
         then "_" ++ print_int (nr io_group) else ""
       else if autosa_group_type_beq (group_type io_group) AUTOSA_DRAIN_GROUP
       then "_drain"
       else ""))%string.

(** The leaf that [at_domain_module] makes of a statement of a module
    schedule that is called by its name. *)
Definition call_leaf_of (char_signed : bool) (s : sched_stmt)
  : option (res domain_leaf) :=
  match s with
  | call_stmt stmt_name =>
      Some (at_domain_module char_signed false stmt_name None "")
  | _ => None
  end.

(** The local tile handed to [autosa_create_io_access_stmt] for an I/O
    statement of a module schedule. *)
Definition stmt_local_tile (s : sched_stmt) : option autosa_array_tile :=
  match s with
  | io_copies_stmt_acc tile _ _ _ _ _ => tile
  | io_copies_stmt_tile local_tile _ _ _ _ _ _ _ => local_tile
  | _ => None
  end.

(** The statement that [create_io_leaf] builds for an I/O statement of a
    module schedule: the name goes through
    [autosa_create_io_access_stmt] and comes back as the name of the
    tuple.  For a statement grafted for each reference with the
    dependence mark asked for, [add_io_copies_stmt_acc_single] may
    extend the name; such a statement is left out. *)
Definition io_leaf_of (char_signed : bool) (local_name : string)
    (s : sched_stmt) : option (res autosa_kernel_stmt_io) :=
  match s with
  | io_copies_stmt_acc tile _ _ stmt_name _ false =>
      Some (type <- autosa_create_io_access_stmt
                      (isl_printer_get_str stmt_name) ;;
            create_io_leaf char_signed type tile local_name)
  | io_copies_stmt_tile local_tile _ _ _ stmt_name _ _ _ =>
      Some (type <- autosa_create_io_access_stmt
                      (isl_printer_get_str stmt_name) ;;
            create_io_leaf char_signed type local_tile local_name)
  | _ => None
  end.

(* ================================================================== *)
(** ** AST expressions *)

(** The operations of [isl_ast_op_type] that the code tests or builds. *)
Inductive isl_ast_op_type :=
| isl_ast_op_access
| isl_ast_op_member
| isl_ast_op_mul
| isl_ast_op_add
| isl_ast_op_call.

(** An AST expression of isl: an identifier, an integer or an operation
    with its arguments.  A pointer to an expression is an [option]. *)
#[warnings="-register-all"]
Inductive isl_ast_expr :=
| isl_ast_expr_id (id : string)
| isl_ast_expr_int (v : Z)
| isl_ast_expr_op (op : isl_ast_op_type) (args : list isl_ast_expr).

(** [isl_ast_expr_get_op_arg]: NULL for a NULL expression, for an
    expression that is no operation and for a position out of range. *)
Definition isl_ast_expr_get_op_arg (expr : option isl_ast_expr) (pos : Z)
  : option isl_ast_expr :=
  match expr with
  | Some (isl_ast_expr_op _ args) =>
      if pos <? 0 then None else nth_error args (Z.to_nat pos)
  | _ => None
  end.

Fixpoint list_set {A} (l : list A) (n : nat) (a : A) : option (list A) :=
  match l, n with
  | [], _ => None
  | _ :: l', O => Some (a :: l')
  | x :: l', S k =>
      match list_set l' k a with
      | Some r => Some (x :: r)
      | None => None
      end
  end.

(** [isl_ast_expr_set_op_arg]. *)
Definition isl_ast_expr_set_op_arg (expr : option isl_ast_expr) (pos : Z)
    (arg : option isl_ast_expr) : option isl_ast_expr :=
  match expr, arg with
  | Some (isl_ast_expr_op op args), Some a =>
      if pos <? 0 then None
      else match list_set args (Z.to_nat pos) a with
           | Some args' => Some (isl_ast_expr_op op args')
           | None => None
           end
  | _, _ => None
  end.

(** [isl_ast_expr_get_type(e) == isl_ast_expr_op
     && isl_ast_expr_get_op_type(e) == isl_ast_op_member] *)
Definition is_member_access (e : option isl_ast_expr) : bool :=
  match e with
  | Some (isl_ast_expr_op isl_ast_op_member _) => true
  | _ => false
  end.

(** [isl_ast_expr_mul], [isl_ast_expr_add]: a binary operation, NULL if
    an argument is NULL. *)
Definition isl_ast_expr_mul (a b : option isl_ast_expr)
  : option isl_ast_expr :=
  match a, b with
  | Some x, Some y => Some (isl_ast_expr_op isl_ast_op_mul [x; y])
  | _, _ => None
  end.

Definition isl_ast_expr_add (a b : option isl_ast_expr)
  : option isl_ast_expr :=
  match a, b with
  | Some x, Some y => Some (isl_ast_expr_op isl_ast_op_add [x; y])
  | _, _ => None
  end.

(** [isl_ast_expr_access(array, isl_ast_expr_list_from_ast_expr(index))]. *)
Definition isl_ast_expr_access1 (array index : option isl_ast_expr)
  : option isl_ast_expr :=
  match array, index with
  | Some a, Some i => Some (isl_ast_expr_op isl_ast_op_access [a; i])
  | _, _ => None
  end.

(** The fields of [struct autosa_local_array_info] that the
    linearization reads. *)
Record autosa_array_bounds := {
  n_index : Z;
  bound_expr : option isl_ast_expr
}.

(** [dereference] (lines 5740-5770). *)
Fixpoint dereference (expr : isl_ast_expr) : option isl_ast_expr :=
  match expr with
  | isl_ast_expr_op op (arg0 :: rest) =>
      match arg0 with
      | isl_ast_expr_op isl_ast_op_member margs =>
          match margs with
          | arg :: mrest =>
              (* arg = isl_ast_expr_get_op_arg(arg0, 0);
                 arg = dereference(arg); *)
              let arg := dereference arg in
              let arg0 := isl_ast_expr_set_op_arg (Some arg0) 0 arg in
              isl_ast_expr_set_op_arg (Some expr) 0 arg0
          | [] => None
          end
      | _ =>
          let res := Some (isl_ast_expr_int 0) in
          isl_ast_expr_access1 (isl_ast_expr_get_op_arg (Some expr) 0) res
      end
  | _ => None   (* arg0 is NULL: return isl_ast_expr_free(expr) *)
  end.

(** The loop of the linearization,
    [for (i = 1; i < array->n_index; ++i) {
       expr_i = isl_ast_expr_get_op_arg(array->bound_expr, 1 + i);
       res = isl_ast_expr_mul(res, expr_i);
       if (i + 1 >= n) continue;
       expr_i = isl_ast_expr_get_op_arg(expr, i + 1);
       res = isl_ast_expr_add(res, expr_i); }]
    with [count] iterations left. *)
Fixpoint linearize_loop (count : nat) (i n : Z)
    (array : autosa_array_bounds) (expr res : option isl_ast_expr)
  : option isl_ast_expr :=
  match count with
  | O => res
  | S c =>
      let expr_i := isl_ast_expr_get_op_arg (bound_expr array) (1 + i) in
      let res := isl_ast_expr_mul res expr_i in
      let res :=
        if i + 1 >=? n then res
        else isl_ast_expr_add res (isl_ast_expr_get_op_arg expr (i + 1)) in
      linearize_loop c (i + 1) n array expr res
  end.

(** [autosa_local_array_info_linearize_index] (lines 5807-5857).  For
    an expression without a first argument every later call of isl
    fails and the result is NULL. *)
Fixpoint autosa_local_array_info_linearize_index
    (array : autosa_array_bounds) (expr : isl_ast_expr)
  : option isl_ast_expr :=
  match expr with
  | isl_ast_expr_op op (arg0 :: rest) =>
      match arg0 with
      | isl_ast_expr_op isl_ast_op_member margs =>
          match margs with
          | arg :: mrest =>
              let arg := autosa_local_array_info_linearize_index array arg in
              let arg0 := isl_ast_expr_set_op_arg (Some arg0) 0 arg in
              isl_ast_expr_set_op_arg (Some expr) 0 arg0
          | [] => None
          end
      | _ =>
          let n := Z.of_nat (List.length (arg0 :: rest)) in
          if n =? 1 then Some expr
          else
            let res := isl_ast_expr_get_op_arg (Some expr) 1 in
            let res :=
              linearize_loop (Z.to_nat (n_index array - 1)) 1 n array
                (Some expr) res in
            if 1 + n_index array >? n then
              isl_ast_expr_add (isl_ast_expr_get_op_arg (Some expr) 0) res
            else
              isl_ast_expr_access1 (isl_ast_expr_get_op_arg (Some expr) 0) res
      end
  | _ => None
  end.

(* ================================================================== *)
(** ** Notions for the AST expressions *)

(** The value of an index expression for given values of the
    identifiers; the other operations have none. *)
Fixpoint ast_eval (env : string -> Z) (e : isl_ast_expr) : option Z :=
  match e with
  | isl_ast_expr_id id => Some (env id)
  | isl_ast_expr_int v => Some v
  | isl_ast_expr_op isl_ast_op_mul [a; b] =>
      match ast_eval env a, ast_eval env b with
      | Some x, Some y => Some (x * y)
      | _, _ => None
      end
  | isl_ast_expr_op isl_ast_op_add [a; b] =>
      match ast_eval env a, ast_eval env b with
      | Some x, Some y => Some (x + y)
      | _, _ => None
      end
  | _ => None
  end.

(** The offset of the element [A[i_0]...[i_n]] of an array with the
    bounds [b_0, ..., b_n], its rows laid out one after the other. *)
Fixpoint row_major (idx bounds : list Z) : Z :=
  match idx, bounds with
  | i :: idx', _ :: bounds' =>
      i * fold_right Z.mul 1 bounds' + row_major idx' bounds'
  | _, _ => 0
  end.

(** The expression [wrap arg]: an operation whose first argument is the
    member access [arg.field]. *)
Definition member_wrap (op : isl_ast_op_type) (mrest rest : list isl_ast_expr)
    (arg : isl_ast_expr) : isl_ast_expr :=
  isl_ast_expr_op op (isl_ast_expr_op isl_ast_op_member (arg :: mrest) :: rest).

(** A chain of member accesses around an expression, the outermost
    first. *)
Fixpoint member_chain
    (ws : list (isl_ast_op_type * list isl_ast_expr * list isl_ast_expr))
    (base : isl_ast_expr) : isl_ast_expr :=
  match ws with
  | [] => base
  | (op, mrest, rest) :: ws' => member_wrap op mrest rest (member_chain ws' base)
  end.

(* ================================================================== *)
(** ** Notions for the statement name of [add_io_copies_stmt_acc] *)

(** A node at which a copy statement is grafted: a leaf of the
    statement of the reference with a communicated access that is not
    empty. *)
Definition acc_hit (v : acc_visit) : bool :=
  acc_is_leaf v && acc_stmt_is_ref_stmt v
  && (isl_bool_to_int (acc_access_is_empty v) =? 0).

(** A node at which the emptiness test fails. *)
Definition acc_error (v : acc_visit) : bool :=
  acc_is_leaf v && acc_stmt_is_ref_stmt v
  && (isl_bool_to_int (acc_access_is_empty v) <? 0).

(** The number of the nodes at which a copy statement is grafted, up to
    the first node at which the emptiness test fails. *)
Fixpoint hits_before_error (visits : list acc_visit) : nat :=
  match visits with
  | [] => O
  | v :: rest =>
      if acc_error v then O
      else ((if acc_hit v then 1 else 0) + hits_before_error rest)%nat
  end.

(** A leaf of the statement of the reference with a communicated
    access, under a band of two members with the upper bounds 8 and 16
    at schedule depth 3. *)
Definition sample_acc_visit : acc_visit :=
  {| acc_is_leaf := true;
     acc_stmt_is_ref_stmt := true;
     acc_access_is_empty := isl_bool_false;
     acc_stride_one := isl_bool_true;
     acc_band := Some {| band_depth := 3; band_n_member := 2;
                         band_ubs := [8; 16] |} |}.

(* ================================================================== *)
(** ** Notions for the modules of a chain *)

(** The fields that [sa_io_module_gen] assigns to a module before it
    builds the schedules of the module. *)
Definition module_header (m : autosa_hw_module)
  : list printed * bool * bool * Z * Z :=
  (name m, to_pe m, to_mem m, credit m, n_array_ref m).

(** A module carries the name that [generate_io_module_name] prints
    for its level and direction. *)
Definition named_by (group : autosa_array_ref_group)
    (local : autosa_local_array_info) (m : autosa_hw_module) : Prop :=
  name m = generate_io_module_name group local (level m) (in_ m).

(** The connections of a module of a chain: to the PEs at the innermost
    level, to the memory at the outermost level, and no credit away
    from the memory. *)
Definition connected_by (group : autosa_array_ref_group)
    (m : autosa_hw_module) : Prop :=
  to_pe m = (level m =? innermost_of group)
  /\ to_mem m = (level m =? io_level group)
  /\ (to_mem m = false -> credit m = 0).

(** The numbers [from], [from + 1], ... *)
Fixpoint count_from (n : nat) (from : Z) : list Z :=
  match n with
  | O => []
  | S k => from :: count_from k (from + 1)
  end.

(* ================================================================== *)
(** ** Notions for the completion of the generation *)

(** The faults that can end a run of the copy statements: the copy of
    a name into [char buf[100]] or the read of [ubs[n - 1]] out of
    bounds, a division, and the read or the release of a name that was
    released before. *)
Definition copy_fault_kind (f : fault) : bool :=
  match f with
  | OutOfBounds | DivByZero | IntOverflow | UseAfterFree | DoubleFree => true
  | _ => false
  end.

Section Completes.
Context {Ty : IslTypes} {Ops : IslOps}.

(** A fault that ends a run of [add_io_copies_stmt_acc], or of
    [add_io_copies_stmt_tile] for a tile, on the schedule of a
    module. *)
Inductive copies_fault (f : fault) : Prop :=
| copies_fault_acc (module : autosa_hw_module)
    (group : autosa_array_ref_group) (depth : Z) (read : bool) (n_lane : Z)
    (stmt_name : string) (insert_dependence : bool) :
    add_io_copies_stmt_acc true
      (io_subtree_traversals module group depth read) n_lane stmt_name
      insert_dependence = Crash f ->
    copies_fault f
| copies_fault_tile (module : autosa_hw_module)
    (group : autosa_array_ref_group) (depth : Z) (read : bool)
    (tile : autosa_array_tile) (stmt_name : string) :
    add_io_copies_stmt_tile true
      (io_comm_access_empty module group depth read) (Some tile) stmt_name
      = Crash f ->
    copies_fault f.

(** A run completes with a result that meets [Q], or it stops inside
    the copy statements. *)
Definition completes_or_copies_fault {A} (Q : A -> Prop) (r : res A) : Prop :=
  match r with
  | Ok a => Q a
  | Crash f => copies_fault f
  end.

End Completes.

(** * Properties *)

(** ** The result monad *)


Lemma bind_Ok {A B} (r : res A) (k : A -> res B) (b : B) :
  bind r k = Ok b -> exists a, r = Ok a /\ k a = Ok b.
Proof.
  destruct r as [a|f]; simpl; intros H.
  - exists a. split; [reflexivity | exact H].
  - discriminate.
Qed.

(** Inversion of a successful run. *)
Tactic Notation "inv_bind" hyp(H) "as" simple_intropattern(p) ident(E) :=
  apply bind_Ok in H; destruct H as [p [E H]].

Ltac inv_ok H := injection H; clear H; intros; subst.

Ltac module_fields :=
  repeat match goal with m : autosa_hw_module |- _ => destruct m end;
  cbn; repeat split; auto.

Lemma c_true_isl_bool (b : isl_bool) :
  c_true (isl_bool_to_int b) = match b with isl_bool_false => false | _ => true end.
Proof. destruct b; reflexivity. Qed.

(** ** Validity of a module (C1) and the overlap analysis (C2) *)

Lemma isl_seq_cmp_zero (v1 v2 : list Z) :
  List.length v1 = List.length v2 -> (isl_seq_cmp v1 v2 = 0 <-> v1 = v2).
Proof.
  revert v2. induction v1 as [|x r1 IH]; intros [|y r2] Hlen; simpl in *;
    try discriminate.
  - split; reflexivity.
  - injection Hlen as Hlen. destruct (Z.eqb_spec x y) as [->|Hne].
    + rewrite (IH r2 Hlen). split; [intros ->; reflexivity | intros H; now injection H].
    + split.
      * destruct (x <? y); discriminate.
      * intros H; injection H as H _; contradiction.
Qed.

Lemma isl_vec_cmp_zero (v1 v2 : list Z) :
  isl_vec_cmp v1 v2 = 0 <-> v1 = v2.
Proof.
  unfold isl_vec_cmp.
  destruct (Z.eqb_spec (Z.of_nat (List.length v1)) (Z.of_nat (List.length v2)))
    as [Heq|Hne].
  - apply isl_seq_cmp_zero. lia.
  - split.
    + intros H. lia.
    + intros ->. contradiction.
Qed.

Section OverlapFacts.
Context {Ty : IslTypes} {Ops : IslOps}.

Lemma is_module_valid_io_info_rar (group : autosa_array_ref_group)
    (infos : list autosa_io_info) (e : Z) :
  (forall info, In info infos ->
     info_io_type info = io_type group -> info_dir info = dir group ->
     info_dep_type info = AUTOSA_DEP_RAR) ->
  is_module_valid_io_info group infos e = e.
Proof.
  induction infos as [|info rest IH]; simpl; intros H; [reflexivity|].
  destruct (autosa_io_type_beq (info_io_type info) (io_type group)) eqn:Ht;
    simpl; [|apply IH; auto].
  unfold c_true.
  destruct (Z.eqb_spec (isl_vec_cmp (info_dir info) (dir group)) 0) as [Hd|Hd];
    simpl; [|apply IH; auto].
  apply internal_autosa_io_type_dec_bl in Ht.
  apply isl_vec_cmp_zero in Hd.
  rewrite (H info (or_introl eq_refl) Ht Hd). simpl.
  apply IH; auto.
Qed.

Lemma is_module_valid_refs_rar (group : autosa_array_ref_group)
    (rs : list autosa_stmt_access) (e : Z) :
  (forall ref info, In ref rs -> In info (ref_io_info ref) ->
     info_io_type info = io_type group -> info_dir info = dir group ->
     info_dep_type info = AUTOSA_DEP_RAR) ->
  is_module_valid_refs group rs e = e.
Proof.
  revert e. induction rs as [|ref rest IH]; simpl; intros e H; [reflexivity|].
  rewrite is_module_valid_io_info_rar by (intros; eapply H; eauto).
  apply IH. intros; eapply H; eauto.
Qed.

(** C1.  A PE-local group is always valid; otherwise, when every
    dependence entry of the member references that matches the group's
    I/O type and direction is read-after-read, the module is valid for
    read (copy-in) and not valid for write (copy-out). *)
Theorem is_module_valid_pe_local_or_external
    (node : option isl_schedule_node) (kernel : autosa_kernel)
    (group : autosa_array_ref_group) (read : bool) :
  (group_type group = AUTOSA_PE_GROUP ->
   is_module_valid node kernel group read = isl_bool_true) /\
  (group_type group <> AUTOSA_PE_GROUP -> all_matching_rar group ->
   is_module_valid node kernel group read
   = if read then isl_bool_true else isl_bool_false).
Proof.
  unfold is_module_valid. split.
  - intros ->. reflexivity.
  - intros Hpe Hrar.
    destruct (autosa_group_type_beq (group_type group) AUTOSA_PE_GROUP) eqn:E.
    + apply internal_autosa_group_type_dec_bl in E. contradiction.
    + rewrite is_module_valid_refs_rar by exact Hrar. reflexivity.
Qed.

(** The analysis answers true or false, whatever the library reports. *)
Lemma internal_group_in_out_overlap_never_error
    (node : option isl_schedule_node) (kernel : autosa_kernel)
    (group : autosa_array_ref_group) (read : bool) :
  internal_group_in_out_overlap node kernel group read <> isl_bool_error.
Proof.
  unfold internal_group_in_out_overlap.
  destruct (overlap_external node kernel group read) as [[access external] e].
  destruct (c_true _); discriminate.
Qed.

(** When no computation fails, the answer is the emptiness of the
    intersection of the accesses with the remaining external accesses. *)
Lemma internal_group_in_out_overlap_determinate
    (node : option isl_schedule_node) (kernel : autosa_kernel)
    (group : autosa_array_ref_group) (read : bool) access external e :
  overlap_external node kernel group read = (access, external, e) ->
  isl_union_map_is_empty (isl_union_map_intersect access external)
    <> isl_bool_error ->
  internal_group_in_out_overlap node kernel group read
  = isl_union_map_is_empty (isl_union_map_intersect access external).
Proof.
  intros H Hne. unfold internal_group_in_out_overlap. rewrite H.
  rewrite c_true_isl_bool.
  destruct (isl_union_map_is_empty _); [contradiction | reflexivity | reflexivity].
Qed.

(** An indeterminate emptiness test of [overlap] makes [external] NULL,
    and the analysis then answers true. *)
Lemma internal_group_in_out_overlap_indeterminate
    (node : option isl_schedule_node) (kernel : autosa_kernel)
    (group : autosa_array_ref_group) (read : bool) :
  snd (overlap_external node kernel group read) < 0 ->
  internal_group_in_out_overlap node kernel group read = isl_bool_true.
Proof.
  unfold internal_group_in_out_overlap, overlap_external. cbv zeta. simpl snd.
  intros H. apply Z.ltb_lt in H. rewrite H.
  unfold isl_union_map_free, isl_union_map_intersect, lift2.
  destruct (remove_local_accesses_group_flow _ _ _ _ _); reflexivity.
Qed.

(** The kernel whose flow-dependence relation is NULL. *)
Lemma overlap_external_null_dep_flow
    (node : option isl_schedule_node) (kernel : autosa_kernel)
    (group : autosa_array_ref_group) (read : bool) :
  tagged_dep_flow (scop (prog kernel)) = None ->
  snd (overlap_external node kernel group read) = -1.
Proof.
  intros H. unfold overlap_external. cbv zeta. simpl snd. rewrite H.
  unfold isl_union_map_intersect at 1.
  match goal with |- context [lift2 um_intersect ?a None] =>
    replace (lift2 um_intersect a None) with (@None isl_union_map)
      by (destruct a; reflexivity)
  end.
  reflexivity.
Qed.

(** C2.  With a NULL flow-dependence relation both emptiness tests are
    indeterminate, and the analysis answers true instead of an error. *)
Theorem internal_group_in_out_overlap_error_answers_true
    (node : option isl_schedule_node) (kernel : autosa_kernel)
    (group : autosa_array_ref_group) (read : bool) :
  let scop0 := {| tagger := tagger (scop (prog kernel));
                  tagged_dep_flow := None;
                  context := context (scop (prog kernel)) |} in
  let kernel0 := {| prog := {| scop := scop0 |}; core := core kernel;
                    contraction := contraction kernel;
                    array := array kernel; options := options kernel |} in
  snd (overlap_external node kernel0 group read) = isl_bool_to_int isl_bool_error
  /\ internal_group_in_out_overlap node kernel0 group read = isl_bool_true.
Proof.
  intros scop0 kernel0.
  assert (H : snd (overlap_external node kernel0 group read) = -1)
    by (apply overlap_external_null_dep_flow; reflexivity).
  split; [exact H|].
  apply internal_group_in_out_overlap_indeterminate. rewrite H. lia.
Qed.

End OverlapFacts.

Lemma is_module_valid_pe_local_or_external_witness :
  is_module_valid (Ops := sample_ops isl_bool_false 2 (fun _ _ => []))
    (Some tt) (sample_kernel false [])
    (sample_group AUTOSA_PE_GROUP AUTOSA_INT_IO [raw_ref 1] sample_buffers)
    false = isl_bool_true
  /\ is_module_valid (Ops := sample_ops isl_bool_false 2 (fun _ _ => []))
       (Some tt) (sample_kernel false [])
       (sample_group AUTOSA_IO_GROUP AUTOSA_INT_IO [rar_ref] sample_buffers)
       false = isl_bool_false.
Proof.
  split.
  - apply (proj1 (is_module_valid_pe_local_or_external
                    (Ops := sample_ops isl_bool_false 2 (fun _ _ => []))
                    (Some tt) (sample_kernel false [])
                    (sample_group AUTOSA_PE_GROUP AUTOSA_INT_IO [raw_ref 1]
                       sample_buffers) false)).
    reflexivity.
  - apply (proj2 (is_module_valid_pe_local_or_external
                    (Ops := sample_ops isl_bool_false 2 (fun _ _ => []))
                    (Some tt) (sample_kernel false [])
                    (sample_group AUTOSA_IO_GROUP AUTOSA_INT_IO [rar_ref]
                       sample_buffers) false)).
    + discriminate.
    + intros ref info Hr Hi _ _.
      destruct Hr as [<-|[]]. destruct Hi as [<-|[]]. reflexivity.
Defined.

(** ** The buffer scan and the transfer statements (C5, C6) *)

Section ScheduleFacts.
Context {Ty : IslTypes} {Ops : IslOps}.

Lemma array_get_nth {A} (l : list A) (i : Z) (a : A) :
  array_get l i = Ok a <-> 0 <= i /\ nth_error l (Z.to_nat i) = Some a.
Proof.
  unfold array_get. destruct (Z.ltb_spec i 0).
  - split; [discriminate | lia].
  - destruct (nth_error l (Z.to_nat i)) as [x|].
    + split.
      * intros E; injection E as ->. split; [lia | reflexivity].
      * intros [_ E]; injection E as ->. reflexivity.
    + split; [discriminate | intros [_ E]; discriminate].
Qed.

Lemma tile_at_spec (group : autosa_array_ref_group) (k : nat) :
  tile_at group (Z.of_nat (S k))
  = match nth_error (io_buffers group) k with
    | Some b => match buf_tile b with Some _ => true | None => false end
    | None => false
    end.
Proof.
  unfold tile_at. destruct (Z.ltb_spec (Z.of_nat (S k)) 1); [lia|].
  replace (Z.to_nat (Z.of_nat (S k) - 1)) with k by lia. reflexivity.
Qed.

(** A scan over levels without a tile ends below level 1, on the buffer
    of level 1. *)
Lemma locate_buffer_loop_no_tile (group : autosa_array_ref_group) (n : nat)
    (buf : option autosa_io_buffer) :
  (n <= List.length (io_buffers group))%nat ->
  (forall k, (k < n)%nat -> tile_at group (Z.of_nat (S k)) = false) ->
  match buf with Some b => buf_tile b = None | None => True end ->
  exists buf',
    locate_buffer_loop (io_buffers group) n buf = Ok (0, buf')
    /\ match buf' with
       | Some b => buf_tile b = None
       | None => n = O /\ buf = None
       end.
Proof.
  revert buf. induction n as [|k IH]; intros buf Hlen Hno Hbuf.
  - exists buf. split; [reflexivity|]. destruct buf; auto.
  - cbn [locate_buffer_loop].
    replace (Z.of_nat (S k) - 1) with (Z.of_nat k) by lia.
    destruct (nth_error (io_buffers group) k) as [b|] eqn:Eb.
    2:{ apply nth_error_None in Eb. lia. }
    assert (Hget : array_get (io_buffers group) (Z.of_nat k) = Ok b).
    { apply array_get_nth. rewrite Nat2Z.id. split; [lia | exact Eb]. }
    rewrite Hget. cbn [bind].
    pose proof (Hno k (Nat.lt_succ_diag_r k)) as Ht.
    rewrite tile_at_spec, Eb in Ht.
    destruct (buf_tile b) eqn:Etile; [discriminate|].
    destruct (IH (Some b)) as [buf' [E Hb]]; [lia | auto | exact Etile |].
    exists buf'. split; [exact E|].
    destruct buf' as [b'|]; [exact Hb | destruct Hb as [_ Hb]; discriminate].
Qed.

(** A scan that stops with a tile stops at the first level, going down,
    that has one. *)
Lemma locate_buffer_loop_first_tile (group : autosa_array_ref_group) (n : nat)
    (buf : option autosa_io_buffer) (i : Z) (b : autosa_io_buffer) t :
  locate_buffer_loop (io_buffers group) n buf = Ok (i, Some b) ->
  buf_tile b = Some t -> 1 <= i ->
  i <= Z.of_nat n
  /\ nth_error (io_buffers group) (Z.to_nat (i - 1)) = Some b
  /\ forall j, i < j <= Z.of_nat n -> tile_at group j = false.
Proof.
  revert buf. induction n as [|k IH]; intros buf H Ht Hi.
  - cbn in H. injection H as <- _. lia.
  - cbn [locate_buffer_loop] in H.
    apply bind_Ok in H. destruct H as [b0 [Hget H]].
    apply array_get_nth in Hget. destruct Hget as [_ Hget].
    replace (Z.to_nat (Z.of_nat (S k) - 1)) with k in Hget by lia.
    destruct (buf_tile b0) eqn:E0.
    + assert (Hi' : i = Z.of_nat (S k)) by congruence.
      assert (Hb' : b = b0) by congruence. subst i b.
      split; [lia|]. split.
      * replace (Z.to_nat (Z.of_nat (S k) - 1)) with k by lia. exact Hget.
      * intros j Hj. lia.
    + destruct (IH _ H Ht Hi) as [Hle [Hnth Hno]].
      split; [lia|]. split; [exact Hnth|].
      intros j Hj. destruct (Z.eq_dec j (Z.of_nat (S k))) as [->|Hne].
      * rewrite tile_at_spec, Hget, E0. reflexivity.
      * apply Hno. lia.
Qed.

(** C5.  The buffer lookup of [generate_default_io_module_schedule]
    scans the levels from [io_level] down to 1 for a tile; the cursor is
    then moved to [buf->tile->depth] before [buf->tile] is tested, so a
    group without a tile at or below the generated level makes the
    function dereference a null tile pointer. *)
Theorem generate_default_io_module_schedule_null_tile
    (module : autosa_hw_module) (group : autosa_array_ref_group)
    (kernel : autosa_kernel) (io_level space_dim : Z)
    (is_filter is_buffer read boundary : bool) :
  1 <= io_level <= Z.of_nat (List.length (io_buffers group)) ->
  (forall i, 1 <= i <= io_level -> tile_at group i = false) ->
  generate_default_io_module_schedule module group kernel io_level space_dim
    is_filter is_buffer read boundary = Crash NullTileDeref.
Proof.
  intros Hlvl Hno.
  unfold generate_default_io_module_schedule, locate_buffer.
  destruct (Z.ltb_spec io_level 1); [lia|].
  destruct (locate_buffer_loop_no_tile group (Z.to_nat io_level) None)
    as [buf' [E Hb]]; [lia | | exact I |].
  { intros k Hk. apply Hno. lia. }
  rewrite E. cbn [bind].
  destruct buf' as [b|].
  - cbn [deref_buf bind]. rewrite Hb. reflexivity.
  - destruct Hb as [Hz _]. lia.
Qed.

Lemma int_of_long_small (z : Z) :
  -2147483648 <= z <= 2147483647 -> int_of_long z = z.
Proof.
  intros H. unfold int_of_long.
  rewrite Z.mod_small by lia. lia.
Qed.

(** C6.  When the transfer statement of a buffered (tile) level is
    generated, its name carries [coalesce_depth] and [coalesce_bound];
    [coalesce_bound] is the extent of the innermost tile dimension
    divided by the packing width, and [coalesce_depth] is -1 whenever
    [coalesce_bound <= 1].  With packing width 4, extent 16 gives bound 4
    and a depth that is not negative, extent 4 gives bound 1 and depth
    -1. *)
Theorem upper_transfer_coalesce
    (module module' : autosa_hw_module) (group : autosa_array_ref_group)
    (kernel : autosa_kernel)
    (read is_buffer tile_is_buffer : bool) (p : list printed)
    (b : autosa_io_buffer) (node_depth : Z) (tile : autosa_array_tile)
    (stmts : module_sched) :
  buf_tile b = Some tile ->
  upper_transfer module group kernel read is_buffer tile_is_buffer p b
    node_depth = Ok (module', stmts) ->
  exists extent coalesce_depth coalesce_bound insert_dependence,
    array_get (tile_bound tile) (tile_n tile - 1) = Ok extent
    /\ stmts =
         [io_copies_stmt_tile (Some tile) (Some tile) (buf_n_lane b) read
            ((p ++ [P_str "."; P_int (buf_n_lane b)])
             ++ [P_str "."; P_int coalesce_depth;
                 P_str "."; P_int coalesce_bound])
            (before_of read) tile_is_buffer insert_dependence]
    /\ coalesce_bound = int_of_long (Z.quot extent (buf_n_lane b))
    /\ (-2147483648 <= Z.quot extent (buf_n_lane b) <= 2147483647 ->
        coalesce_bound = Z.quot extent (buf_n_lane b))
    /\ (coalesce_bound <= 1 -> coalesce_depth = -1)
    /\ (1 < coalesce_bound -> coalesce_depth = node_depth + tile_n tile - 1)
    /\ (buf_n_lane b = 4 -> extent = 16 ->
        coalesce_bound = 4 /\ (0 <= node_depth -> 0 <= coalesce_depth))
    /\ (buf_n_lane b = 4 -> extent = 4 ->
        coalesce_bound = 1 /\ coalesce_depth = -1).
Proof.
  intros Ht H. unfold upper_transfer in H. rewrite Ht in H.
  apply bind_Ok in H. destruct H as [[cd cb] [Hc H]].
  apply bind_Ok in H. destruct H as [st [_ H]].
  injection H as _ <-.
  unfold coalesce in Hc.
  apply bind_Ok in Hc. destruct Hc as [extent [Hget Hc]].
  destruct (Z.eqb_spec (buf_n_lane b) 0) as [|Hn]; [discriminate|].
  injection Hc as Hcd Hcb.
  pose proof Hget as Hrange. apply array_get_nth in Hrange.
  destruct Hrange as [Hn1 _].
  exists extent, cd, cb. eexists.
  split; [exact Hget|]. split; [reflexivity|].
  split; [symmetry; exact Hcb|].
  split. { intros Hr. rewrite <- Hcb. apply int_of_long_small, Hr. }
  rewrite Hcb in Hcd.
  split. { intros Hle. apply Z.leb_le in Hle. rewrite Hle in Hcd. congruence. }
  split. { intros Hlt. destruct (Z.leb_spec cb 1); [lia | congruence]. }
  split.
  - intros E4 E16. rewrite E4, E16 in Hcb.
    change (int_of_long (Z.quot 16 4)) with 4 in Hcb. subst cb.
    split; [reflexivity|]. intros Hd. cbn in Hcd. lia.
  - intros E4 E4'. rewrite E4, E4' in Hcb.
    change (int_of_long (Z.quot 4 4)) with 1 in Hcb. subst cb.
    split; [reflexivity|]. cbn in Hcd. congruence.
Qed.

(** The statement is generated as soon as the innermost dimension of the
    tile exists and the packing width is not zero. *)
Lemma coalesce_ok (depth : Z) (tile : autosa_array_tile) (n_lane : Z) :
  1 <= tile_n tile <= Z.of_nat (List.length (tile_bound tile)) ->
  n_lane <> 0 ->
  exists cd, coalesce depth tile n_lane = Ok cd.
Proof.
  intros Hn Hl. unfold coalesce.
  destruct (nth_error (tile_bound tile) (Z.to_nat (tile_n tile - 1)))
    as [extent|] eqn:E.
  2:{ apply nth_error_None in E. lia. }
  assert (Hget : array_get (tile_bound tile) (tile_n tile - 1) = Ok extent)
    by (apply array_get_nth; split; [lia | exact E]).
  rewrite Hget. cbn [bind].
  destruct (Z.eqb_spec n_lane 0); [contradiction|]. eexists. reflexivity.
Qed.

End ScheduleFacts.

Lemma generate_default_io_module_schedule_null_tile_witness :
  generate_default_io_module_schedule
    (Ops := sample_ops isl_bool_false 2 (fun _ _ => []))
    sample_module
    (sample_group AUTOSA_IO_GROUP AUTOSA_EXT_IO [rar_ref]
       [ {| buf_level := 1; buf_n_lane := 1; buf_tile := None |};
         {| buf_level := 2; buf_n_lane := 1; buf_tile := None |} ])
    (sample_kernel false []) 2 3 false false true false
  = Crash NullTileDeref.
Proof.
  apply generate_default_io_module_schedule_null_tile.
  - cbn. lia.
  - intros i Hi.
    assert (Hc : i = 1 \/ i = 2) by lia.
    destruct Hc as [-> | ->]; reflexivity.
Defined.

Lemma upper_transfer_coalesce_witness :
  exists extent coalesce_depth coalesce_bound insert_dependence,
    array_get [16] (1 - 1) = Ok extent
    /\ [io_copies_stmt_tile (Some (sample_tile 16 3)) (Some (sample_tile 16 3))
          4 true ([P_str "in_trans"] ++ [P_str "."; P_int 4]
                  ++ [P_str "."; P_int 3; P_str "."; P_int 4])
          1 false false]
       = [io_copies_stmt_tile (Some (sample_tile 16 3)) (Some (sample_tile 16 3))
            4 true
            (([P_str "in_trans"] ++ [P_str "."; P_int 4])
             ++ [P_str "."; P_int coalesce_depth;
                 P_str "."; P_int coalesce_bound])
            (before_of true) false insert_dependence]
    /\ coalesce_bound = int_of_long (Z.quot extent 4)
    /\ (-2147483648 <= Z.quot extent 4 <= 2147483647 ->
        coalesce_bound = Z.quot extent 4)
    /\ (coalesce_bound <= 1 -> coalesce_depth = -1)
    /\ (1 < coalesce_bound -> coalesce_depth = 3 + 1 - 1)
    /\ (4 = 4 -> extent = 16 ->
        coalesce_bound = 4 /\ (0 <= 3 -> 0 <= coalesce_depth))
    /\ (4 = 4 -> extent = 4 -> coalesce_bound = 1 /\ coalesce_depth = -1).
Proof.
  exact (upper_transfer_coalesce
           (Ops := sample_ops isl_bool_false 2 (fun _ _ => []))
           sample_module _
           (sample_group AUTOSA_IO_GROUP AUTOSA_INT_IO [rar_ref] sample_buffers)
           (sample_kernel false []) true false false
           [P_str "in_trans"]
           {| buf_level := 1; buf_n_lane := 4;
              buf_tile := Some (sample_tile 16 3) |}
           3 _ _ eq_refl eq_refl).
Defined.

(** ** What a generated module records *)

Lemma same_kind_refl m : same_kind m m.
Proof. unfold same_kind; repeat split. Qed.

Lemma same_kind_trans m1 m2 m3 :
  same_kind m1 m2 -> same_kind m2 m3 -> same_kind m1 m3.
Proof.
  unfold same_kind. intros H1 H2.
  destruct H1 as (?&?&?&?&?&?&?&?), H2 as (?&?&?&?&?&?&?&?).
  repeat split; congruence.
Qed.

Section GenFacts.
Context {Ty : IslTypes} {Ops : IslOps}.

Lemma upper_transfer_same_kind module group kernel read is_buffer tib p b d
    m' s :
  upper_transfer module group kernel read is_buffer tib p b d = Ok (m', s) ->
  same_kind module m'.
Proof.
  unfold upper_transfer. intros H.
  destruct (buf_tile b).
  - inv_bind H as cd Ec. inv_bind H as st Er. clear Er. inv_ok H.
    unfold same_kind. module_fields.
  - inv_bind H as st Er. clear Er. inv_ok H. unfold same_kind. module_fields.
Qed.

Lemma lower_transfer_same_kind module group kernel read is_buffer tib p b d
    m' buf s :
  lower_transfer module group kernel read is_buffer tib p b d
    = Ok (m', buf, s) ->
  same_kind module m'.
Proof.
  unfold lower_transfer. intros H.
  inv_bind H as [i0 buf0] E. inv_bind H as b0 Eb.
  destruct (buf_level b =? 1), (buf_tile b0).
  - inv_bind H as st Er. clear Er. inv_ok H. unfold same_kind. module_fields.
  - inv_bind H as st Er. clear Er. inv_ok H. unfold same_kind. module_fields.
  - inv_bind H as cd Ec. inv_bind H as st Er. clear Er. inv_ok H.
    unfold same_kind. module_fields.
  - inv_bind H as st Er. clear Er. inv_ok H. unfold same_kind. module_fields.
Qed.


Lemma locate_buffer_loop_le bufs n buf i buf' :
  locate_buffer_loop bufs n buf = Ok (i, buf') -> 0 <= i <= Z.of_nat n.
Proof.
  revert buf. induction n as [|k IH]; intros buf H.
  - cbn in H. inv_ok H. lia.
  - cbn [locate_buffer_loop] in H. inv_bind H as b Eb.
    destruct (buf_tile b).
    + assert (i = Z.of_nat (S k)) by congruence. lia.
    + apply IH in H. lia.
Qed.

(** The scan stops at the level it starts from exactly when that level
    has a tile. *)
Lemma locate_buffer_hit group io_level i buf :
  1 <= io_level ->
  locate_buffer group io_level None = Ok (i, buf) ->
  (i =? io_level) = tile_at group io_level.
Proof.
  intros Hl H. unfold locate_buffer in H.
  destruct (Z.ltb_spec io_level 1); [lia|].
  destruct (Z.to_nat io_level) as [|k] eqn:En; [lia|].
  assert (Hk : io_level = Z.of_nat (S k)) by lia.
  rewrite Hk, tile_at_spec.
  cbn [locate_buffer_loop] in H. inv_bind H as b E.
  apply array_get_nth in E. destruct E as [_ E].
  replace (Z.to_nat (Z.of_nat (S k) - 1)) with k in E by lia.
  rewrite E.
  destruct (buf_tile b).
  - assert (i = Z.of_nat (S k)) by congruence. subst i. apply Z.eqb_refl.
  - apply locate_buffer_loop_le in H. apply Z.eqb_neq. lia.
Qed.

Lemma degrade_is_buffer_spec is_buffer i io_level :
  degrade_is_buffer is_buffer i io_level = is_buffer && (i =? io_level).
Proof.
  unfold degrade_is_buffer. destruct is_buffer, (i =? io_level); reflexivity.
Qed.

Lemma inter_trans_same_kind module group kernel io_level space_dim read bd
    m' s :
  generate_io_module_inter_trans module group kernel io_level space_dim
    read bd = Ok (m', s) ->
  same_kind module m'.
Proof.
  unfold generate_io_module_inter_trans. intros H.
  destruct (to_mem module); [discriminate|].
  inv_bind H as [i buf] E. inv_bind H as b Eb.
  eapply upper_transfer_same_kind; eauto.
Qed.

Lemma intra_trans_same_kind module group kernel io_level space_dim read isb
    m' s :
  generate_io_module_intra_trans module group kernel io_level space_dim
    read isb = Ok (m', s) ->
  same_kind module m'.
Proof.
  unfold generate_io_module_intra_trans. intros H.
  destruct (to_mem module); [discriminate|].
  inv_bind H as [i buf] E. inv_bind H as b Eb.
  inv_bind H as [[m1 b1] s1] E1. inv_ok H.
  eapply lower_transfer_same_kind; eauto.
Qed.

Lemma module_info_same_kind m m' group io_level isf isb read :
  module_info m group io_level isf isb read -> same_kind m m' ->
  module_info m' group io_level isf isb read.
Proof.
  unfold module_info, same_kind.
  intros (?&?&?&?&?) (?&?&?&?&?&?&?&?). repeat split; congruence.
Qed.

Lemma set_boundary_same_info m group io_level isf isb read :
  module_info m group io_level isf isb read ->
  module_info (set_boundary true m) group io_level isf isb read.
Proof. unfold module_info. destruct m; cbn. auto. Qed.

Lemma outer_info module group kernel io_level space_dim read m' s :
  generate_io_module_outer module group kernel io_level space_dim
    read false = Ok (m', s) ->
  module_info m' group io_level true true read
  /\ to_mem m' = to_mem module /\ boundary m' = boundary module.
Proof.
  unfold generate_io_module_outer. intros H.
  destruct (to_mem module) eqn:Em; [discriminate|].
  cbn [negb] in H. inv_bind H as [i buf] E. inv_bind H as b Eb. inv_ok H.
  unfold module_info, create_io_module_vars. module_fields.
Qed.

Lemma outer_boundary_same_kind module group kernel io_level space_dim read
    m' s :
  generate_io_module_outer module group kernel io_level space_dim
    read true = Ok (m', s) ->
  m' = module.
Proof.
  unfold generate_io_module_outer. intros H.
  destruct (to_mem module) eqn:Em; [discriminate|].
  cbn [negb] in H. inv_ok H. reflexivity.
Qed.

Lemma filter_buffer_info module group local kernel io_level space_dim
    isf isb read m' :
  generate_filter_buffer_io_module module group local kernel io_level
    space_dim isf isb read = Ok m' ->
  module_info m' group io_level true true read.
Proof.
  unfold generate_filter_buffer_io_module. intros H.
  set (m0 := if double_buffer (options kernel) then _ else _) in H.
  inv_bind H as [m1 sched2] E1.
  inv_bind H as [m2 bsched2] E2.
  inv_bind H as [m3 sched3] E3.
  inv_bind H as [m4 sched1] E4.
  inv_bind H as [m5 bsched1] E5.
  assert (H4 : module_info m4 group io_level true true read)
    by (eapply outer_info; eauto).
  assert (H5 : module_info m5 group io_level true true read).
  { destruct isf.
    - inv_bind E5 as [m6 s6] E6. inv_ok E5.
      apply outer_boundary_same_kind in E6. subst m5.
      apply set_boundary_same_info. exact H4.
    - inv_ok E5. exact H4. }
  clear - H H5.
  destruct (boundary _).
  - destruct bsched1, bsched2; try discriminate. inv_ok H.
    unfold module_info in *. destruct m5; cbn in *. exact H5.
  - inv_ok H. unfold module_info in *. destruct m5; cbn in *. exact H5.
Qed.

Lemma default_schedule_info module group kernel io_level space_dim isf isb
    read m' :
  1 <= io_level ->
  generate_default_io_module_schedule module group kernel io_level space_dim
    isf isb read false = Ok m' ->
  module_info m' group io_level isf (isb && tile_at group io_level) read
  /\ to_mem m' = to_mem module.
Proof.
  unfold generate_default_io_module_schedule. intros Hl H.
  inv_bind H as [i buf] E.
  rewrite degrade_is_buffer_spec, (locate_buffer_hit group io_level i buf Hl E) in H.
  inv_bind H as b Eb. inv_bind H as t Et. inv_bind H as [m1 s1] E1.
  inv_bind H as [[m2 buf2] s2] E2.
  assert (K1 : same_kind module m1) by (eapply upper_transfer_same_kind; eauto).
  assert (K2 : same_kind m1 m2).
  { destruct (isb && tile_at group io_level).
    - eapply lower_transfer_same_kind; eauto.
    - inv_ok E2. apply same_kind_refl. }
  pose proof (same_kind_trans _ _ _ K1 K2) as K.
  destruct K as (_&_&_&_&_&Km&_&_).
  cbn [negb] in H.
  destruct (isb && tile_at group io_level).
  - inv_bind H as [i3 buf3] E3. inv_bind H as b3 Eb3. inv_ok H.
    unfold module_info, create_io_module_vars.
    clear - Km. destruct m2; cbn in *. repeat split; auto.
  - inv_ok H. unfold module_info.
    clear - Km. destruct m2; cbn in *. repeat split; auto.
Qed.

Lemma default_schedule_boundary_same_kind module group kernel io_level
    space_dim isf isb read m' :
  generate_default_io_module_schedule module group kernel io_level space_dim
    isf isb read true = Ok m' ->
  same_kind module m'.
Proof.
  unfold generate_default_io_module_schedule. intros H.
  inv_bind H as [i buf] E.
  inv_bind H as b Eb. inv_bind H as t Et. inv_bind H as [m1 s1] E1.
  inv_bind H as [[m2 buf2] s2] E2.
  assert (K1 : same_kind module m1) by (eapply upper_transfer_same_kind; eauto).
  assert (K2 : same_kind m1 m2).
  { destruct (degrade_is_buffer isb i io_level).
    - eapply lower_transfer_same_kind; eauto.
    - inv_ok E2. apply same_kind_refl. }
  cbn [negb] in H. inv_ok H.
  eapply same_kind_trans; [exact K1|].
  eapply same_kind_trans; [exact K2|].
  unfold same_kind. destruct m2; cbn. repeat split.
Qed.

(** What [generate_io_module_by_type] records in the module it returns. *)
Lemma generate_io_module_by_type_info module group local kernel io_level
    space_dim isf isb read m' :
  1 <= io_level ->
  generate_io_module_by_type module group local kernel io_level space_dim
    isf isb read = Ok m' ->
  module_info m' group io_level isf
    (if isf && isb then true else isb && tile_at group io_level) read.
Proof.
  unfold generate_io_module_by_type. intros Hl H.
  destruct (isf && isb) eqn:Efb.
  - apply andb_true_iff in Efb. destruct Efb as [-> ->].
    eapply filter_buffer_info; eauto.
  - unfold generate_default_io_module in H. inv_bind H as m1 E.
    apply default_schedule_info in E; [|exact Hl]. destruct E as [E _].
    destruct isf.
    + apply default_schedule_boundary_same_kind in H.
      eapply module_info_same_kind; [|exact H].
      apply set_boundary_same_info. exact E.
    + inv_ok H. exact E.
Qed.

End GenFacts.

(** ** The levels of a chain *)

Section LoopFacts.
Context {Ty : IslTypes} {Ops : IslOps}.

Lemma classify_in_array_type group l1 l2 kernel i :
  array_type l1 = array_type l2 ->
  classify_is_buffer_in group l1 kernel i = classify_is_buffer_in group l2 kernel i.
Proof. unfold classify_is_buffer_in. intros ->. reflexivity. Qed.

Lemma chain_module_array_type read group l1 l2 kernel i m :
  array_type l1 = array_type l2 ->
  chain_module read group l1 kernel i m -> chain_module read group l2 kernel i m.
Proof.
  intros Ha [isb H]. exists isb.
  destruct read; [rewrite <- (classify_in_array_type group l1 l2 kernel i Ha)|];
    exact H.
Qed.

(** One level of a chain: a module is appended exactly when the level
    lies in the range of the chain. *)
Lemma sa_io_module_gen_level_spec read group kernel credit i local ms
    local' ms' :
  1 <= i ->
  sa_io_module_gen_level read group kernel credit i (local, ms)
    = Ok (local', ms') ->
  array_type local' = array_type local
  /\ if in_chain group i
     then exists m, ms' = ms ++ [m] /\ chain_module read group local kernel i m
     else ms' = ms.
Proof.
  intros Hi H. unfold sa_io_module_gen_level in H. fold (in_chain group i) in H.
  destruct (in_chain group i).
  - inv_bind H as isb Ec. inv_bind H as m Em. inv_ok H.
    split.
    + destruct (to_mem _); [destruct local; reflexivity | reflexivity].
    + exists m. split; [reflexivity|].
      apply generate_io_module_by_type_info in Em; [|exact Hi].
      destruct Em as (Ht & Hl & Hf & Hb & Hin).
      exists isb. split.
      { destruct (if read then _ else _); [congruence | discriminate]. }
      repeat split; assumption.
  - inv_ok H. split; reflexivity.
Qed.

Lemma levels_down_spec read group kernel credit n local ms local' ms' :
  levels_down n (sa_io_module_gen_level read group kernel credit) (local, ms)
    = Ok (local', ms') ->
  array_type local' = array_type local
  /\ exists new,
       ms' = ms ++ new
       /\ Forall2 (chain_module read group local kernel)
            (filter (in_chain group) (levels_from_down n (Z.of_nat n))) new.
Proof.
  revert local ms. induction n as [|k IH]; intros local ms H.
  - cbn in H. inv_ok H. split; [reflexivity|].
    exists []. rewrite app_nil_r. split; [reflexivity | constructor].
  - cbn [levels_down] in H. inv_bind H as [l1 ms1] E1.
    apply sa_io_module_gen_level_spec in E1; [|lia]. destruct E1 as [Ha1 E1].
    apply IH in H. destruct H as [Ha2 [new [-> HF]]].
    split; [congruence|].
    cbn [levels_from_down filter].
    replace (Z.of_nat (S k) - 1) with (Z.of_nat k) by lia.
    assert (HF' : Forall2 (chain_module read group local kernel)
                    (filter (in_chain group) (levels_from_down k (Z.of_nat k)))
                    new).
    { eapply Forall2_impl; [|exact HF].
      intros a b. apply chain_module_array_type. exact Ha1. }
    destruct (in_chain group (Z.of_nat (S k))).
    + destruct E1 as [m [-> Hm]]. exists (m :: new).
      rewrite <- app_assoc. split; [reflexivity|]. constructor; assumption.
    + subst ms1. exists new. split; [reflexivity | exact HF'].
Qed.

Lemma levels_up_spec read group kernel credit n i local ms local' ms' :
  1 <= i ->
  levels_up n i (sa_io_module_gen_level read group kernel credit) (local, ms)
    = Ok (local', ms') ->
  array_type local' = array_type local
  /\ exists new,
       ms' = ms ++ new
       /\ Forall2 (chain_module read group local kernel)
            (filter (in_chain group) (levels_from_up n i)) new.
Proof.
  revert i local ms. induction n as [|k IH]; intros i local ms Hi H.
  - cbn in H. inv_ok H. split; [reflexivity|].
    exists []. rewrite app_nil_r. split; [reflexivity | constructor].
  - cbn [levels_up] in H. inv_bind H as [l1 ms1] E1.
    apply sa_io_module_gen_level_spec in E1; [|lia]. destruct E1 as [Ha1 E1].
    apply IH in H; [|lia]. destruct H as [Ha2 [new [-> HF]]].
    split; [congruence|].
    cbn [levels_from_up filter].
    assert (HF' : Forall2 (chain_module read group local kernel)
                    (filter (in_chain group) (levels_from_up k (i + 1))) new).
    { eapply Forall2_impl; [|exact HF].
      intros a b. apply chain_module_array_type. exact Ha1. }
    destruct (in_chain group i).
    + destruct E1 as [m [-> Hm]]. exists (m :: new).
      rewrite <- app_assoc. split; [reflexivity|]. constructor; assumption.
    + subst ms1. exists new. split; [reflexivity | exact HF'].
Qed.

Lemma innermost_pos group : 1 <= innermost_of group <= 2.
Proof. unfold innermost_of. destruct (autosa_io_type_beq _ _); lia. Qed.

(** The levels of a chain, out of all levels from the outermost down
    to 1 and from 1 up to the outermost. *)
Lemma filter_levels_down group n :
  Z.of_nat n <= io_level group ->
  filter (in_chain group) (levels_from_down n (Z.of_nat n))
  = levels_from_down (Z.to_nat (Z.of_nat n - innermost_of group + 1))
      (Z.of_nat n).
Proof.
  pose proof (innermost_pos group) as Hinn.
  induction n as [|k IH]; intros Hn.
  - cbn [levels_from_down filter]. replace (Z.to_nat _) with O by lia. reflexivity.
  - cbn [levels_from_down filter].
    replace (Z.of_nat (S k) - 1) with (Z.of_nat k) by lia.
    rewrite IH by lia. unfold in_chain.
    destruct (Z.leb_spec (innermost_of group) (Z.of_nat (S k))) as [H1|H1];
      destruct (Z.leb_spec (Z.of_nat (S k)) (io_level group)) as [H2|H2];
      try lia; cbn [andb].
    + replace (Z.to_nat (Z.of_nat (S k) - innermost_of group + 1))
        with (S (Z.to_nat (Z.of_nat k - innermost_of group + 1))) by lia.
      cbn [levels_from_down].
      replace (Z.of_nat (S k) - 1) with (Z.of_nat k) by lia. reflexivity.
    + replace (Z.to_nat (Z.of_nat k - innermost_of group + 1)) with O by lia.
      replace (Z.to_nat (Z.of_nat (S k) - innermost_of group + 1)) with O by lia.
      reflexivity.
Qed.

Lemma filter_levels_up group n i :
  1 <= i -> i + Z.of_nat n - 1 = io_level group ->
  filter (in_chain group) (levels_from_up n i)
  = levels_from_up
      (Z.to_nat (io_level group - Z.max i (innermost_of group) + 1))
      (Z.max i (innermost_of group)).
Proof.
  pose proof (innermost_pos group) as Hinn.
  revert i. induction n as [|k IH]; intros i Hi Hn.
  - cbn [levels_from_up filter]. replace (Z.to_nat _) with O by lia. reflexivity.
  - cbn [levels_from_up filter].
    rewrite IH by lia. unfold in_chain.
    destruct (Z.leb_spec (innermost_of group) i) as [H1|H1];
      destruct (Z.leb_spec i (io_level group)) as [H2|H2];
      try lia; cbn [andb].
    + replace (Z.max i (innermost_of group)) with i by lia.
      replace (Z.max (i + 1) (innermost_of group)) with (i + 1) by lia.
      replace (Z.to_nat (io_level group - i + 1))
        with (S (Z.to_nat (io_level group - (i + 1) + 1))) by lia.
      reflexivity.
    + replace (Z.max (i + 1) (innermost_of group))
        with (Z.max i (innermost_of group)) by lia.
      reflexivity.
Qed.

End LoopFacts.

(** ** Completion of the generation *)

(** A run that stops inside the copy statements is kept apart from the
    run of the builder around it. *)
Tactic Notation "run_step" hyp(C) "as" simple_intropattern(pat) ident(E) :=
  match type of C with
  | completes_or_copies_fault _ ?r =>
      revert C; destruct r as [pat|] eqn:E; intros C;
      cbn [completes_or_copies_fault] in C; cbn [bind];
      [ | exact C ]
  end.

Section Totality.
Context {Ty : IslTypes} {Ops : IslOps}.

Lemma locate_buffer_loop_ok group n buf :
  (n <= List.length (io_buffers group))%nat ->
  (forall b0, buf = Some b0 -> In b0 (io_buffers group)) ->
  exists i buf',
    locate_buffer_loop (io_buffers group) n buf = Ok (i, buf')
    /\ (forall b', buf' = Some b' -> In b' (io_buffers group))
    /\ (buf' = None -> n = O /\ buf = None)
    /\ (1 <= i -> exists b' t, buf' = Some b' /\ buf_tile b' = Some t).
Proof.
  revert buf. induction n as [|k IH]; intros buf Hlen Hin.
  - exists 0, buf. split; [reflexivity|]. split; [exact Hin|].
    split; [auto | lia].
  - cbn [locate_buffer_loop].
    replace (Z.of_nat (S k) - 1) with (Z.of_nat k) by lia.
    destruct (nth_error (io_buffers group) k) as [b|] eqn:Eb.
    2:{ apply nth_error_None in Eb. lia. }
    assert (Hget : array_get (io_buffers group) (Z.of_nat k) = Ok b).
    { apply array_get_nth. rewrite Nat2Z.id. split; [lia | exact Eb]. }
    rewrite Hget. cbn [bind].
    assert (Hb : In b (io_buffers group)) by (eapply nth_error_In; eauto).
    destruct (buf_tile b) as [t|] eqn:Et.
    + exists (Z.of_nat (S k)), (Some b). split; [reflexivity|].
      split; [intros b' E; inv_ok E; exact Hb|].
      split; [discriminate|]. intros _. exists b, t. auto.
    + destruct (IH (Some b)) as [i [buf' [E [H1 [H2 H3]]]]]; [lia | |].
      { intros b0 E0. inv_ok E0. exact Hb. }
      exists i, buf'. split; [exact E|]. split; [exact H1|].
      split; [|exact H3].
      intros ->. destruct H2 as [_ H2]; [reflexivity | discriminate].
Qed.

Lemma locate_buffer_ok group start buf :
  start <= Z.of_nat (List.length (io_buffers group)) ->
  (forall b0, buf = Some b0 -> In b0 (io_buffers group)) ->
  exists i buf',
    locate_buffer group start buf = Ok (i, buf')
    /\ (forall b', buf' = Some b' -> In b' (io_buffers group))
    /\ (buf' = None -> start < 1 /\ buf = None)
    /\ (1 <= i -> exists b' t, buf' = Some b' /\ buf_tile b' = Some t).
Proof.
  intros Hs Hin. unfold locate_buffer. destruct (Z.ltb_spec start 1).
  - exists start, buf. split; [reflexivity|]. split; [exact Hin|].
    split; [auto|]. lia.
  - destruct (locate_buffer_loop_ok group (Z.to_nat start) buf)
      as [i [buf' [E [H1 [H2 H3]]]]]; [lia | exact Hin |].
    exists i, buf'. split; [exact E|]. split; [exact H1|]. split; [|exact H3].
    intros Hn. destruct (H2 Hn). lia.
Qed.

(** A scan from a level with a tile at or below it ends on a tile. *)
Lemma locate_buffer_finds_tile group start i buf' j :
  locate_buffer group start None = Ok (i, buf') ->
  1 <= j <= start -> tile_at group j = true ->
  1 <= i.
Proof.
  intros H Hj Ht. unfold locate_buffer in H.
  destruct (Z.ltb_spec start 1); [lia|].
  destruct (Z_le_gt_dec 1 i) as [|Hi]; [assumption|]. exfalso.
  assert (Hgen : forall n buf i buf',
             locate_buffer_loop (io_buffers group) n buf = Ok (i, buf') ->
             i < 1 ->
             forall j, 1 <= j <= Z.of_nat n -> tile_at group j = false).
  { clear. induction n as [|k IH]; intros buf i buf' H Hi j Hj; [lia|].
    cbn [locate_buffer_loop] in H. inv_bind H as b Eb.
    apply array_get_nth in Eb. destruct Eb as [_ Eb].
    replace (Z.to_nat (Z.of_nat (S k) - 1)) with k in Eb by lia.
    destruct (buf_tile b) eqn:Et.
    - assert (i = Z.of_nat (S k)) by congruence. lia.
    - destruct (Z.eq_dec j (Z.of_nat (S k))) as [->|Hne].
      + rewrite tile_at_spec, Eb, Et. reflexivity.
      + eapply IH; eauto. lia. }
  rewrite (Hgen _ _ _ _ H) in Ht; [discriminate | lia | lia].
Qed.

Lemma upper_transfer_completes group module kernel read isb tib p b d :
  wf_buffers group -> In b (io_buffers group) ->
  completes_or_copies_fault (fun _ => True)
    (upper_transfer module group kernel read isb tib p b d).
Proof.
  intros Hwf Hb. unfold upper_transfer.
  destruct (buf_tile b) as [t|] eqn:Et.
  - destruct (Hwf b Hb) as [_ Ht]. destruct (Ht t Et) as [Hn Hl].
    destruct (coalesce_ok d t (buf_n_lane b) Hn Hl) as [cd Ec].
    rewrite Ec. cbn [bind].
    match goal with |- context [add_io_copies_stmt_tile ?n ?e ?t' ?s] =>
      destruct (add_io_copies_stmt_tile n e t' s) as [st|f] eqn:Er
    end; cbn [bind completes_or_copies_fault]; [exact I|].
    eapply copies_fault_tile. exact Er.
  - cbv zeta.
    match goal with |- context [add_io_copies_stmt_acc ?n ?v ?l ?s ?i] =>
      destruct (add_io_copies_stmt_acc n v l s i) as [st|f] eqn:Er
    end; cbn [bind completes_or_copies_fault]; [exact I|].
    eapply copies_fault_acc. exact Er.
Qed.

Lemma lower_transfer_completes group module kernel read isb tib p b d :
  wf_buffers group -> In b (io_buffers group) ->
  completes_or_copies_fault
    (fun r => exists b', snd (fst r) = Some b' /\ In b' (io_buffers group))
    (lower_transfer module group kernel read isb tib p b d).
Proof.
  intros Hwf Hb. unfold lower_transfer.
  destruct (Hwf b Hb) as [Hlvl _].
  destruct (locate_buffer_ok group (buf_level b - 1) (Some b))
    as [i [buf' [E [H1 [H2 _]]]]]; [lia | intros b0 E0; inv_ok E0; exact Hb |].
  rewrite E. cbn [bind].
  destruct buf' as [b'|]; [|destruct (H2 eq_refl); discriminate].
  cbn [deref_buf bind].
  pose proof (H1 b' eq_refl) as Hb'.
  assert (Hacc : forall m n l s i (st : module_sched),
             completes_or_copies_fault
               (fun r => exists b0, snd (fst r) = Some b0
                                    /\ In b0 (io_buffers group))
               (_ <- add_io_copies_stmt_acc true
                       (io_subtree_traversals m group n read) l s i ;;
                Ok (m, Some b', st))).
  { intros m n l s dep st.
    destruct (add_io_copies_stmt_acc true
                (io_subtree_traversals m group n read) l s dep)
      as [st'|f] eqn:Er; cbn [bind completes_or_copies_fault].
    - exists b'. split; [reflexivity | exact Hb'].
    - eapply copies_fault_acc. exact Er. }
  destruct (buf_level b =? 1); [apply Hacc|].
  destruct (buf_tile b') as [t|] eqn:Et; [|apply Hacc].
  destruct (Hwf b' Hb') as [_ Ht]. destruct (Ht t Et) as [Hn Hl].
  destruct (coalesce_ok
              (if 1 <? buf_level b then io_mark_child_depth group (buf_level b')
               else d) t (buf_n_lane b') Hn Hl) as [cd Ec].
  rewrite Ec. cbn [bind].
  match goal with |- context [add_io_copies_stmt_tile ?n ?e ?t' ?s] =>
    destruct (add_io_copies_stmt_tile n e t' s) as [st|f] eqn:Er
  end; cbn [bind completes_or_copies_fault].
  - exists b'. split; [reflexivity | exact Hb'].
  - eapply copies_fault_tile. exact Er.
Qed.

Lemma default_schedule_completes group module kernel io_level space_dim isf
    isb read bd j :
  wf_buffers group ->
  1 <= io_level <= Z.of_nat (List.length (io_buffers group)) ->
  1 <= j <= io_level -> tile_at group j = true ->
  completes_or_copies_fault (fun _ => True)
    (generate_default_io_module_schedule module group kernel io_level
       space_dim isf isb read bd).
Proof.
  intros Hwf Hl Hj Ht. unfold generate_default_io_module_schedule.
  destruct (locate_buffer_ok group io_level None)
    as [i [buf [E [H1 [H2 H3]]]]]; [lia | discriminate |].
  rewrite E. cbn [bind].
  pose proof (locate_buffer_finds_tile group io_level i buf j E Hj Ht) as Hi.
  destruct (H3 Hi) as [b [t [-> Eb]]].
  pose proof (H1 b eq_refl) as Hb.
  cbn [deref_buf bind]. rewrite Eb. cbn [deref_tile bind].
  set (isb' := degrade_is_buffer isb i io_level).
  match goal with |- context [upper_transfer ?m ?g ?k ?r ?x ?y ?p ?b' ?d] =>
    pose proof (upper_transfer_completes g m k r x y p b' d Hwf Hb) as C1
  end.
  run_step C1 as [m1 s1] E1.
  destruct isb'.
  - match goal with |- context [lower_transfer ?m ?g ?k ?r ?x ?y ?p ?b' ?d] =>
      pose proof (lower_transfer_completes g m k r x y p b' d Hwf Hb) as C2
    end.
    run_step C2 as [[m2 buf2] s2] E2.
    destruct C2 as [b2 [Eb2 Hb2]]. cbn [fst snd] in Eb2. subst buf2.
    destruct bd; cbn [negb]; [exact I|].
    destruct (locate_buffer_ok group io_level (Some b2))
      as [i3 [buf3 [E3 [_ [H32 _]]]]];
      [lia | intros b0 E0; inv_ok E0; exact Hb2 |].
    rewrite E3. cbn [bind].
    destruct buf3 as [b3|]; [|destruct (H32 eq_refl); lia].
    cbn [deref_buf bind]. exact I.
  - cbn [bind]. destruct bd; cbn [negb]; exact I.
Qed.

Lemma inter_trans_completes group module kernel io_level space_dim read bd :
  wf_buffers group ->
  1 <= io_level <= Z.of_nat (List.length (io_buffers group)) ->
  to_mem module = false ->
  completes_or_copies_fault (fun _ => True)
    (generate_io_module_inter_trans module group kernel io_level space_dim
       read bd).
Proof.
  intros Hwf Hl Hm. unfold generate_io_module_inter_trans. rewrite Hm.
  destruct (locate_buffer_ok group io_level None)
    as [i [buf [E [H1 [H2 _]]]]]; [lia | discriminate |].
  rewrite E. cbn [bind].
  destruct buf as [b|]; [|destruct (H2 eq_refl); lia].
  cbn [deref_buf bind].
  apply upper_transfer_completes; [exact Hwf | exact (H1 b eq_refl)].
Qed.

Lemma intra_trans_completes group module kernel io_level space_dim read isb :
  wf_buffers group ->
  1 <= io_level <= Z.of_nat (List.length (io_buffers group)) ->
  to_mem module = false ->
  completes_or_copies_fault (fun _ => True)
    (generate_io_module_intra_trans module group kernel io_level space_dim
       read isb).
Proof.
  intros Hwf Hl Hm. unfold generate_io_module_intra_trans. rewrite Hm.
  destruct (locate_buffer_ok group io_level None)
    as [i [buf [E [H1 [H2 _]]]]]; [lia | discriminate |].
  rewrite E. cbn [bind].
  destruct buf as [b|]; [|destruct (H2 eq_refl); lia].
  cbn [deref_buf bind].
  match goal with |- context [lower_transfer ?m ?g ?k ?r ?x ?y ?p ?b' ?d] =>
    pose proof (lower_transfer_completes g m k r x y p b' d Hwf
                  (H1 b eq_refl)) as C2
  end.
  run_step C2 as [[m2 buf2] s2] E2. exact I.
Qed.

Lemma outer_ok group module kernel io_level space_dim read bd :
  1 <= io_level <= Z.of_nat (List.length (io_buffers group)) ->
  to_mem module = false ->
  exists m' s,
    generate_io_module_outer module group kernel io_level space_dim
      read bd = Ok (m', s).
Proof.
  intros Hl Hm. unfold generate_io_module_outer. rewrite Hm.
  destruct bd; cbn [negb]; [eauto|].
  destruct (locate_buffer_ok group io_level None)
    as [i [buf [E [H1 [H2 _]]]]]; [lia | discriminate |].
  rewrite E. cbn [bind].
  destruct buf as [b|]; [|destruct (H2 eq_refl); lia].
  cbn [deref_buf bind]. eauto.
Qed.

Lemma set_boundary_to_mem m : to_mem (set_boundary true m) = to_mem m.
Proof. destruct m; reflexivity. Qed.

Lemma set_boundary_boundary m : boundary (set_boundary true m) = true.
Proof. destruct m; reflexivity. Qed.

Lemma filter_buffer_completes group local module kernel io_level space_dim
    isb read :
  wf_buffers group ->
  1 <= io_level <= Z.of_nat (List.length (io_buffers group)) ->
  to_mem module = false ->
  completes_or_copies_fault (fun _ => True)
    (generate_filter_buffer_io_module module group local kernel io_level
       space_dim true isb read).
Proof.
  intros Hwf Hl Hm. unfold generate_filter_buffer_io_module.
  set (m0 := if double_buffer (options kernel) then _ else _).
  assert (Hm0 : to_mem m0 = false).
  { subst m0. destruct (double_buffer _); [destruct (autosa_array_type_beq _ _)|];
      destruct module; exact Hm. }
  pose proof (inter_trans_completes group m0 kernel io_level space_dim read
                false Hwf Hl Hm0) as C1.
  run_step C1 as [m1 s1] E1.
  assert (Hm1 : to_mem m1 = false).
  { apply inter_trans_same_kind in E1.
    destruct E1 as (_&_&_&_&_&K&_&_). congruence. }
  assert (Hm1' : to_mem (set_boundary true m1) = false)
    by (rewrite set_boundary_to_mem; exact Hm1).
  pose proof (inter_trans_completes group (set_boundary true m1) kernel
                io_level space_dim read true Hwf Hl Hm1') as C2.
  run_step C2 as [m2 s2] E2.
  assert (Hm2 : to_mem m2 = false /\ boundary m2 = true).
  { apply inter_trans_same_kind in E2.
    destruct E2 as (_&_&_&_&_&K&Kb&_).
    rewrite set_boundary_to_mem in K. rewrite set_boundary_boundary in Kb.
    split; congruence. }
  destruct Hm2 as [Hm2 Hb2].
  pose proof (intra_trans_completes group m2 kernel io_level space_dim read
                isb Hwf Hl Hm2) as C3.
  run_step C3 as [m3 s3] E3.
  assert (Hm3 : to_mem m3 = false).
  { apply intra_trans_same_kind in E3.
    destruct E3 as (_&_&_&_&_&K&_&_). congruence. }
  destruct (outer_ok group m3 kernel io_level space_dim read false Hl Hm3)
    as [m4 [s4 E4]].
  rewrite E4. cbn [bind].
  assert (Hm4 : to_mem m4 = false).
  { apply outer_info in E4. destruct E4 as (_&K&_). congruence. }
  destruct (outer_ok group (set_boundary true m4) kernel io_level space_dim
              read true Hl)
    as [m5 [s5 E5]]; [rewrite set_boundary_to_mem; exact Hm4|].
  rewrite E5. cbn [bind].
  apply outer_boundary_same_kind in E5. subst m5.
  replace (boundary _) with true by (destruct m4; reflexivity).
  exact I.
Qed.

(** The module of a level is generated, up to a fault of the copy
    statements, when the buffers are well formed, the level exists and,
    for a module that is not a buffered filter, some level at or below
    it has a tile. *)
Lemma generate_io_module_by_type_completes group local module kernel io_level
    space_dim isf isb read :
  wf_buffers group ->
  1 <= io_level <= Z.of_nat (List.length (io_buffers group)) ->
  (isf = true -> to_mem module = false) ->
  (exists j, 1 <= j <= io_level /\ tile_at group j = true) ->
  completes_or_copies_fault (fun _ => True)
    (generate_io_module_by_type module group local kernel io_level space_dim
       isf isb read).
Proof.
  intros Hwf Hl Hm [j [Hj Ht]]. unfold generate_io_module_by_type.
  destruct (isf && isb) eqn:Efb.
  - apply andb_true_iff in Efb. destruct Efb as [-> ->].
    apply filter_buffer_completes; auto.
  - unfold generate_default_io_module.
    pose proof (default_schedule_completes group module kernel io_level
                  space_dim isf isb read false j Hwf Hl Hj Ht) as C1.
    run_step C1 as stC1 EC1.
    destruct isf; [|exact I].
    eapply default_schedule_completes; eauto.
Qed.

End Totality.

(** ** The chains of a group (C4) *)

Section GenSpec.
Context {Ty : IslTypes} {Ops : IslOps}.

Lemma classify_some (read : bool) group local (kernel : autosa_kernel) i :
  group_type group <> AUTOSA_PE_GROUP ->
  exists isb,
    (if read then classify_is_buffer_in group local kernel i
     else classify_is_buffer_out group local kernel i) = Some isb.
Proof.
  intros Hpe. unfold classify_is_buffer_in, classify_is_buffer_out.
  destruct read, (group_type group), (array_type local), (io_type group),
    (two_level_buffer (options kernel)), (i =? innermost_of group),
    (i =? io_level group); cbn; try contradiction; eauto.
Qed.

Lemma sa_io_module_gen_level_completes read group kernel credit i st :
  wf_buffers group ->
  group_type group <> AUTOSA_PE_GROUP ->
  io_level group <= Z.of_nat (List.length (io_buffers group)) ->
  (exists j, 1 <= j <= innermost_of group /\ tile_at group j = true) ->
  completes_or_copies_fault (fun _ => True)
    (sa_io_module_gen_level read group kernel credit i st).
Proof.
  intros Hwf Hpe Hlen [j [Hj Ht]]. destruct st as [local ms].
  unfold sa_io_module_gen_level.
  destruct (Z.leb_spec (innermost_of group) i) as [H1|H1]; cbn [andb];
    [|exact I].
  destruct (Z.leb_spec i (io_level group)) as [H2|H2]; [|exact I].
  destruct (classify_some read group local kernel i Hpe) as [isb ->].
  cbn [bind].
  match goal with |- context [generate_io_module_by_type ?m ?g ?l ?k ?lv ?sd ?f ?b ?r] =>
    assert (C1 : completes_or_copies_fault (fun _ => True)
                   (generate_io_module_by_type m g l k lv sd f b r))
  end.
  { apply generate_io_module_by_type_completes; [exact Hwf | lia | |].
    - destruct (i =? io_level group); [discriminate|].
      intros _. destruct autosa_hw_module_alloc; reflexivity.
    - exists j. split; [lia | exact Ht]. }
  run_step C1 as stC1 EC1. exact I.
Qed.

Lemma levels_down_completes read group kernel credit n st :
  wf_buffers group ->
  group_type group <> AUTOSA_PE_GROUP ->
  io_level group <= Z.of_nat (List.length (io_buffers group)) ->
  (exists j, 1 <= j <= innermost_of group /\ tile_at group j = true) ->
  completes_or_copies_fault (fun _ => True)
    (levels_down n (sa_io_module_gen_level read group kernel credit) st).
Proof.
  intros Hwf Hpe Hlen Ht. revert st. induction n as [|k IH]; intros st.
  - exact I.
  - cbn [levels_down].
    pose proof (sa_io_module_gen_level_completes read group kernel credit
                  (Z.of_nat (S k)) st Hwf Hpe Hlen Ht) as C1.
    run_step C1 as stC1 EC1. apply IH.
Qed.

Lemma levels_up_completes read group kernel credit n i st :
  wf_buffers group ->
  group_type group <> AUTOSA_PE_GROUP ->
  io_level group <= Z.of_nat (List.length (io_buffers group)) ->
  (exists j, 1 <= j <= innermost_of group /\ tile_at group j = true) ->
  completes_or_copies_fault (fun _ => True)
    (levels_up n i (sa_io_module_gen_level read group kernel credit) st).
Proof.
  intros Hwf Hpe Hlen Ht. revert i st. induction n as [|k IH]; intros i st.
  - exact I.
  - cbn [levels_up].
    pose proof (sa_io_module_gen_level_completes read group kernel credit i st
                  Hwf Hpe Hlen Ht) as C1.
    run_step C1 as stC1 EC1. apply IH.
Qed.

(** Generation completes, up to a fault of the copy statements, for a
    group whose buffers are well formed and which has a tile at or
    below its innermost generated level. *)
Lemma sa_io_module_gen_completes_or_copies_fault group local kernel in_flag
    out_flag :
  wf_buffers group ->
  group_type group <> AUTOSA_PE_GROUP ->
  io_level group <= Z.of_nat (List.length (io_buffers group)) ->
  (exists j, 1 <= j <= innermost_of group /\ tile_at group j = true) ->
  completes_or_copies_fault (fun _ => True)
    (sa_io_module_gen group local kernel in_flag out_flag).
Proof.
  intros Hwf Hpe Hlen Ht. unfold sa_io_module_gen.
  destruct (sa_io_module_gen_credit group local kernel) as [node credit].
  assert (Hset : forall d,
            wf_buffers (set_array_io_dir d group)
            /\ group_type (set_array_io_dir d group) <> AUTOSA_PE_GROUP
            /\ io_level (set_array_io_dir d group)
               <= Z.of_nat (List.length (io_buffers (set_array_io_dir d group)))
            /\ (exists j, 1 <= j <= innermost_of (set_array_io_dir d group)
                          /\ tile_at (set_array_io_dir d group) j = true)).
  { intros d. destruct group.
    split; [exact Hwf | split; [exact Hpe | split; [exact Hlen | exact Ht]]]. }
  assert (Hset2 : forall d d',
            wf_buffers (set_array_io_dir d' (set_array_io_dir d group))
            /\ group_type (set_array_io_dir d' (set_array_io_dir d group))
               <> AUTOSA_PE_GROUP
            /\ io_level (set_array_io_dir d' (set_array_io_dir d group))
               <= Z.of_nat (List.length
                    (io_buffers (set_array_io_dir d' (set_array_io_dir d group))))
            /\ (exists j,
                   1 <= j <= innermost_of
                              (set_array_io_dir d' (set_array_io_dir d group))
                   /\ tile_at (set_array_io_dir d' (set_array_io_dir d group)) j
                      = true)).
  { intros d d'. destruct group.
    split; [exact Hwf | split; [exact Hpe | split; [exact Hlen | exact Ht]]]. }
  destruct (in_flag && _).
  - match goal with |- context [set_array_io_dir ?d group] =>
      set (d1 := d); destruct (Hset d1) as (W1 & P1 & L1 & T1)
    end.
    match goal with |- context [levels_down ?n ?body ?st] =>
      pose proof (levels_down_completes true (set_array_io_dir d1 group)
                    kernel credit n st W1 P1 L1 T1) as C1
    end.
    run_step C1 as stC1 EC1.
    destruct (out_flag && _).
    + match goal with |- context [set_array_io_dir ?d (set_array_io_dir d1 group)] =>
        set (d2 := d); destruct (Hset2 d1 d2) as (W2 & P2 & L2 & T2)
      end.
      match goal with |- context [levels_up ?n ?i ?body ?st] =>
        pose proof (levels_up_completes false
                      (set_array_io_dir d2 (set_array_io_dir d1 group))
                      kernel credit n i st W2 P2 L2 T2) as C2
      end.
      run_step C2 as stC2 EC2. exact I.
    + cbn [bind]. exact I.
  - cbn [bind].
    destruct (out_flag && _).
    + match goal with |- context [set_array_io_dir ?d group] =>
        set (d1 := d); destruct (Hset d1) as (W1 & P1 & L1 & T1)
      end.
      match goal with |- context [levels_up ?n ?i ?body ?st] =>
        pose proof (levels_up_completes false (set_array_io_dir d1 group)
                      kernel credit n i st W1 P1 L1 T1) as C1
      end.
      run_step C1 as stC1 EC1. exact I.
    + cbn [bind]. exact I.
Qed.

Lemma chain_module_set_array_io_dir read d group local kernel i m :
  chain_module read (set_array_io_dir d group) local kernel i m
  <-> chain_module read group local kernel i m.
Proof. destruct group. reflexivity. Qed.

Lemma filter_in_chain_set_array_io_dir d group l :
  filter (in_chain (set_array_io_dir d group)) l = filter (in_chain group) l.
Proof. destruct group. reflexivity. Qed.

Lemma io_level_set_array_io_dir d group :
  io_level (set_array_io_dir d group) = io_level group.
Proof. destruct group. reflexivity. Qed.

Lemma Forall2_chain_set read d group local kernel ls ms :
  Forall2 (chain_module read (set_array_io_dir d group) local kernel) ls ms ->
  Forall2 (chain_module read group local kernel) ls ms.
Proof.
  intros H. eapply Forall2_impl; [|exact H].
  intros a b. apply chain_module_set_array_io_dir.
Qed.

Lemma chain_levels_down_eq group :
  filter (in_chain group)
    (levels_from_down (Z.to_nat (io_level group))
       (Z.of_nat (Z.to_nat (io_level group))))
  = chain_levels_down group.
Proof.
  pose proof (innermost_pos group) as Hinn. unfold chain_levels_down.
  destruct (Z_le_gt_dec 0 (io_level group)).
  - rewrite filter_levels_down by lia.
    rewrite Z2Nat.id by lia. reflexivity.
  - replace (Z.to_nat (io_level group)) with O by lia.
    replace (Z.to_nat (io_level group - innermost_of group + 1)) with O by lia.
    reflexivity.
Qed.

Lemma chain_levels_up_eq group :
  filter (in_chain group) (levels_from_up (Z.to_nat (io_level group)) 1)
  = chain_levels_up group.
Proof.
  pose proof (innermost_pos group) as Hinn. unfold chain_levels_up.
  destruct (Z_le_gt_dec 0 (io_level group)).
  - rewrite (filter_levels_up group (Z.to_nat (io_level group)) 1) by lia.
    replace (Z.max 1 (innermost_of group)) with (innermost_of group) by lia.
    reflexivity.
  - replace (Z.to_nat (io_level group)) with O by lia.
    replace (Z.to_nat (io_level group - innermost_of group + 1)) with O by lia.
    reflexivity.
Qed.

(** The modules [sa_io_module_gen] returns: the copy-in chain from the
    outermost level down, then the copy-out chain from the innermost
    level up, each present when its direction is asked for and valid. *)
Lemma sa_io_module_gen_chains group local kernel in_flag out_flag
    ms group' local' :
  sa_io_module_gen group local kernel in_flag out_flag
    = Ok (ms, group', local') ->
  exists ins outs,
    ms = ins ++ outs
    /\ Forall2 (chain_module true group local kernel)
         (if copy_in_generated group local kernel in_flag
          then chain_levels_down group else []) ins
    /\ Forall2 (chain_module false group local kernel)
         (if copy_out_generated group local kernel in_flag out_flag
          then chain_levels_up group else []) outs.
Proof.
  unfold sa_io_module_gen, copy_out_generated, group_after_copy_in,
    copy_in_generated, io_dir_update.
  destruct (sa_io_module_gen_credit group local kernel) as [node credit].
  cbn [fst]. intros H.
  inv_bind H as [g1 [l1 ms1]] E1. inv_bind H as [g2 [l2 ms2]] E2.
  cbn [fst snd] in H. inv_ok H.
  assert (H1 : exists ins,
             ms1 = ins /\ array_type l1 = array_type local
             /\ g1 = (if in_flag && c_true (isl_bool_to_int
                                   (is_module_valid node kernel group true))
                      then set_array_io_dir
                             (if autosa_io_dir_beq (array_io_dir group) IO_OUT
                              then IO_INOUT else IO_IN) group
                      else group)
             /\ Forall2 (chain_module true group local kernel)
                  (if in_flag && c_true (isl_bool_to_int
                                   (is_module_valid node kernel group true))
                   then chain_levels_down group else []) ins).
  { destruct (in_flag && _).
    - inv_bind E1 as [l1' ms1'] E1'. inv_ok E1.
      apply levels_down_spec in E1'. destruct E1' as [Ha [new [-> HF]]].
      exists new. cbn [app]. repeat split; auto.
      rewrite io_level_set_array_io_dir, filter_in_chain_set_array_io_dir,
        chain_levels_down_eq in HF.
      apply Forall2_chain_set in HF. exact HF.
    - inv_ok E1. exists []. repeat split; auto. }
  destruct H1 as [ins [-> [Ha1 [Hg1 HF1]]]].
  rewrite <- Hg1.
  destruct (out_flag && _).
  - inv_bind E2 as [l2' ms2'] E2'. inv_ok E2.
    apply levels_up_spec in E2'; [|lia]. destruct E2' as [Ha [new [-> HF]]].
    exists ins, new. split; [reflexivity|]. split; [exact HF1|].
    rewrite io_level_set_array_io_dir, filter_in_chain_set_array_io_dir in HF.
    apply Forall2_chain_set in HF.
    assert (HF' : Forall2 (chain_module false group l1 kernel)
                    (chain_levels_up group) new).
    { destruct (in_flag && _).
      - rewrite io_level_set_array_io_dir, filter_in_chain_set_array_io_dir,
          chain_levels_up_eq in HF.
        apply Forall2_chain_set in HF. exact HF.
      - rewrite chain_levels_up_eq in HF. exact HF. }
    eapply Forall2_impl; [|exact HF'].
    intros a b. apply chain_module_array_type. exact Ha1.
  - injection E2 as Eg El Em. rewrite <- Em.
    exists ins, []. rewrite app_nil_r.
    split; [reflexivity|]. split; [exact HF1 | constructor].
Qed.

End GenSpec.

Section ChainTheorem.
Context {Ty : IslTypes} {Ops : IslOps}.

Lemma tile_at_length group i :
  tile_at group i = true -> i <= Z.of_nat (List.length (io_buffers group)).
Proof.
  unfold tile_at. destruct (Z.ltb_spec i 1); [discriminate|].
  destruct (nth_error (io_buffers group) (Z.to_nat (i - 1))) eqn:E;
    [|discriminate].
  intros _. assert (Hn : nth_error (io_buffers group) (Z.to_nat (i - 1)) <> None)
    by congruence.
  apply nth_error_Some in Hn. lia.
Qed.

(** C4 (amended).  For a direction that is asked for and for which
    [is_module_valid] holds, a completed [sa_io_module_gen] has generated
    exactly one module for each level of the contiguous range
    [[innermost, outermost]] and none outside it, each with [is_filter]
    false exactly at the outermost level.  For a drain group or an I/O
    group of an external array, with interior I/O, three I/O levels,
    two-level buffering and tiles at levels 1 and 3 only, the copy-in of
    a completed [sa_io_module_gen] has produced exactly three modules,
    with [is_buffer] true at levels 1 and 3 and false at level 2, and
    [is_filter] false only at level 3. *)
Theorem sa_io_module_gen_chain_levels
    (group : autosa_array_ref_group) (local : autosa_local_array_info)
    (kernel : autosa_kernel) (in_flag out_flag : bool) :
  (forall ms group' local',
     sa_io_module_gen group local kernel in_flag out_flag
       = Ok (ms, group', local') ->
     exists ins outs,
       ms = ins ++ outs
       /\ Forall2 (chain_module true group local kernel)
            (if copy_in_generated group local kernel in_flag
             then chain_levels_down group else []) ins
       /\ Forall2 (chain_module false group local kernel)
            (if copy_out_generated group local kernel in_flag out_flag
             then chain_levels_up group else []) outs)
  /\ (two_level_scenario group kernel ->
      io_type group = AUTOSA_INT_IO ->
      innermost_buffered_in group local ->
      copy_in_generated group local kernel in_flag = true ->
      forall ms group' local',
        sa_io_module_gen group local kernel in_flag out_flag
          = Ok (ms, group', local') ->
      exists m3 m2 m1 outs,
        ms = [m3; m2; m1] ++ outs
        /\ Forall (fun m => in_ m = false) outs
        /\ (in_ m3 = true /\ in_ m2 = true /\ in_ m1 = true)
        /\ (level m3 = 3 /\ level m2 = 2 /\ level m1 = 1)
        /\ (is_buffer m3 = true /\ is_buffer m2 = false /\ is_buffer m1 = true)
        /\ (is_filter m3 = false /\ is_filter m2 = true /\ is_filter m1 = true)).
Proof.
  split; [intros ms group' local'; apply sa_io_module_gen_chains|].
  intros (Hlvl & Htwo & Ht1 & Ht2 & Ht3) Hint Hbuf Hgen ms group' local' E.
  assert (Hinn : innermost_of group = 1)
    by (unfold innermost_of; rewrite Hint; reflexivity).
  destruct (sa_io_module_gen_chains _ _ _ _ _ _ _ _ E)
    as [ins [outs [-> [Hins Houts]]]].
  rewrite Hgen in Hins. unfold chain_levels_down in Hins.
  rewrite Hlvl, Hinn in Hins. cbn in Hins.
  inversion Hins as [|l3 m3 ls3 r3 C3 Hr3]; subst.
  inversion Hr3 as [|l2 m2 ls2 r2 C2 Hr2]; subst.
  inversion Hr2 as [|l1 m1 ls1 r1 C1 Hr1]; subst.
  inversion Hr1; subst.
  exists m3, m2, m1, outs.
  split; [reflexivity|].
  split.
  { clear - Houts. induction Houts as [|l m ls r C _ IH]; constructor; [|exact IH].
    destruct C as [isb (_&_&_&_&_&Hin)]. exact Hin. }
  destruct C3 as [b3 (K3 & _ & L3 & F3 & B3 & I3)].
  destruct C2 as [b2 (K2 & _ & L2 & F2 & B2 & I2)].
  destruct C1 as [b1 (K1 & _ & L1 & F1 & B1 & I1)].
  rewrite Hlvl in F3, F2, F1, B3, B2, B1.
  rewrite Ht3 in B3. rewrite Ht2 in B2. rewrite Ht1 in B1.
  cbn in F3, F2, F1, B3, B2, B1.
  unfold classify_is_buffer_in in K3, K2, K1.
  rewrite Htwo, Hlvl, Hinn in K3, K2, K1. cbn in K3, K2, K1.
  assert (b3 = true) by congruence. subst b3.
  assert (b2 = false /\ b1 = true) as [-> ->].
  { destruct Hbuf as [Eg | [Eg Ea]].
    - rewrite Eg in K2, K1. cbn in K2, K1. split; congruence.
    - rewrite Eg, Ea in K2, K1. cbn in K2, K1. split; congruence. }
  cbn in B3, B2, B1.
  repeat split; assumption.
Qed.

End ChainTheorem.

Lemma sa_io_module_gen_chain_levels_witness :
  (exists ms group' local',
     sa_io_module_gen (Ops := sample_ops isl_bool_false 2 (fun _ _ => []))
       (sample_group AUTOSA_IO_GROUP AUTOSA_INT_IO [rar_ref] sample_buffers)
       (sample_array AUTOSA_EXT_ARRAY []) (sample_kernel true []) true true
     = Ok (ms, group', local')
     /\ List.length ms = 3%nat)
  /\ exists m3 m2 m1 outs group' local',
    sa_io_module_gen (Ops := sample_ops isl_bool_false 2 (fun _ _ => []))
      (sample_group AUTOSA_IO_GROUP AUTOSA_INT_IO [rar_ref] sample_buffers)
      (sample_array AUTOSA_EXT_ARRAY []) (sample_kernel true []) true true
    = Ok ([m3; m2; m1] ++ outs, group', local')
    /\ Forall (fun m => in_ m = false) outs
    /\ (in_ m3 = true /\ in_ m2 = true /\ in_ m1 = true)
    /\ (level m3 = 3 /\ level m2 = 2 /\ level m1 = 1)
    /\ (is_buffer m3 = true /\ is_buffer m2 = false /\ is_buffer m1 = true)
    /\ (is_filter m3 = false /\ is_filter m2 = true /\ is_filter m1 = true).
Proof.
  destruct (sa_io_module_gen
              (Ops := sample_ops isl_bool_false 2 (fun _ _ => []))
              (sample_group AUTOSA_IO_GROUP AUTOSA_INT_IO [rar_ref]
                 sample_buffers)
              (sample_array AUTOSA_EXT_ARRAY []) (sample_kernel true [])
              true true) as [[[ms group'] local']|f] eqn:E;
    [|vm_compute in E; discriminate].
  split.
  { exists ms, group', local'. split; [reflexivity|].
    destruct (proj1 (sa_io_module_gen_chain_levels
                       (Ops := sample_ops isl_bool_false 2 (fun _ _ => []))
                       (sample_group AUTOSA_IO_GROUP AUTOSA_INT_IO [rar_ref]
                          sample_buffers)
                       (sample_array AUTOSA_EXT_ARRAY [])
                       (sample_kernel true []) true true)
                ms group' local' E) as [ins [outs [-> [Hi Ho]]]].
    apply Forall2_length in Hi, Ho. rewrite length_app, <- Hi, <- Ho.
    reflexivity. }
  destruct (proj2 (sa_io_module_gen_chain_levels
                     (Ops := sample_ops isl_bool_false 2 (fun _ _ => []))
                     (sample_group AUTOSA_IO_GROUP AUTOSA_INT_IO [rar_ref]
                        sample_buffers)
                     (sample_array AUTOSA_EXT_ARRAY []) (sample_kernel true [])
                     true true)
              ltac:(repeat split; reflexivity) eq_refl
              (or_intror (conj eq_refl eq_refl)) eq_refl
              ms group' local' E)
    as [m3 [m2 [m1 [outs [-> H]]]]].
  exists m3, m2, m1, outs, group', local'. split; [reflexivity | exact H].
Defined.

(** Without the added conditions the property fails: an I/O group of
    an internal array with interior I/O has an unbuffered module at
    level 1; a group with
    exterior I/O gets two copy-in modules, not three; and no copy-in
    module is generated when the direction is not asked for, although
    [is_module_valid] holds for it. *)
Lemma sa_io_module_gen_claim_counterexample :
  (exists m3 m2 m1 group' local',
     sa_io_module_gen (Ops := sample_ops isl_bool_false 2 (fun _ _ => []))
       (sample_group AUTOSA_IO_GROUP AUTOSA_INT_IO [rar_ref] sample_buffers)
       (sample_array AUTOSA_INT_ARRAY []) (sample_kernel true []) true false
     = Ok ([m3; m2; m1], group', local')
     /\ level m1 = 1 /\ is_buffer m1 = false)
  /\ (exists m3 m2 group' local',
        sa_io_module_gen (Ops := sample_ops isl_bool_false 2 (fun _ _ => []))
          (sample_group AUTOSA_IO_GROUP AUTOSA_EXT_IO [rar_ref] sample_buffers)
          (sample_array AUTOSA_EXT_ARRAY []) (sample_kernel true []) true false
        = Ok ([m3; m2], group', local'))
  /\ (is_module_valid (Ops := sample_ops isl_bool_false 2 (fun _ _ => []))
        (Some tt) (sample_kernel true [])
        (sample_group AUTOSA_DRAIN_GROUP AUTOSA_INT_IO [rar_ref] sample_buffers)
        true = isl_bool_true
      /\ exists group' local',
           sa_io_module_gen (Ops := sample_ops isl_bool_false 2 (fun _ _ => []))
             (sample_group AUTOSA_DRAIN_GROUP AUTOSA_INT_IO [rar_ref]
                sample_buffers)
             (sample_array AUTOSA_EXT_ARRAY []) (sample_kernel true [])
             false true
           = Ok ([], group', local')).
Proof.
  split; [|split].
  - do 5 eexists. split; [vm_compute; reflexivity|]. split; reflexivity.
  - do 4 eexists. vm_compute. reflexivity.
  - split; [reflexivity|]. do 2 eexists. vm_compute. reflexivity.
Qed.

(** ** The final module order (C3, C10) *)

Lemma array_set_slot {A} (w : list A) (v x : A) (r : list A) :
  array_set (w ++ x :: r) (Z.of_nat (List.length w)) v = Ok (w ++ v :: r).
Proof.
  unfold array_set. destruct (Z.ltb_spec (Z.of_nat (List.length w)) 0); [lia|].
  rewrite Nat2Z.id.
  destruct (Nat.ltb_spec (List.length w) (List.length (w ++ x :: r))) as [_|Hge].
  - rewrite firstn_app, Nat.sub_diag, firstn_all. cbn [firstn].
    rewrite app_nil_r.
    replace (S (List.length w)) with (List.length w + 1)%nat by lia.
    rewrite skipn_app.
    replace (List.length w + 1 - List.length w)%nat with 1%nat by lia.
    rewrite skipn_all2 by lia. reflexivity.
  - rewrite length_app in Hge. cbn in Hge. lia.
Qed.

Lemma array_set_full {A} (w : list A) (v : A) :
  array_set w (Z.of_nat (List.length w)) v = Crash OutOfBounds.
Proof.
  unfold array_set. destruct (Z.ltb_spec (Z.of_nat (List.length w)) 0); [lia|].
  rewrite Nat2Z.id. rewrite Nat.ltb_irrefl. reflexivity.
Qed.

Lemma slots_write (w : list autosa_hw_module) (r : nat) (m : autosa_hw_module) :
  array_set (slots w (S r)) (Z.of_nat (List.length w)) (Some m)
  = Ok (slots (w ++ [m]) r).
Proof.
  unfold slots. cbn [repeat].
  rewrite <- (length_map Some w). rewrite array_set_slot.
  rewrite map_app, <- app_assoc. reflexivity.
Qed.

Lemma slots_full (w : list autosa_hw_module) (v : option autosa_hw_module) :
  array_set (slots w 0) (Z.of_nat (List.length w)) v = Crash OutOfBounds.
Proof.
  unfold slots. cbn [repeat]. rewrite app_nil_r.
  rewrite <- (length_map Some w). apply array_set_full.
Qed.

(** One scan appends the selected modules to the written slots, or
    overflows [modules_new]. *)
Lemma reorder_scan_spec (sel : autosa_hw_module -> bool)
    (suf pre w : list autosa_hw_module) (r : nat) :
  reorder_scan sel (map Some (pre ++ suf)) (List.length suf)
    (Z.of_nat (List.length pre)) (slots w r, Z.of_nat (List.length w))
  = if (List.length (filter sel suf) <=? r)%nat
    then Ok (slots (w ++ filter sel suf) (r - List.length (filter sel suf)),
             Z.of_nat (List.length (w ++ filter sel suf)))
    else Crash OutOfBounds.
Proof.
  revert pre w r. induction suf as [|m suf IH]; intros pre w r.
  - cbn. rewrite app_nil_r, Nat.sub_0_r. reflexivity.
  - cbn [List.length reorder_scan].
    assert (Hget : array_get (map Some (pre ++ m :: suf))
                     (Z.of_nat (List.length pre)) = Ok (Some m)).
    { unfold array_get. destruct (Z.ltb_spec (Z.of_nat (List.length pre)) 0); [lia|].
      rewrite Nat2Z.id, nth_error_map, nth_error_app2, Nat.sub_diag by lia.
      reflexivity. }
    rewrite Hget. cbn [bind deref_module fst snd filter].
    assert (Hpre : Z.of_nat (List.length pre) + 1
                   = Z.of_nat (List.length (pre ++ [m])))
      by (rewrite length_app; cbn; lia).
    assert (Hlist : pre ++ m :: suf = (pre ++ [m]) ++ suf)
      by (rewrite <- app_assoc; reflexivity).
    destruct (sel m).
    + destruct r as [|r].
      * rewrite slots_full. cbn [bind List.length]. reflexivity.
      * rewrite slots_write. cbn [bind fst snd].
        replace (Z.of_nat (List.length w) + 1)
          with (Z.of_nat (List.length (w ++ [m])))
          by (rewrite length_app; cbn; lia).
        rewrite Hpre, Hlist, IH. cbn [List.length].
        rewrite <- app_assoc. cbn [app].
        change (S (List.length (filter sel suf)) <=? S r)%nat
          with (List.length (filter sel suf) <=? r)%nat.
        reflexivity.
    + cbn [bind]. rewrite Hpre, Hlist, IH. reflexivity.
Qed.

Lemma reorder_scan_all (sel : autosa_hw_module -> bool)
    (ms w : list autosa_hw_module) (r : nat) :
  reorder_scan sel (map Some ms) (List.length ms) 0
    (slots w r, Z.of_nat (List.length w))
  = if (List.length (filter sel ms) <=? r)%nat
    then Ok (slots (w ++ filter sel ms) (r - List.length (filter sel ms)),
             Z.of_nat (List.length (w ++ filter sel ms)))
    else Crash OutOfBounds.
Proof. exact (reorder_scan_spec sel ms [] w r). Qed.

(** [hw_module_reorder] on a list of [n] modules: the slots written are
    the copy-in modules, the first module, the copy-out modules and the
    drain modules; writing more than [n] slots overflows the array. *)
Lemma hw_module_reorder_spec (m0 : autosa_hw_module)
    (rest : list autosa_hw_module) :
  let ms := m0 :: rest in
  hw_module_reorder (map Some ms) (Z.of_nat (List.length ms))
  = if (List.length (reordered m0 ms) <=? List.length ms)%nat
    then Ok (slots (reordered m0 ms)
               (List.length ms - List.length (reordered m0 ms)))
    else Crash OutOfBounds.
Proof.
  intros ms. unfold hw_module_reorder, reordered.
  rewrite Nat2Z.id.
  change (repeat None (List.length ms)) with (slots [] (List.length ms)).
  change 0 with (Z.of_nat (@List.length autosa_hw_module [])) at 2.
  rewrite reorder_scan_all. cbn [app].
  set (a := filter is_copy_in ms).
  set (b := filter is_copy_out ms).
  set (c := filter is_drain ms).
  rewrite ?length_app. cbn [List.length]. rewrite ?length_app.
  destruct (Nat.leb_spec (List.length a) (List.length ms)) as [Ha|Ha].
  2:{ destruct (Nat.leb_spec
                  (List.length a + S (List.length b + List.length c))
                  (List.length ms)); [lia | reflexivity]. }
  cbn [bind fst snd].
  change (array_get (map Some ms) 0) with (Ok (Some m0)). cbn [bind].
  destruct (List.length ms - List.length a)%nat as [|r1] eqn:E1.
  { rewrite slots_full. cbn [bind].
    destruct (Nat.leb_spec
                (List.length a + S (List.length b + List.length c))
                (List.length ms)); [lia | reflexivity]. }
  rewrite slots_write. cbn [bind].
  replace (Z.of_nat (List.length a) + 1)
    with (Z.of_nat (List.length (a ++ [m0])))
    by (rewrite length_app; cbn; lia).
  rewrite reorder_scan_all. fold b.
  destruct (Nat.leb_spec (List.length b) r1) as [Hb|Hb].
  2:{ cbn [bind].
      destruct (Nat.leb_spec
                  (List.length a + S (List.length b + List.length c))
                  (List.length ms)); [lia | reflexivity]. }
  cbn [bind]. rewrite reorder_scan_all. fold c.
  destruct (Nat.leb_spec (List.length c) (r1 - List.length b)) as [Hc|Hc].
  2:{ cbn [bind].
      destruct (Nat.leb_spec
                  (List.length a + S (List.length b + List.length c))
                  (List.length ms)); [lia | reflexivity]. }
  cbn [bind fst].
  destruct (Nat.leb_spec
              (List.length a + S (List.length b + List.length c))
              (List.length ms)); [|lia].
  rewrite <- !app_assoc. cbn [app].
  f_equal. f_equal. lia.
Qed.

Lemma is_pe_true m : is_pe m = true <-> type m = PE_MODULE.
Proof.
  unfold is_pe. split.
  - apply internal_autosa_module_type_dec_bl.
  - apply internal_autosa_module_type_dec_lb.
Qed.

Lemma module_kind_cases m :
  (is_copy_in m = true /\ is_copy_out m = false /\ is_drain m = false
   /\ is_pe m = false)
  \/ (is_copy_in m = false /\ is_copy_out m = true /\ is_drain m = false
      /\ is_pe m = false)
  \/ (is_copy_in m = false /\ is_copy_out m = false /\ is_drain m = true
      /\ is_pe m = false)
  \/ (is_copy_in m = false /\ is_copy_out m = false /\ is_drain m = false
      /\ is_pe m = true).
Proof.
  unfold is_copy_in, is_copy_out, is_drain, is_pe.
  destruct (type m), (in_ m); cbn; tauto.
Qed.

(** Every module is of exactly one of the four kinds the scans tell
    apart. *)
Lemma module_kinds_count ms :
  List.length ms
  = (List.length (filter is_copy_in ms) + List.length (filter is_copy_out ms)
     + List.length (filter is_drain ms) + List.length (filter is_pe ms))%nat.
Proof.
  induction ms as [|m ms IH]; [reflexivity|].
  cbn [filter List.length].
  destruct (module_kind_cases m) as [H|[H|[H|H]]];
    destruct H as (-> & -> & -> & ->); cbn [List.length]; lia.
Qed.

Lemma filter_is_pe_none ms :
  Forall (fun m => type m <> PE_MODULE) ms -> filter is_pe ms = [].
Proof.
  induction 1 as [|m ms Hm _ IH]; [reflexivity|].
  cbn [filter]. destruct (is_pe m) eqn:E; [|exact IH].
  apply is_pe_true in E. contradiction.
Qed.

Lemma filter_is_pe_nil ms :
  filter is_pe ms = [] -> Forall (fun m => type m <> PE_MODULE) ms.
Proof.
  induction ms as [|m ms IH]; [constructor|].
  cbn [filter]. destruct (is_pe m) eqn:E; [discriminate|].
  intros H. constructor; [|exact (IH H)].
  intros Ht. apply is_pe_true in Ht. congruence.
Qed.

(** Without a PE module among them, the modules are split by the three
    scans. *)
Lemma scans_permutation ms :
  Forall (fun m => type m <> PE_MODULE) ms ->
  Permutation
    (filter is_copy_in ms ++ filter is_copy_out ms ++ filter is_drain ms) ms.
Proof.
  induction 1 as [|m ms Hm _ IH]; [constructor|].
  cbn [filter].
  destruct (module_kind_cases m) as [H|[H|[H|H]]];
    destruct H as (-> & -> & -> & Hpe).
  - cbn [app]. constructor. exact IH.
  - apply Permutation_sym, Permutation_cons_app, Permutation_sym. exact IH.
  - apply Permutation_sym.
    rewrite app_assoc. apply Permutation_cons_app.
    rewrite <- app_assoc. apply Permutation_sym. exact IH.
  - apply is_pe_true in Hpe. contradiction.
Qed.

Lemma reordered_pe_first pe rest :
  type pe = PE_MODULE ->
  reordered pe (pe :: rest)
  = filter is_copy_in rest ++ [pe] ++ filter is_copy_out rest
    ++ filter is_drain rest.
Proof.
  intros Hpe. unfold reordered, is_copy_in, is_copy_out, is_drain.
  cbn [filter]. rewrite Hpe. reflexivity.
Qed.

Lemma reordered_length m0 ms :
  List.length (reordered m0 ms)
  = (List.length ms + 1 - List.length (filter is_pe ms))%nat.
Proof.
  unfold reordered. rewrite !length_app. cbn [List.length].
  pose proof (module_kinds_count ms). lia.
Qed.

(** On a module list with the PE module first, [hw_module_reorder]
    returns the modules in the final order. *)
Lemma hw_module_reorder_pe_first pe rest :
  type pe = PE_MODULE ->
  Forall (fun m => type m <> PE_MODULE) rest ->
  hw_module_reorder (map Some (pe :: rest))
    (Z.of_nat (List.length (pe :: rest)))
  = Ok (map Some
          (filter is_copy_in rest ++ [pe] ++ filter is_copy_out rest
           ++ filter is_drain rest)).
Proof.
  intros Hpe Hrest.
  pose proof (hw_module_reorder_spec pe rest) as H. cbv zeta in H.
  rewrite H. clear H.
  pose proof (reordered_length pe (pe :: rest)) as Hlen.
  cbn [filter] in Hlen.
  assert (Ep : is_pe pe = true) by (apply is_pe_true; exact Hpe).
  rewrite Ep, (filter_is_pe_none rest Hrest) in Hlen. cbn [List.length] in Hlen.
  replace (List.length (reordered pe (pe :: rest)) <=? List.length (pe :: rest))%nat
    with true by (symmetry; apply Nat.leb_le; cbn [List.length]; lia).
  replace (List.length (pe :: rest) - List.length (reordered pe (pe :: rest)))%nat
    with O by (cbn [List.length]; lia).
  unfold slots. cbn [repeat]. rewrite app_nil_r.
  rewrite reordered_pe_first by exact Hpe. reflexivity.
Qed.

Lemma Permutation_filter_length {A} (f : A -> bool) (l l' : list A) :
  Permutation l l' -> List.length (filter f l) = List.length (filter f l').
Proof.
  induction 1 as [|x l l' _ IH|x y l|l l' l'' _ IH1 _ IH2].
  - reflexivity.
  - cbn [filter]. destruct (f x); cbn [List.length]; congruence.
  - cbn [filter]. destruct (f x), (f y); reflexivity.
  - congruence.
Qed.

Lemma Permutation_map_Some_inv {A} (l l' : list A) :
  Permutation (map Some l) (map Some l') -> Permutation l l'.
Proof.
  intros H.
  apply (Permutation_map (fun o : option A => match o with
                                             | Some a => [a]
                                             | None => []
                                             end)) in H.
  rewrite !map_map in H.
  apply (Permutation_flat_map (fun x : list A => x)) in H.
  assert (Hid : forall l : list A,
             flat_map (fun x : list A => x) (map (fun x => [x]) l) = l).
  { induction l0 as [|a l0 IH]; [reflexivity|]. cbn. rewrite IH. reflexivity. }
  rewrite !Hid in H. exact H.
Qed.


Lemma filter_is_pe_scans ms :
  filter is_pe (filter is_copy_in ms) = []
  /\ filter is_pe (filter is_copy_out ms) = []
  /\ filter is_pe (filter is_drain ms) = [].
Proof.
  induction ms as [|m ms (IH1 & IH2 & IH3)]; [repeat split|].
  cbn [filter].
  destruct (module_kind_cases m) as [H|[H|[H|H]]];
    destruct H as (-> & -> & -> & Hpe); cbn [filter]; rewrite ?Hpe; auto.
Qed.

Lemma hw_module_reorder_nil n :
  hw_module_reorder [] n = Crash OutOfBounds.
Proof.
  unfold hw_module_reorder.
  destruct (Z.to_nat n) as [|k]; reflexivity.
Qed.

Lemma In_None_slots w r :
  In None (slots w r) -> r <> O.
Proof.
  unfold slots. intros H Hr. subst r. cbn [repeat] in H.
  rewrite app_nil_r in H. apply in_map_iff in H.
  destruct H as [x [Hx _]]. discriminate.
Qed.

Lemma hw_module_reorder_permutation ms out :
  hw_module_reorder (map Some ms) (Z.of_nat (List.length ms)) = Ok out ->
  Permutation out (map Some ms) -> pe_first ms.
Proof.
  intros H Hperm. destruct ms as [|m0 rest].
  - cbn [map] in H. rewrite hw_module_reorder_nil in H. discriminate.
  - pose proof (hw_module_reorder_spec m0 rest) as Hs. cbv zeta in Hs.
    rewrite Hs in H. clear Hs.
    remember (m0 :: rest) as ms eqn:Ems.
    destruct (Nat.leb_spec (List.length (reordered m0 ms)) (List.length ms))
      as [Hle|]; [|discriminate].
    injection H as <-.
    assert (Hr : (List.length ms - List.length (reordered m0 ms))%nat = O).
    { destruct (List.length ms - List.length (reordered m0 ms))%nat
        as [|r] eqn:Er; [reflexivity|]. exfalso.
      assert (Hin : In None (map Some ms)).
      { eapply Permutation_in; [exact Hperm|].
        unfold slots. apply in_or_app. right.
        cbn [repeat In]. left. reflexivity. }
      apply in_map_iff in Hin. destruct Hin as [x [Hx _]]. discriminate. }
    rewrite Hr in Hperm. unfold slots in Hperm. cbn [repeat] in Hperm.
    rewrite app_nil_r in Hperm.
    apply Permutation_map_Some_inv in Hperm.
    pose proof (reordered_length m0 ms) as Hlen.
    assert (Hpos : (1 <= List.length ms)%nat)
      by (subst ms; cbn [List.length]; lia).
    assert (Hone : List.length (filter is_pe ms) = 1%nat) by lia.
    pose proof (Permutation_filter_length is_pe _ _ Hperm) as Hcount.
    rewrite Hone in Hcount.
    unfold reordered in Hcount. rewrite !filter_app in Hcount.
    destruct (filter_is_pe_scans ms) as (E1 & E2 & E3).
    rewrite E1, E2, E3 in Hcount. cbn [app filter] in Hcount.
    destruct (is_pe m0) eqn:Ep; [|discriminate].
    exists m0, rest. split; [exact Ems|]. split; [apply is_pe_true; exact Ep|].
    apply filter_is_pe_nil.
    subst ms. cbn [filter] in Hone. rewrite Ep in Hone. cbn [List.length] in Hone.
    destruct (filter is_pe rest); [reflexivity | discriminate].
Qed.

Lemma hw_module_reorder_of_pe_first ms :
  pe_first ms ->
  exists out,
    hw_module_reorder (map Some ms) (Z.of_nat (List.length ms)) = Ok out
    /\ Permutation out (map Some ms).
Proof.
  intros (pe & rest & -> & Hpe & Hrest).
  eexists. split; [apply hw_module_reorder_pe_first; assumption|].
  apply Permutation_map. apply Permutation_sym.
  apply (Permutation_cons_app (filter is_copy_in rest)
           (filter is_copy_out rest ++ filter is_drain rest) pe).
  apply Permutation_sym, scans_permutation. exact Hrest.
Qed.

Section GeneratedList.
Context {Ty : IslTypes} {Ops : IslOps}.

Lemma module_type_of_not_pe group : module_type_of group <> PE_MODULE.
Proof. unfold module_type_of. destruct (autosa_group_type_beq _ _); discriminate. Qed.

Lemma chain_modules_not_pe read group local kernel ls ms :
  Forall2 (chain_module read group local kernel) ls ms ->
  Forall (fun m => type m <> PE_MODULE) ms.
Proof.
  induction 1 as [|l m ls ms C _ IH]; constructor; [|exact IH].
  destruct C as [isb (_ & Ht & _)]. rewrite Ht. apply module_type_of_not_pe.
Qed.

(** The modules of the I/O and drain chains are no PE modules. *)
Lemma sa_io_module_gen_not_pe group local kernel in_flag out_flag
    ms group' local' :
  sa_io_module_gen group local kernel in_flag out_flag
    = Ok (ms, group', local') ->
  Forall (fun m => type m <> PE_MODULE) ms.
Proof.
  intros H. apply sa_io_module_gen_chains in H.
  destruct H as [ins [outs [-> [Hi Ho]]]].
  apply Forall_app. split; eapply chain_modules_not_pe; eauto.
Qed.

Lemma hw_modules_io_groups_spec kernel groups info hw groups' info' hw' :
  hw_modules_io_groups kernel groups info hw = Ok (groups', info', hw') ->
  exists l, hw' = hw ++ map Some l /\ Forall (fun m => type m <> PE_MODULE) l.
Proof.
  revert info hw groups' info' hw'.
  induction groups as [|g groups IH]; intros info hw groups' info' hw' H.
  - cbn in H. injection H as _ _ <-. exists []. rewrite app_nil_r.
    split; [reflexivity | constructor].
  - cbn [hw_modules_io_groups] in H.
    inv_bind H as [[ms g1] info1] E1. inv_bind H as [[rest info2] hw2] E2.
    injection H as _ _ <-.
    apply sa_io_module_gen_not_pe in E1.
    apply IH in E2. destruct E2 as [l [-> Hl]].
    exists (ms ++ l). rewrite map_app, app_assoc.
    split; [reflexivity | apply Forall_app; split; assumption].
Qed.

Lemma hw_modules_io_spec kernel arrays hw arrays' hw' :
  hw_modules_io kernel arrays hw = Ok (arrays', hw') ->
  exists l, hw' = hw ++ map Some l /\ Forall (fun m => type m <> PE_MODULE) l.
Proof.
  revert hw arrays' hw'.
  induction arrays as [|info arrays IH]; intros hw arrays' hw' H.
  - cbn in H. injection H as _ <-. exists []. rewrite app_nil_r.
    split; [reflexivity | constructor].
  - cbn [hw_modules_io] in H.
    inv_bind H as [[groups info1] hw1] E1. inv_bind H as [rest hw2] E2.
    injection H as _ <-.
    apply hw_modules_io_groups_spec in E1. destruct E1 as [l1 [-> Hl1]].
    apply IH in E2. destruct E2 as [l2 [-> Hl2]].
    exists (l1 ++ l2). rewrite map_app, app_assoc.
    split; [reflexivity | apply Forall_app; split; assumption].
Qed.

Lemma hw_modules_drain_spec kernel arrays hw arrays' hw' :
  hw_modules_drain kernel arrays hw = Ok (arrays', hw') ->
  exists l, hw' = hw ++ map Some l /\ Forall (fun m => type m <> PE_MODULE) l.
Proof.
  revert hw arrays' hw'.
  induction arrays as [|info arrays IH]; intros hw arrays' hw' H.
  - cbn in H. injection H as _ <-. exists []. rewrite app_nil_r.
    split; [reflexivity | constructor].
  - cbn [hw_modules_drain] in H.
    inv_bind H as [info1 hw1] E1. inv_bind H as [rest hw2] E2.
    injection H as _ <-.
    apply IH in E2. destruct E2 as [l2 [-> Hl2]].
    destruct (drain_group info) as [drain|].
    + inv_bind E1 as [[ms d1] i1] E0. injection E1 as _ <-.
      apply sa_io_module_gen_not_pe in E0.
      exists (ms ++ l2). rewrite map_app, app_assoc.
      split; [reflexivity | apply Forall_app; split; assumption].
    + injection E1 as _ <-. exists l2. split; [reflexivity | exact Hl2].
Qed.

Lemma sa_pe_module_gen_type kernel :
  type (fst (sa_pe_module_gen kernel)) = PE_MODULE.
Proof.
  unfold sa_pe_module_gen.
  destruct (pe_copies_arrays _ _) as [arrays [[node stmts] groups]].
  cbn [fst]. destruct autosa_hw_module_alloc. reflexivity.
Qed.

(** The list handed to the reorder has the PE module in slot 0 and
    I/O and drain modules after it. *)
Lemma generated_hw_modules_pe_first kernel hw_modules kernel' :
  generated_hw_modules kernel = Ok (hw_modules, kernel') ->
  exists ms, hw_modules = map Some ms /\ pe_first ms.
Proof.
  unfold generated_hw_modules. intros H.
  inv_bind H as [arrays1 hw1] E1. inv_bind H as [arrays2 hw2] E2.
  apply hw_modules_io_spec in E1. destruct E1 as [l1 [-> Hl1]].
  apply hw_modules_drain_spec in E2. destruct E2 as [l2 [-> Hl2]].
  pose proof (sa_pe_module_gen_type (set_array arrays2 kernel)) as Hpe.
  destruct (sa_pe_module_gen (set_array arrays2 kernel)) as [pe arrays3].
  cbn [fst] in Hpe.
  inv_bind H as hw3 E3. injection H as <- _.
  cbn in E3. injection E3 as <-.
  exists (pe :: l1 ++ l2). split.
  - cbn [map]. rewrite map_app. reflexivity.
  - exists pe, (l1 ++ l2). split; [reflexivity|]. split; [exact Hpe|].
    apply Forall_app. split; assumption.
Qed.

End GeneratedList.

Lemma filter_Forall {A} (f : A -> bool) (l : list A) :
  Forall (fun x => f x = true) (filter f l).
Proof.
  induction l as [|x l IH]; cbn [filter]; [constructor|].
  destruct (f x) eqn:E; [constructor; assumption | exact IH].
Qed.

Section OrderTheorem.
Context {Ty : IslTypes} {Ops : IslOps}.

(** C3.  Every module list produced by the generation is put by
    [hw_module_reorder] in the order: all copy-in I/O modules, the single
    PE module, all copy-out I/O modules, all drain modules. *)
Theorem generate_hw_modules_final_order
    (kernel kernel' : autosa_kernel)
    (hw_modules : list (option autosa_hw_module)) :
  generated_hw_modules kernel = Ok (hw_modules, kernel') ->
  exists ins pe outs drains,
    hw_module_reorder hw_modules (Z.of_nat (List.length hw_modules))
      = Ok (map Some (ins ++ [pe] ++ outs ++ drains))
    /\ generate_hw_modules kernel
       = Ok (map Some (ins ++ [pe] ++ outs ++ drains), kernel')
    /\ Forall (fun m => is_copy_in m = true) ins
    /\ type pe = PE_MODULE
    /\ Forall (fun m => is_copy_out m = true) outs
    /\ Forall (fun m => is_drain m = true) drains
    /\ Permutation (map Some (ins ++ [pe] ++ outs ++ drains)) hw_modules.
Proof.
  intros H.
  destruct (generated_hw_modules_pe_first _ _ _ H)
    as (ms & -> & pe & rest & -> & Hpe & Hrest).
  exists (filter is_copy_in rest), pe, (filter is_copy_out rest),
    (filter is_drain rest).
  assert (Hr : hw_module_reorder (map Some (pe :: rest))
                 (Z.of_nat (List.length (map Some (pe :: rest))))
               = Ok (map Some
                       (filter is_copy_in rest ++ [pe]
                        ++ filter is_copy_out rest ++ filter is_drain rest))).
  { rewrite length_map. apply hw_module_reorder_pe_first; assumption. }
  split; [exact Hr|]. split.
  { unfold generate_hw_modules. rewrite H. cbn [bind]. rewrite Hr. reflexivity. }
  split; [apply filter_Forall|]. split; [exact Hpe|].
  split; [apply filter_Forall|]. split; [apply filter_Forall|].
  apply Permutation_map. apply Permutation_sym.
  apply (Permutation_cons_app (filter is_copy_in rest)
           (filter is_copy_out rest ++ filter is_drain rest) pe).
  apply Permutation_sym, scans_permutation. exact Hrest.
Qed.

End OrderTheorem.

(** C10.  [hw_module_reorder] writes the copy-in modules, then the
    element at index 0 of its input, then the copy-out and the drain
    modules, and selects no PE module in its scans.  Its output is a
    permutation of its input exactly when the first element of the input
    is the only PE module; this is the list [generate_hw_modules] builds
    before it calls the reorder. *)
Theorem hw_module_reorder_permutation_iff_pe_first :
  (forall m0 rest out,
     hw_module_reorder (map Some (m0 :: rest))
       (Z.of_nat (List.length (m0 :: rest))) = Ok out ->
     out = slots (reordered m0 (m0 :: rest))
             (List.length (m0 :: rest)
              - List.length (reordered m0 (m0 :: rest))))
  /\ (forall ms,
        (exists out,
           hw_module_reorder (map Some ms) (Z.of_nat (List.length ms)) = Ok out
           /\ Permutation out (map Some ms))
        <-> pe_first ms)
  /\ (forall {Ty : IslTypes} {Ops : IslOps} (kernel kernel' : autosa_kernel)
             hw_modules,
        generated_hw_modules kernel = Ok (hw_modules, kernel') ->
        exists ms, hw_modules = map Some ms /\ pe_first ms).
Proof.
  split; [|split].
  - intros m0 rest out H.
    pose proof (hw_module_reorder_spec m0 rest) as Hs. cbv zeta in Hs.
    rewrite Hs in H.
    destruct (_ <=? _)%nat; [|discriminate]. injection H as <-. reflexivity.
  - intros ms. split.
    + intros [out [H Hp]]. eapply hw_module_reorder_permutation; eauto.
    + apply hw_module_reorder_of_pe_first.
  - intros Ty Ops kernel kernel' hw_modules.
    apply generated_hw_modules_pe_first.
Qed.

(** ** The dummy modules and the direction flags (C7, C8) *)

Lemma pe_dummy_modules_groups_spec groups dummies :
  pe_dummy_modules_groups groups dummies
  = dummies
    ++ map (fun g => {| dummy_io_group := group_id g |})
         (filter (fun g => autosa_io_dir_beq (pe_io_dir g) IO_INOUT) groups).
Proof.
  revert dummies. induction groups as [|g groups IH]; intros dummies.
  - cbn. rewrite app_nil_r. reflexivity.
  - cbn [pe_dummy_modules_groups filter].
    destruct (autosa_io_dir_beq (pe_io_dir g) IO_INOUT); cbn [negb].
    + rewrite IH, <- app_assoc. reflexivity.
    + apply IH.
Qed.

Lemma pe_dummy_modules_arrays_spec arrays dummies :
  pe_dummy_modules_arrays arrays dummies
  = dummies
    ++ map (fun g => {| dummy_io_group := group_id g |}) (dummy_groups arrays).
Proof.
  revert dummies. induction arrays as [|local arrays IH]; intros dummies.
  - cbn. rewrite app_nil_r. reflexivity.
  - cbn [pe_dummy_modules_arrays dummy_groups flat_map].
    destruct (autosa_array_type_beq (array_type local) AUTOSA_INT_ARRAY).
    + apply IH.
    + rewrite IH, pe_dummy_modules_groups_spec, map_app, <- app_assoc.
      reflexivity.
Qed.

Lemma dummy_groups_spec arrays g :
  In g (dummy_groups arrays)
  <-> exists local,
        In local arrays /\ array_type local <> AUTOSA_INT_ARRAY
        /\ In g (io_groups local) /\ pe_io_dir g = IO_INOUT.
Proof.
  unfold dummy_groups. rewrite in_flat_map. split.
  - intros [local [Hl Hg]]. exists local.
    destruct (autosa_array_type_beq (array_type local) AUTOSA_INT_ARRAY) eqn:E;
      [contradiction|].
    apply filter_In in Hg. destruct Hg as [Hg Hd].
    split; [exact Hl|]. split.
    + intros Ha. rewrite Ha in E. discriminate.
    + split; [exact Hg|]. apply internal_autosa_io_dir_dec_bl. exact Hd.
  - intros [local (Hl & Ha & Hg & Hd)]. exists local. split; [exact Hl|].
    destruct (autosa_array_type_beq (array_type local) AUTOSA_INT_ARRAY) eqn:E.
    + apply internal_autosa_array_type_dec_bl in E. contradiction.
    + apply filter_In. split; [exact Hg|].
      apply internal_autosa_io_dir_dec_lb. exact Hd.
Qed.

Section DummyModules.
Context {Ty : IslTypes} {Ops : IslOps}.

(** C7 (amended).  Once the copy statements of all groups are grafted,
    [sa_pe_module_gen] generates one dummy module for every I/O group
    that belongs to an array other than an internal array and whose
    [pe_io_dir] is INOUT, and for no other group. *)
Theorem sa_pe_module_gen_dummy_modules (kernel : autosa_kernel) :
  pe_dummy_modules (fst (sa_pe_module_gen kernel))
  = map (fun g => {| dummy_io_group := group_id g |})
      (dummy_groups (snd (sa_pe_module_gen kernel)))
  /\ forall g,
       In g (dummy_groups (snd (sa_pe_module_gen kernel)))
       <-> exists local,
             In local (snd (sa_pe_module_gen kernel))
             /\ array_type local <> AUTOSA_INT_ARRAY
             /\ In g (io_groups local) /\ pe_io_dir g = IO_INOUT.
Proof.
  split; [|intros g; apply dummy_groups_spec].
  unfold sa_pe_module_gen.
  destruct (pe_copies_arrays _ _) as [arrays [[node stmts] groups]].
  cbn [fst snd]. rewrite pe_dummy_modules_arrays_spec. cbn [app].
  destruct autosa_hw_module_alloc. reflexivity.
Qed.

End DummyModules.

(** Without the condition on the array the property fails: the I/O
    group of an internal array reaches INOUT at the PE level and gets
    no dummy module. *)
Lemma sa_pe_module_gen_dummy_counterexample :
  map (fun a => map pe_io_dir (io_groups a))
    (snd (sa_pe_module_gen
            (Ops := sample_ops isl_bool_false 2 (fun _ _ => []))
            (sample_kernel_pe AUTOSA_INT_ARRAY [raw_ref 1])))
  = [[IO_INOUT]]
  /\ pe_dummy_modules
       (fst (sa_pe_module_gen
               (Ops := sample_ops isl_bool_false 2 (fun _ _ => []))
               (sample_kernel_pe AUTOSA_INT_ARRAY [raw_ref 1])))
     = [].
Proof. split; reflexivity. Qed.

(** The update of a direction flag is the join with the new direction
    as long as the flag is not INOUT, ... *)
Lemma io_dir_update_join (read : bool) (d : autosa_io_dir) :
  d <> IO_INOUT ->
  io_dir_update read d = io_dir_join d (if read then IO_IN else IO_OUT).
Proof. destruct read, d; intros H; try reflexivity; contradiction. Qed.

(** ... and it takes an INOUT flag back to the new direction. *)
Lemma io_dir_update_inout (read : bool) :
  io_dir_update read IO_INOUT = if read then IO_IN else IO_OUT.
Proof. destruct read; reflexivity. Qed.

(** C8.  A group with one written and two read references: the copy-out
    of the first reference and the copy-ins of the two others are
    grafted, an IN- and an OUT-classified update both occurred, and
    [pe_io_dir] ends as IN: the second copy-in has reset the INOUT the
    first one had reached. *)
Theorem pe_io_dir_reset_after_inout :
  let run :=
    sa_pe_module_gen (Ops := sample_ops isl_bool_false 2 one_write_visits)
      (sample_kernel_pe AUTOSA_EXT_ARRAY [raw_ref 1; raw_ref 2; raw_ref 3]) in
  sched (fst run)
  = Some [pe_copy_stmt 7 (Some 1) false; pe_copy_stmt 7 (Some 2) true;
          pe_copy_stmt 7 (Some 3) true]
  /\ map (fun a => map pe_io_dir (io_groups a)) (snd run) = [[IO_IN]]
  /\ io_dir_update true (io_dir_update true (io_dir_update false IO_NULL))
     = IO_IN
  /\ io_dir_join (io_dir_join (io_dir_join IO_NULL IO_OUT) IO_IN) IO_IN
     = IO_INOUT.
Proof. repeat split; reflexivity. Qed.

Lemma generate_hw_modules_final_order_witness :
  exists hw_modules kernel',
    generated_hw_modules (Ops := sample_ops isl_bool_false 2 (fun _ _ => []))
      sample_kernel_full = Ok (hw_modules, kernel')
    /\ exists ins pe outs drains,
         hw_module_reorder hw_modules (Z.of_nat (List.length hw_modules))
           = Ok (map Some (ins ++ [pe] ++ outs ++ drains))
         /\ generate_hw_modules
              (Ops := sample_ops isl_bool_false 2 (fun _ _ => []))
              sample_kernel_full
            = Ok (map Some (ins ++ [pe] ++ outs ++ drains), kernel')
         /\ Forall (fun m => is_copy_in m = true) ins
         /\ type pe = PE_MODULE
         /\ Forall (fun m => is_copy_out m = true) outs
         /\ Forall (fun m => is_drain m = true) drains
         /\ Permutation (map Some (ins ++ [pe] ++ outs ++ drains)) hw_modules.
Proof.
  destruct (generated_hw_modules
              (Ops := sample_ops isl_bool_false 2 (fun _ _ => []))
              sample_kernel_full) as [[hw_modules kernel']|f] eqn:E.
  - exists hw_modules, kernel'. split; [reflexivity|].
    exact (generate_hw_modules_final_order
             (Ops := sample_ops isl_bool_false 2 (fun _ _ => []))
             sample_kernel_full kernel' hw_modules E).
  - vm_compute in E. discriminate.
Defined.

Lemma hw_module_reorder_permutation_iff_pe_first_witness :
  (exists out,
     hw_module_reorder
       (map Some [set_type PE_MODULE sample_module;
                  set_type DRAIN_MODULE sample_module])
       (Z.of_nat (List.length [set_type PE_MODULE sample_module;
                               set_type DRAIN_MODULE sample_module])) = Ok out
     /\ Permutation out
          (map Some [set_type PE_MODULE sample_module;
                     set_type DRAIN_MODULE sample_module]))
  /\ exists hw_modules kernel',
       generated_hw_modules (Ops := sample_ops isl_bool_false 2 (fun _ _ => []))
         sample_kernel_full = Ok (hw_modules, kernel')
       /\ exists ms, hw_modules = map Some ms /\ pe_first ms.
Proof.
  split.
  - apply (proj2 (proj1 (proj2 hw_module_reorder_permutation_iff_pe_first)
                    [set_type PE_MODULE sample_module;
                     set_type DRAIN_MODULE sample_module])).
    exists (set_type PE_MODULE sample_module),
      [set_type DRAIN_MODULE sample_module].
    split; [reflexivity|]. split; [reflexivity|].
    constructor; [discriminate | constructor].
  - destruct (generated_hw_modules
                (Ops := sample_ops isl_bool_false 2 (fun _ _ => []))
                sample_kernel_full) as [[hw_modules kernel']|f] eqn:E.
    + exists hw_modules, kernel'. split; [reflexivity|].
      exact (proj2 (proj2 hw_module_reorder_permutation_iff_pe_first)
               sample_types (sample_ops isl_bool_false 2 (fun _ _ => []))
               sample_kernel_full kernel' hw_modules E).
    + vm_compute in E. discriminate.
Defined.

(** ** The schedule constraint algebra (C9) *)

Section ConstraintFacts.
Variable point : Type.
Implicit Types (node : ScheduleConstraints.isl_schedule_node point) (names : list string).

Lemma forallb_seq (f : nat -> bool) (n : nat) :
  forallb f (seq 0 n) = true <-> forall i, (i < n)%nat -> f i = true.
Proof.
  rewrite forallb_forall. split.
  - intros H i Hi. apply H. apply in_seq. lia.
  - intros H i Hi. apply in_seq in Hi. apply H. lia.
Qed.

Lemma forall_lt_split (nz d : nat) (P : nat -> Prop) :
  (forall i, (i < nz + d)%nat -> P i)
  <-> (forall i, (i < nz)%nat -> P i)
      /\ (forall i, (i < d)%nat -> P (nz + i)%nat).
Proof.
  split.
  - intros H. split; intros i Hi; apply H; lia.
  - intros [H1 H2] i Hi. destruct (Nat.lt_ge_cases i nz) as [Hlt|Hge].
    + apply H1. exact Hlt.
    + replace i with (nz + (i - nz))%nat by lia. apply H2. lia.
Qed.

(** The comparison of the schedule, preceded by [nz] zeros, with the
    parameters, dimension by dimension. *)
Lemma compare_dimensions (f : Z -> Z -> bool) (sched : ScheduleConstraints.isl_multi_union_pw_aff point)
    names (nz : nat) e x :
  forallb
    (fun i =>
       f (if (i <? nz)%nat then 0 else ScheduleConstraints.mupa_val sched e x (i - nz))
         (e (nth i names "")))
    (seq 0 (nz + ScheduleConstraints.mupa_dim sched)) = true
  <-> (forall i, (i < nz)%nat -> f 0 (e (nth i names "")) = true)
      /\ (forall i, (i < ScheduleConstraints.mupa_dim sched)%nat ->
            f (ScheduleConstraints.mupa_val sched e x i) (e (nth (nz + i) names "")) = true).
Proof.
  rewrite forallb_seq, forall_lt_split. split; intros [H1 H2]; split.
  - intros i Hi. specialize (H1 i Hi).
    destruct (Nat.ltb_spec i nz); [exact H1 | lia].
  - intros i Hi. specialize (H2 i Hi). cbv beta in H2.
    destruct (Nat.ltb_spec (nz + i) nz); [lia|].
    replace (nz + i - nz)%nat with i in H2 by lia. exact H2.
  - intros i Hi. destruct (Nat.ltb_spec i nz); [auto | lia].
  - intros i Hi. cbv beta. destruct (Nat.ltb_spec (nz + i) nz); [lia|].
    replace (nz + i - nz)%nat with i by lia. auto.
Qed.

Lemma n_zero_leading node names :
  (ScheduleConstraints.mupa_dim (ScheduleConstraints.band_partial_schedule node) <= List.length names)%nat ->
  Z.of_nat (List.length names) - ScheduleConstraints.isl_schedule_node_band_n_member node
  = Z.of_nat (leading node names).
Proof. unfold ScheduleConstraints.isl_schedule_node_band_n_member, leading. lia. Qed.

(** [set_schedule_eq]: the leading parameters are zero and the schedule
    values equal the last parameters. *)
Lemma set_schedule_eq_spec node names :
  names <> [] ->
  (ScheduleConstraints.mupa_dim (ScheduleConstraints.band_partial_schedule node) <= List.length names)%nat ->
  exists S,
    ScheduleConstraints.set_schedule_eq (Some node) names = Some S
    /\ forall e x,
         S e x = true
         <-> (ScheduleConstraints.universe_domain node e x = true
              /\ ScheduleConstraints.mupa_dom (ScheduleConstraints.band_partial_schedule node) e x = true)
             /\ (forall i, (i < leading node names)%nat ->
                   e (nth i names "") = 0)
             /\ (forall i,
                   (i < ScheduleConstraints.mupa_dim (ScheduleConstraints.band_partial_schedule node))%nat ->
                   ScheduleConstraints.mupa_val (ScheduleConstraints.band_partial_schedule node) e x i
                   = e (nth (leading node names + i) names "")).
Proof.
  intros Hne Hd. unfold ScheduleConstraints.set_schedule_eq.
  destruct (Z.eqb_spec (Z.of_nat (List.length names)) 0) as [E|_].
  { destruct names; [contradiction | cbn in E; lia]. }
  rewrite (n_zero_leading node names Hd). unfold ScheduleConstraints.isl_multi_aff_zero.
  destruct (Z.ltb_spec (Z.of_nat (leading node names)) 0); [lia|].
  rewrite Nat2Z.id. unfold ScheduleConstraints.isl_multi_union_pw_aff_sub. cbn [ScheduleConstraints.mupa_dim
    ScheduleConstraints.isl_multi_union_pw_aff_range_product
    ScheduleConstraints.isl_multi_union_pw_aff_multi_aff_on_domain ScheduleConstraints.parameter_vector
    ScheduleConstraints.ma_dim].
  replace (leading node names + ScheduleConstraints.mupa_dim (ScheduleConstraints.band_partial_schedule node)
           =? List.length names)%nat with true
    by (symmetry; apply Nat.eqb_eq; unfold leading; lia).
  eexists. split; [reflexivity|].
  intros e x.
  unfold ScheduleConstraints.isl_multi_union_pw_aff_zero_union_set,
    ScheduleConstraints.isl_multi_union_pw_aff_range_product,
    ScheduleConstraints.isl_multi_union_pw_aff_multi_aff_on_domain, ScheduleConstraints.parameter_vector.
  cbn [ScheduleConstraints.mupa_dom ScheduleConstraints.mupa_val ScheduleConstraints.mupa_dim ScheduleConstraints.ma_val ScheduleConstraints.ma_dim].
  rewrite !andb_true_iff.
  rewrite (compare_dimensions (fun a p => a - p =? 0)
             (ScheduleConstraints.band_partial_schedule node) names (leading node names) e x).
  split.
  - intros [[[Hu Hs] _] [H1 H2]]. split; [auto|]. split.
    + intros i Hi. specialize (H1 i Hi). apply Z.eqb_eq in H1. lia.
    + intros i Hi. specialize (H2 i Hi). apply Z.eqb_eq in H2. lia.
  - intros [[Hu Hs] [H1 H2]]. split; [auto|]. split.
    + intros i Hi. apply Z.eqb_eq. rewrite (H1 i Hi). reflexivity.
    + intros i Hi. apply Z.eqb_eq. rewrite (H2 i Hi). lia.
Qed.

(** [set_schedule_ge]: the schedule values are at least the last
    parameters; the leading parameters are bounded by zero from above,
    not equated to it. *)
Lemma set_schedule_ge_spec node names :
  names <> [] ->
  (ScheduleConstraints.mupa_dim (ScheduleConstraints.band_partial_schedule node) <= List.length names)%nat ->
  exists S,
    ScheduleConstraints.set_schedule_ge (Some node) names = Some S
    /\ forall e x,
         S e x = true
         <-> (ScheduleConstraints.universe_domain node e x = true
              /\ ScheduleConstraints.mupa_dom (ScheduleConstraints.band_partial_schedule node) e x = true)
             /\ (forall i, (i < leading node names)%nat ->
                   e (nth i names "") <= 0)
             /\ (forall i,
                   (i < ScheduleConstraints.mupa_dim (ScheduleConstraints.band_partial_schedule node))%nat ->
                   e (nth (leading node names + i) names "")
                   <= ScheduleConstraints.mupa_val (ScheduleConstraints.band_partial_schedule node) e x i).
Proof.
  intros Hne Hd. unfold ScheduleConstraints.set_schedule_ge.
  destruct (Z.eqb_spec (Z.of_nat (List.length names)) 0) as [E|_].
  { destruct names; [contradiction | cbn in E; lia]. }
  rewrite (n_zero_leading node names Hd). unfold ScheduleConstraints.isl_multi_aff_zero.
  destruct (Z.ltb_spec (Z.of_nat (leading node names)) 0); [lia|].
  rewrite Nat2Z.id. unfold ScheduleConstraints.isl_multi_union_pw_aff_sub. cbn [ScheduleConstraints.mupa_dim
    ScheduleConstraints.isl_multi_union_pw_aff_range_product
    ScheduleConstraints.isl_multi_union_pw_aff_multi_aff_on_domain ScheduleConstraints.parameter_vector
    ScheduleConstraints.ma_dim].
  replace (leading node names + ScheduleConstraints.mupa_dim (ScheduleConstraints.band_partial_schedule node)
           =? List.length names)%nat with true
    by (symmetry; apply Nat.eqb_eq; unfold leading; lia).
  eexists. split; [reflexivity|].
  intros e x.
  unfold ScheduleConstraints.isl_multi_union_pw_aff_nonneg_union_set,
    ScheduleConstraints.isl_multi_union_pw_aff_range_product,
    ScheduleConstraints.isl_multi_union_pw_aff_multi_aff_on_domain, ScheduleConstraints.parameter_vector.
  cbn [ScheduleConstraints.mupa_dom ScheduleConstraints.mupa_val ScheduleConstraints.mupa_dim ScheduleConstraints.ma_val ScheduleConstraints.ma_dim].
  rewrite !andb_true_iff.
  rewrite (compare_dimensions (fun a p => 0 <=? a - p)
             (ScheduleConstraints.band_partial_schedule node) names (leading node names) e x).
  split.
  - intros [[[Hu Hs] _] [H1 H2]]. split; [auto|]. split.
    + intros i Hi. specialize (H1 i Hi). apply Z.leb_le in H1. lia.
    + intros i Hi. specialize (H2 i Hi). apply Z.leb_le in H2. lia.
  - intros [[Hu Hs] [H1 H2]]. split; [auto|]. split.
    + intros i Hi. apply Z.leb_le. specialize (H1 i Hi). lia.
    + intros i Hi. apply Z.leb_le. specialize (H2 i Hi). lia.
Qed.

(** [set_schedule_le]: the schedule values are at most the last
    parameters; the leading parameters are bounded by zero from below. *)
Lemma set_schedule_le_spec node names :
  names <> [] ->
  (ScheduleConstraints.mupa_dim (ScheduleConstraints.band_partial_schedule node) <= List.length names)%nat ->
  exists S,
    ScheduleConstraints.set_schedule_le (Some node) names = Some S
    /\ forall e x,
         S e x = true
         <-> (ScheduleConstraints.universe_domain node e x = true
              /\ ScheduleConstraints.mupa_dom (ScheduleConstraints.band_partial_schedule node) e x = true)
             /\ (forall i, (i < leading node names)%nat ->
                   0 <= e (nth i names ""))
             /\ (forall i,
                   (i < ScheduleConstraints.mupa_dim (ScheduleConstraints.band_partial_schedule node))%nat ->
                   ScheduleConstraints.mupa_val (ScheduleConstraints.band_partial_schedule node) e x i
                   <= e (nth (leading node names + i) names "")).
Proof.
  intros Hne Hd. unfold ScheduleConstraints.set_schedule_le.
  destruct (Z.eqb_spec (Z.of_nat (List.length names)) 0) as [E|_].
  { destruct names; [contradiction | cbn in E; lia]. }
  rewrite (n_zero_leading node names Hd). unfold ScheduleConstraints.isl_multi_aff_zero.
  destruct (Z.ltb_spec (Z.of_nat (leading node names)) 0); [lia|].
  rewrite Nat2Z.id. unfold ScheduleConstraints.isl_multi_union_pw_aff_sub. cbn [ScheduleConstraints.mupa_dim
    ScheduleConstraints.isl_multi_union_pw_aff_range_product
    ScheduleConstraints.isl_multi_union_pw_aff_multi_aff_on_domain ScheduleConstraints.parameter_vector
    ScheduleConstraints.ma_dim].
  replace (List.length names
           =? leading node names + ScheduleConstraints.mupa_dim (ScheduleConstraints.band_partial_schedule node))%nat
    with true by (symmetry; apply Nat.eqb_eq; unfold leading; lia).
  eexists. split; [reflexivity|].
  intros e x.
  unfold ScheduleConstraints.isl_multi_union_pw_aff_nonneg_union_set,
    ScheduleConstraints.isl_multi_union_pw_aff_range_product,
    ScheduleConstraints.isl_multi_union_pw_aff_multi_aff_on_domain, ScheduleConstraints.parameter_vector.
  cbn [ScheduleConstraints.mupa_dom ScheduleConstraints.mupa_val ScheduleConstraints.mupa_dim ScheduleConstraints.ma_val ScheduleConstraints.ma_dim].
  rewrite !andb_true_iff.
  replace (List.length names)
    with (leading node names + ScheduleConstraints.mupa_dim (ScheduleConstraints.band_partial_schedule node))%nat
    by (unfold leading; lia).
  rewrite (compare_dimensions (fun a p => 0 <=? p - a)
             (ScheduleConstraints.band_partial_schedule node) names (leading node names) e x).
  split.
  - intros [[Hu [_ Hs]] [H1 H2]]. split; [auto|]. split.
    + intros i Hi. specialize (H1 i Hi). apply Z.leb_le in H1. lia.
    + intros i Hi. specialize (H2 i Hi). apply Z.leb_le in H2. lia.
  - intros [[Hu Hs] [H1 H2]]. split; [auto|]. split.
    + intros i Hi. apply Z.leb_le. specialize (H1 i Hi). lia.
    + intros i Hi. apply Z.leb_le. specialize (H2 i Hi). lia.
Qed.

(** A null node gives a null result. *)
Lemma set_schedule_null names size :
  ScheduleConstraints.set_schedule_eq (@None (ScheduleConstraints.isl_schedule_node point)) names = None
  /\ ScheduleConstraints.set_schedule_ge (@None (ScheduleConstraints.isl_schedule_node point)) names = None
  /\ ScheduleConstraints.set_schedule_le (@None (ScheduleConstraints.isl_schedule_node point)) names = None
  /\ ScheduleConstraints.set_schedule_modulo (@None (ScheduleConstraints.isl_schedule_node point)) names size
     = Ok None.
Proof. repeat split. Qed.


(** [set_schedule_modulo]: the leading parameters are zero and the
    schedule values, reduced modulo the sizes, equal the last
    parameters. *)
Lemma set_schedule_modulo_spec node names (size : list Z) :
  names <> [] ->
  (ScheduleConstraints.mupa_dim (ScheduleConstraints.band_partial_schedule node) <= List.length names)%nat ->
  (List.length names <= List.length size)%nat ->
  Forall (fun m => 0 < m) (skipn (leading node names) size) ->
  exists S,
    ScheduleConstraints.set_schedule_modulo (Some node) names size = Ok (Some S)
    /\ forall e x,
         S e x = true
         <-> (ScheduleConstraints.universe_domain node e x = true
              /\ ScheduleConstraints.mupa_dom (ScheduleConstraints.band_partial_schedule node) e x = true)
             /\ (forall i, (i < leading node names)%nat ->
                   e (nth i names "") = 0)
             /\ (forall i,
                   (i < ScheduleConstraints.mupa_dim (ScheduleConstraints.band_partial_schedule node))%nat ->
                   ScheduleConstraints.mupa_val (ScheduleConstraints.band_partial_schedule node) e x i
                     mod nth (leading node names + i) size 1
                   = e (nth (leading node names + i) names "")).
Proof.
  intros Hne Hd Hsize Hpos. unfold ScheduleConstraints.set_schedule_modulo.
  destruct (Z.eqb_spec (Z.of_nat (List.length names)) 0) as [E|_].
  { destruct names; [contradiction | cbn in E; lia]. }
  rewrite (n_zero_leading node names Hd).
  destruct (Z.ltb_spec (Z.of_nat (leading node names)) 0); [lia|].
  rewrite Nat2Z.id. unfold ScheduleConstraints.construct_band_tiles_sizes.
  set (d := ScheduleConstraints.mupa_dim (ScheduleConstraints.band_partial_schedule node)) in *.
  set (nz := leading node names) in *.
  assert (Hnz : (nz + d = List.length names)%nat) by (unfold nz, leading; fold d; lia).
  assert (Hlen : (d <= List.length (skipn nz size))%nat)
    by (rewrite length_skipn; lia).
  replace (d <=? List.length (skipn nz size))%nat with true
    by (symmetry; apply Nat.leb_le; exact Hlen).
  cbn [bind]. unfold ScheduleConstraints.isl_multi_union_pw_aff_mod_multi_val. fold d.
  replace (d =? List.length (firstn d (skipn nz size)))%nat with true
    by (symmetry; apply Nat.eqb_eq; rewrite length_firstn; lia).
  replace (forallb (fun m => 0 <? m) (firstn d (skipn nz size))) with true.
  2:{ symmetry. apply forallb_forall. intros m Hm. apply Z.ltb_lt.
      apply (proj1 (Forall_forall _ _) Hpos).
      rewrite <- (firstn_skipn d (skipn nz size)). apply in_or_app.
      left. exact Hm. }
  cbn [andb]. unfold ScheduleConstraints.isl_multi_aff_zero.
  destruct (Z.ltb_spec (Z.of_nat nz) 0); [lia|].
  rewrite Nat2Z.id. unfold ScheduleConstraints.isl_multi_union_pw_aff_sub,
    ScheduleConstraints.isl_multi_union_pw_aff_range_product,
    ScheduleConstraints.isl_multi_union_pw_aff_multi_aff_on_domain, ScheduleConstraints.parameter_vector.
  cbn [ScheduleConstraints.mupa_dim ScheduleConstraints.ma_dim].
  replace (nz + d =? List.length names)%nat with true
    by (symmetry; apply Nat.eqb_eq; exact Hnz).
  eexists. split; [reflexivity|].
  intros e x. unfold ScheduleConstraints.isl_multi_union_pw_aff_zero_union_set.
  cbn [ScheduleConstraints.mupa_dom ScheduleConstraints.mupa_val ScheduleConstraints.mupa_dim ScheduleConstraints.ma_val ScheduleConstraints.ma_dim].
  rewrite !andb_true_iff.
  pose proof (compare_dimensions (fun a p => a - p =? 0)
                {| ScheduleConstraints.mupa_dim := d;
                   ScheduleConstraints.mupa_dom := ScheduleConstraints.mupa_dom (ScheduleConstraints.band_partial_schedule node);
                   ScheduleConstraints.mupa_val := fun e x i =>
                     ScheduleConstraints.mupa_val (ScheduleConstraints.band_partial_schedule node) e x i
                       mod nth i (firstn d (skipn nz size)) 1 |}
                names nz e x) as Hc.
  cbn [ScheduleConstraints.mupa_dim ScheduleConstraints.mupa_val] in Hc. rewrite Hc. clear Hc.
  assert (Hnth : forall i, (i < d)%nat ->
             nth i (firstn d (skipn nz size)) 1 = nth (nz + i) size 1).
  { intros i Hi. rewrite nth_firstn.
    replace (i <? d)%nat with true by (symmetry; apply Nat.ltb_lt; exact Hi).
    rewrite nth_skipn. reflexivity. }
  split.
  - intros [[[Hu Hs] _] [H1 H2]]. split; [auto|]. split.
    + intros i Hi. specialize (H1 i Hi). apply Z.eqb_eq in H1. lia.
    + intros i Hi. specialize (H2 i Hi). apply Z.eqb_eq in H2.
      rewrite (Hnth i Hi) in H2. lia.
  - intros [[Hu Hs] [H1 H2]]. split; [auto|]. split.
    + intros i Hi. apply Z.eqb_eq. rewrite (H1 i Hi). reflexivity.
    + intros i Hi. apply Z.eqb_eq. rewrite (Hnth i Hi), (H2 i Hi). lia.
Qed.

End ConstraintFacts.

Section ConstraintTheorem.
Variable point : Type.


End ConstraintTheorem.



(* ================================================================== *)
(** ** C strings: printing and reading back numbers *)

Lemma length_append (a b : string) :
  String.length (a ++ b) = (String.length a + String.length b)%nat.
Proof. induction a as [|c a IH]; cbn; [reflexivity | now rewrite IH]. Qed.

Lemma string_skip_app (a b : string) :
  string_skip (String.length a) (a ++ b) = Some b.
Proof. induction a as [|c a IH]; cbn; [reflexivity | exact IH]. Qed.

Lemma string_skip_beyond (n : nat) (s : string) :
  (String.length s < n)%nat -> string_skip n s = None.
Proof.
  revert s. induction n as [|n IH]; intros s H; [lia|].
  destruct s as [|c s]; cbn; [reflexivity|]. apply IH. cbn in H. lia.
Qed.

Lemma string_skip_length (n : nat) (s t : string) :
  string_skip n s = Some t ->
  String.length s = (n + String.length t)%nat.
Proof.
  revert s. induction n as [|n IH]; intros s H; cbn in H.
  - injection H as ->. reflexivity.
  - destruct s as [|c s]; [discriminate|]. cbn. rewrite (IH s H). reflexivity.
Qed.

Lemma strlen_no_nul (s : string) :
  no_nul s = true -> strlen s = String.length s.
Proof.
  induction s as [|c s IH]; cbn; [reflexivity|].
  destruct (c =? NUL)%char; cbn; [discriminate|]. intros H. now rewrite IH.
Qed.

Lemma c_str_no_nul (s : string) : no_nul s = true -> c_str s = s.
Proof.
  induction s as [|c s IH]; cbn; [reflexivity|].
  destruct (c =? NUL)%char; cbn; [discriminate|]. intros H. now rewrite IH.
Qed.

Lemma plain_no_nul (s : string) : plain s = true -> no_nul s = true.
Proof.
  induction s as [|c s IH]; cbn; [reflexivity|].
  destruct (c =? NUL)%char; cbn; [discriminate|].
  destruct (c =? ".")%char; cbn; [discriminate | exact IH].
Qed.

Lemma no_nul_app (a b : string) :
  no_nul (a ++ b) = no_nul a && no_nul b.
Proof.
  induction a as [|c a IH]; cbn; [reflexivity|].
  rewrite IH, andb_assoc. reflexivity.
Qed.

Lemma plain_app (a b : string) : plain (a ++ b) = plain a && plain b.
Proof.
  induction a as [|c a IH]; cbn; [reflexivity|].
  rewrite IH, !andb_assoc. reflexivity.
Qed.

(** The digits of a decimal number are read back by the digit loop of
    [strtol]. *)
Ltac eval_digit :=
  match goal with
  | |- context [digit_of ?c] =>
      let v := eval vm_compute in (digit_of c) in
      change (digit_of c) with v
  end.

Lemma strtol_digits_acc (d : Decimal.uint) (acc : positive) (rest : string) :
  digit_of (cstr_head rest) = None ->
  strtol_digits (NilEmpty.string_of_uint d ++ rest) (Z.pos acc)
  = Z.pos (Pos.of_uint_acc d acc).
Proof.
  intros Hr. revert acc.
  induction d as [|d IH|d IH|d IH|d IH|d IH|d IH|d IH|d IH|d IH|d IH];
    intros acc;
    cbn [NilEmpty.string_of_uint append strtol_digits Pos.of_uint_acc];
    try (eval_digit; cbv iota; rewrite <- IH; f_equal; lia).
  destruct rest as [|c rest]; [reflexivity|]. cbn in Hr |- *.
  rewrite Hr. reflexivity.
Qed.

Lemma strtol_digits_uint (d : Decimal.uint) (rest : string) :
  digit_of (cstr_head rest) = None ->
  strtol_digits (NilEmpty.string_of_uint d ++ rest) 0 = Z.of_uint d.
Proof.
  intros Hr. unfold Z.of_uint.
  induction d as [|d IH|d IH|d IH|d IH|d IH|d IH|d IH|d IH|d IH|d IH];
    cbn [NilEmpty.string_of_uint append strtol_digits Pos.of_uint];
    try (eval_digit; cbv iota; cbn [Z.mul Z.add Z.of_N];
         first [ exact IH | apply (strtol_digits_acc d _ rest Hr) ]).
  destruct rest as [|c rest]; [reflexivity|]. cbn in Hr |- *.
  rewrite Hr. reflexivity.
Qed.

(** A decimal number starts with a digit: [strtol] finds no white
    space and no sign in front of it. *)
Lemma strtol_uint (d : Decimal.uint) :
  strtol (NilZero.string_of_uint d)
  = Z.max (-9223372036854775808) (Z.min 9223372036854775807 (Z.of_uint d)).
Proof.
  pose proof (strtol_digits_uint d "" eq_refl) as H.
  assert (Happ : forall s : string, (s ++ "")%string = s)
    by (induction s as [|c s IH]; cbn; [reflexivity | now rewrite IH]).
  rewrite Happ in H.
  destruct d; try (cbn in H |- *; unfold strtol; cbn; rewrite H; reflexivity).
  reflexivity.
Qed.

Lemma strtol_neg_uint (d : Decimal.uint) :
  strtol (String "-" (NilZero.string_of_uint d))
  = Z.max (-9223372036854775808)
      (Z.min 9223372036854775807 (- Z.of_uint d)).
Proof.
  pose proof (strtol_digits_uint d "" eq_refl) as H.
  assert (Happ : forall s : string, (s ++ "")%string = s)
    by (induction s as [|c s IH]; cbn; [reflexivity | now rewrite IH]).
  rewrite Happ in H.
  unfold strtol. cbn [skip_spaces]. change (isspace "-") with false. cbv iota.
  destruct d; try (cbn in H |- *; rewrite H; reflexivity).
  reflexivity.
Qed.

(** [atoi] reads back what [isl_printer_print_int] prints. *)
Lemma atoi_print_int (z : Z) : is_int z -> atoi (print_int z) = z.
Proof.
  intros Hz. unfold is_int in Hz. unfold atoi, print_int.
  pose proof (DecimalZ.of_to z) as Hot.
  destruct (Z.to_int z) as [d|d]; cbn [NilZero.string_of_int Z.of_int] in *.
  - rewrite strtol_uint, Hot. rewrite Z.min_r, Z.max_r by lia.
    apply int_of_long_small. exact Hz.
  - rewrite strtol_neg_uint, Hot. rewrite Z.min_r, Z.max_r by lia.
    apply int_of_long_small. exact Hz.
Qed.

(** A printed number is one field. *)
Lemma plain_uint (d : Decimal.uint) :
  plain (NilEmpty.string_of_uint d) = true.
Proof. induction d; cbn; auto. Qed.

Lemma plain_print_int (z : Z) : plain (print_int z) = true.
Proof.
  unfold print_int. destruct (Z.to_int z) as [d|d];
    cbn [NilZero.string_of_int]; destruct d; cbn; try apply plain_uint;
    reflexivity.
Qed.

(* ================================================================== *)
(** ** The fields of a statement name *)

(** The first loop of the [extract_*] functions stops at the [k]-th
    dot, when there is one, and at the terminator otherwise. *)
Lemma scan_dots_spec (k : Z) (s : string) (loc nd : Z) :
  nd < k ->
  match after_dots s (Z.to_nat (k - nd)) with
  | Some suf =>
      exists n : nat,
        scan_dots k s loc nd = (loc + Z.of_nat n, k)
        /\ string_skip (S n) s = Some suf
  | None =>
      exists nd',
        scan_dots k s loc nd = (loc + Z.of_nat (strlen s), nd') /\ nd' < k
  end.
Proof.
  revert loc nd. induction s as [|c s IH]; intros loc nd Hnd.
  - destruct (Z.to_nat (k - nd)) eqn:E; [lia|]. cbn.
    exists nd. split; [f_equal; lia | exact Hnd].
  - destruct (Z.to_nat (k - nd)) as [|m] eqn:E; [lia|].
    cbn [after_dots scan_dots strlen].
    destruct (c =? NUL)%char.
    { exists nd. split; [f_equal; lia | exact Hnd]. }
    destruct (c =? ".")%char.
    + destruct (Z.eqb_spec (nd + 1) k) as [Hk|Hk].
      * assert (m = O) by lia. subst m. cbn [after_dots].
        destruct s; exists O; (split; [f_equal; lia | reflexivity]).
      * specialize (IH (loc + 1) (nd + 1) ltac:(lia)).
        replace (Z.to_nat (k - (nd + 1))) with m in IH by lia.
        destruct (after_dots s m) as [suf|].
        -- destruct IH as [n [H1 H2]]. exists (S n). split.
           ++ rewrite H1. f_equal. lia.
           ++ exact H2.
        -- destruct IH as [nd' [H1 H2]]. exists nd'. split; [|exact H2].
           rewrite H1. f_equal. lia.
    + destruct (Z.eqb_spec nd k) as [Hk|Hk]; [lia|].
      specialize (IH (loc + 1) nd Hnd). rewrite E in IH.
      destruct (after_dots s (S m)) as [suf|].
      * destruct IH as [n [H1 H2]]. exists (S n). split.
        -- rewrite H1. f_equal. lia.
        -- exact H2.
      * destruct IH as [nd' [H1 H2]]. exists nd'. split; [|exact H2].
        rewrite H1. f_equal. lia.
Qed.

Lemma seek_some (k : nat) (type suf : string) :
  (1 <= k)%nat ->
  after_dots type k = Some suf ->
  exists loc,
    scan_dots (Z.of_nat k) type 0 0 = (loc, Z.of_nat k)
    /\ cstr_from type (loc + 1) = Ok suf.
Proof.
  intros Hk Ha.
  pose proof (scan_dots_spec (Z.of_nat k) type 0 0 ltac:(lia)) as H.
  replace (Z.to_nat (Z.of_nat k - 0)) with k in H by lia. rewrite Ha in H.
  destruct H as [n [H1 H2]]. exists (Z.of_nat n). split; [exact H1|].
  unfold cstr_from. destruct (Z.ltb_spec (Z.of_nat n + 1) 0); [lia|].
  replace (Z.to_nat (Z.of_nat n + 1)) with (S n) by lia. rewrite H2.
  reflexivity.
Qed.

Lemma seek_none (k : nat) (type : string) :
  (1 <= k)%nat ->
  after_dots type k = None ->
  exists loc nd,
    scan_dots (Z.of_nat k) type 0 0 = (loc, nd)
    /\ nd < Z.of_nat k
    /\ (no_nul type = true -> cstr_from type (loc + 1) = Crash OutOfBounds).
Proof.
  intros Hk Ha.
  pose proof (scan_dots_spec (Z.of_nat k) type 0 0 ltac:(lia)) as H.
  replace (Z.to_nat (Z.of_nat k - 0)) with k in H by lia. rewrite Ha in H.
  destruct H as [nd [H1 H2]]. exists (Z.of_nat (strlen type)), nd.
  split; [exact H1|]. split; [exact H2|]. intros Hn.
  unfold cstr_from. destruct (Z.ltb_spec (Z.of_nat (strlen type) + 1) 0); [lia|].
  rewrite string_skip_beyond; [reflexivity|].
  rewrite (strlen_no_nul type Hn). lia.
Qed.

Lemma number_after_dot_field (k : nat) (type : string) :
  (1 <= k)%nat -> no_nul type = true ->
  number_after_dot (Z.of_nat k) type
  = match dot_field k type with
    | Some f => Ok (atoi f)
    | None => Crash OutOfBounds
    end.
Proof.
  intros Hk Hn. unfold number_after_dot, dot_field.
  destruct (after_dots type k) as [suf|] eqn:Ha; cbn [option_map].
  - destruct (seek_some k type suf Hk Ha) as [loc [H1 H2]].
    rewrite H1, H2. reflexivity.
  - destruct (seek_none k type Hk Ha) as [loc [nd [H1 [_ H2]]]].
    rewrite H1, (H2 Hn). reflexivity.
Qed.

Lemma number_after_dot_checked_field (k : nat) (type : string) :
  (1 <= k)%nat ->
  number_after_dot_checked (Z.of_nat k) type
  = match dot_field k type with
    | Some f => Ok (atoi f)
    | None => Ok (-1)
    end.
Proof.
  intros Hk. unfold number_after_dot_checked, dot_field.
  destruct (after_dots type k) as [suf|] eqn:Ha; cbn [option_map].
  - destruct (seek_some k type suf Hk Ha) as [loc [H1 H2]].
    rewrite H1, H2. destruct (Z.ltb_spec (Z.of_nat k) (Z.of_nat k)); [lia|].
    reflexivity.
  - destruct (seek_none k type Hk Ha) as [loc [nd [H1 [Hlt _]]]].
    rewrite H1. destruct (Z.ltb_spec nd (Z.of_nat k)); [reflexivity | lia].
Qed.

Lemma digit_after_dot_field (char_signed : bool) (k : nat) (type : string) :
  (1 <= k)%nat -> no_nul type = true ->
  digit_after_dot char_signed (Z.of_nat k) type
  = match after_dots type k with
    | Some suf => Ok (int_of_char char_signed (cstr_head suf) - 48)
    | None => Crash OutOfBounds
    end.
Proof.
  intros Hk Hn. unfold digit_after_dot.
  destruct (after_dots type k) as [suf|] eqn:Ha.
  - destruct (seek_some k type suf Hk Ha) as [loc [H1 H2]].
    rewrite H1, H2. reflexivity.
  - destruct (seek_none k type Hk Ha) as [loc [nd [H1 [_ H2]]]].
    rewrite H1, (H2 Hn). reflexivity.
Qed.

Lemma field_after_first_dot_field (type : string) :
  no_nul type = true ->
  field_after_first_dot type
  = match dot_field 1 type with
    | Some f => Ok f
    | None => Crash OutOfBounds
    end.
Proof.
  intros Hn. unfold field_after_first_dot, dot_field.
  destruct (after_dots type 1) as [suf|] eqn:Ha; cbn [option_map].
  - destruct (seek_some 1 type suf ltac:(lia) Ha) as [loc [H1 H2]].
    change (Z.of_nat 1) with 1 in H1. rewrite H1, H2. reflexivity.
  - destruct (seek_none 1 type ltac:(lia) Ha) as [loc [nd [H1 [_ H2]]]].
    change (Z.of_nat 1) with 1 in H1. rewrite H1, (H2 Hn). reflexivity.
Qed.

Lemma extract_is_boundary_field (type : string) :
  extract_is_boundary type
  = match after_dots type 2 with Some _ => 1 | None => 0 end.
Proof.
  unfold extract_is_boundary.
  destruct (after_dots type 2) as [suf|] eqn:Ha.
  - destruct (seek_some 2 type suf ltac:(lia) Ha) as [loc [H1 _]].
    change (Z.of_nat 2) with 2 in H1. rewrite H1. reflexivity.
  - destruct (seek_none 2 type ltac:(lia) Ha) as [loc [nd [H1 [Hlt _]]]].
    change (Z.of_nat 2) with 2 in H1, Hlt. rewrite H1.
    destruct (Z.ltb_spec nd 2); [reflexivity | lia].
Qed.

(** The fields of a dotted name. *)
Lemma after_dots_0 (s : string) : after_dots s 0 = Some s.
Proof. destruct s; reflexivity. Qed.

Lemma after_dots_plain (a b : string) (n : nat) :
  plain a = true -> after_dots (a ++ b) (S n) = after_dots b (S n).
Proof.
  induction a as [|c a IH]; cbn [append plain after_dots]; [reflexivity|].
  destruct (c =? NUL)%char; [discriminate|].
  destruct (c =? ".")%char; [discriminate|]. exact IH.
Qed.

Lemma after_dots_plain_end (a : string) (n : nat) :
  plain a = true -> after_dots a (S n) = None.
Proof.
  induction a as [|c a IH]; cbn [plain after_dots]; [reflexivity|].
  destruct (c =? NUL)%char; [discriminate|].
  destruct (c =? ".")%char; [discriminate|]. exact IH.
Qed.

Lemma scan_field_plain (a b : string) :
  plain a = true -> scan_field (a ++ b) = (a ++ scan_field b)%string.
Proof.
  induction a as [|c a IH]; cbn [append plain scan_field]; [reflexivity|].
  destruct (c =? NUL)%char; [discriminate|].
  destruct (c =? ".")%char; [discriminate|]. cbn. intros H. now rewrite IH.
Qed.

Lemma scan_field_plain_end (a : string) :
  plain a = true -> scan_field a = a.
Proof.
  induction a as [|c a IH]; cbn [plain scan_field]; [reflexivity|].
  destruct (c =? NUL)%char; [discriminate|].
  destruct (c =? ".")%char; [discriminate|]. cbn. intros H. now rewrite IH.
Qed.

Lemma append_empty (s : string) : (s ++ "")%string = s.
Proof. induction s as [|c s IH]; cbn; [reflexivity | now rewrite IH]. Qed.

Lemma append_assoc (a b c : string) :
  ((a ++ b) ++ c)%string = (a ++ (b ++ c))%string.
Proof. induction a as [|x a IH]; cbn; [reflexivity | now rewrite IH]. Qed.

Lemma scan_field_dotted (f : string) (fs : list string) :
  plain f = true -> scan_field (dotted (f :: fs)) = f.
Proof.
  intros Hf. destruct fs as [|g fs]; cbn [dotted].
  - apply scan_field_plain_end. exact Hf.
  - rewrite (scan_field_plain f _ Hf). cbn. apply append_empty.
Qed.

Lemma after_dots_dotted (fs : list string) (k : nat) :
  Forall (fun f => plain f = true) fs ->
  after_dots (dotted fs) k
  = match k with
    | O => Some (dotted fs)
    | S _ => if (k <? List.length fs)%nat then Some (dotted (skipn k fs))
             else None
    end.
Proof.
  revert fs. induction k as [|k IH]; intros fs Hfs.
  - apply after_dots_0.
  - destruct fs as [|f fs]; [reflexivity|].
    inversion Hfs as [|? ? Hf Hfs']; subst.
    destruct fs as [|g fs].
    + cbn [dotted]. rewrite (after_dots_plain_end f k Hf). reflexivity.
    + change (dotted (f :: g :: fs))
        with (f ++ String "."%char (dotted (g :: fs)))%string.
      rewrite (after_dots_plain f _ k Hf). cbn [after_dots].
      change ("." =? NUL)%char with false. change ("." =? ".")%char with true.
      cbv iota. rewrite (IH (g :: fs) Hfs').
      destruct k as [|k]; [reflexivity|].
      cbn [skipn]. change (S (S k) <? List.length (f :: g :: fs))%nat
        with (S k <? List.length (g :: fs))%nat. reflexivity.
Qed.

Lemma dot_field_dotted (fs : list string) (k : nat) :
  Forall (fun f => plain f = true) fs -> fs <> [] ->
  dot_field k (dotted fs) = nth_error fs k.
Proof.
  intros Hfs Hne. unfold dot_field. rewrite (after_dots_dotted fs k Hfs).
  destruct k as [|k].
  - destruct fs as [|f fs]; [contradiction|]. cbn [option_map nth_error].
    inversion Hfs; subst. f_equal. apply scan_field_dotted. assumption.
  - destruct (Nat.ltb_spec (S k) (List.length fs)) as [Hlt|Hge].
    + cbn [option_map].
      destruct (nth_error fs (S k)) as [f|] eqn:E.
      * apply nth_error_split in E. destruct E as [l1 [l2 [-> Hl]]].
        assert (Hs : skipn (S k) (l1 ++ f :: l2) = f :: l2).
        { rewrite <- Hl. rewrite skipn_app, skipn_all, Nat.sub_diag.
          reflexivity. }
        rewrite Hs. f_equal. apply scan_field_dotted.
        apply Forall_app in Hfs. destruct Hfs as [_ Hfs].
        inversion Hfs; assumption.
      * apply nth_error_None in E. lia.
    + cbn [option_map]. symmetry. apply nth_error_None. lia.
Qed.

Lemma no_nul_dotted (fs : list string) :
  Forall (fun f => plain f = true) fs -> no_nul (dotted fs) = true.
Proof.
  induction fs as [|f fs IH]; intros H; [reflexivity|].
  inversion H as [|? ? Hf Hfs]; subst. destruct fs as [|g fs].
  - cbn [dotted]. apply plain_no_nul. exact Hf.
  - change (dotted (f :: g :: fs))
      with (f ++ String "."%char (dotted (g :: fs)))%string.
    rewrite no_nul_app, (plain_no_nul f Hf). cbn [andb no_nul].
    change (negb ("." =? NUL)%char) with true. cbn [andb]. apply IH. exact Hfs.
Qed.

(* ================================================================== *)
(** ** Decoding the names of the transfer statements *)

Section DecodeFields.
Variable char_signed : bool.
Variable fs : list string.
Hypothesis Hfs : Forall (fun f => plain f = true) fs.

Lemma number_after_dot_dotted (k : nat) (f : string) :
  (1 <= k)%nat -> nth_error fs k = Some f ->
  number_after_dot (Z.of_nat k) (dotted fs) = Ok (atoi f).
Proof.
  intros Hk Hf. assert (Hne : fs <> []) by (intros ->; destruct k; discriminate).
  rewrite (number_after_dot_field k _ Hk (no_nul_dotted fs Hfs)).
  rewrite (dot_field_dotted fs k Hfs Hne), Hf. reflexivity.
Qed.

Lemma number_after_dot_checked_dotted (k : nat) :
  (1 <= k)%nat -> fs <> [] ->
  number_after_dot_checked (Z.of_nat k) (dotted fs)
  = match nth_error fs k with
    | Some f => Ok (atoi f)
    | None => Ok (-1)
    end.
Proof.
  intros Hk Hne. rewrite (number_after_dot_checked_field k _ Hk).
  rewrite (dot_field_dotted fs k Hfs Hne). reflexivity.
Qed.

Lemma digit_after_dot_dotted (k : nat) (c : ascii) (f : string) :
  (1 <= k)%nat -> nth_error fs k = Some (String c f) ->
  digit_after_dot char_signed (Z.of_nat k) (dotted fs)
  = Ok (int_of_char char_signed c - 48).
Proof.
  intros Hk Hf.
  rewrite (digit_after_dot_field char_signed k _ Hk (no_nul_dotted fs Hfs)).
  rewrite (after_dots_dotted fs k Hfs). destruct k as [|k]; [lia|].
  assert (Hlt : (S k < List.length fs)%nat)
    by (apply nth_error_Some; congruence).
  destruct (Nat.ltb_spec (S k) (List.length fs)); [|lia].
  apply nth_error_split in Hf. destruct Hf as [l1 [l2 [-> Hl]]].
  assert (Hs : skipn (S k) (l1 ++ String c f :: l2) = String c f :: l2).
  { rewrite <- Hl. rewrite skipn_app, skipn_all, Nat.sub_diag. reflexivity. }
  rewrite Hs. destruct l2; reflexivity.
Qed.

Lemma field_after_first_dot_dotted (f : string) :
  nth_error fs 1 = Some f -> field_after_first_dot (dotted fs) = Ok f.
Proof.
  intros Hf. assert (Hne : fs <> []) by (intros ->; discriminate).
  rewrite (field_after_first_dot_field _ (no_nul_dotted fs Hfs)).
  rewrite (dot_field_dotted fs 1 Hfs Hne), Hf. reflexivity.
Qed.

Lemma extract_is_boundary_dotted :
  extract_is_boundary (dotted fs)
  = if (2 <? List.length fs)%nat then 1 else 0.
Proof.
  rewrite extract_is_boundary_field, (after_dots_dotted fs 2 Hfs).
  destruct (2 <? List.length fs)%nat; reflexivity.
Qed.

End DecodeFields.

Lemma plain_digit_of_bool (b : bool) : plain (digit_of_bool b) = true.
Proof. destruct b; reflexivity. Qed.

(** A transfer statement name is the dotted list of its fields. *)
Lemma transfer_stmt_name_dotted (read to_mem boundary : bool)
    (fifo_suffix : string) (is_filter is_buffer : bool)
    (depth space_dim io_level n_lane nxt : Z) (cd : option (Z * Z)) :
  isl_printer_get_str
    (transfer_stmt_name read to_mem boundary fifo_suffix is_filter is_buffer
       depth space_dim io_level n_lane nxt cd)
  = dotted (transfer_name_fields read to_mem boundary fifo_suffix is_filter
              is_buffer depth space_dim io_level n_lane nxt cd).
Proof.
  unfold transfer_stmt_name, transfer_name_fields, trans_stmt_head,
    coalesce_suffix.
  destruct read, to_mem, boundary, is_filter, is_buffer, cd as [[c1 c2]|];
    cbn [app isl_printer_get_str dotted negb fst snd digit_of_bool];
    rewrite ?append_assoc, ?append_empty; cbn [append]; reflexivity.
Qed.

Lemma transfer_name_fields_plain (read to_mem boundary : bool)
    (fifo_suffix : string) (is_filter is_buffer : bool)
    (depth space_dim io_level n_lane nxt : Z) (cd : option (Z * Z)) :
  plain fifo_suffix = true ->
  Forall (fun f => plain f = true)
    (transfer_name_fields read to_mem boundary fifo_suffix is_filter
       is_buffer depth space_dim io_level n_lane nxt cd).
Proof.
  intros Hf. unfold transfer_name_fields.
  apply Forall_app. split.
  - repeat constructor; try apply plain_print_int;
      try apply plain_digit_of_bool.
    + destruct read, to_mem, boundary; reflexivity.
    + destruct to_mem; [|exact Hf]. rewrite plain_app, Hf. reflexivity.
  - destruct cd; repeat constructor; apply plain_print_int.
Qed.

Lemma flag_after_dot_dotted (char_signed : bool) (fs : list string)
    (k : nat) (b : bool) :
  Forall (fun f => plain f = true) fs ->
  (1 <= k)%nat -> nth_error fs k = Some (digit_of_bool b) ->
  digit_after_dot char_signed (Z.of_nat k) (dotted fs) = Ok (int_of_bool b).
Proof.
  intros Hfs Hk Hf.
  rewrite (digit_after_dot_dotted char_signed fs Hfs k
             (if b then "1" else "0")%char "" Hk).
  - destruct b, char_signed; reflexivity.
  - rewrite Hf. destruct b; reflexivity.
Qed.

Lemma transfer_name_class (read to_mem boundary : bool)
    (fifo_suffix : string) (is_filter is_buffer : bool)
    (depth space_dim io_level n_lane nxt : Z) (cd : option (Z * Z)) :
  let type :=
    dotted (transfer_name_fields read to_mem boundary fifo_suffix is_filter
              is_buffer depth space_dim io_level n_lane nxt cd) in
  has_prefix type "in_trans" || has_prefix type "out_trans" = true
  /\ has_prefix type "in_trans_dram" || has_prefix type "out_trans_dram"
     = to_mem
  /\ has_prefix type "in_trans_boundary"
     || has_prefix type "out_trans_boundary" = negb to_mem && boundary
  /\ has_prefix type "in" = read.
Proof.
  unfold transfer_name_fields. cbn [app].
  destruct read, to_mem, boundary; repeat split; reflexivity.
Qed.

Section TransferNames.
Variable char_signed : bool.

(** The fields of a transfer name, read back one by one. *)
Lemma create_io_leaf_transfer_name
    (read to_mem boundary : bool) (fifo_suffix : string)
    (is_filter is_buffer : bool)
    (depth space_dim io_level n_lane nxt : Z) (cd : option (Z * Z))
    (local_tile : option autosa_array_tile) (local_name : string) :
  plain fifo_suffix = true ->
  is_int (depth - 1) -> is_int (space_dim - io_level) ->
  is_int n_lane -> is_int nxt ->
  (forall c, cd = Some c -> is_int (fst c) /\ is_int (snd c)) ->
  (local_tile = None -> (strlen local_name < 50)%nat) ->
  create_io_leaf char_signed
    (isl_printer_get_str
       (transfer_stmt_name read to_mem boundary fifo_suffix is_filter
          is_buffer depth space_dim io_level n_lane nxt cd))
    local_tile local_name
  = Ok (transfer_stmt read to_mem boundary fifo_suffix is_filter is_buffer
          (depth - 1) (space_dim - io_level) n_lane nxt cd local_tile).
Proof.
  intros Hfifo Hd Hp Hl Hn Hcd Hloc.
  rewrite transfer_stmt_name_dotted.
  pose proof (transfer_name_fields_plain read to_mem boundary fifo_suffix
                is_filter is_buffer depth space_dim io_level n_lane nxt cd
                Hfifo) as Hfs.
  destruct (transfer_name_class read to_mem boundary fifo_suffix is_filter
              is_buffer depth space_dim io_level n_lane nxt cd)
    as (C1 & C2 & C3 & C4).
  set (fs := transfer_name_fields read to_mem boundary fifo_suffix is_filter
               is_buffer depth space_dim io_level n_lane nxt cd) in *.
  assert (Hne : fs <> []) by (unfold fs, transfer_name_fields; discriminate).
  unfold create_io_leaf. rewrite C1, C2, C3, C4.
  unfold extract_is_filter, extract_is_buffer, extract_data_pack,
    extract_next_data_pack, extract_coalesce_depth, extract_coalesce_bound,
    extract_fifo_suffix, extract_sched_depth, extract_param_id.
  change (c_true (int_of_bool true)) with true. cbv iota. cbn [negb].
  change 2 with (Z.of_nat 2). change 3 with (Z.of_nat 3).
  change 4 with (Z.of_nat 4). change 5 with (Z.of_nat 5).
  change 6 with (Z.of_nat 6). change 7 with (Z.of_nat 7).
  change 8 with (Z.of_nat 8). change 9 with (Z.of_nat 9).
  rewrite (flag_after_dot_dotted char_signed fs 2 is_filter Hfs)
    by (try lia; reflexivity).
  rewrite (flag_after_dot_dotted char_signed fs 3 is_buffer Hfs)
    by (try lia; reflexivity).
  cbn [bind read_local].
  rewrite !(number_after_dot_checked_dotted fs Hfs) by (try lia; exact Hne).
  rewrite (field_after_first_dot_dotted fs Hfs
             (if to_mem then fifo_suffix ++ "_local" else fifo_suffix)%string)
    by reflexivity.
  rewrite (number_after_dot_dotted fs Hfs 4 (print_int (depth - 1)))
    by (try lia; reflexivity).
  rewrite (number_after_dot_dotted fs Hfs 5 (print_int (space_dim - io_level)))
    by (try lia; reflexivity).
  replace (nth_error fs 6) with (Some (print_int n_lane)) by reflexivity.
  replace (nth_error fs 7) with (Some (print_int nxt)) by reflexivity.
  rewrite !atoi_print_int by assumption. cbn [bind].
  assert (Hc : (match nth_error fs 8 with
                | Some f => Ok (atoi f) | None => Ok (-1) end
                = Ok (match cd with Some c => fst c | None => -1 end))
               /\ (match nth_error fs 9 with
                   | Some f => Ok (atoi f) | None => Ok (-1) end
                   = Ok (match cd with Some c => snd c | None => -1 end))).
  { unfold fs, transfer_name_fields. destruct cd as [c|]; cbn [app nth_error].
    - destruct (Hcd c eq_refl) as [H1 H2].
      rewrite !atoi_print_int by assumption. split; reflexivity.
    - split; reflexivity. }
  destruct Hc as [-> ->]. cbn [bind].
  assert (Hreg : match local_tile with
                 | Some _ => Ok 0
                 | None => _ <- sprintf_s 50 local_name ;; Ok 1
                 end = Ok (match local_tile with Some _ => 0 | None => 1 end)).
  { destruct local_tile; [reflexivity|]. unfold sprintf_s.
    specialize (Hloc eq_refl). apply Nat.ltb_lt in Hloc. rewrite Hloc.
    reflexivity. }
  rewrite Hreg. cbn [bind]. unfold transfer_stmt.
  destruct to_mem; [reflexivity|].
  destruct is_filter; reflexivity.
Qed.

(** X1.  [create_io_leaf] reads back, from the name that the schedule
    builders print for a transfer statement, the fields that they
    encoded in it. *)
Theorem create_io_leaf_decodes_transfer_name
    (read to_mem boundary : bool) (fifo_suffix : string)
    (is_filter is_buffer : bool)
    (depth space_dim io_level n_lane nxt : Z) (cd : option (Z * Z))
    (local_tile : option autosa_array_tile) (local_name : string) :
  plain fifo_suffix = true ->
  is_int (depth - 1) -> is_int (space_dim - io_level) ->
  is_int n_lane -> is_int nxt ->
  (forall c, cd = Some c -> is_int (fst c) /\ is_int (snd c)) ->
  (local_tile = None -> (strlen local_name < 50)%nat) ->
  create_io_leaf char_signed
    (isl_printer_get_str
       (transfer_stmt_name read to_mem boundary fifo_suffix is_filter
          is_buffer depth space_dim io_level n_lane nxt cd))
    local_tile local_name
  = Ok (transfer_stmt read to_mem boundary fifo_suffix is_filter is_buffer
          (depth - 1) (space_dim - io_level) n_lane nxt cd local_tile).
Proof.
  apply create_io_leaf_transfer_name.
Qed.

End TransferNames.

(* ================================================================== *)
(** ** The extractors on arbitrary names *)

Lemma after_dots_count (s : string) (k : nat) :
  (1 <= k)%nat ->
  (after_dots s k = None <-> (count_dots s < k)%nat).
Proof.
  revert k. induction s as [|c s IH]; intros k Hk.
  - destruct k; [lia|]. cbn. split; [lia | reflexivity].
  - destruct k as [|k]; [lia|]. cbn [after_dots count_dots].
    destruct (c =? NUL)%char; [split; [lia | reflexivity]|].
    destruct (c =? ".")%char.
    + destruct k as [|k].
      * rewrite after_dots_0. split; [discriminate | lia].
      * rewrite (IH (S k)) by lia. lia.
    + apply IH. lia.
Qed.

Section ExtractFacts.
Variable char_signed : bool.

(** X2.  The extractors that test the number of dots never read outside
    the name: on every string they return a value, which is -1 when the
    field is missing. *)
Theorem extract_checked_never_faults (type : string) (is_trans : Z) :
  (exists v, extract_data_pack type is_trans = Ok v)
  /\ (exists v, extract_next_data_pack type is_trans = Ok v)
  /\ (exists v, extract_coalesce_depth type is_trans = Ok v)
  /\ (exists v, extract_coalesce_bound type is_trans = Ok v)
  /\ ((count_dots type < 2)%nat ->
      extract_data_pack type is_trans = Ok (-1)
      /\ extract_next_data_pack type is_trans = Ok (-1)
      /\ extract_coalesce_depth type is_trans = Ok (-1)
      /\ extract_coalesce_bound type is_trans = Ok (-1)).
Proof.
  assert (H : forall k : nat, (1 <= k)%nat ->
            (exists v, number_after_dot_checked (Z.of_nat k) type = Ok v)
            /\ ((count_dots type < k)%nat ->
                number_after_dot_checked (Z.of_nat k) type = Ok (-1))).
  { intros k Hk. rewrite (number_after_dot_checked_field k type Hk).
    unfold dot_field. split.
    - destruct (after_dots type k); cbn [option_map]; eauto.
    - intros Hc. apply (after_dots_count type k Hk) in Hc. rewrite Hc.
      reflexivity. }
  unfold extract_data_pack, extract_next_data_pack, extract_coalesce_depth,
    extract_coalesce_bound.
  change 2 with (Z.of_nat 2). change 3 with (Z.of_nat 3).
  change 6 with (Z.of_nat 6). change 7 with (Z.of_nat 7).
  change 8 with (Z.of_nat 8). change 9 with (Z.of_nat 9).
  split; [destruct (c_true is_trans); apply H; lia|].
  split; [destruct (c_true is_trans); apply H; lia|].
  split; [destruct (c_true is_trans); cbn [negb]; [apply H; lia | eauto]|].
  split; [destruct (c_true is_trans); cbn [negb]; [apply H; lia | eauto]|].
  intros Hc.
  split; [destruct (c_true is_trans); apply H; lia|].
  split; [destruct (c_true is_trans); apply H; lia|].
  split; destruct (c_true is_trans); cbn [negb];
    first [reflexivity | apply H; lia].
Qed.

(** X3.  The extractors that do not test the number of dots read the
    byte that follows the terminator when the name has too few dots. *)
Theorem extract_unchecked_reads_past_terminator (type : string) :
  no_nul type = true ->
  ((count_dots type < 1)%nat ->
   extract_fifo_suffix type = Crash OutOfBounds
   /\ extract_module_name type = Crash OutOfBounds)
  /\ ((count_dots type < 2)%nat ->
      extract_is_filter char_signed type = Crash OutOfBounds)
  /\ ((count_dots type < 3)%nat ->
      extract_is_buffer char_signed type = Crash OutOfBounds)
  /\ ((count_dots type < 4)%nat ->
      extract_sched_depth type = Crash OutOfBounds)
  /\ ((count_dots type < 5)%nat ->
      extract_param_id type = Crash OutOfBounds).
Proof.
  intros Hn.
  unfold extract_fifo_suffix, extract_module_name, extract_is_filter,
    extract_is_buffer, extract_sched_depth, extract_param_id.
  change 2 with (Z.of_nat 2). change 3 with (Z.of_nat 3).
  change 4 with (Z.of_nat 4). change 5 with (Z.of_nat 5).
  split.
  { intros Hc. apply (after_dots_count type 1 ltac:(lia)) in Hc.
    rewrite (field_after_first_dot_field type Hn). unfold dot_field.
    rewrite Hc. split; reflexivity. }
  split.
  { intros Hc. apply (after_dots_count type 2 ltac:(lia)) in Hc.
    rewrite (digit_after_dot_field char_signed 2 type ltac:(lia) Hn), Hc.
    reflexivity. }
  split.
  { intros Hc. apply (after_dots_count type 3 ltac:(lia)) in Hc.
    rewrite (digit_after_dot_field char_signed 3 type ltac:(lia) Hn), Hc.
    reflexivity. }
  split.
  { intros Hc. apply (after_dots_count type 4 ltac:(lia)) in Hc.
    rewrite (number_after_dot_field 4 type ltac:(lia) Hn). unfold dot_field.
    rewrite Hc. reflexivity. }
  intros Hc. apply (after_dots_count type 5 ltac:(lia)) in Hc.
  rewrite (number_after_dot_field 5 type ltac:(lia) Hn). unfold dot_field.
  rewrite Hc. reflexivity.
Qed.

(** X4.  On a name made of fields separated by dots, every extractor
    returns the field it is documented to read. *)
Theorem extract_reads_field (fs : list string) (is_trans : bool) :
  Forall (fun f => plain f = true) fs ->
  (forall f, nth_error fs 1 = Some f ->
     extract_fifo_suffix (dotted fs) = Ok f
     /\ extract_module_name (dotted fs) = Ok f)
  /\ (forall b, nth_error fs 2 = Some (digit_of_bool b) ->
        extract_is_filter char_signed (dotted fs) = Ok (int_of_bool b))
  /\ (forall b, nth_error fs 3 = Some (digit_of_bool b) ->
        extract_is_buffer char_signed (dotted fs) = Ok (int_of_bool b))
  /\ (forall f, nth_error fs 4 = Some f ->
        extract_sched_depth (dotted fs) = Ok (atoi f))
  /\ (forall f, nth_error fs 5 = Some f ->
        extract_param_id (dotted fs) = Ok (atoi f))
  /\ (forall f, nth_error fs (if is_trans then 6 else 2)%nat = Some f ->
        extract_data_pack (dotted fs) (int_of_bool is_trans) = Ok (atoi f))
  /\ (forall f, nth_error fs (if is_trans then 7 else 3)%nat = Some f ->
        extract_next_data_pack (dotted fs) (int_of_bool is_trans)
        = Ok (atoi f))
  /\ (forall f, nth_error fs 8 = Some f ->
        extract_coalesce_depth (dotted fs) 1 = Ok (atoi f))
  /\ (forall f, nth_error fs 9 = Some f ->
        extract_coalesce_bound (dotted fs) 1 = Ok (atoi f))
  /\ extract_is_boundary (dotted fs)
     = (if (2 <? List.length fs)%nat then 1 else 0).
Proof.
  intros Hfs.
  unfold extract_fifo_suffix, extract_module_name, extract_is_filter,
    extract_is_buffer, extract_sched_depth, extract_param_id,
    extract_data_pack, extract_next_data_pack, extract_coalesce_depth,
    extract_coalesce_bound.
  change (c_true 1) with true. cbn [negb].
  change 2 with (Z.of_nat 2). change 3 with (Z.of_nat 3).
  change 4 with (Z.of_nat 4). change 5 with (Z.of_nat 5).
  change 6 with (Z.of_nat 6). change 7 with (Z.of_nat 7).
  change 8 with (Z.of_nat 8). change 9 with (Z.of_nat 9).
  assert (Hck : forall (k : nat) f, (1 <= k)%nat -> nth_error fs k = Some f ->
            number_after_dot_checked (Z.of_nat k) (dotted fs) = Ok (atoi f)).
  { intros k f Hk Hf.
    rewrite (number_after_dot_checked_dotted fs Hfs k Hk), Hf; [reflexivity|].
    intros ->. destruct k; discriminate. }
  split.
  { intros f Hf. split; apply (field_after_first_dot_dotted fs Hfs f Hf). }
  split.
  { intros b Hb. apply (flag_after_dot_dotted char_signed fs 2 b Hfs);
      [lia | exact Hb]. }
  split.
  { intros b Hb. apply (flag_after_dot_dotted char_signed fs 3 b Hfs);
      [lia | exact Hb]. }
  split.
  { intros f Hf. apply (number_after_dot_dotted fs Hfs 4); [lia | exact Hf]. }
  split.
  { intros f Hf. apply (number_after_dot_dotted fs Hfs 5); [lia | exact Hf]. }
  split.
  { intros f Hf. destruct is_trans; cbn [int_of_bool];
      [change (c_true 1) with true | change (c_true 0) with false];
      cbv iota; [apply (Hck 6%nat) | apply (Hck 2%nat)]; (lia || exact Hf). }
  split.
  { intros f Hf. destruct is_trans; cbn [int_of_bool];
      [change (c_true 1) with true | change (c_true 0) with false];
      cbv iota; [apply (Hck 7%nat) | apply (Hck 3%nat)]; (lia || exact Hf). }
  split; [intros f Hf; apply (Hck 8%nat); (lia || exact Hf)|].
  split; [intros f Hf; apply (Hck 9%nat); (lia || exact Hf)|].
  apply extract_is_boundary_dotted. exact Hfs.
Qed.

End ExtractFacts.

(* ================================================================== *)
(** ** The other names *)

Lemma local_stmt_name_dotted (read : bool) (fifo_suffix : string)
    (is_buffer : bool) (n_lane nxt : Z) (cd : option (Z * Z)) :
  isl_printer_get_str (local_stmt_name read fifo_suffix is_buffer n_lane nxt cd)
  = dotted (local_name_fields read fifo_suffix is_buffer n_lane nxt cd).
Proof.
  unfold local_stmt_name, local_name_fields, local_stmt_head, coalesce_suffix.
  destruct read, is_buffer, cd as [[c1 c2]|];
    cbn [app isl_printer_get_str dotted negb fst snd digit_of_bool];
    rewrite ?append_assoc, ?append_empty; cbn [append]; reflexivity.
Qed.

Lemma local_name_fields_plain (read : bool) (fifo_suffix : string)
    (is_buffer : bool) (n_lane nxt : Z) (cd : option (Z * Z)) :
  plain fifo_suffix = true ->
  Forall (fun f => plain f = true)
    (local_name_fields read fifo_suffix is_buffer n_lane nxt cd).
Proof.
  intros Hf. unfold local_name_fields.
  apply Forall_app. split.
  - repeat constructor; try apply plain_print_int;
      try apply plain_digit_of_bool.
    + destruct read; reflexivity.
    + rewrite plain_app, Hf. reflexivity.
  - destruct cd; repeat constructor; apply plain_print_int.
Qed.

Section OtherNames.
Variable char_signed : bool.

(** The fields of the name of a transfer towards the lower level. *)
Lemma create_io_leaf_local_name
    (read : bool) (fifo_suffix : string) (is_buffer : bool)
    (n_lane nxt : Z) (cd : option (Z * Z))
    (local_tile : option autosa_array_tile) (local_name : string) :
  plain fifo_suffix = true ->
  is_int n_lane -> is_int nxt ->
  (forall c, cd = Some c -> is_int (fst c) /\ is_int (snd c)) ->
  (local_tile = None -> (strlen local_name < 50)%nat) ->
  create_io_leaf char_signed
    (isl_printer_get_str
       (local_stmt_name read fifo_suffix is_buffer n_lane nxt cd))
    local_tile local_name
  = Ok (transfer_stmt (negb read) false false (fifo_suffix ++ "_local")
          false is_buffer (-1) (-1) n_lane nxt cd local_tile).
Proof.
  intros Hfifo Hl Hn Hcd Hloc.
  rewrite local_stmt_name_dotted.
  pose proof (local_name_fields_plain read fifo_suffix is_buffer n_lane nxt cd
                Hfifo) as Hfs.
  assert (C : let type := dotted (local_name_fields read fifo_suffix is_buffer
                                    n_lane nxt cd) in
              has_prefix type "in_trans" || has_prefix type "out_trans" = true
              /\ has_prefix type "in_trans_dram"
                 || has_prefix type "out_trans_dram" = false
              /\ has_prefix type "in_trans_boundary"
                 || has_prefix type "out_trans_boundary" = false
              /\ has_prefix type "in" = negb read).
  { unfold local_name_fields. cbn [app]. destruct read; repeat split;
      reflexivity. }
  destruct C as (C1 & C2 & C3 & C4).
  set (fs := local_name_fields read fifo_suffix is_buffer n_lane nxt cd) in *.
  assert (Hne : fs <> []) by (unfold fs, local_name_fields; discriminate).
  unfold create_io_leaf. rewrite C1, C2, C3, C4.
  unfold extract_is_filter, extract_is_buffer, extract_data_pack,
    extract_next_data_pack, extract_coalesce_depth, extract_coalesce_bound,
    extract_fifo_suffix, extract_sched_depth, extract_param_id.
  change (c_true (int_of_bool true)) with true. cbv iota. cbn [negb].
  change 2 with (Z.of_nat 2). change 3 with (Z.of_nat 3).
  change 6 with (Z.of_nat 6). change 7 with (Z.of_nat 7).
  change 8 with (Z.of_nat 8). change 9 with (Z.of_nat 9).
  rewrite (flag_after_dot_dotted char_signed fs 2 false Hfs)
    by (try lia; reflexivity).
  rewrite (flag_after_dot_dotted char_signed fs 3 is_buffer Hfs)
    by (try lia; reflexivity).
  cbn [bind read_local].
  rewrite !(number_after_dot_checked_dotted fs Hfs) by (try lia; exact Hne).
  rewrite (field_after_first_dot_dotted fs Hfs (fifo_suffix ++ "_local")%string)
    by reflexivity.
  replace (nth_error fs 6) with (Some (print_int n_lane)) by reflexivity.
  replace (nth_error fs 7) with (Some (print_int nxt)) by reflexivity.
  rewrite !atoi_print_int by assumption. cbn [bind].
  assert (Hc : (match nth_error fs 8 with
                | Some f => Ok (atoi f) | None => Ok (-1) end
                = Ok (match cd with Some c => fst c | None => -1 end))
               /\ (match nth_error fs 9 with
                   | Some f => Ok (atoi f) | None => Ok (-1) end
                   = Ok (match cd with Some c => snd c | None => -1 end))).
  { unfold fs, local_name_fields. destruct cd as [c|]; cbn [app nth_error].
    - destruct (Hcd c eq_refl) as [H1 H2].
      rewrite !atoi_print_int by assumption. split; reflexivity.
    - split; reflexivity. }
  destruct Hc as [-> ->]. cbn [bind].
  assert (Hreg : match local_tile with
                 | Some _ => Ok 0
                 | None => _ <- sprintf_s 50 local_name ;; Ok 1
                 end = Ok (match local_tile with Some _ => 0 | None => 1 end)).
  { destruct local_tile; [reflexivity|]. unfold sprintf_s.
    specialize (Hloc eq_refl). apply Nat.ltb_lt in Hloc. rewrite Hloc.
    reflexivity. }
  rewrite Hreg. cbn [bind]. unfold transfer_stmt.
  destruct read; reflexivity.
Qed.

(** X5.  [create_io_leaf] reads back the fields of the name that the
    schedule builders print for a transfer statement towards the lower
    level: no filter, the fifo of the local side, the opposite
    direction. *)
Theorem create_io_leaf_decodes_local_name
    (read : bool) (fifo_suffix : string) (is_buffer : bool)
    (n_lane nxt : Z) (cd : option (Z * Z))
    (local_tile : option autosa_array_tile) (local_name : string) :
  plain fifo_suffix = true ->
  is_int n_lane -> is_int nxt ->
  (forall c, cd = Some c -> is_int (fst c) /\ is_int (snd c)) ->
  (local_tile = None -> (strlen local_name < 50)%nat) ->
  create_io_leaf char_signed
    (isl_printer_get_str
       (local_stmt_name read fifo_suffix is_buffer n_lane nxt cd))
    local_tile local_name
  = Ok (transfer_stmt (negb read) false false (fifo_suffix ++ "_local")
          false is_buffer (-1) (-1) n_lane nxt cd local_tile).
Proof.
  apply create_io_leaf_local_name.
Qed.

(** X6.  For the statements grafted at the PE level the name starts with
    neither [in_trans] nor [out_trans]: [create_io_leaf] copies the
    locals [is_trans_buf] and [is_trans_filter] into the statement
    before they were assigned. *)
Theorem create_io_leaf_pe_copy_reads_uninitialised
    (read dummy : bool) (io_group : autosa_array_ref_group)
    (local : autosa_local_array_info)
    (local_tile : option autosa_array_tile) (local_name : string) :
  create_io_leaf char_signed
    (isl_printer_get_str (pe_copy_stmt_name read dummy io_group local))
    local_tile local_name
  = Crash UninitRead.
Proof.
  unfold create_io_leaf, pe_copy_stmt_name.
  assert (H : forall rest : list printed,
            let type :=
              isl_printer_get_str
                ([P_str (if read then "in" else "out")]
                 ++ (if dummy then [P_str "_dummy"] else [])
                 ++ [P_str "."] ++ rest) in
            has_prefix type "in_trans" || has_prefix type "out_trans" = false).
  { intros rest. destruct read, dummy; reflexivity. }
  rewrite H. reflexivity.
Qed.

End OtherNames.

Lemma isl_printer_get_str_app (p q : list printed) :
  isl_printer_get_str (p ++ q)
  = (isl_printer_get_str p ++ isl_printer_get_str q)%string.
Proof.
  induction p as [|[s|z] p IH]; cbn [app isl_printer_get_str];
    [reflexivity | |]; rewrite IH, append_assoc; reflexivity.
Qed.

Lemma string_skip_split (n : nat) (x t : string) :
  string_skip n x = Some t -> exists pre, x = (pre ++ t)%string.
Proof.
  revert x. induction n as [|n IH]; intros x H; cbn in H.
  - injection H as ->. exists "". reflexivity.
  - destruct x as [|c x]; [discriminate|].
    destruct (IH x H) as [pre ->]. exists (String c pre). reflexivity.
Qed.

Lemma last_char_app (a s : string) :
  s <> "" -> last_char (a ++ s) = last_char s.
Proof.
  intros Hs. induction a as [|c a IH]; [reflexivity|].
  cbn [append last_char]. destruct (a ++ s)%string eqn:E; [|exact IH].
  destruct a; cbn in E; [contradiction | discriminate].
Qed.

Lemma has_suffix_last (x s : string) :
  s <> "" -> has_suffix x s = true -> last_char x = last_char s.
Proof.
  intros Hs H. unfold has_suffix in H. apply andb_true_iff in H.
  destruct H as [_ H].
  destruct (string_skip _ x) as [t|] eqn:E; [|discriminate].
  apply String.eqb_eq in H. subst t.
  destruct (string_skip_split _ _ _ E) as [pre ->].
  apply last_char_app. exact Hs.
Qed.

Lemma has_suffix_app (a s : string) : has_suffix (a ++ s) s = true.
Proof.
  unfold has_suffix. rewrite length_append.
  replace (String.length a + String.length s - String.length s)%nat
    with (String.length a) by lia.
  rewrite string_skip_app, String.eqb_refl.
  replace (String.length s <=? String.length a + String.length s)%nat
    with true by (symmetry; apply Nat.leb_le; lia).
  reflexivity.
Qed.

(** The name of an I/O module does not end with [dummy]. *)
Lemma io_module_name_not_dummy (group : autosa_array_ref_group)
    (local : autosa_local_array_info) (level : Z) (read : bool) :
  has_suffix
    (isl_printer_get_str (generate_io_module_name group local level read))
    "dummy" = false.
Proof.
  destruct (has_suffix _ "dummy") eqn:E; [|reflexivity].
  apply has_suffix_last in E; [|discriminate].
  unfold generate_io_module_name in E.
  rewrite !app_assoc, isl_printer_get_str_app in E.
  cbn [isl_printer_get_str] in E. rewrite append_empty in E.
  rewrite last_char_app in E by (destruct read; discriminate).
  destruct read; discriminate.
Qed.

Lemma plain_io_module_name (group : autosa_array_ref_group)
    (local : autosa_local_array_info) (level : Z) (read : bool) :
  plain (array_name group) = true ->
  plain (isl_printer_get_str (generate_io_module_name group local level read))
  = true.
Proof.
  intros Ha. unfold generate_io_module_name.
  rewrite !isl_printer_get_str_app. cbn [isl_printer_get_str].
  rewrite !plain_app, ?append_empty, Ha, plain_print_int.
  destruct (autosa_group_type_beq (group_type group) AUTOSA_IO_GROUP);
    [destruct (1 <? n_io_group local)|
     destruct (autosa_group_type_beq (group_type group) AUTOSA_DRAIN_GROUP)];
    cbn [isl_printer_get_str]; rewrite ?plain_app, ?plain_print_int;
    destruct read; reflexivity.
Qed.

Section Dispatch.
Variable char_signed : bool.

(** The tests of [at_domain_module] on a name whose first field is
    [module_call], [module_call_upper] or [module_call_lower]. *)
Lemma at_domain_module_call (head : string) (fs : list string)
    (local_tile : option autosa_array_tile) (local_name : string) :
  head = "module_call" \/ head = "module_call_upper"
  \/ head = "module_call_lower" ->
  fs <> [] ->
  at_domain_module char_signed false (dotted (head :: fs))
    local_tile local_name
  = (stmt <- create_module_call_leaf (dotted (head :: fs)) ;;
     Ok (leaf_module_call (has_prefix head "module_call_lower") stmt)).
Proof.
  intros Hh Hne. destruct fs as [|f fs]; [contradiction|].
  change (dotted (head :: f :: fs))
    with (head ++ String "."%char (dotted (f :: fs)))%string.
  destruct Hh as [-> | [-> | ->]]; reflexivity.
Qed.

(** X7.  The call statements of the top module are led to
    [create_module_call_leaf], which reads back the name of the module,
    the side of the call and the boundary flag; the group is handed
    over for the lower call only.  The fifo declarations are led to
    [create_fifo_decl_leaf], which reads back the boundary flag. *)
Theorem at_domain_module_decodes_module_calls
    (local_tile : option autosa_array_tile) (local_name : string) :
  (forall (upper : bool) (module : autosa_hw_module) (boundary : bool),
     plain (isl_printer_get_str (name module)) = true ->
     at_domain_module char_signed false
       (isl_printer_get_str (io_module_call_stmt_name upper module boundary))
       local_tile local_name
     = Ok (leaf_module_call (negb upper)
             {| m_boundary := int_of_bool boundary;
                m_module_name := isl_printer_get_str (name module);
                m_dummy :=
                  int_of_bool
                    (has_suffix (isl_printer_get_str (name module)) "dummy");
                m_lower := int_of_bool (negb upper);
                m_upper := int_of_bool upper |}))
  /\ (forall module : autosa_hw_module,
        plain (isl_printer_get_str (name module)) = true ->
        at_domain_module char_signed false
          (isl_printer_get_str (pe_module_call_stmt_name module))
          local_tile local_name
        = Ok (leaf_module_call false
                {| m_boundary := 0;
                   m_module_name := isl_printer_get_str (name module);
                   m_dummy :=
                     int_of_bool
                       (has_suffix (isl_printer_get_str (name module))
                          "dummy");
                   m_lower := 0; m_upper := 0 |}))
  /\ (forall prefix : string,
        plain prefix = true ->
        at_domain_module char_signed false
          (isl_printer_get_str (pe_dummy_module_call_stmt_name prefix))
          local_tile local_name
        = Ok (leaf_module_call false
                {| m_boundary := 0;
                   m_module_name := (prefix ++ "_PE_dummy")%string;
                   m_dummy := 1; m_lower := 0; m_upper := 0 |}))
  /\ (forall (boundary : bool) (fifo : string),
        at_domain_module char_signed false
          (isl_printer_get_str (fifo_decl_stmt_name boundary fifo))
          local_tile local_name
        = Ok (leaf_fifo_decl (int_of_bool boundary))).
Proof.
  split; [|split; [|split]]; [| | |intros [] fifo; reflexivity].
  - intros upper module boundary Hm.
    set (nm := isl_printer_get_str (name module)) in *.
    assert (E : isl_printer_get_str
                  (io_module_call_stmt_name upper module boundary)
                = dotted ((if upper then "module_call_upper"
                           else "module_call_lower")
                          :: nm :: (if boundary then ["boundary"] else []))).
    { unfold io_module_call_stmt_name. fold nm.
      destruct upper, boundary; cbn [app isl_printer_get_str dotted];
        rewrite ?append_empty; reflexivity. }
    rewrite E.
    rewrite at_domain_module_call
      by (try discriminate; destruct upper; auto).
    assert (Hfs : Forall (fun f => plain f = true)
                    ((if upper then "module_call_upper"
                      else "module_call_lower")
                     :: nm :: (if boundary then ["boundary"] else [])))
      by (destruct upper, boundary; repeat constructor; assumption).
    unfold create_module_call_leaf, extract_module_name.
    rewrite (extract_is_boundary_dotted _ Hfs).
    rewrite (field_after_first_dot_dotted _ Hfs nm) by reflexivity.
    cbn [bind]. destruct upper, boundary; reflexivity.
  - intros module Hm.
    set (nm := isl_printer_get_str (name module)) in *.
    assert (E : isl_printer_get_str (pe_module_call_stmt_name module)
                = dotted ["module_call"; nm]).
    { unfold pe_module_call_stmt_name. fold nm.
      cbn [isl_printer_get_str dotted]. rewrite ?append_empty. reflexivity. }
    rewrite E. rewrite at_domain_module_call by (try discriminate; auto).
    assert (Hfs : Forall (fun f => plain f = true) ["module_call"; nm])
      by (repeat constructor; assumption).
    unfold create_module_call_leaf, extract_module_name.
    rewrite (extract_is_boundary_dotted _ Hfs).
    rewrite (field_after_first_dot_dotted _ Hfs nm) by reflexivity.
    reflexivity.
  - intros prefix Hp.
    assert (E : isl_printer_get_str (pe_dummy_module_call_stmt_name prefix)
                = dotted ["module_call"; (prefix ++ "_PE_dummy")%string]).
    { unfold pe_dummy_module_call_stmt_name.
      cbn [isl_printer_get_str dotted]. rewrite ?append_empty. reflexivity. }
    rewrite E. rewrite at_domain_module_call by (try discriminate; auto).
    assert (Hfs : Forall (fun f => plain f = true)
                    ["module_call"; (prefix ++ "_PE_dummy")%string]).
    { repeat constructor. rewrite plain_app, Hp. reflexivity. }
    unfold create_module_call_leaf, extract_module_name.
    rewrite (extract_is_boundary_dotted _ Hfs).
    rewrite (field_after_first_dot_dotted _ Hfs (prefix ++ "_PE_dummy")%string)
      by reflexivity.
    cbn [bind].
    replace (has_suffix (prefix ++ "_PE_dummy") "dummy") with true.
    + reflexivity.
    + symmetry. change "_PE_dummy" with ("_PE_" ++ "dummy")%string.
      rewrite <- append_assoc. apply has_suffix_app.
Qed.

(** X8.  The call statements that [generate_io_module_outer]
    grafts in the outer schedule of a module are led to
    [create_io_module_call_leaf]; it reads back the kind of the call,
    and the boundary flag for the calls that have a boundary
    variant. *)
Theorem outer_schedule_calls_decode
    {Ty : IslTypes}
    (module module' : autosa_hw_module) (group : autosa_array_ref_group)
    (kernel : autosa_kernel) (io_level space_dim : Z) (read boundary : bool)
    (sched : module_sched) :
  generate_io_module_outer module group kernel io_level space_dim read boundary
  = Ok (module', sched) ->
  map (call_leaf_of char_signed) sched
  = [Some (Ok (leaf_io_module_call (int_of_bool boundary)
                 (Some (if read
                        then AUTOSA_KERNEL_STMT_IO_MODULE_CALL_INTER_INTRA
                        else AUTOSA_KERNEL_STMT_IO_MODULE_CALL_INTRA_INTER))))]
    ++ (if double_buffer_ module then
          [Some (Ok (leaf_io_module_call 0
                       (Some AUTOSA_KERNEL_STMT_IO_MODULE_CALL_STATE_HANDLE)));
           Some (Ok (if read
                     then leaf_io_module_call 0
                            (Some AUTOSA_KERNEL_STMT_IO_MODULE_CALL_INTRA_TRANS)
                     else leaf_io_module_call (int_of_bool boundary)
                            (Some AUTOSA_KERNEL_STMT_IO_MODULE_CALL_INTER_TRANS)))]
        else []).
Proof.
  unfold generate_io_module_outer. intros H.
  destruct (to_mem module); [discriminate|].
  assert (Hs : sched
               = [call_stmt (if read
                             then (if negb boundary then "io_module.inter_intra"
                                   else "io_module.inter_intra.boundary")
                             else (if negb boundary then "io_module.intra_inter"
                                   else "io_module.intra_inter.boundary"))]
                 ++ (if double_buffer_ module
                     then [call_stmt "io_module.state_handle"] else [])
                 ++ (if double_buffer_ module
                     then [call_stmt
                             (if read then "io_module.intra_trans"
                              else (if negb boundary
                                    then "io_module.inter_trans"
                                    else "io_module.inter_trans.boundary"))]
                     else [])).
  { destruct (negb boundary) eqn:Eb.
    - destruct (locate_buffer group io_level None) as [[i buf]|f];
        cbn [bind] in H; [|discriminate].
      destruct (deref_buf buf); cbn [bind] in H; [|discriminate].
      injection H as _ <-. reflexivity.
    - injection H as _ <-. reflexivity. }
  rewrite Hs. destruct read, boundary, (double_buffer_ module); reflexivity.
Qed.

End Dispatch.

(* ================================================================== *)
(** ** From the schedule builders to the leaves *)

Lemma ints_of_app (p q : list printed) :
  ints_of (p ++ q) <-> ints_of p /\ ints_of q.
Proof. unfold ints_of. apply Forall_app. Qed.

Lemma ints_of_transfer_stmt_name (read to_mem boundary : bool)
    (fifo_suffix : string) (is_filter is_buffer : bool)
    (depth space_dim io_level n_lane nxt : Z) (cd : option (Z * Z)) :
  ints_of (transfer_stmt_name read to_mem boundary fifo_suffix is_filter
             is_buffer depth space_dim io_level n_lane nxt cd) ->
  is_int (depth - 1) /\ is_int (space_dim - io_level) /\ is_int n_lane
  /\ is_int nxt /\ forall c, cd = Some c -> is_int (fst c) /\ is_int (snd c).
Proof.
  unfold transfer_stmt_name, trans_stmt_head, coalesce_suffix, ints_of.
  rewrite !Forall_app. intros H.
  destruct H as [[_ [_ [_ [_ [_ H1]]]]] [H2 H3]].
  inversion H1 as [|? ? _ H1a]; subst. inversion H1a as [|? ? _ H1b]; subst.
  inversion H1b as [|? ? _ H1c]; subst. inversion H1c as [|? ? Hd H1d]; subst.
  inversion H1d as [|? ? _ H1e]; subst. inversion H1e as [|? ? Hp H1f]; subst.
  inversion H1f as [|? ? _ H1g]; subst. inversion H1g as [|? ? Hl _]; subst.
  inversion H2 as [|? ? _ H2a]; subst. inversion H2a as [|? ? Hn _]; subst.
  split; [exact Hd|]. split; [exact Hp|]. split; [exact Hl|].
  split; [exact Hn|].
  intros c ->. inversion H3 as [|? ? _ H3a]; subst.
  inversion H3a as [|? ? Hc1 H3b]; subst.
  inversion H3b as [|? ? _ H3c]; subst.
  inversion H3c as [|? ? Hc2 _]; subst. split; assumption.
Qed.

Section EndToEnd.
Context {Ty : IslTypes} {Ops : IslOps}.
Variable char_signed : bool.

(** The statement of the transfer towards the upper level carries a
    name of the transfer format, with the packing width of the buffer
    in both width fields. *)
Lemma upper_transfer_name (module module' : autosa_hw_module)
    (group : autosa_array_ref_group)
    (kernel : autosa_kernel) (read is_buffer tile_is_buffer : bool)
    (to_mem_ boundary_ is_filter_ : bool) (fifo_suffix : string)
    (depth space_dim_ io_level_ : Z) (b : autosa_io_buffer) (node_depth : Z)
    (stmts : module_sched) :
  upper_transfer module group kernel read is_buffer tile_is_buffer
    (trans_stmt_head read to_mem_ boundary_ fifo_suffix is_filter_ is_buffer
       depth space_dim_ io_level_ (buf_n_lane b)) b node_depth
  = Ok (module', stmts) ->
  exists s cd,
    stmts = [s]
    /\ stmt_name_of s
       = Some (transfer_stmt_name read to_mem_ boundary_ fifo_suffix
                 is_filter_ is_buffer depth space_dim_ io_level_
                 (buf_n_lane b) (buf_n_lane b) cd)
    /\ stmt_local_tile s = buf_tile b
    /\ (forall lname,
          io_leaf_of char_signed lname s
          = Some (type <- autosa_create_io_access_stmt
                            (isl_printer_get_str
                               (transfer_stmt_name read to_mem_ boundary_
                                  fifo_suffix is_filter_ is_buffer depth
                                  space_dim_ io_level_ (buf_n_lane b)
                                  (buf_n_lane b) cd)) ;;
                  create_io_leaf char_signed type (buf_tile b) lname))
    /\ data_pack_inter module' = buf_n_lane b
    /\ data_pack_intra module' = buf_n_lane b.
Proof.
  unfold upper_transfer, transfer_stmt_name.
  generalize (trans_stmt_head read to_mem_ boundary_ fifo_suffix is_filter_
                is_buffer depth space_dim_ io_level_ (buf_n_lane b)).
  intros p H.
  assert (Dp : forall v m,
            data_pack_inter (set_data_pack_intra v (set_data_pack_inter v m))
            = v
            /\ data_pack_intra (set_data_pack_intra v (set_data_pack_inter v m))
               = v) by (intros v m; destruct m; split; reflexivity).
  destruct (buf_tile b) as [tile|] eqn:Et.
  - destruct (coalesce node_depth tile (buf_n_lane b)) as [cd|f] eqn:Ec;
      cbn [bind] in H; [|discriminate].
    inv_bind H as st Er. clear Er.
    injection H as <- <-.
    eexists. exists (Some cd). split; [reflexivity|].
    cbn [stmt_name_of stmt_local_tile io_leaf_of].
    rewrite <- !app_assoc.
    split; [reflexivity|]. split; [reflexivity|]. split; [reflexivity|].
    apply Dp.
  - cbv zeta in H. inv_bind H as st Er. clear Er.
    injection H as <- <-.
    eexists. exists None. split; [reflexivity|].
    cbn [stmt_name_of stmt_local_tile io_leaf_of].
    rewrite ?app_nil_r.
    replace (is_buffer && negb read && false
             && insert_hls_dependence (options kernel)) with false
      by (destruct is_buffer, read; reflexivity).
    split; [reflexivity|]. split; [reflexivity|]. split; [reflexivity|].
    apply Dp.
Qed.

(** X9.  The statement that [generate_io_module_inter_trans] grafts is
    read back by [create_io_leaf] as a transfer between modules of the
    direction, the fifo, the filter position and the packing widths
    that the module records. *)
Theorem inter_trans_statement_decodes
    (module module' : autosa_hw_module) (group : autosa_array_ref_group)
    (kernel : autosa_kernel) (io_level_ space_dim_ : Z)
    (read boundary_ : bool) (sched : module_sched) (local_name : string) :
  generate_io_module_inter_trans module group kernel io_level_ space_dim_
    read boundary_ = Ok (module', sched) ->
  plain (fifo_name group) = true ->
  (forall s nm, In s sched -> stmt_name_of s = Some nm ->
     ints_of nm /\ (strlen (isl_printer_get_str nm) < 100)%nat) ->
  (strlen local_name < 50)%nat ->
  exists s is_buffer_ cd,
    sched = [s]
    /\ io_leaf_of char_signed local_name s
       = Some (Ok (transfer_stmt read false boundary_ (fifo_name group)
                     true is_buffer_
                     (io_mark_depth group io_level_ - 1)
                     (space_dim_ - io_level_)
                     (data_pack_inter module') (data_pack_intra module')
                     cd (stmt_local_tile s))).
Proof.
  unfold generate_io_module_inter_trans. intros H Hfifo Hnm Hloc.
  destruct (to_mem module) eqn:Etm; [discriminate|].
  destruct (locate_buffer group io_level_ None) as [[i buf]|f];
    cbn [bind] in H; [|discriminate].
  destruct (deref_buf buf) as [b|f]; cbn [bind] in H; [|discriminate].
  destruct (upper_transfer_name _ _ _ _ _ _ _ _ _ _ _ _ _ _ _ _ _ H)
    as [s [cd [-> [Hn [Ht [Hleaf [D1 D2]]]]]]].
  exists s, (degrade_is_buffer true i io_level_), cd.
  split; [reflexivity|].
  destruct (Hnm s _ (or_introl eq_refl) Hn) as [Hints Hlen].
  destruct (ints_of_transfer_stmt_name _ _ _ _ _ _ _ _ _ _ _ _ Hints)
    as (I1 & I2 & I3 & I4 & I5).
  rewrite (Hleaf local_name). f_equal.
  unfold autosa_create_io_access_stmt, sprintf_s.
  apply Nat.ltb_lt in Hlen. rewrite Hlen. cbn [bind].
  rewrite c_str_no_nul.
  2:{ rewrite transfer_stmt_name_dotted. apply no_nul_dotted.
      apply transfer_name_fields_plain. exact Hfifo. }
  rewrite (create_io_leaf_transfer_name char_signed);
    try assumption.
  - rewrite D1, D2, Ht. reflexivity.
  - intros _. exact Hloc.
Qed.

End EndToEnd.

(* ================================================================== *)
(** ** The names of the PE level and the length of a name *)

Lemma pe_copy_stmt_name_dotted (read dummy : bool)
    (io_group : autosa_array_ref_group) (local : autosa_local_array_info) :
  isl_printer_get_str (pe_copy_stmt_name read dummy io_group local)
  = dotted [ ((if read then "in" else "out")
              ++ (if dummy then "_dummy" else ""))%string;
             pe_fifo_field io_group local;
             print_int (n_lane io_group);
             "1" ].
Proof.
  unfold pe_copy_stmt_name, pe_fifo_field.
  destruct read, dummy,
    (autosa_group_type_beq (group_type io_group) AUTOSA_PE_GROUP),
    (autosa_group_type_beq (group_type io_group) AUTOSA_IO_GROUP),
    (1 <? n_io_group local),
    (autosa_group_type_beq (group_type io_group) AUTOSA_DRAIN_GROUP);
    cbn [app isl_printer_get_str dotted negb];
    rewrite ?append_assoc, ?append_empty; cbn [append];
    rewrite ?append_assoc, ?append_empty; reflexivity.
Qed.

Lemma plain_pe_fifo_field (io_group : autosa_array_ref_group)
    (local : autosa_local_array_info) :
  plain (array_name io_group) = true ->
  plain (pe_fifo_field io_group local) = true.
Proof.
  intros Ha. unfold pe_fifo_field. rewrite !plain_app, Ha.
  destruct (autosa_group_type_beq (group_type io_group) AUTOSA_PE_GROUP),
    (autosa_group_type_beq (group_type io_group) AUTOSA_IO_GROUP),
    (1 <? n_io_group local),
    (autosa_group_type_beq (group_type io_group) AUTOSA_DRAIN_GROUP);
    cbn [negb]; rewrite ?plain_app, ?plain_print_int; reflexivity.
Qed.

(** X10.  From the name of a copy statement of the PE level the
    extractors read the fifo of the group, its packing width and the
    width 1 of the PE side; there are no coalesce fields. *)
Theorem pe_copy_stmt_name_decodes (read dummy : bool)
    (io_group : autosa_array_ref_group) (local : autosa_local_array_info) :
  plain (array_name io_group) = true ->
  is_int (n_lane io_group) ->
  let type :=
    isl_printer_get_str (pe_copy_stmt_name read dummy io_group local) in
  extract_fifo_suffix type = Ok (pe_fifo_field io_group local)
  /\ extract_data_pack type 0 = Ok (n_lane io_group)
  /\ extract_next_data_pack type 0 = Ok 1
  /\ extract_coalesce_depth type 0 = Ok (-1)
  /\ extract_coalesce_bound type 0 = Ok (-1)
  /\ has_prefix type "in" = read
  /\ has_prefix type "in_dummy" || has_prefix type "out_dummy" = dummy.
Proof.
  intros Ha Hl type. unfold type. rewrite pe_copy_stmt_name_dotted.
  set (fs := [ ((if read then "in" else "out")
                ++ (if dummy then "_dummy" else ""))%string;
               pe_fifo_field io_group local;
               print_int (n_lane io_group); "1" ]).
  assert (Hfs : Forall (fun f => plain f = true) fs).
  { repeat constructor.
    - destruct read, dummy; reflexivity.
    - apply plain_pe_fifo_field. exact Ha.
    - apply plain_print_int. }
  assert (Hne : fs <> []) by discriminate.
  unfold extract_fifo_suffix, extract_data_pack, extract_next_data_pack,
    extract_coalesce_depth, extract_coalesce_bound.
  change (c_true 0) with false. cbv iota. cbn [negb].
  change 2 with (Z.of_nat 2). change 3 with (Z.of_nat 3).
  rewrite !(number_after_dot_checked_dotted fs Hfs) by (try lia; exact Hne).
  rewrite (field_after_first_dot_dotted fs Hfs (pe_fifo_field io_group local))
    by reflexivity.
  cbn [nth_error fs]. rewrite (atoi_print_int _ Hl).
  repeat split; unfold fs; cbn [dotted]; destruct read, dummy; reflexivity.
Qed.

Lemma length_print_int (z : Z) : (1 <= String.length (print_int z))%nat.
Proof.
  unfold print_int. destruct (Z.to_int z) as [d|d];
    cbn [NilZero.string_of_int]; destruct d; cbn; lia.
Qed.

(** X11.  [autosa_create_io_access_stmt] copies the name of the statement
    into a buffer of 100 bytes: a name of 100 or more characters is
    written past its end, and the name of a transfer statement is that
    long as soon as the fifo name has 79 characters. *)
Theorem long_statement_name_overflows :
  (forall stmt_name : string,
     no_nul stmt_name = true ->
     autosa_create_io_access_stmt stmt_name
     = if (String.length stmt_name <? 100)%nat then Ok stmt_name
       else Crash OutOfBounds)
  /\ (forall (read to_mem boundary : bool) (fifo_suffix : string)
             (is_filter is_buffer : bool)
             (depth space_dim io_level n_lane nxt : Z) (cd : option (Z * Z)),
        plain fifo_suffix = true ->
        (79 <= String.length fifo_suffix)%nat ->
        autosa_create_io_access_stmt
          (isl_printer_get_str
             (transfer_stmt_name read to_mem boundary fifo_suffix is_filter
                is_buffer depth space_dim io_level n_lane nxt cd))
        = Crash OutOfBounds).
Proof.
  assert (H1 : forall stmt_name : string,
            no_nul stmt_name = true ->
            autosa_create_io_access_stmt stmt_name
            = if (String.length stmt_name <? 100)%nat then Ok stmt_name
              else Crash OutOfBounds).
  { intros nm Hn. unfold autosa_create_io_access_stmt, sprintf_s.
    rewrite (strlen_no_nul nm Hn), (c_str_no_nul nm Hn). reflexivity. }
  split; [exact H1|].
  intros read to_mem boundary fifo is_filter is_buffer depth space_dim io_level
    n_lane nxt cd Hf Hlen.
  rewrite H1.
  2:{ rewrite transfer_stmt_name_dotted. apply no_nul_dotted.
      apply transfer_name_fields_plain. exact Hf. }
  rewrite transfer_stmt_name_dotted.
  replace (_ <? 100)%nat with false; [reflexivity|].
  symmetry. apply Nat.ltb_ge.
  pose proof (length_print_int (depth - 1)).
  pose proof (length_print_int (space_dim - io_level)).
  pose proof (length_print_int n_lane).
  pose proof (length_print_int nxt).
  unfold transfer_name_fields.
  destruct read, to_mem, boundary, is_filter, is_buffer, cd as [[c1 c2]|];
    cbn [app dotted digit_of_bool];
    rewrite ?length_append; cbn [String.length]; rewrite ?length_append;
    cbn [String.length]; rewrite ?length_append; cbn [String.length];
    rewrite ?length_append; cbn [String.length]; rewrite ?length_append;
    cbn [String.length]; rewrite ?length_append; cbn [String.length];
    rewrite ?length_append; cbn [String.length]; rewrite ?length_append;
    cbn [String.length]; rewrite ?length_append; cbn [String.length];
    rewrite ?length_append; cbn [String.length]; lia.
Qed.

(* ================================================================== *)
(** ** The statement name of [add_io_copies_stmt_acc] *)

(** The loop over the references is one traversal of all the nodes. *)
Lemma add_io_copies_stmt_acc_refs_concat
    (f : acc_visit -> acc_state -> res acc_state)
    (traversals : list (list acc_visit)) (st : acc_state) :
  add_io_copies_stmt_acc_refs f traversals st
  = map_descendant_bottom_up_acc f (List.concat traversals) st.
Proof.
  revert st. induction traversals as [|vs rest IH]; intros st;
    [reflexivity|].
  cbn [add_io_copies_stmt_acc_refs List.concat].
  revert st. induction vs as [|v vs IHv]; intros st.
  - cbn. apply IH.
  - cbn [map_descendant_bottom_up_acc app].
    destruct (fst (fst st)) eqn:En.
    + destruct (f v st) as [st'|e]; cbn [bind]; [apply IHv | reflexivity].
    + cbn [bind]. rewrite IH.
      clear -En. induction (List.concat rest) as [|w ws IHw]; [reflexivity|].
      cbn [map_descendant_bottom_up_acc]. rewrite En. reflexivity.
Qed.

Lemma acc_visit_cases (v : acc_visit) :
  (acc_hit v = false /\ acc_error v = false
   /\ forall n_lane dep st,
        add_io_copies_stmt_acc_single n_lane dep v st = Ok st)
  \/ (acc_hit v = false /\ acc_error v = true
      /\ forall n_lane dep node block grafts,
           add_io_copies_stmt_acc_single n_lane dep v (node, block, grafts)
           = Ok (false, block, grafts))
  \/ (acc_hit v = true /\ acc_error v = false).
Proof.
  unfold acc_hit, acc_error, add_io_copies_stmt_acc_single.
  destruct (acc_is_leaf v); cbn [negb andb].
  2:{ left. repeat split. intros ? ? [[? ?] ?]. reflexivity. }
  destruct (acc_stmt_is_ref_stmt v); cbn [negb andb].
  2:{ left. repeat split. intros ? ? [[? ?] ?]. reflexivity. }
  destruct (acc_access_is_empty v); cbn.
  - right. left. repeat split.
  - right. right. split; reflexivity.
  - left. repeat split. intros ? ? [[? ?] ?]. reflexivity.
Qed.

(** At a node where a statement is grafted the name is read: a freed
    name is a fault, a live name is freed. *)
Lemma acc_hit_freed (n_lane : Z) (dep : bool) (v : acc_visit)
    (node : bool) (grafts : list string) :
  acc_hit v = true ->
  exists e,
    add_io_copies_stmt_acc_single n_lane dep v (node, block_freed, grafts)
    = Crash e.
Proof.
  unfold acc_hit, add_io_copies_stmt_acc_single. intros H.
  apply andb_prop in H. destruct H as [H He].
  apply andb_prop in H. destruct H as [-> ->]. cbn [negb].
  apply Z.eqb_eq in He. rewrite He. cbn [Z.ltb Z.compare orb c_true Z.eqb negb].
  destruct dep; [|cbn; eauto].
  destruct (c_true (isl_bool_to_int (acc_stride_one v))); [|cbn; eauto].
  destruct (acc_band v) as [band|]; [|cbn; eauto].
  destruct (array_get (band_ubs band) (band_n_member band - 1)) as [ub|e];
    cbn [bind]; [|eauto].
  destruct (int_div ub n_lane) as [q|e]; cbn [bind]; [|eauto].
  destruct (q >? 1); cbn; eauto.
Qed.

Lemma acc_hit_live (n_lane : Z) (dep : bool) (v : acc_visit)
    (node : bool) (s : string) (grafts : list string) :
  acc_hit v = true ->
  (exists e,
     add_io_copies_stmt_acc_single n_lane dep v (node, block_live s, grafts)
     = Crash e)
  \/ (exists t,
        add_io_copies_stmt_acc_single n_lane dep v
          (node, block_live s, grafts)
        = Ok (node, block_freed, grafts ++ [t])).
Proof.
  unfold acc_hit, add_io_copies_stmt_acc_single. intros H.
  apply andb_prop in H. destruct H as [H He].
  apply andb_prop in H. destruct H as [-> ->]. cbn [negb].
  apply Z.eqb_eq in He. rewrite He. cbn [Z.ltb Z.compare orb c_true Z.eqb negb].
  assert (Hplain :
    (exists e,
       (stmt_name <- read_block (block_live s) ;;
        from_access <- autosa_create_io_access_stmt stmt_name ;;
        block' <- free_block (block_live s) ;;
        Ok (node, block', grafts ++ [from_access])) = Crash e)
    \/ (exists t,
          (stmt_name <- read_block (block_live s) ;;
           from_access <- autosa_create_io_access_stmt stmt_name ;;
           block' <- free_block (block_live s) ;;
           Ok (node, block', grafts ++ [from_access]))
          = Ok (node, block_freed, grafts ++ [t]))).
  { cbn [read_block bind].
    destruct (autosa_create_io_access_stmt s) as [t|e];
      cbn [bind free_block]; eauto. }
  destruct dep; [|exact Hplain].
  destruct (c_true (isl_bool_to_int (acc_stride_one v))); [|exact Hplain].
  destruct (acc_band v) as [band|]; [|exact Hplain].
  destruct (array_get (band_ubs band) (band_n_member band - 1)) as [ub|e];
    cbn [bind]; [|eauto].
  destruct (int_div ub n_lane) as [q|e]; cbn [bind]; [|eauto].
  destruct (q >? 1); [|exact Hplain].
  cbn [read_block free_block bind snd fst].
  match goal with |- context [autosa_create_io_access_stmt ?x] =>
    destruct (autosa_create_io_access_stmt x) as [t|e] end;
    cbn [bind]; eauto.
Qed.

Lemma acc_traverse_freed (n_lane : Z) (dep : bool) (visits : list acc_visit)
    (grafts : list string) :
  (1 <= hits_before_error visits)%nat ->
  exists e,
    map_descendant_bottom_up_acc (add_io_copies_stmt_acc_single n_lane dep)
      visits (true, block_freed, grafts) = Crash e.
Proof.
  induction visits as [|v vs IH]; cbn [hits_before_error]; [lia|].
  intros H. cbn [map_descendant_bottom_up_acc fst].
  destruct (acc_visit_cases v) as [[Hh [He Hs]]|[[Hh [He Hs]]|[Hh He]]];
    rewrite ?Hh, ?He in H.
  - rewrite Hs. cbn [bind]. apply IH. cbn in H. lia.
  - lia.
  - destruct (acc_hit_freed n_lane dep v true grafts Hh) as [e ->].
    cbn. eauto.
Qed.

Lemma acc_traverse_twice (n_lane : Z) (dep : bool) (visits : list acc_visit)
    (s : string) (grafts : list string) :
  (2 <= hits_before_error visits)%nat ->
  exists e,
    map_descendant_bottom_up_acc (add_io_copies_stmt_acc_single n_lane dep)
      visits (true, block_live s, grafts) = Crash e.
Proof.
  revert grafts. induction visits as [|v vs IH]; intros grafts;
    cbn [hits_before_error]; [lia|].
  intros H. cbn [map_descendant_bottom_up_acc fst].
  destruct (acc_visit_cases v) as [[Hh [He Hs]]|[[Hh [He Hs]]|[Hh He]]];
    rewrite ?Hh, ?He in H.
  - rewrite Hs. cbn [bind]. apply IH. cbn in H. lia.
  - lia.
  - destruct (acc_hit_live n_lane dep v true s grafts Hh) as [[e ->]|[t ->]];
      cbn [bind]; [eauto|].
    apply acc_traverse_freed. lia.
Qed.

(** X12.  [add_io_copies_stmt_acc] never completes when a copy statement
    is grafted at two nodes: the callback frees the name it is given at
    the first one, and the second one reads it again. *)
Theorem add_io_copies_stmt_acc_two_copies_fault
    (traversals : list (list acc_visit)) (n_lane : Z) (stmt_name : string)
    (insert_dependence : bool) :
  (2 <= hits_before_error (List.concat traversals))%nat ->
  exists e,
    add_io_copies_stmt_acc true traversals n_lane stmt_name insert_dependence
    = Crash e.
Proof.
  intros H. unfold add_io_copies_stmt_acc.
  rewrite add_io_copies_stmt_acc_refs_concat.
  apply acc_traverse_twice. exact H.
Qed.

Lemma acc_hit_plain (n_lane : Z) (v : acc_visit) (node : bool)
    (block : name_block) (grafts : list string) :
  acc_hit v = true ->
  add_io_copies_stmt_acc_single n_lane false v (node, block, grafts)
  = (stmt_name <- read_block block ;;
     from_access <- autosa_create_io_access_stmt stmt_name ;;
     block' <- free_block block ;;
     Ok (node, block', grafts ++ [from_access])).
Proof.
  unfold acc_hit, add_io_copies_stmt_acc_single. intros H.
  apply andb_prop in H. destruct H as [H He].
  apply andb_prop in H. destruct H as [-> ->]. cbn [negb].
  apply Z.eqb_eq in He. rewrite He. reflexivity.
Qed.

Lemma acc_traverse_plain (n_lane : Z) (s : string) (visits : list acc_visit)
    (block : name_block) (grafts : list string) :
  (strlen s < 100)%nat ->
  block = block_live s \/ block = block_freed ->
  map_descendant_bottom_up_acc (add_io_copies_stmt_acc_single n_lane false)
    visits (true, block, grafts)
  = match hits_before_error visits, block with
    | O, _ => Ok (negb (existsb acc_error visits), block, grafts)
    | 1%nat, block_live _ =>
        Ok (negb (existsb acc_error visits), block_freed,
             grafts ++ [c_str s])
    | _, _ => Crash UseAfterFree
    end.
Proof.
  intros Hlen. revert block grafts.
  induction visits as [|v vs IH]; intros block grafts Hb.
  - cbn. destruct block; reflexivity.
  - cbn [map_descendant_bottom_up_acc fst hits_before_error existsb].
    destruct (acc_visit_cases v) as [[Hh [He Hs]]|[[Hh [He Hs]]|[Hh He]]];
      rewrite ?Hh, ?He.
    + rewrite Hs. cbn [bind orb Nat.add]. apply IH. exact Hb.
    + rewrite Hs. cbn [bind orb negb].
      destruct vs; cbn [map_descendant_bottom_up_acc fst]; reflexivity.
    + rewrite (acc_hit_plain n_lane v true block grafts Hh). cbn [orb].
      destruct Hb as [-> | ->].
      * cbn [read_block bind]. unfold autosa_create_io_access_stmt,
          sprintf_s.
        replace (strlen s <? 100)%nat with true
          by (symmetry; apply Nat.ltb_lt; exact Hlen).
        cbn [bind free_block].
        rewrite (IH block_freed (grafts ++ [c_str s])) by (right; reflexivity).
        cbn [Nat.add]. destruct (hits_before_error vs) as [|[|?]]; reflexivity.
      * cbn [read_block bind Nat.add].
        destruct (hits_before_error vs) as [|[|?]]; reflexivity.
Qed.

(** X13.  Without the dependence mark and with a name that fits the
    buffer of [autosa_create_io_access_stmt], the run of
    [add_io_copies_stmt_acc] depends on the number of the nodes at
    which a copy statement is grafted: with none the name is never
    freed, with one it is freed once and the statement has the name,
    and with more the freed name is read again. *)
Theorem add_io_copies_stmt_acc_name_lifetime
    (traversals : list (list acc_visit)) (n_lane : Z) (stmt_name : string) :
  (strlen stmt_name < 100)%nat ->
  add_io_copies_stmt_acc true traversals n_lane stmt_name false
  = match hits_before_error (List.concat traversals) with
    | O =>
        Ok (negb (existsb acc_error (List.concat traversals)),
             block_live stmt_name, [])
    | 1%nat =>
        Ok (negb (existsb acc_error (List.concat traversals)),
             block_freed, [c_str stmt_name])
    | _ => Crash UseAfterFree
    end.
Proof.
  intros Hlen. unfold add_io_copies_stmt_acc. cbn [andb].
  rewrite add_io_copies_stmt_acc_refs_concat.
  rewrite (acc_traverse_plain n_lane stmt_name _ _ _ Hlen)
    by (left; reflexivity).
  reflexivity.
Qed.

(* ================================================================== *)
(** ** The name of a statement with a dependence mark *)

Lemma acc_traverse_none (n_lane : Z) (dep : bool) (visits : list acc_visit)
    (block : name_block) (grafts : list string) :
  hits_before_error visits = O ->
  map_descendant_bottom_up_acc (add_io_copies_stmt_acc_single n_lane dep)
    visits (true, block, grafts)
  = Ok (negb (existsb acc_error visits), block, grafts).
Proof.
  induction visits as [|v vs IH]; [reflexivity|].
  cbn [hits_before_error map_descendant_bottom_up_acc fst existsb].
  destruct (acc_visit_cases v) as [[Hh [He Hs]]|[[Hh [He Hs]]|[Hh He]]];
    rewrite ?Hh, ?He; intros H.
  - rewrite Hs. cbn [bind orb]. apply IH. exact H.
  - rewrite Hs. cbn [bind orb negb].
    destruct vs; reflexivity.
  - discriminate.
Qed.

Lemma acc_traverse_one (n_lane : Z) (dep : bool) (visits : list acc_visit)
    (s t : string) (grafts : list string) :
  hits_before_error visits = 1%nat ->
  (forall v node g, In v visits -> acc_hit v = true ->
     add_io_copies_stmt_acc_single n_lane dep v (node, block_live s, g)
     = Ok (node, block_freed, g ++ [t])) ->
  map_descendant_bottom_up_acc (add_io_copies_stmt_acc_single n_lane dep)
    visits (true, block_live s, grafts)
  = Ok (negb (existsb acc_error visits), block_freed, grafts ++ [t]).
Proof.
  induction visits as [|v vs IH]; [discriminate|].
  cbn [hits_before_error map_descendant_bottom_up_acc fst existsb].
  destruct (acc_visit_cases v) as [[Hh [He Hs]]|[[Hh [He Hs]]|[Hh He]]];
    rewrite ?Hh, ?He; intros H Hv.
  - rewrite Hs. cbn [bind orb]. apply IH; [exact H|].
    intros w node g Hw. apply Hv. right. exact Hw.
  - discriminate.
  - rewrite (Hv v true grafts (or_introl eq_refl) Hh). cbn [bind orb].
    apply acc_traverse_none. cbn in H. lia.
Qed.

Lemma quot_le (ub lane : Z) :
  0 < lane -> 1 < Z.quot ub lane -> Z.quot ub lane <= ub.
Proof.
  intros Hl Hq. pose proof (Z.quot_rem' ub lane) as E.
  pose proof (Z.rem_bound_abs ub lane ltac:(lia)) as Hr.
  nia.
Qed.

Lemma int_div_pos (a b : Z) : 0 < b -> int_div a b = Ok (Z.quot a b).
Proof.
  intros Hb. unfold int_div.
  destruct (Z.eqb_spec b 0); [lia|].
  destruct (Z.eqb_spec b (-1)); [lia|]. rewrite andb_false_r. reflexivity.
Qed.

(** The name printed for the dependence mark is the name with the
    coalesce depth and bound as its last fields. *)
Lemma local_stmt_name_extended (read : bool) (fifo_suffix : string)
    (is_buffer : bool) (n_lane nxt : Z) (c : Z * Z) :
  isl_printer_get_str
    [P_str (isl_printer_get_str
              (local_stmt_name read fifo_suffix is_buffer n_lane nxt None));
     P_str "."; P_int (fst c); P_str "."; P_int (snd c)]
  = isl_printer_get_str
      (local_stmt_name read fifo_suffix is_buffer n_lane nxt (Some c)).
Proof.
  unfold local_stmt_name, coalesce_suffix.
  generalize (local_stmt_head read fifo_suffix is_buffer n_lane) as head.
  intros head. rewrite app_nil_r.
  rewrite (app_assoc head [P_str "."; P_int nxt]
             [P_str "."; P_int (fst c); P_str "."; P_int (snd c)]).
  rewrite (isl_printer_get_str_app (head ++ [P_str "."; P_int nxt])
             [P_str "."; P_int (fst c); P_str "."; P_int (snd c)]).
  reflexivity.
Qed.

Section DependenceMark.
Variable char_signed : bool.

(** X14.  With the dependence mark asked for, a group of one reference
    and one node for the copy statement, under a band whose last upper
    bound is more than the packing width, [add_io_copies_stmt_acc]
    gives the statement the name extended by the coalesce depth and
    bound, and [create_io_leaf] reads the two back. *)
Theorem dependence_mark_name_decodes
    (visits : list acc_visit) (band : acc_band_info) (ub : Z)
    (read : bool) (fifo_suffix : string) (is_buffer : bool)
    (buf_lane lane : Z) (local_tile : option autosa_array_tile)
    (local_name : string) :
  let stmt_name :=
    isl_printer_get_str
      (local_stmt_name read fifo_suffix is_buffer buf_lane lane None) in
  let cd := (band_depth band - 1, Z.quot ub lane) in
  hits_before_error visits = 1%nat ->
  (forall v, In v visits -> acc_hit v = true ->
     acc_stride_one v <> isl_bool_false /\ acc_band v = Some band) ->
  array_get (band_ubs band) (band_n_member band - 1) = Ok ub ->
  0 < lane -> 1 < Z.quot ub lane ->
  is_int ub -> is_int lane -> is_int buf_lane -> is_int (band_depth band - 1) ->
  plain fifo_suffix = true ->
  (strlen (isl_printer_get_str
             (local_stmt_name read fifo_suffix is_buffer buf_lane lane
                (Some cd))) < 100)%nat ->
  (local_tile = None -> (strlen local_name < 50)%nat) ->
  exists node t,
    add_io_copies_stmt_acc true [visits] lane stmt_name true
    = Ok (node, block_freed, [t])
    /\ create_io_leaf char_signed t local_tile local_name
       = Ok (transfer_stmt (negb read) false false (fifo_suffix ++ "_local")
               false is_buffer (-1) (-1) buf_lane lane (Some cd) local_tile).
Proof.
  intros stmt_name cd Hone Hv Hub Hl Hq Iub Il Ib Id Hf Hlen Hloc.
  set (t := isl_printer_get_str
              (local_stmt_name read fifo_suffix is_buffer buf_lane lane
                 (Some cd))) in *.
  assert (Hnn : no_nul t = true).
  { unfold t. rewrite local_stmt_name_dotted. apply no_nul_dotted.
    apply local_name_fields_plain. exact Hf. }
  assert (Hext : isl_printer_get_str
                   [P_str stmt_name; P_str "."; P_int (band_depth band - 1);
                    P_str "."; P_int (Z.quot ub lane)] = t)
    by (apply (local_stmt_name_extended read fifo_suffix is_buffer buf_lane
                 lane cd)).
  exists (negb (existsb acc_error visits)), t. split.
  - clearbody stmt_name. unfold add_io_copies_stmt_acc. cbn [List.length Z.of_nat andb].
    change (Z.pos (Pos.of_succ_nat 0) =? 1) with true. cbv iota.
    cbn [add_io_copies_stmt_acc_refs].
    rewrite (acc_traverse_one lane true visits stmt_name t [] Hone).
    + reflexivity.
    + intros v node g Hin Hh. destruct (Hv v Hin Hh) as [Hs Hb].
      unfold acc_hit in Hh. apply andb_prop in Hh. destruct Hh as [Hh He].
      apply andb_prop in Hh. destruct Hh as [Hleaf Hstmt].
      apply Z.eqb_eq in He.
      unfold add_io_copies_stmt_acc_single. rewrite Hleaf, Hstmt, He, Hb, Hub.
      cbn [negb Z.ltb Z.compare orb c_true Z.eqb bind].
      replace (c_true (isl_bool_to_int (acc_stride_one v))) with true
        by (destruct (acc_stride_one v); [reflexivity | contradiction
                                          | reflexivity]).
      rewrite (int_div_pos ub lane Hl). cbn [bind].
      replace (Z.quot ub lane >? 1) with true
        by (symmetry; apply Z.gtb_lt; exact Hq).
      cbn [read_block free_block bind snd fst].
      rewrite Hext. unfold autosa_create_io_access_stmt, sprintf_s.
      replace (strlen t <? 100)%nat with true
        by (symmetry; apply Nat.ltb_lt; exact Hlen).
      cbn [bind]. rewrite (c_str_no_nul t Hnn). reflexivity.
  - unfold t. apply create_io_leaf_local_name; try assumption.
    intros c Hc. injection Hc as <-. cbn [fst snd cd]. split; [exact Id|].
    unfold is_int in *. split.
    + lia.
    + pose proof (quot_le ub lane Hl Hq). lia.
Qed.

End DependenceMark.

(* ================================================================== *)
(** ** The linearization of an array access *)

Lemma horner_row_major (bs xs : list Z) (v : Z) :
  List.length bs = List.length xs ->
  fold_left (fun a bx => a * fst bx + snd bx) (combine bs xs) v
  = v * fold_right Z.mul 1 bs + row_major xs bs.
Proof.
  revert xs v. induction bs as [|b bs IH]; intros xs v Hl.
  - destruct xs; [|discriminate]. cbn. lia.
  - destruct xs as [|x xs]; [discriminate|]. cbn [combine fold_left fst snd].
    rewrite IH by (cbn in Hl; lia).
    cbn [fold_right row_major]. ring.
Qed.

Lemma skipn_nth_error {X} (l : list X) (i : nat) (x : X) :
  nth_error l i = Some x -> skipn i l = x :: skipn (S i) l.
Proof.
  revert i. induction l as [|y l IH]; intros i H.
  - destruct i; discriminate.
  - destruct i as [|i]; cbn in H.
    + injection H as ->. reflexivity.
    + cbn [skipn]. apply (IH i H).
Qed.

Lemma get_op_arg_nth (op : isl_ast_op_type) (args : list isl_ast_expr)
    (k : nat) :
  isl_ast_expr_get_op_arg (Some (isl_ast_expr_op op args)) (Z.of_nat k)
  = nth_error args k.
Proof.
  unfold isl_ast_expr_get_op_arg.
  destruct (Z.ltb_spec (Z.of_nat k) 0); [lia|]. rewrite Nat2Z.id. reflexivity.
Qed.

Lemma Forall2_nth_error {X Y} (R : X -> Y -> Prop) (l : list X) (l' : list Y)
    (i : nat) (x : X) :
  Forall2 R l l' -> nth_error l i = Some x ->
  exists y, nth_error l' i = Some y /\ R x y.
Proof.
  intros H. revert i. induction H as [|a b l l' Hab H IH]; intros i Hi.
  - destruct i; discriminate.
  - destruct i as [|i]; cbn in Hi |- *.
    + injection Hi as ->. eauto.
    + apply IH. exact Hi.
Qed.

Section Linearize.
Variable array : autosa_array_bounds.
Variable env : string -> Z.
Variables (A B : isl_ast_expr) (bop : isl_ast_op_type).
Variables (idx bnds : list isl_ast_expr) (ivals bvals : list Z).
Hypothesis Hbound : bound_expr array = Some (isl_ast_expr_op bop (B :: bnds)).
Hypothesis Hidx : Forall2 (fun e z => ast_eval env e = Some z) idx ivals.
Hypothesis Hbnds : Forall2 (fun e z => ast_eval env e = Some z) bnds bvals.
Hypothesis Hlen : (List.length idx <= List.length bnds)%nat.

(** The value of the result after the remaining iterations: the
    missing indices count as 0. *)
Lemma linearize_loop_value (count i : nat) (r : isl_ast_expr) (v : Z) :
  (1 <= i)%nat -> (i + count = List.length bnds)%nat ->
  ast_eval env r = Some v ->
  exists e,
    linearize_loop count (Z.of_nat i) (Z.of_nat (List.length (A :: idx)))
      array (Some (isl_ast_expr_op isl_ast_op_access (A :: idx))) (Some r)
    = Some e
    /\ ast_eval env e
       = Some (fold_left (fun a bx => a * fst bx + snd bx)
                 (combine (skipn i bvals)
                    (skipn i (ivals
                              ++ repeat 0 (List.length bnds
                                           - List.length idx))))
                 v).
Proof.
  pose proof (Forall2_length Hidx) as Li.
  pose proof (Forall2_length Hbnds) as Lb.
  revert i r v. induction count as [|c IH]; intros i r v Hi Hc Hr.
  - exists r. split; [reflexivity|].
    rewrite (skipn_all2 bvals) by lia. cbn. exact Hr.
  - cbn [linearize_loop]. rewrite Hbound.
    replace (1 + Z.of_nat i) with (Z.of_nat (S i)) by lia.
    replace (Z.of_nat i + 1) with (Z.of_nat (S i)) by lia.
    rewrite !get_op_arg_nth. cbn [nth_error].
    destruct (nth_error bnds i) as [b|] eqn:Eb;
      [|apply nth_error_None in Eb; lia].
    destruct (Forall2_nth_error _ _ _ _ _ Hbnds Eb) as [bv [Ebv Hbv]].
    cbn [isl_ast_expr_mul].
    rewrite (skipn_nth_error bvals i bv Ebv).
    destruct (Z.geb_spec (Z.of_nat (S i)) (Z.of_nat (List.length (A :: idx))))
      as [Hge|Hlt]; cbn [List.length] in *.
    + (* the index is missing *)
      assert (Ez : nth_error (ivals ++ repeat 0 (List.length bnds
                                                 - List.length idx)) i
                   = Some 0).
      { rewrite nth_error_app2 by lia. apply nth_error_repeat. lia. }
      rewrite (skipn_nth_error _ i 0 Ez). cbn [combine fold_left fst snd].
      destruct (IH (S i) (isl_ast_expr_op isl_ast_op_mul [r; b]) (v * bv + 0))
        as [e [H1 H2]]; [lia | lia | |].
      { cbn [ast_eval]. rewrite Hr, Hbv. f_equal. lia. }
      exists e. split; assumption.
    + destruct (nth_error idx i) as [x|] eqn:Ex;
        [|apply nth_error_None in Ex; lia].
      destruct (Forall2_nth_error _ _ _ _ _ Hidx Ex) as [xv [Exv Hxv]].
      assert (Ez : nth_error (ivals ++ repeat 0 (List.length bnds
                                                 - List.length idx)) i
                   = Some xv).
      { rewrite nth_error_app1 by lia. exact Exv. }
      rewrite (skipn_nth_error _ i xv Ez). cbn [combine fold_left fst snd].
      cbn [isl_ast_expr_add].
      destruct (IH (S i)
                  (isl_ast_expr_op isl_ast_op_add
                     [isl_ast_expr_op isl_ast_op_mul [r; b]; x])
                  (v * bv + xv)) as [e [H1 H2]]; [lia | lia | |].
      { cbn [ast_eval]. rewrite Hr, Hbv, Hxv. reflexivity. }
      exists e. split; assumption.
Qed.

End Linearize.

Lemma linearize_index_base (array : autosa_array_bounds)
    (op : isl_ast_op_type) (A : isl_ast_expr) (rest : list isl_ast_expr) :
  is_member_access (Some A) = false ->
  autosa_local_array_info_linearize_index array (isl_ast_expr_op op (A :: rest))
  = let expr := Some (isl_ast_expr_op op (A :: rest)) in
    let n := Z.of_nat (List.length (A :: rest)) in
    if n =? 1 then expr
    else
      let res :=
        linearize_loop (Z.to_nat (n_index array - 1)) (Z.of_nat 1) n array expr
          (isl_ast_expr_get_op_arg expr (Z.of_nat 1)) in
      if 1 + n_index array >? n
      then isl_ast_expr_add (isl_ast_expr_get_op_arg expr (Z.of_nat 0)) res
      else isl_ast_expr_access1 (isl_ast_expr_get_op_arg expr (Z.of_nat 0)) res.
Proof. intros H. destruct A as [| |[] ?]; try reflexivity. discriminate. Qed.

(** X15.  The linearization of an access [A[i_0]...[i_l]] to an array of
    [n_index] dimensions has one index, whose value is the offset in
    row-major order of the element, the missing indices taken as 0:
    with all the indices the result is the access [A[e]], with fewer
    it is the address [A + e] of the first element of the part that is
    accessed. *)
Theorem linearize_index_row_major
    (array : autosa_array_bounds) (env : string -> Z)
    (A B : isl_ast_expr) (bop : isl_ast_op_type)
    (idx bnds : list isl_ast_expr) (ivals bvals : list Z) :
  is_member_access (Some A) = false ->
  idx <> [] ->
  (List.length idx <= List.length bnds)%nat ->
  n_index array = Z.of_nat (List.length bnds) ->
  bound_expr array = Some (isl_ast_expr_op bop (B :: bnds)) ->
  Forall2 (fun e z => ast_eval env e = Some z) idx ivals ->
  Forall2 (fun e z => ast_eval env e = Some z) bnds bvals ->
  exists e,
    autosa_local_array_info_linearize_index array
      (isl_ast_expr_op isl_ast_op_access (A :: idx))
    = Some (isl_ast_expr_op
              (if (List.length idx <? List.length bnds)%nat
               then isl_ast_op_add else isl_ast_op_access)
              [A; e])
    /\ ast_eval env e
       = Some (row_major
                 (ivals ++ repeat 0 (List.length bnds - List.length idx))
                 bvals).
Proof.
  intros Hm Hne Hlen Hn Hb Hi Hbv.
  pose proof (Forall2_length Hi) as Li.
  pose proof (Forall2_length Hbv) as Lb.
  destruct idx as [|x0 idx'] eqn:Eidx; [contradiction|]. rewrite <- Eidx in *.
  assert (Hx0 : nth_error idx 0 = Some x0) by (rewrite Eidx; reflexivity).
  destruct (Forall2_nth_error _ _ _ _ _ Hi Hx0) as [xv0 [Exv0 Hxv0]].
  assert (Hl1 : (1 <= List.length idx)%nat) by (rewrite Eidx; cbn; lia).
  destruct bnds as [|b0 bnds'] eqn:Ebnds; [cbn in Hlen; lia|].
  rewrite <- Ebnds in *.
  assert (Hb0 : nth_error bnds 0 = Some b0) by (rewrite Ebnds; reflexivity).
  destruct (Forall2_nth_error _ _ _ _ _ Hbv Hb0) as [bv0 [Ebv0 Hbv0]].
  destruct (linearize_loop_value array env A B bop idx bnds ivals bvals
              Hb Hi Hbv Hlen (List.length bnds - 1) 1 x0 xv0)
    as [e [H1 H2]]; [lia | rewrite Ebnds; cbn; lia | exact Hxv0 |].
  exists e. split.
  - rewrite (linearize_index_base array isl_ast_op_access A idx Hm).
    cbv zeta.
    destruct (Z.eqb_spec (Z.of_nat (List.length (A :: idx))) 1)
      as [E|_]; [cbn [List.length] in E; lia|].
    rewrite Hn.
    replace (Z.to_nat (Z.of_nat (List.length bnds) - 1))
      with (List.length bnds - 1)%nat by lia.
    rewrite !get_op_arg_nth.
    change (nth_error (A :: idx) 1) with (nth_error idx 0).
    change (nth_error (A :: idx) 0) with (Some A).
    rewrite Hx0, H1.
    destruct (Nat.ltb_spec (List.length idx) (List.length bnds)) as [Hlt|Hge].
    + destruct (Z.gtb_spec (1 + Z.of_nat (List.length bnds))
                  (Z.of_nat (List.length (A :: idx)))) as [_|Hle];
        [reflexivity | cbn [List.length] in Hle; lia].
    + destruct (Z.gtb_spec (1 + Z.of_nat (List.length bnds))
                  (Z.of_nat (List.length (A :: idx)))) as [Hgt|_];
        [cbn [List.length] in Hgt; lia | reflexivity].
  - rewrite H2. f_equal.
    set (pad := (ivals ++ repeat 0 (List.length bnds - List.length idx))) in *.
    assert (Lp : List.length pad = List.length bvals).
    { unfold pad. rewrite length_app, repeat_length. lia. }
    assert (Ep : nth_error pad 0 = Some xv0).
    { unfold pad. rewrite nth_error_app1 by lia. exact Exv0. }
    clearbody pad. clear H2.
    destruct pad as [|p0 pad']; [discriminate|].
    destruct bvals as [|bv bvals']; [discriminate|].
    cbn in Ep. injection Ep as ->. cbn [skipn row_major].
    rewrite horner_row_major by (cbn in Lp; lia). reflexivity.
Qed.

(** X16.  Both [dereference] and the linearization reach the structure
    argument through any number of member accesses and leave the
    accesses around it as they are. *)
Theorem member_accesses_are_kept
    (array : autosa_array_bounds)
    (ws : list (isl_ast_op_type * list isl_ast_expr * list isl_ast_expr))
    (base : isl_ast_expr) :
  autosa_local_array_info_linearize_index array (member_chain ws base)
  = option_map (member_chain ws)
      (autosa_local_array_info_linearize_index array base)
  /\ dereference (member_chain ws base)
     = option_map (member_chain ws) (dereference base).
Proof.
  induction ws as [|[[op mrest] rest] ws [IH1 IH2]].
  - cbn [member_chain].
    split; [destruct (autosa_local_array_info_linearize_index array base)
           | destruct (dereference base)]; reflexivity.
  - cbn [member_chain]. unfold member_wrap.
    cbn [autosa_local_array_info_linearize_index dereference].
    rewrite IH1, IH2. split.
    + destruct (autosa_local_array_info_linearize_index array base);
        reflexivity.
    + destruct (dereference base); reflexivity.
Qed.

(* ================================================================== *)
(** ** More on the schedule constraints *)

(** X17.  For a band with at most as many members as there are names,
    the set of [set_schedule_eq] holds the domain elements of the band
    for which the leading parameters are zero and each schedule value
    equals its parameter. *)
Theorem set_schedule_eq_membership (point : Type)
    (node : ScheduleConstraints.isl_schedule_node point)
    (names : list string) :
  names <> [] ->
  (ScheduleConstraints.mupa_dim
     (ScheduleConstraints.band_partial_schedule node)
   <= List.length names)%nat ->
  exists S,
    ScheduleConstraints.set_schedule_eq (Some node) names = Some S
    /\ forall e x,
         S e x = true
         <-> (ScheduleConstraints.universe_domain node e x = true
              /\ ScheduleConstraints.mupa_dom
                   (ScheduleConstraints.band_partial_schedule node) e x
                 = true)
             /\ (forall i, (i < leading node names)%nat ->
                   e (nth i names "") = 0)
             /\ (forall i,
                   (i < ScheduleConstraints.mupa_dim
                          (ScheduleConstraints.band_partial_schedule node))%nat ->
                   ScheduleConstraints.mupa_val
                     (ScheduleConstraints.band_partial_schedule node) e x i
                   = e (nth (leading node names + i) names "")).
Proof. apply set_schedule_eq_spec. Qed.

(** X18.  The sets of [set_schedule_ge] and [set_schedule_le] bound each
    schedule value by its parameter from below and from above; the
    leading parameters are bounded by zero, from above in the first
    set and from below in the second. *)
Theorem set_schedule_ge_le_membership (point : Type)
    (node : ScheduleConstraints.isl_schedule_node point)
    (names : list string) :
  names <> [] ->
  (ScheduleConstraints.mupa_dim
     (ScheduleConstraints.band_partial_schedule node)
   <= List.length names)%nat ->
  exists Sge Sle,
    ScheduleConstraints.set_schedule_ge (Some node) names = Some Sge
    /\ ScheduleConstraints.set_schedule_le (Some node) names = Some Sle
    /\ forall e x,
         let in_domain :=
           ScheduleConstraints.universe_domain node e x = true
           /\ ScheduleConstraints.mupa_dom
                (ScheduleConstraints.band_partial_schedule node) e x = true in
         let sched :=
           ScheduleConstraints.mupa_val
             (ScheduleConstraints.band_partial_schedule node) e x in
         let dim :=
           ScheduleConstraints.mupa_dim
             (ScheduleConstraints.band_partial_schedule node) in
         (Sge e x = true
          <-> in_domain
              /\ (forall i, (i < leading node names)%nat ->
                    e (nth i names "") <= 0)
              /\ (forall i, (i < dim)%nat ->
                    e (nth (leading node names + i) names "") <= sched i))
         /\ (Sle e x = true
             <-> in_domain
                 /\ (forall i, (i < leading node names)%nat ->
                       0 <= e (nth i names ""))
                 /\ (forall i, (i < dim)%nat ->
                       sched i <= e (nth (leading node names + i) names ""))).
Proof.
  intros Hne Hd.
  destruct (set_schedule_ge_spec point node names Hne Hd) as [Sge [Ege Hge]].
  destruct (set_schedule_le_spec point node names Hne Hd) as [Sle [Ele Hle]].
  exists Sge, Sle. split; [exact Ege|]. split; [exact Ele|].
  intros e x. cbv zeta. split; [apply Hge | apply Hle].
Qed.

(** X19.  The set of [set_schedule_eq] is the intersection of the sets of
    [set_schedule_ge] and [set_schedule_le]. *)
Theorem set_schedule_eq_meets_ge_le (point : Type)
    (node : ScheduleConstraints.isl_schedule_node point)
    (names : list string) :
  names <> [] ->
  (ScheduleConstraints.mupa_dim
     (ScheduleConstraints.band_partial_schedule node)
   <= List.length names)%nat ->
  exists Seq Sge Sle,
    ScheduleConstraints.set_schedule_eq (Some node) names = Some Seq
    /\ ScheduleConstraints.set_schedule_ge (Some node) names = Some Sge
    /\ ScheduleConstraints.set_schedule_le (Some node) names = Some Sle
    /\ forall e x, Seq e x = Sge e x && Sle e x.
Proof.
  intros Hne Hd.
  destruct (set_schedule_eq_spec point node names Hne Hd) as [Seq [Eeq Heq]].
  destruct (set_schedule_ge_spec point node names Hne Hd) as [Sge [Ege Hge]].
  destruct (set_schedule_le_spec point node names Hne Hd) as [Sle [Ele Hle]].
  exists Seq, Sge, Sle. repeat (split; [assumption|]).
  intros e x. apply eq_true_iff_eq.
  rewrite andb_true_iff, Heq, Hge, Hle. split.
  - intros [Hdom [H1 H2]]. split; (split; [exact Hdom|]); split;
      intros i Hi; first [rewrite (H1 i Hi) | rewrite (H2 i Hi)]; lia.
  - intros [[Hdom [H1 H2]] [_ [H3 H4]]]. split; [exact Hdom|]. split;
      intros i Hi.
    + specialize (H1 i Hi). specialize (H3 i Hi). lia.
    + specialize (H2 i Hi). specialize (H4 i Hi). lia.
Qed.

(** X20.  With positive sizes, the set of [set_schedule_modulo] holds the
    domain elements of the band for which the leading parameters are
    zero and each schedule value, reduced modulo its size, equals its
    parameter; such a parameter lies between 0 and its size. *)
Theorem set_schedule_modulo_membership (point : Type)
    (node : ScheduleConstraints.isl_schedule_node point)
    (names : list string) (size : list Z) :
  names <> [] ->
  (ScheduleConstraints.mupa_dim
     (ScheduleConstraints.band_partial_schedule node)
   <= List.length names)%nat ->
  (List.length names <= List.length size)%nat ->
  Forall (fun m => 0 < m) (skipn (leading node names) size) ->
  exists S,
    ScheduleConstraints.set_schedule_modulo (Some node) names size
    = Ok (Some S)
    /\ forall e x,
         let sched :=
           ScheduleConstraints.mupa_val
             (ScheduleConstraints.band_partial_schedule node) e x in
         let dim :=
           ScheduleConstraints.mupa_dim
             (ScheduleConstraints.band_partial_schedule node) in
         (S e x = true
          <-> (ScheduleConstraints.universe_domain node e x = true
               /\ ScheduleConstraints.mupa_dom
                    (ScheduleConstraints.band_partial_schedule node) e x
                  = true)
              /\ (forall i, (i < leading node names)%nat ->
                    e (nth i names "") = 0)
              /\ (forall i, (i < dim)%nat ->
                    sched i mod nth (leading node names + i) size 1
                    = e (nth (leading node names + i) names "")))
         /\ (S e x = true ->
             forall i, (i < dim)%nat ->
               0 <= e (nth (leading node names + i) names "")
               < nth (leading node names + i) size 1).
Proof.
  intros Hne Hd Hsize Hpos.
  destruct (set_schedule_modulo_spec point node names size Hne Hd Hsize Hpos)
    as [S [E HS]].
  exists S. split; [exact E|]. intros e x. cbv zeta. split; [apply HS|].
  intros Hin i Hi. apply HS in Hin. destruct Hin as [_ [_ H]].
  rewrite <- (H i Hi). apply Z.mod_pos_bound.
  apply (proj1 (Forall_forall _ _) Hpos).
  assert (Hlt : (i < List.length (skipn (leading node names) size))%nat).
  { rewrite length_skipn. unfold leading in *. lia. }
  rewrite <- (nth_skipn (leading node names) size i 1).
  apply nth_In. exact Hlt.
Qed.

(** X21.  [set_schedule_modulo] reads the sizes of the band members from
    [size + n_zero]: for a list of names that is not empty, all its
    reads lie in [size] exactly when the band has at most as many
    members as there are names and, if it has a member, [size] has an
    element for every name. *)
Theorem set_schedule_modulo_reads_in_bounds (point : Type)
    (node : ScheduleConstraints.isl_schedule_node point)
    (names : list string) (size : list Z) :
  names <> [] ->
  let dim :=
    ScheduleConstraints.mupa_dim
      (ScheduleConstraints.band_partial_schedule node) in
  (exists r,
     ScheduleConstraints.set_schedule_modulo (Some node) names size = Ok r)
  <-> (dim <= List.length names)%nat
      /\ (dim = O \/ (List.length names <= List.length size)%nat).
Proof.
  intros Hne dim. unfold ScheduleConstraints.set_schedule_modulo.
  destruct (Z.eqb_spec (Z.of_nat (List.length names)) 0) as [E|_].
  { destruct names; [contradiction | cbn in E; lia]. }
  unfold ScheduleConstraints.isl_schedule_node_band_n_member. fold dim.
  destruct (Z.ltb_spec (Z.of_nat (List.length names) - Z.of_nat dim) 0)
    as [Hneg|Hpos].
  - cbn [bind]. split; [intros [r Hr]; discriminate | lia].
  - unfold ScheduleConstraints.construct_band_tiles_sizes. fold dim.
    rewrite length_skipn.
    destruct (Nat.leb_spec dim
                (List.length size
                 - Z.to_nat (Z.of_nat (List.length names) - Z.of_nat dim)))
      as [Hle|Hgt]; cbn [bind].
    + split; [intros _; lia | eauto].
    + split; [intros [r Hr]; discriminate | lia].
Qed.

(* ================================================================== *)
(** ** The buffer scan and the faults of the generation *)

Section Completion.
Context {Ty : IslTypes} {Ops : IslOps}.

Lemma tile_at_range_dec (group : autosa_array_ref_group) (n : nat) :
  (exists j, 1 <= j <= Z.of_nat n /\ tile_at group j = true)
  \/ (forall j, 1 <= j <= Z.of_nat n -> tile_at group j = false).
Proof.
  induction n as [|k IH].
  - right. intros j Hj. lia.
  - destruct IH as [[j [Hj Ht]]|Hno].
    + left. exists j. split; [lia | exact Ht].
    + destruct (tile_at group (Z.of_nat (S k))) eqn:Et.
      * left. exists (Z.of_nat (S k)). split; [lia | exact Et].
      * right. intros j Hj.
        destruct (Z.eq_dec j (Z.of_nat (S k))) as [->|Hne]; [exact Et|].
        apply Hno. lia.
Qed.

(** X22.  The buffer scan from a level at or above a level with a tile
    stops at the nearest level below its start that has a tile, on the
    buffer of that level. *)
Theorem locate_buffer_nearest_tile (group : autosa_array_ref_group)
    (start j : Z) :
  start <= Z.of_nat (List.length (io_buffers group)) ->
  1 <= j <= start -> tile_at group j = true ->
  exists i b t,
    locate_buffer group start None = Ok (i, Some b)
    /\ buf_tile b = Some t
    /\ j <= i <= start
    /\ nth_error (io_buffers group) (Z.to_nat (i - 1)) = Some b
    /\ forall k, i < k <= start -> tile_at group k = false.
Proof.
  intros Hs Hj Ht.
  destruct (locate_buffer_ok group start None Hs) as [i [buf [E [_ [_ H3]]]]];
    [discriminate|].
  pose proof (locate_buffer_finds_tile group start i buf j E Hj Ht) as Hi.
  destruct (H3 Hi) as [b [t [-> Eb]]].
  exists i, b, t. split; [exact E|]. split; [exact Eb|].
  unfold locate_buffer in E. destruct (Z.ltb_spec start 1); [lia|].
  destruct (locate_buffer_loop_first_tile group (Z.to_nat start) None i b t
              E Eb Hi) as [Hle [Hnth Hno]].
  assert (Hno' : forall k, i < k <= start -> tile_at group k = false)
    by (intros k Hk; apply Hno; lia).
  split; [|split; [exact Hnth | exact Hno']].
  split; [|lia].
  destruct (Z_le_gt_dec j i) as [|Hgt]; [assumption|].
  rewrite (Hno' j) in Ht by lia. discriminate.
Qed.

(** The faults of the copy statements are the faults of the accesses
    they make: none of them is a null pointer, a failed assertion or the
    read of an uninitialised variable. *)
Lemma add_io_copies_stmt_acc_single_fault_kind (n_lane : Z) (dep : bool)
    (v : acc_visit) (st : acc_state) (f : fault) :
  add_io_copies_stmt_acc_single n_lane dep v st = Crash f ->
  copy_fault_kind f = true.
Proof.
  destruct st as [[node block] grafts].
  unfold add_io_copies_stmt_acc_single, array_get, int_div,
    autosa_create_io_access_stmt, sprintf_s, read_block, free_block.
  intros H.
  repeat (cbn [bind fst snd] in H;
          match type of H with
          | Ok _ = Crash _ => discriminate H
          | Crash _ = Crash _ => injection H as <-; reflexivity
          | context [match ?x with _ => _ end] => destruct x eqn:?
          end).
Qed.

Lemma map_descendant_bottom_up_acc_fault_kind (n_lane : Z) (dep : bool)
    (visits : list acc_visit) (st : acc_state) (f : fault) :
  map_descendant_bottom_up_acc (add_io_copies_stmt_acc_single n_lane dep)
    visits st = Crash f ->
  copy_fault_kind f = true.
Proof.
  revert st. induction visits as [|v vs IH]; intros st H; [discriminate|].
  cbn [map_descendant_bottom_up_acc] in H.
  destruct (fst (fst st)); [|discriminate].
  destruct (add_io_copies_stmt_acc_single n_lane dep v st) as [st'|e] eqn:E;
    cbn [bind] in H.
  - exact (IH st' H).
  - injection H as <-.
    exact (add_io_copies_stmt_acc_single_fault_kind _ _ _ _ _ E).
Qed.

Lemma copies_fault_kind (f : fault) :
  copies_fault f -> copy_fault_kind f = true.
Proof.
  intros [module group depth read n_lane stmt_name dep H
         |module group depth read tile stmt_name H].
  - unfold add_io_copies_stmt_acc in H.
    rewrite add_io_copies_stmt_acc_refs_concat in H.
    exact (map_descendant_bottom_up_acc_fault_kind _ _ _ _ _ H).
  - revert H.
    unfold add_io_copies_stmt_tile, autosa_create_io_access_stmt, sprintf_s.
    destruct ((isl_bool_to_int _ <? 0) || _);
      [destruct (isl_bool_to_int _ <? 0); discriminate|].
    cbn [read_block bind].
    destruct (strlen stmt_name <? 100)%nat; cbn [bind deref_tile free_block];
      [discriminate|].
    intros H. injection H as <-. reflexivity.
Qed.



End Completion.

(* ================================================================== *)
(** ** The names of the I/O modules *)

Lemma strtol_digits_stop (rest : string) (acc : Z) :
  digit_of (cstr_head rest) = None -> strtol_digits rest acc = acc.
Proof. destruct rest as [|c rest]; cbn; [reflexivity | intros ->; reflexivity]. Qed.

Lemma strtol_uint_rest (d : Decimal.uint) (rest : string) :
  digit_of (cstr_head rest) = None ->
  strtol (NilZero.string_of_uint d ++ rest)
  = Z.max (-9223372036854775808) (Z.min 9223372036854775807 (Z.of_uint d)).
Proof.
  intros Hr. pose proof (strtol_digits_uint d rest Hr) as H.
  destruct d; cbn in H |- *; unfold strtol; cbn; rewrite H; reflexivity.
Qed.

Lemma strtol_neg_uint_rest (d : Decimal.uint) (rest : string) :
  digit_of (cstr_head rest) = None ->
  strtol (String "-" (NilZero.string_of_uint d) ++ rest)
  = Z.max (-9223372036854775808)
      (Z.min 9223372036854775807 (- Z.of_uint d)).
Proof.
  intros Hr. pose proof (strtol_digits_uint d rest Hr) as H.
  unfold strtol. cbn [append skip_spaces].
  change (isspace "-") with false. cbv iota.
  destruct d; cbn in H |- *; rewrite H; reflexivity.
Qed.

(** [atoi] reads a printed number back whatever follows it, if that is
    no digit. *)
Lemma atoi_print_int_rest (z : Z) (rest : string) :
  is_int z -> digit_of (cstr_head rest) = None ->
  atoi (print_int z ++ rest) = z.
Proof.
  intros Hz Hr. unfold is_int in Hz. unfold atoi, print_int.
  pose proof (DecimalZ.of_to z) as Hot.
  destruct (Z.to_int z) as [d|d]; cbn [NilZero.string_of_int Z.of_int] in *.
  - rewrite (strtol_uint_rest d rest Hr), Hot.
    rewrite Z.min_r, Z.max_r by lia. apply int_of_long_small. exact Hz.
  - rewrite (strtol_neg_uint_rest d rest Hr), Hot.
    rewrite Z.min_r, Z.max_r by lia. apply int_of_long_small. exact Hz.
Qed.

Lemma append_inj_l (a b c : string) :
  (a ++ b)%string = (a ++ c)%string -> b = c.
Proof.
  induction a as [|x a IH]; cbn; [auto|]. intros H. injection H as H. auto.
Qed.

Lemma print_int_app_inj (a b : Z) (r1 r2 : string) :
  is_int a -> is_int b ->
  digit_of (cstr_head r1) = None -> digit_of (cstr_head r2) = None ->
  (print_int a ++ r1)%string = (print_int b ++ r2)%string ->
  a = b /\ r1 = r2.
Proof.
  intros Ha Hb H1 H2 E.
  assert (Hab : a = b).
  { rewrite <- (atoi_print_int_rest a r1 Ha H1),
            <- (atoi_print_int_rest b r2 Hb H2), E. reflexivity. }
  subst b. split; [reflexivity|]. exact (append_inj_l _ _ _ E).
Qed.

(** The name of an I/O module tells its level and its direction. *)
Lemma generate_io_module_name_inj (group : autosa_array_ref_group)
    (local : autosa_local_array_info) (l1 l2 : Z) (r1 r2 : bool) :
  is_int l1 -> is_int l2 ->
  isl_printer_get_str (generate_io_module_name group local l1 r1)
  = isl_printer_get_str (generate_io_module_name group local l2 r2) ->
  l1 = l2 /\ r1 = r2.
Proof.
  intros H1 H2. unfold generate_io_module_name.
  rewrite !isl_printer_get_str_app.
  intros E. apply append_inj_l in E. apply append_inj_l in E.
  cbn [isl_printer_get_str] in E.
  rewrite !append_assoc, !append_empty in E. apply append_inj_l in E.
  apply print_int_app_inj in E; try assumption.
  - destruct E as [-> E]. split; [reflexivity|].
    destruct r1, r2; try reflexivity; discriminate.
  - destruct r1; reflexivity.
  - destruct r2; reflexivity.
Qed.

Section ModuleNames.
Context {Ty : IslTypes} {Ops : IslOps}.

Lemma upper_transfer_keeps_header module group kernel read isb tib p b d
    m' s :
  upper_transfer module group kernel read isb tib p b d = Ok (m', s) ->
  module_header m' = module_header module.
Proof.
  unfold upper_transfer. intros H.
  destruct (buf_tile b).
  - inv_bind H as cd Ec. inv_bind H as st Er. clear Er. inv_ok H.
    destruct module; reflexivity.
  - inv_bind H as st Er. clear Er. inv_ok H. destruct module; reflexivity.
Qed.

Lemma lower_transfer_keeps_header module group kernel read isb tib p b d
    m' buf s :
  lower_transfer module group kernel read isb tib p b d = Ok (m', buf, s) ->
  module_header m' = module_header module.
Proof.
  unfold lower_transfer. intros H.
  inv_bind H as [i0 buf0] E. inv_bind H as b0 Eb.
  destruct (buf_level b =? 1), (buf_tile b0).
  - inv_bind H as st Er. clear Er. inv_ok H. destruct module; reflexivity.
  - inv_bind H as st Er. clear Er. inv_ok H. destruct module; reflexivity.
  - inv_bind H as cd Ec. inv_bind H as st Er. clear Er. inv_ok H.
    destruct module; reflexivity.
  - inv_bind H as st Er. clear Er. inv_ok H. destruct module; reflexivity.
Qed.

Lemma inter_trans_keeps_header module group kernel io_level space_dim read bd
    m' s :
  generate_io_module_inter_trans module group kernel io_level space_dim
    read bd = Ok (m', s) ->
  module_header m' = module_header module.
Proof.
  unfold generate_io_module_inter_trans. intros H.
  destruct (to_mem module); [discriminate|].
  inv_bind H as [i buf] E. inv_bind H as b Eb.
  eapply upper_transfer_keeps_header; eauto.
Qed.

Lemma intra_trans_keeps_header module group kernel io_level space_dim read isb
    m' s :
  generate_io_module_intra_trans module group kernel io_level space_dim
    read isb = Ok (m', s) ->
  module_header m' = module_header module.
Proof.
  unfold generate_io_module_intra_trans. intros H.
  destruct (to_mem module); [discriminate|].
  inv_bind H as [i buf] E. inv_bind H as b Eb.
  inv_bind H as [[m1 b1] s1] E1. inv_ok H.
  eapply lower_transfer_keeps_header; eauto.
Qed.

Lemma outer_keeps_header module group kernel io_level space_dim read bd m' s :
  generate_io_module_outer module group kernel io_level space_dim
    read bd = Ok (m', s) ->
  module_header m' = module_header module.
Proof.
  unfold generate_io_module_outer. intros H.
  destruct (to_mem module); [discriminate|].
  destruct bd; cbn [negb] in H.
  - inv_ok H. reflexivity.
  - inv_bind H as [i buf] E. inv_bind H as b Eb. inv_ok H.
    unfold create_io_module_vars. destruct module; reflexivity.
Qed.

Lemma set_boundary_keeps_header v m :
  module_header (set_boundary v m) = module_header m.
Proof. destruct m; reflexivity. Qed.

Lemma filter_buffer_keeps_header module group local kernel io_level space_dim
    isf isb read m' :
  generate_filter_buffer_io_module module group local kernel io_level
    space_dim isf isb read = Ok m' ->
  module_header m' = module_header module.
Proof.
  unfold generate_filter_buffer_io_module. intros H.
  set (m0 := if double_buffer (options kernel) then _ else _) in H.
  assert (H0 : module_header m0 = module_header module).
  { unfold m0. destruct (double_buffer (options kernel));
      [destruct (autosa_array_type_beq _ _)|]; destruct module; reflexivity. }
  inv_bind H as [m1 sched2] E1.
  inv_bind H as [m2 bsched2] E2.
  inv_bind H as [m3 sched3] E3.
  inv_bind H as [m4 sched1] E4.
  inv_bind H as [m5 bsched1] E5.
  apply inter_trans_keeps_header in E1.
  assert (H2 : module_header m2 = module_header m1).
  { destruct isf.
    - inv_bind E2 as [m6 s6] E6. inv_ok E2.
      apply inter_trans_keeps_header in E6.
      rewrite E6. apply set_boundary_keeps_header.
    - inv_ok E2. reflexivity. }
  apply intra_trans_keeps_header in E3.
  apply outer_keeps_header in E4.
  assert (H5 : module_header m5 = module_header m4).
  { destruct isf.
    - inv_bind E5 as [m6 s6] E6. inv_ok E5.
      apply outer_keeps_header in E6.
      rewrite E6. apply set_boundary_keeps_header.
    - inv_ok E5. reflexivity. }
  assert (Hn : module_header m5 = module_header module) by congruence.
  clear - H Hn.
  destruct (boundary _).
  - destruct bsched1, bsched2; try discriminate. inv_ok H.
    destruct m5; cbn in *. exact Hn.
  - inv_ok H. destruct m5; cbn in *. exact Hn.
Qed.

Lemma default_schedule_keeps_header module group kernel io_level space_dim
    isf isb read bd m' :
  generate_default_io_module_schedule module group kernel io_level space_dim
    isf isb read bd = Ok m' ->
  module_header m' = module_header module.
Proof.
  unfold generate_default_io_module_schedule. intros H.
  inv_bind H as [i buf] E.
  inv_bind H as b Eb. inv_bind H as t Et. inv_bind H as [m1 s1] E1.
  inv_bind H as [[m2 buf2] s2] E2.
  apply upper_transfer_keeps_header in E1.
  assert (K2 : module_header m2 = module_header m1).
  { destruct (degrade_is_buffer isb i io_level).
    - eapply lower_transfer_keeps_header; eauto.
    - inv_ok E2. reflexivity. }
  assert (Hn : module_header m2 = module_header module) by congruence.
  clear - H Hn.
  destruct bd; cbn [negb] in H.
  - inv_ok H. destruct m2; cbn in *. exact Hn.
  - destruct (degrade_is_buffer isb i io_level).
    + inv_bind H as [i3 buf3] E3. inv_bind H as b3 Eb3. inv_ok H.
      unfold create_io_module_vars. destruct m2; cbn in *. exact Hn.
    + inv_ok H. destruct m2; cbn in *. exact Hn.
Qed.

Lemma generate_io_module_by_type_keeps_header module group local kernel
    io_level space_dim isf isb read m' :
  generate_io_module_by_type module group local kernel io_level space_dim
    isf isb read = Ok m' ->
  module_header m' = module_header module.
Proof.
  unfold generate_io_module_by_type. intros H.
  destruct (isf && isb).
  - eapply filter_buffer_keeps_header; eauto.
  - unfold generate_default_io_module in H. inv_bind H as m1 E.
    apply default_schedule_keeps_header in E.
    destruct isf.
    + apply default_schedule_keeps_header in H.
      rewrite H, set_boundary_keeps_header. exact E.
    + inv_ok H. exact E.
Qed.

Lemma generate_io_module_name_local group local local' lv read :
  io_groups local' = io_groups local ->
  generate_io_module_name group local' lv read
  = generate_io_module_name group local lv read.
Proof.
  intros H. unfold generate_io_module_name, n_io_group. rewrite H.
  reflexivity.
Qed.

Lemma generate_io_module_name_dir d group local lv read :
  generate_io_module_name (set_array_io_dir d group) local lv read
  = generate_io_module_name group local lv read.
Proof. destruct group; reflexivity. Qed.

Lemma io_groups_set_refs v local :
  io_groups (set_n_io_group_refs v local) = io_groups local.
Proof. destruct local; reflexivity. Qed.

Lemma set_array_io_dir_twice d d' group :
  set_array_io_dir d' (set_array_io_dir d group) = set_array_io_dir d' group.
Proof. destruct group; reflexivity. Qed.

(** What one level of [sa_io_module_gen] adds: nothing outside the
    chain, and inside it one module of that level, with the header
    assigned before its schedules are built. *)
Lemma sa_io_module_gen_level_header read group kernel credit i
    local ms local' ms' :
  1 <= i ->
  sa_io_module_gen_level read group kernel credit i (local, ms)
    = Ok (local', ms') ->
  (local' = local /\ ms' = ms)
  \/ exists m,
       ms' = ms ++ [m]
       /\ level m = i /\ in_ m = read
       /\ module_header m
          = (generate_io_module_name group local i read,
             i =? innermost_of group, i =? io_level group,
             (if i =? io_level group then credit else 0),
             n_io_group_refs local)
       /\ local'
          = (if i =? io_level group
             then set_n_io_group_refs (n_io_group_refs local + 1) local
             else local).
Proof.
  intros Hi H. unfold sa_io_module_gen_level in H.
  destruct ((innermost_of group <=? i) && (i <=? io_level group)).
  - right. inv_bind H as isb Ec. inv_bind H as m Em.
    pose proof (generate_io_module_by_type_keeps_header _ _ _ _ _ _ _ _ _ _ Em)
      as Hh.
    apply generate_io_module_by_type_info in Em; [|exact Hi].
    destruct Em as (_ & Hlv & _ & _ & Hin).
    exists m. inv_ok H. split; [reflexivity|].
    split; [reflexivity|]. split; [reflexivity|].
    split.
    + rewrite Hh. destruct autosa_hw_module_alloc; reflexivity.
    + destruct autosa_hw_module_alloc; reflexivity.
  - left. inv_ok H. split; reflexivity.
Qed.

(** An invariant of the level loops holds of their result. *)
Lemma levels_down_inv (Inv : gen_state -> Prop)
    (body : Z -> gen_state -> res gen_state) (n : nat) (st st' : gen_state) :
  (forall i s s', 1 <= i -> body i s = Ok s' -> Inv s -> Inv s') ->
  levels_down n body st = Ok st' -> Inv st -> Inv st'.
Proof.
  intros Hstep. revert st. induction n as [|k IH]; intros st H Hst.
  - cbn in H. inv_ok H. exact Hst.
  - cbn [levels_down] in H. inv_bind H as s1 E1.
    apply (IH s1 H). apply (Hstep (Z.of_nat (S k)) st s1); [lia | exact E1
                                                            | exact Hst].
Qed.

Lemma levels_up_inv (Inv : gen_state -> Prop)
    (body : Z -> gen_state -> res gen_state) (n : nat) (i : Z)
    (st st' : gen_state) :
  1 <= i ->
  (forall i s s', 1 <= i -> body i s = Ok s' -> Inv s -> Inv s') ->
  levels_up n i body st = Ok st' -> Inv st -> Inv st'.
Proof.
  intros Hi Hstep. revert i st Hi.
  induction n as [|k IH]; intros i st Hi H Hst.
  - cbn in H. inv_ok H. exact Hst.
  - cbn [levels_up] in H. inv_bind H as s1 E1.
    apply (IH (i + 1) s1); [lia | exact H|].
    apply (Hstep i st s1); [exact Hi | exact E1 | exact Hst].
Qed.

Lemma sa_io_module_gen_inv (Inv : gen_state -> Prop)
    group local kernel in_flag out_flag ms group' local' :
  (forall read d credit i s s',
     1 <= i ->
     sa_io_module_gen_level read (set_array_io_dir d group) kernel credit i s
       = Ok s' ->
     Inv s -> Inv s') ->
  sa_io_module_gen group local kernel in_flag out_flag
    = Ok (ms, group', local') ->
  Inv (local, []) -> Inv (local', ms).
Proof.
  intros Hstep H H0. unfold sa_io_module_gen in H.
  destruct (sa_io_module_gen_credit group local kernel) as [node credit].
  inv_bind H as [g1 [l1 ms1]] E1. inv_bind H as [g2 [l2 ms2]] E2.
  inv_ok H. cbn [snd fst].
  assert (H1 : (g1 = group \/ exists d, g1 = set_array_io_dir d group)
               /\ Inv (l1, ms1)).
  { destruct (in_flag && _).
    - inv_bind E1 as [l ms0] E. inv_ok E1. split; [right; eauto|].
      eapply levels_down_inv; [|exact E | exact H0].
      intros i s s'. apply Hstep.
    - inv_ok E1. split; [left; reflexivity | exact H0]. }
  destruct H1 as [Hg1 H1].
  destruct (out_flag && _).
  - inv_bind E2 as [l ms0] E. inv_ok E2.
    eapply levels_up_inv; [| |exact E | exact H1]; [lia|].
    intros i s s'. destruct Hg1 as [-> | [d ->]];
      rewrite ?set_array_io_dir_twice; apply Hstep.
  - inv_ok E2. exact H1.
Qed.

(** Every module that [sa_io_module_gen] returns carries the name of
    its level and direction. *)
Lemma sa_io_module_gen_named group local kernel in_flag out_flag
    ms group' local' :
  sa_io_module_gen group local kernel in_flag out_flag
    = Ok (ms, group', local') ->
  Forall (named_by group local) ms.
Proof.
  intros H.
  apply (sa_io_module_gen_inv
           (fun st => io_groups (fst st) = io_groups local
                      /\ Forall (named_by group local) (snd st))
           _ _ _ _ _ _ _ _) in H.
  - apply H.
  - intros read d credit i [l ms0] [l' ms0'] Hi E [Hl Hms].
    cbn [fst snd] in *.
    apply sa_io_module_gen_level_header in E; [|exact Hi].
    destruct E as [[-> ->]|[m (-> & Hlv & Hin & Hh & ->)]];
      [split; assumption|].
    split.
    + destruct (i =? io_level (set_array_io_dir d group));
        [rewrite io_groups_set_refs|]; exact Hl.
    + apply Forall_app. split; [exact Hms|]. constructor; [|constructor].
      unfold named_by. rewrite Hlv, Hin.
      apply (f_equal (fun h => fst (fst (fst (fst h))))) in Hh.
      cbn [module_header fst] in Hh. rewrite Hh.
      rewrite generate_io_module_name_dir.
      apply generate_io_module_name_local. exact Hl.
  - split; [reflexivity | constructor].
Qed.

End ModuleNames.

Lemma levels_from_down_In (n : nat) (hi i : Z) :
  In i (levels_from_down n hi) -> hi - Z.of_nat n < i <= hi.
Proof.
  revert hi. induction n as [|k IH]; intros hi H; [destruct H|].
  cbn [levels_from_down] in H. destruct H as [<-|H]; [lia|].
  apply IH in H. lia.
Qed.

Lemma levels_from_down_NoDup (n : nat) (hi : Z) :
  NoDup (levels_from_down n hi).
Proof.
  revert hi. induction n as [|k IH]; intros hi; [constructor|].
  cbn [levels_from_down]. constructor; [|apply IH].
  intros H. apply levels_from_down_In in H. lia.
Qed.

Lemma levels_from_up_In (n : nat) (lo i : Z) :
  In i (levels_from_up n lo) -> lo <= i < lo + Z.of_nat n.
Proof.
  revert lo. induction n as [|k IH]; intros lo H; [destruct H|].
  cbn [levels_from_up] in H. destruct H as [<-|H]; [lia|].
  apply IH in H. lia.
Qed.

Lemma levels_from_up_NoDup (n : nat) (lo : Z) :
  NoDup (levels_from_up n lo).
Proof.
  revert lo. induction n as [|k IH]; intros lo; [constructor|].
  cbn [levels_from_up]. constructor; [|apply IH].
  intros H. apply levels_from_up_In in H. lia.
Qed.

Section DistinctNames.
Context {Ty : IslTypes} {Ops : IslOps}.

(** The levels and directions of the modules of a chain. *)
Lemma chain_keys (read : bool) (group : autosa_array_ref_group)
    (local : autosa_local_array_info) (kernel : autosa_kernel)
    (levels : list Z) (ms : list autosa_hw_module) :
  Forall2 (chain_module read group local kernel) levels ms ->
  map (fun m => (level m, in_ m)) ms = map (fun i => (i, read)) levels.
Proof.
  induction 1 as [|i m levels ms Hm _ IH]; [reflexivity|].
  cbn [map]. rewrite IH. destruct Hm as [isb (_ & _ & -> & _ & _ & ->)].
  reflexivity.
Qed.

(** X25.  The modules that [sa_io_module_gen] returns for a group carry
    the names that [generate_io_module_name] prints for their levels
    and directions, and no two of them have the same name. *)
Theorem sa_io_module_gen_names_distinct
    (group : autosa_array_ref_group) (local : autosa_local_array_info)
    (kernel : autosa_kernel) (in_flag out_flag : bool)
    (ms : list autosa_hw_module) (group' : autosa_array_ref_group)
    (local' : autosa_local_array_info) :
  io_level group <= 2147483647 ->
  sa_io_module_gen group local kernel in_flag out_flag
    = Ok (ms, group', local') ->
  Forall (named_by group local) ms
  /\ NoDup (map (fun m => isl_printer_get_str (name m)) ms).
Proof.
  intros Hmax H.
  pose proof (sa_io_module_gen_named _ _ _ _ _ _ _ _ H) as Hnamed.
  split; [exact Hnamed|].
  destruct (sa_io_module_gen_chains _ _ _ _ _ _ _ _ H)
    as [ins [outs [-> [Hin Hout]]]].
  apply chain_keys in Hin. apply chain_keys in Hout.
  set (Lin := if copy_in_generated group local kernel in_flag
              then chain_levels_down group else []) in *.
  set (Lout := if copy_out_generated group local kernel in_flag out_flag
               then chain_levels_up group else []) in *.
  assert (Bin : forall i, In i Lin -> 1 <= i <= io_level group).
  { intros i Hi. unfold Lin in Hi.
    destruct (copy_in_generated _ _ _ _); [|destruct Hi].
    apply levels_from_down_In in Hi.
    pose proof (innermost_pos group). lia. }
  assert (Bout : forall i, In i Lout -> 1 <= i <= io_level group).
  { intros i Hi. unfold Lout in Hi.
    destruct (copy_out_generated _ _ _ _ _); [|destruct Hi].
    apply levels_from_up_In in Hi.
    pose proof (innermost_pos group). lia. }
  assert (Nin : NoDup Lin).
  { unfold Lin. destruct (copy_in_generated _ _ _ _); [|constructor].
    apply levels_from_down_NoDup. }
  assert (Nout : NoDup Lout).
  { unfold Lout. destruct (copy_out_generated _ _ _ _ _); [|constructor].
    apply levels_from_up_NoDup. }
  set (keys := map (fun i => (i, true)) Lin ++ map (fun i => (i, false)) Lout).
  assert (Hkeys : map (fun m => (level m, in_ m)) (ins ++ outs) = keys)
    by (rewrite map_app, Hin, Hout; reflexivity).
  assert (Hmap : map (fun m => isl_printer_get_str (name m)) (ins ++ outs)
                 = map (fun k => isl_printer_get_str
                                   (generate_io_module_name group local
                                      (fst k) (snd k))) keys).
  { rewrite <- Hkeys, map_map. apply map_ext_in. intros m Hm.
    rewrite (proj1 (Forall_forall _ _) Hnamed m Hm). reflexivity. }
  rewrite Hmap. apply NoDup_map_NoDup_ForallPairs.
  - assert (Bk : forall k, In k keys -> is_int (fst k)).
    { intros k Hk. unfold keys in Hk. apply in_app_or in Hk.
      unfold is_int.
      destruct Hk as [Hk|Hk]; apply in_map_iff in Hk;
        destruct Hk as [i [<- Hi]]; cbn [fst];
        [apply Bin in Hi | apply Bout in Hi]; lia. }
    intros [l1 r1] [l2 r2] H1 H2 E. cbn [fst snd] in E.
    apply generate_io_module_name_inj in E;
      [| exact (Bk _ H1) | exact (Bk _ H2)].
    destruct E as [-> ->]. reflexivity.
  - unfold keys. apply NoDup_app.
    + apply NoDup_map_NoDup_ForallPairs; [|exact Nin].
      intros a b _ _ E. injection E as ->. reflexivity.
    + apply NoDup_map_NoDup_ForallPairs; [|exact Nout].
      intros a b _ _ E. injection E as ->. reflexivity.
    + intros k Hk1 Hk2. apply in_map_iff in Hk1, Hk2.
      destruct Hk1 as [i [<- _]]. destruct Hk2 as [j [E _]]. discriminate.
Qed.

End DistinctNames.

(* ================================================================== *)
(** ** The connections of the modules of a chain *)

Lemma count_from_snoc (n : nat) (from : Z) :
  count_from (S n) from = count_from n from ++ [from + Z.of_nat n].
Proof.
  revert from. induction n as [|k IH]; intros from.
  - cbn. rewrite Z.add_0_r. reflexivity.
  - change (count_from (S (S k)) from)
      with (from :: count_from (S k) (from + 1)).
    rewrite IH. cbn [count_from app]. do 3 f_equal. lia.
Qed.

Lemma n_io_group_refs_set v local :
  n_io_group_refs (set_n_io_group_refs v local) = v.
Proof. destruct local; reflexivity. Qed.

Section Connections.
Context {Ty : IslTypes} {Ops : IslOps}.

(** X26.  Of the modules that [sa_io_module_gen] returns for a group,
    the ones at the innermost level of the chain, and no others, are
    connected to the PEs; the ones at the outermost level, and no
    others, are connected to the memory, and only those can hold a
    credit. *)
Theorem sa_io_module_gen_connections
    (group : autosa_array_ref_group) (local : autosa_local_array_info)
    (kernel : autosa_kernel) (in_flag out_flag : bool)
    (ms : list autosa_hw_module) (group' : autosa_array_ref_group)
    (local' : autosa_local_array_info) :
  sa_io_module_gen group local kernel in_flag out_flag
    = Ok (ms, group', local') ->
  Forall (connected_by group) ms.
Proof.
  intros H.
  apply (sa_io_module_gen_inv
           (fun st => Forall (connected_by group) (snd st))
           _ _ _ _ _ _ _ _) in H; [exact H | | constructor].
  intros read d credit i [l ms0] [l' ms0'] Hi E Hms. cbn [fst snd] in *.
  apply sa_io_module_gen_level_header in E; [|exact Hi].
  destruct E as [[-> ->]|[m (-> & Hlv & Hin & Hh & ->)]]; [exact Hms|].
  apply Forall_app. split; [exact Hms|]. constructor; [|constructor].
  unfold module_header in Hh. injection Hh as _ Hpe Hmem Hcr _.
  replace (innermost_of (set_array_io_dir d group))
    with (innermost_of group) in Hpe by (destruct group; reflexivity).
  replace (io_level (set_array_io_dir d group))
    with (io_level group) in Hmem, Hcr by (destruct group; reflexivity).
  unfold connected_by. rewrite Hlv. split; [exact Hpe|].
  split; [exact Hmem|]. intros Hf. rewrite Hmem in Hf. rewrite Hf in Hcr.
  exact Hcr.
Qed.

(** X27.  The modules connected to the memory are numbered in the order of
    their generation, from the counter [n_io_group_refs] of the array
    on, and the counter is left at the next free number. *)
Theorem sa_io_module_gen_array_refs
    (group : autosa_array_ref_group) (local : autosa_local_array_info)
    (kernel : autosa_kernel) (in_flag out_flag : bool)
    (ms : list autosa_hw_module) (group' : autosa_array_ref_group)
    (local' : autosa_local_array_info) :
  sa_io_module_gen group local kernel in_flag out_flag
    = Ok (ms, group', local') ->
  map n_array_ref (filter to_mem ms)
  = count_from (List.length (filter to_mem ms)) (n_io_group_refs local)
  /\ n_io_group_refs local'
     = n_io_group_refs local + Z.of_nat (List.length (filter to_mem ms)).
Proof.
  intros H.
  apply (sa_io_module_gen_inv
           (fun st =>
              map n_array_ref (filter to_mem (snd st))
              = count_from (List.length (filter to_mem (snd st)))
                  (n_io_group_refs local)
              /\ n_io_group_refs (fst st)
                 = n_io_group_refs local
                   + Z.of_nat (List.length (filter to_mem (snd st))))
           _ _ _ _ _ _ _ _) in H; [exact H | | split; [reflexivity | cbn; lia]].
  intros read d credit i [l ms0] [l' ms0'] Hi E [Hmap Hcount].
  cbn [fst snd] in *.
  apply sa_io_module_gen_level_header in E; [|exact Hi].
  destruct E as [[-> ->]|[m (-> & Hlv & Hin & Hh & ->)]];
    [split; assumption|].
  unfold module_header in Hh. injection Hh as _ _ Hmem _ Href.
  replace (io_level (set_array_io_dir d group)) with (io_level group) in *
    by (destruct group; reflexivity).
  rewrite filter_app. cbn [filter]. rewrite Hmem.
  destruct (i =? io_level group).
  - rewrite length_app, map_app. cbn [List.length map].
    rewrite Nat.add_1_r, count_from_snoc, Hmap, n_io_group_refs_set, Href,
      Hcount.
    split; [reflexivity | lia].
  - rewrite app_nil_r. split; assumption.
Qed.

End Connections.

(* ================================================================== *)
(** ** Instances of the properties above *)

Lemma extract_checked_never_faults_witness :
  extract_data_pack "in" 1 = Ok (-1)
  /\ extract_next_data_pack "in" 1 = Ok (-1)
  /\ extract_coalesce_depth "in" 1 = Ok (-1)
  /\ extract_coalesce_bound "in" 1 = Ok (-1).
Proof.
  apply (proj2 (proj2 (proj2 (proj2 (extract_checked_never_faults "in" 1))))).
  cbn. lia.
Defined.

Lemma extract_unchecked_reads_past_terminator_witness :
  extract_is_filter true "in" = Crash OutOfBounds.
Proof.
  apply (proj1 (proj2 (extract_unchecked_reads_past_terminator true "in"
                         eq_refl))).
  cbn. lia.
Defined.

Lemma extract_reads_field_witness :
  extract_sched_depth "in_trans.fifo_A.1.0.2.1.4.4" = Ok 2.
Proof.
  apply (proj1 (proj2 (proj2 (proj2
           (extract_reads_field true
              ["in_trans"; "fifo_A"; "1"; "0"; "2"; "1"; "4"; "4"] true
              ltac:(repeat constructor))))) "2").
  reflexivity.
Defined.

Lemma create_io_leaf_decodes_transfer_name_witness :
  create_io_leaf true "in_trans.fifo_A.1.0.2.1.4.4.3.4"
    (Some (sample_tile 16 3)) "local_A"
  = Ok (transfer_stmt true false false "fifo_A" true false 2 1 4 4
          (Some (3, 4)) (Some (sample_tile 16 3))).
Proof.
  apply (create_io_leaf_decodes_transfer_name true true false false "fifo_A"
           true false 3 3 2 4 4 (Some (3, 4)) (Some (sample_tile 16 3))
           "local_A").
  - reflexivity.
  - unfold is_int. lia.
  - unfold is_int. lia.
  - unfold is_int. lia.
  - unfold is_int. lia.
  - intros c Hc. injection Hc as <-. unfold is_int. cbn. lia.
  - discriminate.
Defined.

Lemma create_io_leaf_decodes_local_name_witness :
  create_io_leaf true "out_trans.fifo_A_local.0.1.-1.-1.4.1"
    None "local_A"
  = Ok (transfer_stmt false false false "fifo_A_local" false true (-1) (-1)
          4 1 None None).
Proof.
  apply (create_io_leaf_decodes_local_name true true "fifo_A" true 4 1 None
           None "local_A").
  - reflexivity.
  - unfold is_int. lia.
  - unfold is_int. lia.
  - discriminate.
  - intros _. cbn. lia.
Defined.

Lemma at_domain_module_decodes_module_calls_witness :
  at_domain_module true false "module_call_lower.A_IO_L2_in.boundary"
    None ""
  = Ok (leaf_module_call true
          {| m_boundary := 1; m_module_name := "A_IO_L2_in"; m_dummy := 0;
             m_lower := 1; m_upper := 0 |}).
Proof.
  apply (proj1 (at_domain_module_decodes_module_calls true None "") false
           (set_name [P_str "A"; P_str "_IO_L"; P_int 2; P_str "_in"]
              sample_module) true).
  reflexivity.
Defined.

Lemma outer_schedule_calls_decode_witness :
  exists module' sched,
    generate_io_module_outer
      (set_double_buffer true sample_module)
      (sample_group AUTOSA_IO_GROUP AUTOSA_INT_IO [rar_ref] sample_buffers)
      (sample_kernel true []) 3 3 true true
    = Ok (module', sched)
    /\ map (call_leaf_of true) sched
       = [Some (Ok (leaf_io_module_call 1
                      (Some AUTOSA_KERNEL_STMT_IO_MODULE_CALL_INTER_INTRA)));
          Some (Ok (leaf_io_module_call 0
                      (Some AUTOSA_KERNEL_STMT_IO_MODULE_CALL_STATE_HANDLE)));
          Some (Ok (leaf_io_module_call 0
                      (Some AUTOSA_KERNEL_STMT_IO_MODULE_CALL_INTRA_TRANS)))].
Proof.
  destruct (generate_io_module_outer
              (set_double_buffer true sample_module)
              (sample_group AUTOSA_IO_GROUP AUTOSA_INT_IO [rar_ref]
                 sample_buffers)
              (sample_kernel true []) 3 3 true true)
    as [[module' sched]|f] eqn:E.
  - exists module', sched. split; [reflexivity|].
    exact (outer_schedule_calls_decode true _ _ _ _ _ _ _ _ _ E).
  - vm_compute in E. discriminate.
Defined.

Lemma inter_trans_statement_decodes_witness :
  exists module' sched s is_buffer_ cd,
    generate_io_module_inter_trans
      (Ops := sample_ops isl_bool_false 2 (fun _ _ => []))
      sample_module
      (sample_group AUTOSA_IO_GROUP AUTOSA_INT_IO [rar_ref] sample_buffers)
      (sample_kernel true []) 3 3 true false
    = Ok (module', sched)
    /\ sched = [s]
    /\ io_leaf_of true "local_A" s
       = Some (Ok (transfer_stmt true false false "fifo_A" true is_buffer_
                     1 0 (data_pack_inter module') (data_pack_intra module')
                     cd (stmt_local_tile s))).
Proof.
  destruct (generate_io_module_inter_trans
              (Ops := sample_ops isl_bool_false 2 (fun _ _ => []))
              sample_module
              (sample_group AUTOSA_IO_GROUP AUTOSA_INT_IO [rar_ref]
                 sample_buffers)
              (sample_kernel true []) 3 3 true false)
    as [[module' sched]|f] eqn:E.
  - destruct (inter_trans_statement_decodes true
                (Ops := sample_ops isl_bool_false 2 (fun _ _ => []))
                _ _ _ _ _ _ _ _ _ "local_A" E) as [s [b [cd [H1 H2]]]].
    + reflexivity.
    + vm_compute in E. injection E as _ <-.
      intros s nm [<-|[]] Hn. injection Hn as <-. split.
      * repeat constructor; unfold is_int; lia.
      * vm_compute. lia.
    + cbn. lia.
    + exists module', sched, s, b, cd. split; [reflexivity|].
      split; [exact H1 | exact H2].
  - vm_compute in E. discriminate.
Defined.

Lemma pe_copy_stmt_name_decodes_witness :
  extract_data_pack "in.fifo_A.1.1" 0 = Ok 1.
Proof.
  apply (proj1 (proj2
           (pe_copy_stmt_name_decodes true false
              (sample_group AUTOSA_IO_GROUP AUTOSA_INT_IO [rar_ref]
                 sample_buffers)
              (sample_array AUTOSA_EXT_ARRAY []) eq_refl
              ltac:(unfold is_int; cbn; lia)))).
Defined.

Lemma long_statement_name_overflows_witness :
  autosa_create_io_access_stmt
    (isl_printer_get_str
       (transfer_stmt_name true false false
          "fifo_an_array_with_a_name_of_more_than_seventy_nine_characters_in_the_source_program"
          true false 3 3 2 4 4 None))
  = Crash OutOfBounds.
Proof.
  apply (proj2 long_statement_name_overflows).
  - reflexivity.
  - cbn. lia.
Defined.

Lemma add_io_copies_stmt_acc_two_copies_fault_witness :
  exists e,
    add_io_copies_stmt_acc true [[sample_acc_visit]; [sample_acc_visit]] 4
      "in_trans.fifo_A_local.0.1.-1.-1.4.4" true
    = Crash e.
Proof.
  apply (add_io_copies_stmt_acc_two_copies_fault
           [[sample_acc_visit]; [sample_acc_visit]] 4
           "in_trans.fifo_A_local.0.1.-1.-1.4.4" true).
  cbn. lia.
Defined.

Lemma add_io_copies_stmt_acc_name_lifetime_witness :
  add_io_copies_stmt_acc true [[sample_acc_visit]; [sample_acc_visit]] 4
    "in_trans.fifo_A_local.0.1.-1.-1.4.4" false
  = Crash UseAfterFree.
Proof.
  apply (add_io_copies_stmt_acc_name_lifetime
           [[sample_acc_visit]; [sample_acc_visit]] 4
           "in_trans.fifo_A_local.0.1.-1.-1.4.4").
  cbn. lia.
Defined.

Lemma dependence_mark_name_decodes_witness :
  exists node t,
    add_io_copies_stmt_acc true [[sample_acc_visit]] 4
      "in_trans.fifo_A_local.0.1.-1.-1.8.4" true
    = Ok (node, block_freed, [t])
    /\ create_io_leaf true t (Some (sample_tile 16 3)) "local_A"
       = Ok (transfer_stmt true false false "fifo_A_local" false true
               (-1) (-1) 8 4 (Some (2, 4)) (Some (sample_tile 16 3))).
Proof.
  apply (dependence_mark_name_decodes true [sample_acc_visit]
           {| band_depth := 3; band_n_member := 2; band_ubs := [8; 16] |}
           16 false "fifo_A" true 8 4 (Some (sample_tile 16 3)) "local_A").
  - reflexivity.
  - intros v [<-|[]] _. split; [discriminate | reflexivity].
  - reflexivity.
  - lia.
  - cbn. lia.
  - unfold is_int. lia.
  - unfold is_int. lia.
  - unfold is_int. lia.
  - unfold is_int. cbn. lia.
  - reflexivity.
  - cbn. lia.
  - discriminate.
Defined.

Lemma linearize_index_row_major_witness :
  exists e,
    autosa_local_array_info_linearize_index
      {| n_index := 3;
         bound_expr :=
           Some (isl_ast_expr_op isl_ast_op_call
                   [isl_ast_expr_id "A"; isl_ast_expr_int 2;
                    isl_ast_expr_int 3; isl_ast_expr_int 4]) |}
      (isl_ast_expr_op isl_ast_op_access
         [isl_ast_expr_id "A"; isl_ast_expr_id "i"; isl_ast_expr_id "j"])
    = Some (isl_ast_expr_op isl_ast_op_add [isl_ast_expr_id "A"; e])
    /\ ast_eval (fun x => if String.eqb x "i" then 1 else 2) e = Some 20.
Proof.
  apply (linearize_index_row_major
           {| n_index := 3;
              bound_expr :=
                Some (isl_ast_expr_op isl_ast_op_call
                        [isl_ast_expr_id "A"; isl_ast_expr_int 2;
                         isl_ast_expr_int 3; isl_ast_expr_int 4]) |}
           (fun x => if String.eqb x "i" then 1 else 2)
           (isl_ast_expr_id "A") (isl_ast_expr_id "A") isl_ast_op_call
           [isl_ast_expr_id "i"; isl_ast_expr_id "j"]
           [isl_ast_expr_int 2; isl_ast_expr_int 3; isl_ast_expr_int 4]
           [1; 2] [2; 3; 4]).
  - reflexivity.
  - discriminate.
  - cbn. lia.
  - reflexivity.
  - reflexivity.
  - repeat constructor.
  - repeat constructor.
Defined.

Lemma set_schedule_eq_membership_witness :
  exists S,
    ScheduleConstraints.set_schedule_eq (Some sample_band) ["p0"; "p1"]
    = Some S
    /\ forall e x,
         S e x = true
         <-> (ScheduleConstraints.universe_domain sample_band e x = true
              /\ ScheduleConstraints.mupa_dom
                   (ScheduleConstraints.band_partial_schedule sample_band) e x
                 = true)
             /\ (forall i, (i < leading sample_band ["p0"; "p1"])%nat ->
                   e (nth i ["p0"; "p1"] "") = 0)
             /\ (forall i,
                   (i < ScheduleConstraints.mupa_dim
                          (ScheduleConstraints.band_partial_schedule
                             sample_band))%nat ->
                   ScheduleConstraints.mupa_val
                     (ScheduleConstraints.band_partial_schedule sample_band)
                     e x i
                   = e (nth (leading sample_band ["p0"; "p1"] + i)
                          ["p0"; "p1"] "")).
Proof.
  apply (set_schedule_eq_membership Z sample_band ["p0"; "p1"]).
  - discriminate.
  - cbn. lia.
Defined.

Lemma set_schedule_ge_le_membership_witness :
  exists Sge Sle,
    ScheduleConstraints.set_schedule_ge (Some sample_band) ["p0"; "p1"]
    = Some Sge
    /\ ScheduleConstraints.set_schedule_le (Some sample_band) ["p0"; "p1"]
       = Some Sle
    /\ Sge (sample_valuation (-1) 3) 5 = true
    /\ Sle (sample_valuation (-1) 3) 5 = false.
Proof.
  destruct (set_schedule_ge_le_membership Z sample_band ["p0"; "p1"])
    as [Sge [Sle [Ege [Ele H]]]].
  - discriminate.
  - cbn. lia.
  - exists Sge, Sle. split; [exact Ege|]. split; [exact Ele|].
    cbn in Ege, Ele. injection Ege as <-. injection Ele as <-.
    split; reflexivity.
Defined.

Lemma set_schedule_eq_meets_ge_le_witness :
  exists Seq Sge Sle,
    ScheduleConstraints.set_schedule_eq (Some sample_band) ["p0"; "p1"]
    = Some Seq
    /\ ScheduleConstraints.set_schedule_ge (Some sample_band) ["p0"; "p1"]
       = Some Sge
    /\ ScheduleConstraints.set_schedule_le (Some sample_band) ["p0"; "p1"]
       = Some Sle
    /\ forall e x, Seq e x = Sge e x && Sle e x.
Proof.
  apply (set_schedule_eq_meets_ge_le Z sample_band ["p0"; "p1"]).
  - discriminate.
  - cbn. lia.
Defined.

Lemma set_schedule_modulo_membership_witness :
  exists S,
    ScheduleConstraints.set_schedule_modulo (Some sample_band) ["p0"; "p1"]
      [2; 3]
    = Ok (Some S)
    /\ S (sample_valuation 0 2) 5 = true
    /\ S (sample_valuation 0 5) 5 = false.
Proof.
  destruct (set_schedule_modulo_membership Z sample_band ["p0"; "p1"] [2; 3])
    as [S [E H]].
  - discriminate.
  - cbn. lia.
  - cbn. lia.
  - cbn. repeat constructor.
  - exists S. split; [exact E|]. cbn in E. injection E as <-.
    split; reflexivity.
Defined.

Lemma set_schedule_modulo_reads_in_bounds_witness :
  ~ exists r,
      ScheduleConstraints.set_schedule_modulo (Some sample_band)
        ["p0"; "p1"] [2]
      = Ok r.
Proof.
  intros H.
  apply (proj1 (set_schedule_modulo_reads_in_bounds Z sample_band
                  ["p0"; "p1"] [2] ltac:(discriminate))) in H.
  cbn in H. lia.
Defined.

Lemma locate_buffer_nearest_tile_witness :
  exists i b t,
    locate_buffer
      (sample_group AUTOSA_IO_GROUP AUTOSA_INT_IO [rar_ref] sample_buffers)
      2 None = Ok (i, Some b)
    /\ buf_tile b = Some t
    /\ 1 <= i <= 2
    /\ nth_error
         (io_buffers
            (sample_group AUTOSA_IO_GROUP AUTOSA_INT_IO [rar_ref]
               sample_buffers)) (Z.to_nat (i - 1)) = Some b
    /\ forall k, i < k <= 2 ->
         tile_at
           (sample_group AUTOSA_IO_GROUP AUTOSA_INT_IO [rar_ref]
              sample_buffers) k = false.
Proof.
  apply (locate_buffer_nearest_tile
           (sample_group AUTOSA_IO_GROUP AUTOSA_INT_IO [rar_ref]
              sample_buffers) 2 1).
  - cbn. lia.
  - lia.
  - reflexivity.
Defined.



(** With a fifo name of 90 characters the name of the first transfer
    statement does not fit the buffer of
    [autosa_create_io_access_stmt], and the generation stops there. *)
Example sa_io_module_gen_long_fifo_name_stops :
  sa_io_module_gen (Ops := sample_ops isl_bool_false 2 (fun _ _ => []))
    {| group_id := 7;
       array_name :=
         "AAAAAAAAAAAAAAAAAAAAAAAAAAAAAAAAAAAAAAAAAAAAAAAAAAAAAAAAAAAAAAAAAAAAAAAAAAAAAAAAAAAAA";
       nr := 0; group_type := AUTOSA_IO_GROUP; io_type := AUTOSA_INT_IO;
       dir := [0; 1]; refs := [rar_ref]; io_level := 3; space_dim := 3;
       n_lane := 1; io_buffers := sample_buffers;
       array_io_dir := IO_NULL; pe_io_dir := IO_NULL |}
    (sample_array AUTOSA_EXT_ARRAY []) (sample_kernel true []) true true
  = Crash OutOfBounds.
Proof. vm_compute. reflexivity. Qed.

Lemma sa_io_module_gen_names_distinct_witness :
  exists ms group' local',
    sa_io_module_gen (Ops := sample_ops isl_bool_false 2 (fun _ _ => []))
      (sample_group AUTOSA_IO_GROUP AUTOSA_INT_IO [raw_ref 1] sample_buffers)
      (sample_array AUTOSA_EXT_ARRAY []) (sample_kernel true []) true true
    = Ok (ms, group', local')
    /\ List.length ms = 6%nat
    /\ NoDup (map (fun m => isl_printer_get_str (name m)) ms).
Proof.
  destruct (sa_io_module_gen
              (Ops := sample_ops isl_bool_false 2 (fun _ _ => []))
              (sample_group AUTOSA_IO_GROUP AUTOSA_INT_IO [raw_ref 1]
                 sample_buffers)
              (sample_array AUTOSA_EXT_ARRAY []) (sample_kernel true [])
              true true) as [[[ms group'] local']|f] eqn:E.
  - exists ms, group', local'. split; [reflexivity|]. split.
    + vm_compute in E. injection E as <- _ _. reflexivity.
    + apply (sa_io_module_gen_names_distinct
               (Ops := sample_ops isl_bool_false 2 (fun _ _ => []))
               (sample_group AUTOSA_IO_GROUP AUTOSA_INT_IO [raw_ref 1]
                  sample_buffers)
               (sample_array AUTOSA_EXT_ARRAY []) (sample_kernel true [])
               true true ms group' local'); [cbn; lia | exact E].
  - vm_compute in E. discriminate.
Defined.

Lemma sa_io_module_gen_connections_witness :
  exists ms group' local',
    sa_io_module_gen (Ops := sample_ops isl_bool_false 2 (fun _ _ => []))
      (sample_group AUTOSA_IO_GROUP AUTOSA_INT_IO [raw_ref 1] sample_buffers)
      (sample_array AUTOSA_EXT_ARRAY []) (sample_kernel true []) true true
    = Ok (ms, group', local')
    /\ Forall
         (connected_by
            (sample_group AUTOSA_IO_GROUP AUTOSA_INT_IO [raw_ref 1]
               sample_buffers)) ms.
Proof.
  destruct (sa_io_module_gen
              (Ops := sample_ops isl_bool_false 2 (fun _ _ => []))
              (sample_group AUTOSA_IO_GROUP AUTOSA_INT_IO [raw_ref 1]
                 sample_buffers)
              (sample_array AUTOSA_EXT_ARRAY []) (sample_kernel true [])
              true true) as [[[ms group'] local']|f] eqn:E.
  - exists ms, group', local'. split; [reflexivity|].
    exact (sa_io_module_gen_connections
             (Ops := sample_ops isl_bool_false 2 (fun _ _ => []))
             _ _ _ _ _ _ _ _ E).
  - vm_compute in E. discriminate.
Defined.

Lemma sa_io_module_gen_array_refs_witness :
  exists ms group' local',
    sa_io_module_gen (Ops := sample_ops isl_bool_false 2 (fun _ _ => []))
      (sample_group AUTOSA_IO_GROUP AUTOSA_INT_IO [raw_ref 1] sample_buffers)
      (sample_array AUTOSA_EXT_ARRAY []) (sample_kernel true []) true true
    = Ok (ms, group', local')
    /\ map n_array_ref (filter to_mem ms)
       = count_from (List.length (filter to_mem ms)) 0
    /\ n_io_group_refs local'
       = 0 + Z.of_nat (List.length (filter to_mem ms)).
Proof.
  destruct (sa_io_module_gen
              (Ops := sample_ops isl_bool_false 2 (fun _ _ => []))
              (sample_group AUTOSA_IO_GROUP AUTOSA_INT_IO [raw_ref 1]
                 sample_buffers)
              (sample_array AUTOSA_EXT_ARRAY []) (sample_kernel true [])
              true true) as [[[ms group'] local']|f] eqn:E.
  - exists ms, group', local'. split; [reflexivity|].
    exact (sa_io_module_gen_array_refs
             (Ops := sample_ops isl_bool_false 2 (fun _ _ => []))
             _ _ _ _ _ _ _ _ E).
  - vm_compute in E. discriminate.
Defined.
